(** * stealer-parser: a shallow embedding of the tokenizers, the parser
      primitives, the password and system grammar engines, the directory
      grouping and the archive text reader, with the properties the
      specification states about them.

    Conventions of the embedding.
    - A Python [str] is a Rocq [string]; a character is a code point below
      256 (ASCII and Latin-1), which is the range the model covers.
    - A Python [int] is a [Z].
    - The parser object [LogsParser] is an explicit state; a method is a
      function from a state to an [outcome]: a returned value with the new
      state, or a raised exception with the state as the raise left it.
    - A [while] loop is a [Fixpoint] on a counter that the enclosing function
      sets to the number of iterations the loop can make at most; running out
      of it is the separate outcome [Timeout], and the totality lemmas of the
      tokenizers, the grammar engines and the decoder show that it does not
      happen there. *)

From Stdlib Require Import ZArith List String Ascii Bool Lia Permutation Sorted.
Import ListNotations.

Local Open Scope string_scope.
Local Open Scope list_scope.
Local Open Scope Z_scope.

Set Implicit Arguments.

(* ===================================================================== *)
(** * Data model *)
(* ===================================================================== *)

(** [PasswordToken | SystemToken]: the token type names of the two lexers
    ([lexer_passwords.py], [lexer_system.py]). *)
Inductive TokenType : Type :=
| SOFT_PREFIX | SOFT_NO_PREFIX | HOST_PREFIX | USER_PREFIX | PASSWORD_PREFIX
| SELLER_PREFIX
| OTHER_PREFIX | UID_PREFIX | COMPUTER_NAME_PREFIX | HWID_PREFIX
| USERNAME_PREFIX | IP_PREFIX | COUNTRY_PREFIX | LOG_DATE_PREFIX
| WORD | NEWLINE | SPACE.

Definition TokenType_eqb (a b : TokenType) : bool :=
  match a, b with
  | SOFT_PREFIX, SOFT_PREFIX | SOFT_NO_PREFIX, SOFT_NO_PREFIX
  | HOST_PREFIX, HOST_PREFIX | USER_PREFIX, USER_PREFIX
  | PASSWORD_PREFIX, PASSWORD_PREFIX | SELLER_PREFIX, SELLER_PREFIX
  | OTHER_PREFIX, OTHER_PREFIX | UID_PREFIX, UID_PREFIX
  | COMPUTER_NAME_PREFIX, COMPUTER_NAME_PREFIX | HWID_PREFIX, HWID_PREFIX
  | USERNAME_PREFIX, USERNAME_PREFIX | IP_PREFIX, IP_PREFIX
  | COUNTRY_PREFIX, COUNTRY_PREFIX | LOG_DATE_PREFIX, LOG_DATE_PREFIX
  | WORD, WORD | NEWLINE, NEWLINE | SPACE, SPACE => true
  | _, _ => false
  end.

(** [ply.lex.LexToken]: type, matched text, line number, offset in the
    input. *)
Record LexToken : Type := mkToken {
  tok_type : TokenType;
  tok_value : string;
  tok_lineno : Z;
  tok_lexpos : Z
}.

(** [models/credential.py], class [Credential]. *)
Record Credential : Type := mkCredential {
  software : option string;
  host : option string;
  username : option string;
  password : option string;
  domain : option string;
  local_part : option string;
  email_domain : option string;
  filepath : option string;
  stealer_name : option string
}.

(** [Credential()]: every field [None]. *)
Definition Credential_new : Credential :=
  mkCredential None None None None None None None None None.

(** [models/system.py], class [System]. *)
Record System : Type := mkSystem {
  machine_id : option string;
  computer_name : option string;
  hardware_id : option string;
  machine_user : option string;
  ip_address : option string;
  country : option string;
  log_date : option string
}.

Definition System_new : System :=
  mkSystem None None None None None None None.

(** Python truthiness of a [str | None] value. *)
Definition truthy (v : option string) : bool :=
  match v with
  | Some (String _ _) => true
  | _ => false
  end.

(** [any(list(credential.__dict__.values()))]. *)
Definition Credential_any (c : Credential) : bool :=
  truthy (software c) || truthy (host c) || truthy (username c)
  || truthy (password c) || truthy (domain c) || truthy (local_part c)
  || truthy (email_domain c) || truthy (filepath c)
  || truthy (stealer_name c).

(** [any(list(system.__dict__.values()))]. *)
Definition System_any (s : System) : bool :=
  truthy (machine_id s) || truthy (computer_name s) || truthy (hardware_id s)
  || truthy (machine_user s) || truthy (ip_address s) || truthy (country s)
  || truthy (log_date s).

(* ===================================================================== *)
(** * Parser primitives ([parsing/parser.py]) *)
(* ===================================================================== *)

(** The attributes of a [LogsParser] object. *)
Record LogsParser : Type := mkParser {
  _pos : Z;
  _size : Z;
  _tokens : list LexToken;
  _output : list Credential
}.

(** The exceptions the modelled code raises. [SyntaxError] carries what its
    message is built from: the offending token, the position and the size. *)
Inductive exn : Type :=
| IndexError
| ValueError
| SyntaxError (tok : LexToken) (pos size : Z).

Inductive outcome (A : Type) : Type :=
| Ret (a : A) (p : LogsParser)
| Raise (e : exn) (p : LogsParser)
| Timeout.
Arguments Ret {A} a p.
Arguments Raise {A} e p.
Arguments Timeout {A}.

Definition M (A : Type) : Type := LogsParser -> outcome A.

Definition ret {A} (a : A) : M A := fun p => Ret a p.

Definition bind {A B} (m : M A) (f : A -> M B) : M B :=
  fun p =>
    match m p with
    | Ret a p' => f a p'
    | Raise e p' => Raise e p'
    | Timeout => Timeout
    end.

Definition raise {A} (e : exn) : M A := fun p => Raise e p.

Declare Scope parser_scope.
Delimit Scope parser_scope with parser.
Notation "x <- m ;; k" := (bind m (fun x => k))
  (at level 61, m at next level, right associativity) : parser_scope.
Notation "m ;;; k" := (bind m (fun _ => k))
  (at level 61, right associativity) : parser_scope.
Local Open Scope parser_scope.

(** [LogsParser.__init__]. *)
Definition LogsParser_init (tokens : list LexToken) : LogsParser :=
  mkParser 0 (Z.of_nat (List.length tokens)) tokens [].

(** Property [position] (getter). *)
Definition position : M Z := fun p => Ret (_pos p) p.

(** Property [position] (setter): [IndexError] outside [0, size]. *)
Definition set_position (z : Z) : M unit :=
  fun p =>
    if (z <? 0) || (z >? _size p) then Raise IndexError p
    else Ret tt (mkParser z (_size p) (_tokens p) (_output p)).

(** Property [size]. *)
Definition size : M Z := fun p => Ret (_size p) p.

(** A Python list subscript [l[i]]: a negative index counts from the end,
    and an index outside [-len, len) raises [IndexError]. *)
Definition py_index {A} (l : list A) (i : Z) : option A :=
  let n := Z.of_nat (List.length l) in
  if (0 <=? i) && (i <? n) then nth_error l (Z.to_nat i)
  else if (- n <=? i) && (i <? 0) then nth_error l (Z.to_nat (n + i))
  else None.

(** [LogsParser.get_current_token]: [self._tokens[self._pos]]. *)
Definition get_current_token : M LexToken :=
  fun p =>
    match py_index (_tokens p) (_pos p) with
    | Some t => Ret t p
    | None => Raise IndexError p
    end.

(** [expected_value is None or token.value == expected_value]. *)
Definition value_matches (expected_value : option string) (t : LexToken) : bool :=
  match expected_value with
  | None => true
  | Some v => String.eqb (tok_value t) v
  end.

(** [LogsParser.eat]. *)
Definition eat (expected_type : TokenType) (expected_value : option string)
  : M (option LexToken) :=
  fun p =>
    if _pos p <? _size p then
      (token <- get_current_token ;;
       if TokenType_eqb (tok_type token) expected_type then
         if value_matches expected_value token then
           fun q => Ret (Some token)
                      (mkParser (_pos q + 1) (_size q) (_tokens q) (_output q))
         else ret None
       else ret None) p
    else Ret None p.

(** [token.type not in ("WORD", "SPACE")], negated. *)
Definition is_word_or_space (t : LexToken) : bool :=
  match tok_type t with
  | WORD | SPACE => true
  | _ => false
  end.

(** The loop of [parse_entry]; [fuel] bounds the iterations. *)
Fixpoint parse_entry_loop (fuel : nat) (entry : string) : M string :=
  fun p =>
    if _pos p <? _size p then
      match fuel with
      | O => Timeout
      | S fuel' =>
          (token <- get_current_token ;;
           pos <- position ;;
           set_position (pos + 1) ;;;
           if negb (is_word_or_space token) then ret entry
           else parse_entry_loop fuel' (entry ++ tok_value token)%string) p
      end
    else Ret entry p.

(** [entry if entry else None]. *)
Definition nonempty (s : string) : option string :=
  match s with
  | EmptyString => None
  | _ => Some s
  end.

(** [parse_entry]: concatenates words and spaces; each iteration moves the
    cursor by one, so [size - position] iterations are enough. *)
Definition parse_entry : M (option string) :=
  fun p =>
    (entry <- parse_entry_loop (Z.to_nat (_size p - _pos p)) "" ;;
     ret (nonempty entry)) p.

Definition timeout {A} : M A := fun _ => Timeout.

(** [m1 or m2] on two [eat] calls: the second runs only when the first
    returned [None] (a token object is truthy). *)
Definition eat_or (m1 m2 : M (option LexToken)) : M (option LexToken) :=
  t <- m1 ;;
  match t with
  | Some _ => ret t
  | None => m2
  end.

Definition is_some {A} (o : option A) : bool :=
  match o with
  | Some _ => true
  | None => false
  end.

(** [str.replace(old, "")] for a one-character [old]. *)
Fixpoint remove_char (c : ascii) (s : string) : string :=
  match s with
  | EmptyString => EmptyString
  | String a s' =>
      if Ascii.eqb a c then remove_char c s' else String a (remove_char c s')
  end.

Definition newline_char : ascii := ascii_of_nat 10.

Section MultilineEntry.

(** [b64decode(entry).decode("utf-8")] of the standard library, [None]
    when it raises [binascii.Error] or [ValueError]: taken as a
    parameter. *)
Variable b64decode_text : string -> option string.

(** The loop of [parse_multiline_entry]. *)
Fixpoint parse_multiline_loop (fuel : nat) (entry : string) : M string :=
  fun p =>
    if _pos p <? _size p then
      match fuel with
      | O => Timeout
      | S fuel' =>
          (token <- eat_or (eat WORD None) (eat NEWLINE None) ;;
           match token with
           | None => ret entry
           | Some t =>
               parse_multiline_loop fuel'
                 (if TokenType_eqb (tok_type t) WORD
                  then (entry ++ tok_value t)%string else entry)
           end) p
      end
    else Ret entry p.

(** [parse_multiline_entry]. *)
Definition parse_multiline_entry : M (option string) :=
  fun p =>
    (entry <- parse_multiline_loop (Z.to_nat (_size p - _pos p)) "" ;;
     match entry with
     | EmptyString => ret None
     | _ =>
         match b64decode_text entry with
         | Some text => ret (Some (remove_char newline_char text))
         | None => ret (Some entry)
         end
     end) p.

End MultilineEntry.

(** The [while is_header] loop of [skip_header_line]. *)
Fixpoint skip_header_loop (fuel : nat) : M unit :=
  match fuel with
  | O => timeout
  | S fuel' =>
      t <- eat_or (eat WORD None) (eat SPACE None) ;;
      if is_some t then skip_header_loop fuel' else ret tt
  end.

(** [skip_header_line]. *)
Definition skip_header_line : M bool :=
  t <- eat_or (eat WORD None) (eat SPACE None) ;;
  if negb (is_some t) then ret false
  else
    (fun p => skip_header_loop (S (Z.to_nat (_size p - _pos p))) p) ;;;
    nl <- eat NEWLINE None ;;
    ret (is_some nl).

(** The [while is_seller_block] loop of [skip_seller_block]. *)
Fixpoint skip_seller_loop (fuel : nat) : M unit :=
  match fuel with
  | O => timeout
  | S fuel' =>
      sp <- eat SPACE None ;;
      (if is_some sp then (parse_entry ;;; ret tt) else ret tt) ;;;
      eat NEWLINE None ;;;
      t <- eat_or (eat SELLER_PREFIX None) (eat HOST_PREFIX None) ;;
      if is_some t then skip_seller_loop fuel' else ret tt
  end.

(** [skip_seller_block]. *)
Definition skip_seller_block : M bool :=
  t <- eat SELLER_PREFIX None ;;
  if negb (is_some t) then ret false
  else
    (fun p => skip_seller_loop (S (Z.to_nat (_size p - _pos p))) p) ;;;
    ret true.

(* ===================================================================== *)
(** * Characters and the regular expressions of the program *)
(* ===================================================================== *)

Definition code (c : ascii) : Z := Z.of_N (N_of_ascii c).

Definition in_range (lo hi : Z) (c : ascii) : bool :=
  (lo <=? code c) && (code c <=? hi).

(** [re.ASCII] whitespace: [ \t\n\r\f\v]. *)
Definition is_space_ascii (c : ascii) : bool :=
  in_range 9 13 c || (code c =? 32).

(** Whitespace of a [str] pattern without [re.ASCII], below 256. *)
Definition is_space_unicode (c : ascii) : bool :=
  in_range 9 13 c || in_range 28 32 c || (code c =? 133) || (code c =? 160).

(** [\w] under [re.ASCII]: [[a-zA-Z0-9_]]. *)
Definition is_word_ascii (c : ascii) : bool :=
  in_range 48 57 c || in_range 65 90 c || in_range 97 122 c || (code c =? 95).

(** [\w] of a [str] pattern without [re.ASCII], below 256: alphanumeric
    code points and the underscore. *)
Definition is_word_unicode (c : ascii) : bool :=
  is_word_ascii c
  || (code c =? 170) || (code c =? 178) || (code c =? 179) || (code c =? 181)
  || (code c =? 185) || (code c =? 186) || in_range 188 190 c
  || in_range 192 214 c || in_range 216 246 c || in_range 248 255 c.

(** ASCII-only lower-casing. *)
Definition lower_ascii (c : ascii) : ascii :=
  if in_range 65 90 c then ascii_of_N (N_of_ascii c + 32) else c.

(** [str.lower()] on one code point below 256. *)
Definition lower_char (c : ascii) : ascii :=
  if in_range 65 90 c || in_range 192 214 c || in_range 216 222 c
  then ascii_of_N (N_of_ascii c + 32) else c.

(** [str.lower()]. *)
Fixpoint py_lower (s : string) : string :=
  match s with
  | EmptyString => EmptyString
  | String c s' => String (lower_char c) (py_lower s')
  end.

(** The flags a pattern is compiled with ([re.VERBOSE] only changes how the
    pattern text is read, and is resolved in the transcription). *)
Record re_flags : Type := mkFlags {
  IGNORECASE : bool;
  ASCII : bool
}.

Inductive cclass : Type :=
| NonSpace                       (* \S *)
| Dot                            (* .  *)
| InSet (f : ascii -> bool).     (* [...] *)

Inductive regex : Type :=
| Eps
| Chr (c : ascii)
| Cls (k : cclass)
| Seq (r1 r2 : regex)
| Alt (r1 r2 : regex)
| Opt (r : regex)                (* r?  greedy *)
| Plus (k : cclass)              (* k+  greedy *)
| Star (k : cclass)              (* k*  greedy *)
| Group (n : nat) (r : regex)    (* n-th capturing group *)
| WordBoundary                   (* \b *)
| NotFollowedBy (r : regex).     (* (?!r) *)

Fixpoint Lit (s : string) : regex :=
  match s with
  | EmptyString => Eps
  | String c EmptyString => Chr c
  | String c s' => Seq (Chr c) (Lit s')
  end.

Fixpoint seq (rs : list regex) : regex :=
  match rs with
  | [] => Eps
  | [r] => r
  | r :: rs' => Seq r (seq rs')
  end.

Fixpoint alts (r : regex) (rs : list regex) : regex :=
  match rs with
  | [] => r
  | r' :: rs' => Alt r (alts r' rs')
  end.

(** A position in the subject string: the character before it, its index,
    and the text from it on. *)
Record cursor : Type := mkCursor {
  cur_prev : option ascii;
  cur_idx : nat;
  cur_rest : string
}.

Definition cursor_start (s : string) : cursor := mkCursor None 0 s.

Definition captures : Type := list (nat * string).

(** [m.group(n)]: [None] when the group took no part in the match. *)
Fixpoint group (n : nat) (g : captures) : option string :=
  match g with
  | [] => None
  | (m, s) :: g' => if Nat.eqb m n then Some s else group n g'
  end.

Definition class_ok (fl : re_flags) (k : cclass) (c : ascii) : bool :=
  match k with
  | NonSpace => negb (if ASCII fl then is_space_ascii c else is_space_unicode c)
  | Dot => negb (Ascii.eqb c newline_char)
  | InSet f => f c
  end.

Definition char_ok (fl : re_flags) (a c : ascii) : bool :=
  if IGNORECASE fl then
    if ASCII fl then Ascii.eqb (lower_ascii a) (lower_ascii c)
    else Ascii.eqb (lower_char a) (lower_char c)
  else Ascii.eqb a c.

Definition is_word (fl : re_flags) (c : ascii) : bool :=
  if ASCII fl then is_word_ascii c else is_word_unicode c.

(** [\b]: exactly one side of the position is a word character. *)
Definition at_boundary (fl : re_flags) (c : cursor) : bool :=
  xorb (match cur_prev c with Some a => is_word fl a | None => false end)
       (match cur_rest c with String a _ => is_word fl a | EmptyString => false end).

(** Greedy [k*] followed by the continuation [k]: the longest run first,
    then one character less at a time. *)
Fixpoint star_run {X} (ok : ascii -> bool) (prev : option ascii) (idx : nat)
    (s : string) (k : cursor -> option X) : option X :=
  match s with
  | String a s' =>
      if ok a then
        match star_run ok (Some a) (S idx) s' k with
        | Some x => Some x
        | None => k (mkCursor prev idx s)
        end
      else k (mkCursor prev idx s)
  | EmptyString => k (mkCursor prev idx s)
  end.

Definition plus_run {X} (ok : ascii -> bool) (c : cursor)
    (k : cursor -> option X) : option X :=
  match cur_rest c with
  | String a s' =>
      if ok a then star_run ok (Some a) (S (cur_idx c)) s' k else None
  | EmptyString => None
  end.

(** The text between two cursors of one subject. *)
Definition consumed (c c' : cursor) : string :=
  substring 0 (cur_idx c' - cur_idx c) (cur_rest c).

(** The backtracking matcher of [re], in continuation-passing style: [k] is
    the rest of the pattern; the first success in the order in which [re]
    tries the alternatives is the result. *)
Fixpoint re_run (fl : re_flags) (r : regex) (c : cursor) (g : captures)
    (k : cursor -> captures -> option (cursor * captures))
  : option (cursor * captures) :=
  match r with
  | Eps => k c g
  | Chr a =>
      match cur_rest c with
      | String b s' =>
          if char_ok fl a b then k (mkCursor (Some b) (S (cur_idx c)) s') g
          else None
      | EmptyString => None
      end
  | Cls cl =>
      match cur_rest c with
      | String b s' =>
          if class_ok fl cl b then k (mkCursor (Some b) (S (cur_idx c)) s') g
          else None
      | EmptyString => None
      end
  | Seq r1 r2 => re_run fl r1 c g (fun c' g' => re_run fl r2 c' g' k)
  | Alt r1 r2 =>
      match re_run fl r1 c g k with
      | Some x => Some x
      | None => re_run fl r2 c g k
      end
  | Opt r1 =>
      match re_run fl r1 c g k with
      | Some x => Some x
      | None => k c g
      end
  | Plus cl => plus_run (class_ok fl cl) c (fun c' => k c' g)
  | Star cl =>
      star_run (class_ok fl cl) (cur_prev c) (cur_idx c) (cur_rest c)
        (fun c' => k c' g)
  | Group n r1 =>
      re_run fl r1 c g (fun c' g' => k c' ((n, consumed c c') :: g'))
  | WordBoundary => if at_boundary fl c then k c g else None
  | NotFollowedBy r1 =>
      match re_run fl r1 c g (fun c' g' => Some (c', g')) with
      | Some _ => None
      | None => k c g
      end
  end.

(** [pattern.match] at a cursor: the end of the match and the groups. *)
Definition re_match_at (fl : re_flags) (r : regex) (c : cursor)
  : option (cursor * captures) :=
  re_run fl r c [] (fun c' g' => Some (c', g')).

(** [pattern.match(s)]. *)
Definition re_match (fl : re_flags) (r : regex) (s : string) : option captures :=
  match re_match_at fl r (cursor_start s) with
  | Some (_, g) => Some g
  | None => None
  end.

(** [pattern.search(s)]: the match at the leftmost start that has one. *)
Fixpoint re_search_from (fl : re_flags) (r : regex) (prev : option ascii)
    (idx : nat) (s : string) : option captures :=
  match re_match_at fl r (mkCursor prev idx s) with
  | Some (_, g) => Some g
  | None =>
      match s with
      | String a s' => re_search_from fl r (Some a) (S idx) s'
      | EmptyString => None
      end
  end.

Definition re_search (fl : re_flags) (r : regex) (s : string) : option captures :=
  re_search_from fl r None 0 s.

(* ===================================================================== *)
(** * Tokenizers ([parsing/lexer_passwords.py], [parsing/lexer_system.py]) *)
(* ===================================================================== *)

(** [lex(reflags=re.ASCII | re.IGNORECASE | re.VERBOSE)]. *)
Definition lexer_flags : re_flags := mkFlags true true.

(** [\b(alternatives)\b:], the shape of every prefix rule. *)
Definition prefix_rule (alternatives : regex) : regex :=
  seq [WordBoundary; Group 1 alternatives; WordBoundary; Chr ":"].

Definition space_char : ascii := " ".

(** Passwords dialect. *)
Definition t_SOFT_PREFIX : regex :=
  prefix_rule (alts (Lit "soft") [Lit "browser"; Lit "application"; Lit "storage"]).

Definition dquote : ascii := ascii_of_nat 34.

Definition t_SOFT_NO_PREFIX : regex :=
  seq [Chr "["; Chr dquote; Group 1 (Plus NonSpace); Chr dquote; Lit " = ";
       Chr dquote; Group 2 (Plus NonSpace); Chr dquote; Chr "]"].

Definition t_HOST_PREFIX : regex :=
  prefix_rule (alts (Seq (Lit "host") (Opt (Group 2 (Lit "name"))))
                 [Lit "url"; Lit "ur1"]).

Definition t_USER_PREFIX : regex :=
  prefix_rule (alts (Lit "user login")
                 [Seq (Lit "user") (Opt (Group 2 (Lit "name")));
                  Lit "login"; Lit "u53rn4m3"]).

Definition t_PASSWORD_PREFIX : regex :=
  prefix_rule (alts (Lit "user password")
                 [Seq (Lit "pass") (Opt (Group 2 (Lit "word"))); Lit "p455w0rd"]).

Definition t_SELLER_PREFIX : regex :=
  prefix_rule (alts (Lit "seller") [Lit "log tools"; Lit "free logs"]).

Definition t_WORD : regex := Plus NonSpace.
Definition t_NEWLINE : regex := Plus (InSet (Ascii.eqb newline_char)).
Definition t_SPACE : regex := Plus (InSet (Ascii.eqb space_char)).

(** System dialect. *)
Definition t_OTHER_PREFIX : regex :=
  prefix_rule (alts (Lit "user agents")
                 [Lit "installed apps"; Lit "current user"; Lit "process list"]).

Definition t_UID_PREFIX : regex :=
  prefix_rule (alts (Lit "uid") [Lit "machineid"]).

Definition t_COMPUTER_NAME_PREFIX : regex :=
  prefix_rule (alts (Group 2 (Seq (Lit "computer")
                                  (Opt (Group 3 (Seq (Opt (Chr space_char))
                                                     (Lit "name"))))))
                 [Lit "pc name"; Lit "hostname"; Lit "machinename"]).

Definition t_HWID_PREFIX : regex := prefix_rule (Lit "hwid").

Definition t_USERNAME_PREFIX : regex :=
  prefix_rule (Seq (Lit "user")
                 (Opt (Group 2 (Seq (Opt (Chr space_char)) (Lit "name"))))).

Definition t_IP_PREFIX : regex :=
  prefix_rule (alts (Group 2 (Seq (Lit "ip")
                                  (Opt (Group 3 (Seq (Opt (Chr space_char))
                                                     (Lit "address"))))))
                 [Lit "lanip"]).

Definition t_COUNTRY_PREFIX : regex :=
  prefix_rule (Seq (Lit "country") (Opt (Group 2 (Lit " code")))).

Definition t_LOG_DATE_PREFIX : regex :=
  prefix_rule (alts (Lit "log date") [Lit "last seen"; Lit "install date"]).

(** The rules in the order in which PLY adds them to its master pattern:
    the function rules in their order in the file, then the string rules
    ([t_NEWLINE], [t_SPACE]). *)
Definition password_rules : list (TokenType * regex) :=
  [(SOFT_PREFIX, t_SOFT_PREFIX); (SOFT_NO_PREFIX, t_SOFT_NO_PREFIX);
   (HOST_PREFIX, t_HOST_PREFIX); (USER_PREFIX, t_USER_PREFIX);
   (PASSWORD_PREFIX, t_PASSWORD_PREFIX); (SELLER_PREFIX, t_SELLER_PREFIX);
   (WORD, t_WORD); (NEWLINE, t_NEWLINE); (SPACE, t_SPACE)].

Definition system_rules : list (TokenType * regex) :=
  [(OTHER_PREFIX, t_OTHER_PREFIX); (UID_PREFIX, t_UID_PREFIX);
   (COMPUTER_NAME_PREFIX, t_COMPUTER_NAME_PREFIX); (HWID_PREFIX, t_HWID_PREFIX);
   (USERNAME_PREFIX, t_USERNAME_PREFIX); (IP_PREFIX, t_IP_PREFIX);
   (COUNTRY_PREFIX, t_COUNTRY_PREFIX); (LOG_DATE_PREFIX, t_LOG_DATE_PREFIX);
   (WORD, t_WORD); (NEWLINE, t_NEWLINE); (SPACE, t_SPACE)].

(** [t_ignore = "\t\r"]. *)
Definition t_ignore (c : ascii) : bool := (code c =? 9) || (code c =? 13).

(** The master pattern is the alternation of the rules: the first rule that
    matches at the cursor gives the token. *)
Fixpoint first_rule (rules : list (TokenType * regex)) (c : cursor)
  : option (TokenType * cursor) :=
  match rules with
  | [] => None
  | (ty, r) :: rules' =>
      match re_match_at lexer_flags r c with
      | Some (c', _) => Some (ty, c')
      | None => first_rule rules' c
      end
  end.

(** What [list(lexer)] gives: the tokens, or [LexError] at an offset where
    no rule matches ([t_error] does not skip). [LexTimeout] stands for a
    scan that makes no progress. *)
Inductive lex_result : Type :=
| Tokens (l : list LexToken)
| LexError (lexpos : Z)
| LexTimeout.

Definition lex_cons (t : LexToken) (r : lex_result) : lex_result :=
  match r with
  | Tokens l => Tokens (t :: l)
  | _ => r
  end.

(** [Lexer.token] iterated to the end of the input. *)
Fixpoint lex_loop (fuel : nat) (rules : list (TokenType * regex)) (c : cursor)
  : lex_result :=
  match cur_rest c with
  | EmptyString => Tokens []
  | String a s' =>
      match fuel with
      | O => LexTimeout
      | S fuel' =>
          if t_ignore a then
            lex_loop fuel' rules (mkCursor (Some a) (S (cur_idx c)) s')
          else
            match first_rule rules c with
            | Some (ty, c') =>
                lex_cons (mkToken ty (consumed c c') 1 (Z.of_nat (cur_idx c)))
                         (lex_loop fuel' rules c')
            | None => LexError (Z.of_nat (cur_idx c))
            end
      end
  end.

Definition tokenize (rules : list (TokenType * regex)) (text : string)
  : lex_result :=
  lex_loop (String.length text) rules (cursor_start text).

(** [tokenize_passwords] and [tokenize_system] (the log files they write
    before re-raising are not modelled). *)
Definition tokenize_passwords (text : string) : lex_result :=
  tokenize password_rules text.

Definition tokenize_system (text : string) : lex_result :=
  tokenize system_rules text.

(* ===================================================================== *)
(** * Credential helpers ([models/credential.py]) *)
(* ===================================================================== *)

Definition no_flags : re_flags := mkFlags false false.

(** [NORM_TEXT_PATTERN]: one of the two square brackets, the double quote
    or the single quote. *)
Definition NORM_TEXT_CHAR (c : ascii) : bool :=
  Ascii.eqb c "[" || Ascii.eqb c "]" || Ascii.eqb c dquote || Ascii.eqb c "'".

(** [NORM_TEXT_PATTERN.sub("", s)]. *)
Fixpoint NORM_TEXT_sub (s : string) : string :=
  match s with
  | EmptyString => EmptyString
  | String a s' =>
      if NORM_TEXT_CHAR a then NORM_TEXT_sub s' else String a (NORM_TEXT_sub s')
  end.

(** [str.replace(old, new)] for one-character [old] and [new]. *)
Fixpoint replace_char (old new : ascii) (s : string) : string :=
  match s with
  | EmptyString => EmptyString
  | String a s' =>
      String (if Ascii.eqb a old then new else a) (replace_char old new s')
  end.

Definition set_software (c : Credential) (v : option string) : Credential :=
  mkCredential v (host c) (username c) (password c) (domain c) (local_part c)
    (email_domain c) (filepath c) (stealer_name c).

Definition set_host (c : Credential) (v : option string) : Credential :=
  mkCredential (software c) v (username c) (password c) (domain c)
    (local_part c) (email_domain c) (filepath c) (stealer_name c).

Definition set_username (c : Credential) (v : option string) : Credential :=
  mkCredential (software c) (host c) v (password c) (domain c) (local_part c)
    (email_domain c) (filepath c) (stealer_name c).

Definition set_password (c : Credential) (v : option string) : Credential :=
  mkCredential (software c) (host c) (username c) v (domain c) (local_part c)
    (email_domain c) (filepath c) (stealer_name c).

Definition set_domain (c : Credential) (v : option string) : Credential :=
  mkCredential (software c) (host c) (username c) (password c) v
    (local_part c) (email_domain c) (filepath c) (stealer_name c).

Definition set_email (c : Credential) (lp ed : option string) : Credential :=
  mkCredential (software c) (host c) (username c) (password c) (domain c)
    lp ed (filepath c) (stealer_name c).

Definition set_filepath (c : Credential) (v : option string) : Credential :=
  mkCredential (software c) (host c) (username c) (password c) (domain c)
    (local_part c) (email_domain c) v (stealer_name c).

Definition set_stealer_name (c : Credential) (v : option string) : Credential :=
  mkCredential (software c) (host c) (username c) (password c) (domain c)
    (local_part c) (email_domain c) (filepath c) v.

(** [normalize_credential_text]. *)
Definition normalize_credential_text (c : Credential) : Credential :=
  if truthy (software c) then
    match software c with
    | Some s =>
        set_software c
          (Some (replace_char "_" space_char (NORM_TEXT_sub (py_lower s))))
    | None => c
    end
  else c.

(** [EMAIL_PATTERN = re.compile(r"\b(\S+)@(\S+\.\S+)\b")]. *)
Definition EMAIL_PATTERN : regex :=
  seq [WordBoundary; Group 1 (Plus NonSpace); Chr "@";
       Group 2 (seq [Plus NonSpace; Chr "."; Plus NonSpace]); WordBoundary].

(** [split_credential_email]. *)
Definition split_credential_email (c : Credential) : Credential :=
  if negb (truthy (username c)) then c
  else
    match username c with
    | Some u =>
        match re_match no_flags EMAIL_PATTERN u with
        | Some g => set_email c (group 1 g) (group 2 g)
        | None => c
        end
    | None => c
    end.

(** ** [urllib.parse.urlparse(host).hostname] *)

Inductive url_result : Type :=
| UrlValueError                       (* [urlparse] raises [ValueError] *)
| UrlHostname (h : option string).    (* the [hostname] attribute *)

(** [s.find(c)] for a one-character [c], from the start. *)
Fixpoint find_char (c : ascii) (s : string) : option nat :=
  match s with
  | EmptyString => None
  | String a s' =>
      if Ascii.eqb a c then Some O
      else match find_char c s' with
           | Some n => Some (S n)
           | None => None
           end
  end.

Definition contains_char (c : ascii) (s : string) : bool :=
  is_some (find_char c s).

(** [s.partition(c)]: the text before the first [c] and the text after it;
    all of [s] and the empty string when there is no [c]. *)
Definition partition_char (c : ascii) (s : string) : string * bool * string :=
  match find_char c s with
  | Some n => (substring 0 n s, true, substring (S n) (String.length s - S n) s)
  | None => (s, false, "")
  end.

(** The part of [s] after its last [c], or all of [s]:
    [s.rpartition(c)[2]]. *)
Fixpoint after_last (c : ascii) (s : string) : string :=
  match s with
  | EmptyString => EmptyString
  | String a s' =>
      if contains_char c s' then after_last c s'
      else if Ascii.eqb a c then s' else s
  end.

(** [s.lstrip(chars)] for the characters that satisfy [f]. *)
Fixpoint lstrip (f : ascii -> bool) (s : string) : string :=
  match s with
  | EmptyString => EmptyString
  | String a s' => if f a then lstrip f s' else s
  end.

(** [s = s.replace(c, "")] for each unsafe character. *)
Definition remove_unsafe (s : string) : string :=
  remove_char newline_char
    (remove_char (ascii_of_nat 13) (remove_char (ascii_of_nat 9) s)).

(** [scheme_chars]: letters, digits and [+-.]. *)
Definition scheme_char (c : ascii) : bool :=
  in_range 48 57 c || in_range 65 90 c || in_range 97 122 c
  || Ascii.eqb c "+" || Ascii.eqb c "-" || Ascii.eqb c ".".

Fixpoint string_forallb (f : ascii -> bool) (s : string) : bool :=
  match s with
  | EmptyString => true
  | String a s' => f a && string_forallb f s'
  end.

(** The text after the scheme, when [url] starts with one. *)
Definition strip_scheme (url : string) : string :=
  match find_char ":" url, url with
  | Some (S i), String a _ =>
      if (in_range 65 90 a || in_range 97 122 a)
         && string_forallb scheme_char (substring 0 (S i) url)
      then substring (S (S i)) (String.length url - S (S i)) url
      else url
  | _, _ => url
  end.

(** The end of the network location: the first of [/?#]. *)
Fixpoint netloc_of (s : string) : string :=
  match s with
  | EmptyString => EmptyString
  | String a s' =>
      if Ascii.eqb a "/" || Ascii.eqb a "?" || Ascii.eqb a "#" then EmptyString
      else String a (netloc_of s')
  end.

(** [_hostinfo[0]] then the [hostname] property. *)
Definition hostname_of_netloc (netloc : string) : option string :=
  let hostinfo := after_last "@" netloc in
  let '(_, have_open_br, bracketed) := partition_char "[" hostinfo in
  let hostname :=
    if have_open_br then fst (fst (partition_char "]" bracketed))
    else fst (fst (partition_char ":" hostinfo)) in
  match hostname with
  | EmptyString => None
  | _ =>
      let '(h, percent, zone) := partition_char "%" hostname in
      Some (py_lower h ++ (if percent then "%" else "") ++ zone)%string
  end.

(** [urlparse(url).hostname] as [urllib.parse] of Python 3.12 computes it.
    The validation of a bracketed host by the [ipaddress] module is the
    parameter [check_bracketed_host]. The NFKC check of a non-ASCII network
    location never fails below code point 256 and is left out. *)
Definition urlparse_hostname (check_bracketed_host : string -> bool)
    (url : string) : url_result :=
  let url := lstrip (fun c => code c <=? 32) url in
  let url := remove_unsafe url in
  let url := strip_scheme url in
  match url with
  | String "/" (String "/" rest) =>
      let netloc := netloc_of rest in
      let open_br := contains_char "[" netloc in
      let close_br := contains_char "]" netloc in
      if xorb open_br close_br then UrlValueError
      else if open_br && close_br
                && negb (check_bracketed_host
                           (fst (fst (partition_char "]"
                                        (snd (partition_char "[" netloc))))))
      then UrlValueError
      else UrlHostname (hostname_of_netloc netloc)
  | _ => UrlHostname None
  end.

(* ===================================================================== *)
(** * Password grammar engine ([parsing/parsing_passwords.py]) *)
(* ===================================================================== *)

(** [PASSWORDS_BROWSER_REGEX]:
    [(?i)\bPasswords\[([A-Za-z0-9_ ]+)\]\S+\.txt\b]. *)
Definition browser_char (c : ascii) : bool :=
  in_range 65 90 c || in_range 97 122 c || in_range 48 57 c
  || Ascii.eqb c "_" || Ascii.eqb c space_char.

Definition PASSWORDS_BROWSER_REGEX : regex :=
  seq [WordBoundary; Lit "Passwords"; Chr "["; Group 1 (Plus (InSet browser_char));
       Chr "]"; Plus NonSpace; Lit ".txt"; WordBoundary].

(** [get_browser_name]. *)
Definition get_browser_name (filename : string) : option string :=
  match re_search (mkFlags true false) PASSWORDS_BROWSER_REGEX filename with
  | Some g => group 1 g
  | None => None
  end.

(** [SPECIAL_SOFT_PATTERN]: the bracketed browser and profile form, compiled
    without flags. *)
Definition SPECIAL_SOFT_PATTERN : regex :=
  seq [Chr "["; Chr dquote; Group 1 (Plus NonSpace); Chr dquote; Lit " = ";
       Chr dquote; Group 2 (Plus NonSpace); Chr dquote; Chr "]"].

Definition group_text (n : nat) (g : captures) : string :=
  match group n g with
  | Some s => s
  | None => ""
  end.

(** The loop of [skip_profile_line]. *)
Fixpoint skip_profile_loop (fuel : nat) : M unit :=
  match fuel with
  | O => timeout
  | S fuel' =>
      t <- eat_or (eat WORD None) (eat SPACE None) ;;
      if is_some t then skip_profile_loop fuel' else ret tt
  end.

(** [skip_profile_line]. *)
Definition skip_profile_line : M unit :=
  t <- eat WORD (Some "profile:") ;;
  if is_some t then
    fun p => skip_profile_loop (S (Z.to_nat (_size p - _pos p))) p
  else ret tt.

(** [str.startswith]. *)
Fixpoint startswith (s pre : string) : bool :=
  match pre, s with
  | EmptyString, _ => true
  | String a pre', String b s' => Ascii.eqb a b && startswith s' pre'
  | String _ _, EmptyString => false
  end.

(** The functions held in the list [parsing_funcs]. *)
Inductive ParsingFunc : Type :=
| F_parse_software_line
| F_parse_host_line
| F_parse_user_line
| F_parse_password_line.

Definition ParsingFunc_eqb (a b : ParsingFunc) : bool :=
  match a, b with
  | F_parse_software_line, F_parse_software_line
  | F_parse_host_line, F_parse_host_line
  | F_parse_user_line, F_parse_user_line
  | F_parse_password_line, F_parse_password_line => true
  | _, _ => false
  end.

(** [list.remove(x)]: drops the first occurrence. *)
Fixpoint list_remove (x : ParsingFunc) (l : list ParsingFunc) : list ParsingFunc :=
  match l with
  | [] => []
  | y :: l' => if ParsingFunc_eqb y x then l' else y :: list_remove x l'
  end.

(** [x in l]. *)
Definition list_in (x : ParsingFunc) (l : list ParsingFunc) : bool :=
  existsb (ParsingFunc_eqb x) l.

(** The [while parser.eat("NEWLINE") or parser.eat("SPACE")] loop of
    [parse_line]. *)
Fixpoint skip_blank_loop (fuel : nat) : M unit :=
  match fuel with
  | O => timeout
  | S fuel' =>
      t <- eat_or (eat NEWLINE None) (eat SPACE None) ;;
      if is_some t then skip_blank_loop fuel' else ret tt
  end.

Definition skip_blank : M unit :=
  fun p => skip_blank_loop (S (Z.to_nat (_size p - _pos p))) p.

(** [parser.output.append(credential)]. *)
Definition output_append (c : Credential) : M unit :=
  fun p => Ret tt (mkParser (_pos p) (_size p) (_tokens p) (_output p ++ [c])).

(** How a parse of a text ends: the value returned, an exception of the
    parser, the [LexError] of the tokenizer, or no end at all. *)
Inductive parse_result (A : Type) : Type :=
| Returned (a : A)
| Raised (e : exn)
| RaisedLexError (lexpos : Z)
| Diverged.
Arguments Returned {A} a.
Arguments Raised {A} e.
Arguments RaisedLexError {A} lexpos.
Arguments Diverged {A}.

Definition result_of {A} (o : outcome A) : parse_result A :=
  match o with
  | Ret a _ => Returned a
  | Raise e _ => Raised e
  | Timeout => Diverged
  end.

Section PasswordGrammar.

(** [b64decode(entry).decode("utf-8")], [None] when it raises. *)
Variable b64decode_text : string -> option string.

(** [urlparse(host).hostname], or the [ValueError] of [urlparse]. *)
Variable hostname_of_url : string -> url_result.

(** [extract_credential_domain_name]. *)
Definition extract_credential_domain_name (c : Credential) : M Credential :=
  if negb (truthy (host c)) then ret c
  else
    match host c with
    | Some h =>
        match hostname_of_url h with
        | UrlValueError => raise ValueError
        | UrlHostname hn =>
            if truthy hn then ret (set_domain c hn) else ret c
        end
    | None => ret c
    end.

(** [parse_software_line]. *)
Definition parse_software_line (c : Credential) : M (bool * Credential) :=
  pre <- eat SOFT_PREFIX None ;;
  if is_some pre then
    sp <- eat SPACE None ;;
    c1 <- (if is_some sp
           then (e <- parse_entry ;; ret (set_software c e))
           else ret c) ;;
    eat NEWLINE None ;;;
    skip_profile_line ;;;
    ret (true, c1)
  else
    soft <- eat SOFT_NO_PREFIX None ;;
    match soft with
    | Some t =>
        match re_match no_flags SPECIAL_SOFT_PATTERN (tok_value t) with
        | Some g =>
            eat NEWLINE None ;;;
            ret (true,
                 set_software c
                   (Some (group_text 1 g ++ " " ++ group_text 2 g)%string))
        | None =>
            pos <- position ;;
            set_position (pos - 1) ;;;
            ret (false, c)
        end
    | None => ret (false, c)
    end.

(** [parse_host_line]. *)
Definition parse_host_line (c : Credential) : M (bool * Credential) :=
  pre <- eat HOST_PREFIX None ;;
  if is_some pre then
    sp <- eat SPACE None ;;
    c1 <- (if is_some sp
           then (e <- parse_entry ;;
                 extract_credential_domain_name (set_host c e))
           else ret c) ;;
    eat NEWLINE None ;;;
    ret (true, c1)
  else ret (false, c).

(** [parse_user_line]. *)
Definition parse_user_line (c : Credential) : M (bool * Credential) :=
  pre <- eat USER_PREFIX None ;;
  if is_some pre then
    sp <- eat SPACE None ;;
    c1 <- (if is_some sp
           then (e <- parse_entry ;;
                 ret (split_credential_email (set_username c e)))
           else ret c) ;;
    eat NEWLINE None ;;;
    ret (true, c1)
  else ret (false, c).

(** [credential.host and credential.host.startswith("android://")]. *)
Definition host_is_android (c : Credential) : bool :=
  match host c with
  | Some h => truthy (host c) && startswith h "android://"
  | None => false
  end.

(** [parse_password_line]. The condition of its [if] is evaluated left to
    right, each [eat] with its effect on the cursor. *)
Definition parse_password_line (c : Credential) : M (bool * Credential) :=
  pre <- eat PASSWORD_PREFIX None ;;
  if is_some pre then
    sp <- eat SPACE None ;;
    if is_some sp then
      current <- position ;;
      pw <- parse_entry ;;
      nl <- eat NEWLINE None ;;
      special <- (if is_some nl then ret false
                  else (w <- eat WORD None ;;
                        ret (is_some w && host_is_android c))) ;;
      pw' <- (if special : bool
              then (set_position current ;;;
                    parse_multiline_entry b64decode_text)
              else ret pw) ;;
      ret (true, set_password c pw')
    else ret (true, c)
  else ret (false, c).

(** A call [func(parser, credential)] of an element of [parsing_funcs]. *)
Definition call (f : ParsingFunc) (c : Credential) : M (bool * Credential) :=
  match f with
  | F_parse_software_line => parse_software_line c
  | F_parse_host_line => parse_host_line c
  | F_parse_user_line => parse_user_line c
  | F_parse_password_line => parse_password_line c
  end.

(** [parse_line]: [todo] is what the [for] loop has still to try,
    [parsing_funcs] the list the matching function is removed from. *)
Fixpoint parse_line_from (todo parsing_funcs : list ParsingFunc)
    (c : Credential) : M (bool * list ParsingFunc * Credential) :=
  match todo with
  | [] => ret (false, parsing_funcs, c)
  | func :: todo' =>
      r <- call func c ;;
      if fst r then
        skip_blank ;;;
        ret (true, list_remove func parsing_funcs, snd r)
      else parse_line_from todo' parsing_funcs (snd r)
  end.

Definition parse_line (parsing_funcs : list ParsingFunc) (c : Credential)
  : M (bool * list ParsingFunc * Credential) :=
  parse_line_from parsing_funcs parsing_funcs c.

(** The [while True] loop of [parse_user_block]. *)
Fixpoint parse_lines (fuel : nat) (parsing_funcs : list ParsingFunc)
    (c : Credential) : M (list ParsingFunc * Credential) :=
  match fuel with
  | O => timeout
  | S fuel' =>
      r <- parse_line parsing_funcs c ;;
      let '(ok, funcs', c') := r in
      if ok : bool then parse_lines fuel' funcs' c' else ret (funcs', c')
  end.

(** [parse_user_block]: a successful [parse_line] removes one function,
    so the loop makes at most one iteration more than there are
    functions. *)
Definition parse_user_block (filename : string) : M bool :=
  let parsing_funcs := [F_parse_software_line; F_parse_host_line;
                        F_parse_user_line; F_parse_password_line] in
  r <- parse_lines (S (List.length parsing_funcs)) parsing_funcs Credential_new ;;
  let '(funcs, credential) := r in
  if Credential_any credential then
    let credential :=
      if list_in F_parse_software_line funcs
      then set_software credential (get_browser_name filename)
      else credential in
    let credential := set_filepath credential (Some filename) in
    let credential := normalize_credential_text credential in
    output_append credential ;;;
    ret true
  else ret (Z.of_nat (List.length funcs) <? 2).

(** One iteration of the [while] loop of [parse_passwords]: the new value
    of [parsed_seller], and whether the loop goes on. *)
Definition parse_passwords_step (filename : string) (parsed_seller : bool)
  : M (bool * bool) :=
  parsed_seller' <- (if negb parsed_seller then skip_seller_block
                     else ret parsed_seller) ;;
  nl <- eat NEWLINE None ;;
  if is_some nl then ret (parsed_seller', true)
  else
    hd <- skip_header_line ;;
    if hd : bool then ret (parsed_seller', true)
    else
      ub <- parse_user_block filename ;;
      ret (parsed_seller', ub).

(** The [while parser.position < parser.size] loop of [parse_passwords]. *)
Fixpoint parse_passwords_loop (fuel : nat) (filename : string)
    (parsed_seller : bool) : M unit :=
  fun p =>
    if _pos p <? _size p then
      match fuel with
      | O => Timeout
      | S fuel' =>
          (r <- parse_passwords_step filename parsed_seller ;;
           if snd r then parse_passwords_loop fuel' filename (fst r)
           else ret tt) p
      end
    else Ret tt p.

(** What [parse_passwords] does after the loop: [SyntaxError] with the
    current token, the position and the size, or the output. (The log
    files written before the raise are not modelled.) *)
Definition parse_passwords_finish : M (list Credential) :=
  fun p =>
    if negb (_pos p =? _size p) then
      (token <- get_current_token ;;
       raise (SyntaxError token (_pos p) (_size p))) p
    else Ret (_output p) p.

(** [parse_passwords] from the token list on. *)
Definition parse_passwords_tokens (filename : string)
    (tokens : list LexToken) : outcome (list Credential) :=
  (parse_passwords_loop (List.length tokens) filename false ;;;
   parse_passwords_finish) (LogsParser_init tokens).

(** [parse_passwords]. *)
Definition parse_passwords (filename text : string)
  : parse_result (list Credential) :=
  match tokenize_passwords text with
  | Tokens tokens => result_of (parse_passwords_tokens filename tokens)
  | LexError n => RaisedLexError n
  | LexTimeout => Diverged
  end.

End PasswordGrammar.

(* ===================================================================== *)
(** * System grammar engine ([parsing/parsing_system.py]) *)
(* ===================================================================== *)

Definition set_machine_id (s : System) (v : option string) : System :=
  mkSystem v (computer_name s) (hardware_id s) (machine_user s) (ip_address s)
    (country s) (log_date s).

Definition set_computer_name (s : System) (v : option string) : System :=
  mkSystem (machine_id s) v (hardware_id s) (machine_user s) (ip_address s)
    (country s) (log_date s).

Definition set_hardware_id (s : System) (v : option string) : System :=
  mkSystem (machine_id s) (computer_name s) v (machine_user s) (ip_address s)
    (country s) (log_date s).

Definition set_machine_user (s : System) (v : option string) : System :=
  mkSystem (machine_id s) (computer_name s) (hardware_id s) v (ip_address s)
    (country s) (log_date s).

Definition set_ip_address (s : System) (v : option string) : System :=
  mkSystem (machine_id s) (computer_name s) (hardware_id s) (machine_user s) v
    (country s) (log_date s).

Definition set_country (s : System) (v : option string) : System :=
  mkSystem (machine_id s) (computer_name s) (hardware_id s) (machine_user s)
    (ip_address s) v (log_date s).

Definition set_log_date (s : System) (v : option string) : System :=
  mkSystem (machine_id s) (computer_name s) (hardware_id s) (machine_user s)
    (ip_address s) (country s) v.

(** The shape shared by [parse_uid_line], [parse_computer_line],
    [parse_hwid_line], [parse_username_line], [parse_country_line] and
    [parse_log_date_line]: the prefix, then after a space the entry stored in
    one field, then an optional newline. *)
Definition parse_field_line (prefix : TokenType)
    (set : System -> option string -> System) (s : System)
  : M (bool * System) :=
  pre <- eat prefix None ;;
  if is_some pre then
    sp <- eat SPACE None ;;
    s1 <- (if is_some sp then (e <- parse_entry ;; ret (set s e)) else ret s) ;;
    eat NEWLINE None ;;;
    ret (true, s1)
  else ret (false, s).

Definition parse_uid_line := parse_field_line UID_PREFIX set_machine_id.
Definition parse_computer_line :=
  parse_field_line COMPUTER_NAME_PREFIX set_computer_name.
Definition parse_hwid_line := parse_field_line HWID_PREFIX set_hardware_id.
Definition parse_username_line :=
  parse_field_line USERNAME_PREFIX set_machine_user.
Definition parse_country_line := parse_field_line COUNTRY_PREFIX set_country.
Definition parse_log_date_line :=
  parse_field_line LOG_DATE_PREFIX set_log_date.

(** [parse_ip_line]: the token value is compared with the text [lanip]. *)
Definition parse_ip_line (s : System) : M (bool * System) :=
  ip_token <- eat IP_PREFIX None ;;
  match ip_token with
  | Some t =>
      sp <- eat SPACE None ;;
      s1 <- (if is_some sp then
               if String.eqb (py_lower (tok_value t)) "lanip"
                  && truthy (ip_address s)
               then (pos <- position ;; set_position (pos + 1) ;;; ret s)
               else (e <- parse_entry ;; ret (set_ip_address s e))
             else ret s) ;;
      eat NEWLINE None ;;;
      ret (true, s1)
  | None => ret (false, s)
  end.

(** The [while] loop of [parse_system]: dispatch on the type of the current
    token. *)
Fixpoint parse_system_loop (fuel : nat) (s : System) : M System :=
  fun p =>
    if _pos p <? _size p then
      match fuel with
      | O => Timeout
      | S fuel' =>
          (token <- get_current_token ;;
           r <- match tok_type token with
                | UID_PREFIX => parse_uid_line s
                | COMPUTER_NAME_PREFIX => parse_computer_line s
                | HWID_PREFIX => parse_hwid_line s
                | USERNAME_PREFIX => parse_username_line s
                | IP_PREFIX => parse_ip_line s
                | COUNTRY_PREFIX => parse_country_line s
                | LOG_DATE_PREFIX => parse_log_date_line s
                | _ => pos <- position ;; set_position (pos + 1) ;;;
                       ret (false, s)
                end ;;
           parse_system_loop fuel' (snd r)) p
      end
    else Ret s p.

(** [parse_system] from the token list on. *)
Definition parse_system_tokens (tokens : list LexToken) : outcome (option System) :=
  (s <- parse_system_loop (List.length tokens) System_new ;;
   ret (if System_any s then Some s else None)) (LogsParser_init tokens).

(** [parse_system]. *)
Definition parse_system (text : string) : parse_result (option System) :=
  match tokenize_system text with
  | Tokens tokens => result_of (parse_system_tokens tokens)
  | LexError n => RaisedLexError n
  | LexTimeout => Diverged
  end.

(** [IP_REGEX]: [(?i)\b(ip(address)?)\b: ?(\S+)]. *)
Definition IP_PATTERN : regex :=
  seq [WordBoundary; Group 1 (Seq (Lit "ip") (Opt (Group 2 (Lit "address"))));
       WordBoundary; Chr ":"; Opt (Chr space_char); Group 3 (Plus NonSpace)].

(** [models/leak.py], class [SystemData]. *)
Record SystemData : Type := mkSystemData {
  system : option System;
  credentials : list Credential
}.

(** [retrieve_ip_only]. *)
Definition retrieve_ip_only (text : string) (d : SystemData) : SystemData :=
  match re_search (mkFlags true false) IP_PATTERN text with
  | Some g =>
      if truthy (group 3 g) then
        let s := match system d with Some s => s | None => System_new end in
        mkSystemData (Some (set_ip_address s (group 3 g))) (credentials d)
      else d
  | None => d
  end.

(* ===================================================================== *)
(** * File classification and directory grouping ([processing.py]) *)
(* ===================================================================== *)

(** [s[i:j]] for [0 <= i] and [0 <= j]. *)
Definition slice (s : string) (i j : Z) : string :=
  substring (Z.to_nat i) (Z.to_nat (j - i)) s.

(** [s.find(c, start)] for a one-character [c] and [0 <= start]: the index
    of the first occurrence at or after [start], or [-1]. *)
Definition py_find (s : string) (c : ascii) (start : Z) : Z :=
  match find_char c (slice s start (Z.of_nat (String.length s))) with
  | Some n => start + Z.of_nat n
  | None => -1
  end.

(** [get_system_dir]. *)
Definition get_system_dir (filepath : string) : string :=
  let start := py_find filepath "/" 0 + 1 in
  if start >? 0 then
    let end_ := py_find filepath "/" start in
    if end_ >? start then slice filepath start end_
    else slice filepath 0 start
  else filepath.

Inductive LogFileType : Type := PASSWORDS | SYSTEM | IP | COPYRIGHT.

Record LogFile : Type := mkLogFile {
  lf_type : LogFileType;
  lf_filename : string;
  lf_system_dir : string
}.

(** [FILENAMES_REGEX]: [(?i).*((password(?!cracker))|(system|information|
    userinfo)|(\bip)|(credits|copyright|read)).*\.txt]. *)
Definition FILENAMES_PATTERN : regex :=
  seq [Star Dot;
       Group 1
         (alts (Group 2 (Seq (Lit "password") (NotFollowedBy (Lit "cracker"))))
            [Group 3 (alts (Lit "system") [Lit "information"; Lit "userinfo"]);
             Group 4 (Seq WordBoundary (Lit "ip"));
             Group 5 (alts (Lit "credits") [Lit "copyright"; Lit "read"])]);
       Star Dot; Lit ".txt"].

(** [sorted] on strings: by code point, lexicographically. *)
Fixpoint sorted_insert (x : string) (l : list string) : list string :=
  match l with
  | [] => [x]
  | y :: l' => if String.leb x y then x :: l else y :: sorted_insert x l'
  end.

Fixpoint sorted (l : list string) : list string :=
  match l with
  | [] => []
  | x :: l' => sorted_insert x (sorted l')
  end.

(** The [if]/[elif] chain of [generate_file_list]: the type it assigns, or
    [None] when no branch is taken and [log_type] keeps its value. *)
Definition classify (name : string) (g : captures) : option LogFileType :=
  if truthy (group 2 g) then Some PASSWORDS
  else if truthy (group 3 g) && negb (contains_char "#" name) then Some SYSTEM
  else if truthy (group 4 g) then Some IP
  else if truthy (group 5 g) then Some COPYRIGHT
  else None.

(** The [for] loop of [generate_file_list]; [log_type] is the variable of
    that name, unbound ([None]) until a branch assigns it. [None] as a result
    is the [UnboundLocalError] of reading it unbound. *)
Fixpoint generate_file_loop (names : list string) (log_type : option LogFileType)
  : option (list LogFile) :=
  match names with
  | [] => Some []
  | name :: names' =>
      match re_search (mkFlags true false) FILENAMES_PATTERN name with
      | Some g =>
          let log_type' :=
            match classify name g with
            | Some t => Some t
            | None => log_type
            end in
          match log_type' with
          | Some t =>
              match generate_file_loop names' log_type' with
              | Some files => Some (mkLogFile t name (get_system_dir name) :: files)
              | None => None
              end
          | None => None
          end
      | None => generate_file_loop names' log_type
      end
  end.

(** [generate_file_list] on the names [root.namelist()] returns. *)
Definition generate_file_list (namelist : list string) : option (list LogFile) :=
  generate_file_loop (sorted namelist) None.

(** [models/leak.py], class [Leak]. *)
Record Leak : Type := mkLeak {
  leak_filename : option string;
  systems_data : list SystemData
}.

(** [SystemData.add_stealer_name]. *)
Definition add_stealer_name (d : SystemData) (name : string) : SystemData :=
  mkSystemData (system d)
    (map (fun c => set_stealer_name c (Some name)) (credentials d)).

(** [if system_data.credentials and stealer_name:
    system_data.add_stealer_name(stealer_name)]. *)
Definition stamp_credentials (d : SystemData) (stealer_name : option string)
  : SystemData :=
  match credentials d, stealer_name with
  | _ :: _, Some name =>
      if truthy stealer_name then add_stealer_name d name else d
  | _, _ => d
  end.

(** What [ArchiveWrapper.read_file] gives the directory processor: the text,
    or an exception. [CaughtError] stands for the exceptions
    [process_system_dir] logs ([CrcError], [KeyError], [ValueError],
    [TypeError]), [FatalError] for those it lets through ([RuntimeError],
    [NotImplementedError], [BadRarFile]). *)
Inductive read_result : Type :=
| ReadText (text : string)
| CaughtError
| FatalError.

Section Processing.

Variable b64decode_text : string -> option string.
Variable hostname_of_url : string -> url_result.

(** [search_stealer_name] ([search_stealer_credits.py]), a parameter. *)
Variable search_stealer_name : string -> option string.

(** The archive: its name and [read_file]. *)
Variable archive_filename : string.
Variable read_file : string -> read_result.

(** How a call of [parse_file] ends. *)
Inductive file_result : Type :=
| FileDone (d : SystemData)     (* returned, also after a logged error *)
| FileCaught                    (* [ValueError], logged by the caller *)
| FileFatal.                    (* any other exception *)

(** [parse_file]: [LexError] and [SyntaxError] are logged here. *)
Definition parse_file (filename : string) (d : SystemData) (file : LogFile)
    (text : string) : file_result :=
  match lf_type file with
  | PASSWORDS =>
      match parse_passwords b64decode_text hostname_of_url filename text with
      | Returned l => FileDone (mkSystemData (system d) (credentials d ++ l))
      | Raised (SyntaxError _ _ _) => FileDone d
      | RaisedLexError _ => FileDone d
      | Raised ValueError => FileCaught
      | Raised IndexError => FileFatal
      | Diverged => FileFatal
      end
  | SYSTEM =>
      match parse_system text with
      | Returned (Some s) =>
          let s' :=
            match system d with
            | Some old =>
                if truthy (ip_address old)
                then set_ip_address s (ip_address old) else s
            | None => s
            end in
          FileDone (mkSystemData (Some s') (credentials d))
      | Returned None => FileDone d
      | Raised (SyntaxError _ _ _) => FileDone d
      | RaisedLexError _ => FileDone d
      | Raised ValueError => FileCaught
      | Raised IndexError => FileFatal
      | Diverged => FileFatal
      end
  | IP => FileDone (retrieve_ip_only text d)
  | COPYRIGHT => FileDone d
  end.

(** The [for] loop of [process_system_dir]: the collected data, the
    stealer name and the count, or [None] when an exception leaves the
    function. *)
Fixpoint process_files (files : list LogFile) (current_dir : string)
    (stealer_name : option string) (d : SystemData) (count : Z)
  : option (SystemData * option string * Z) :=
  match files with
  | [] => Some (d, stealer_name, count)
  | file :: files' =>
      let filename := (archive_filename ++ "/" ++ lf_filename file)%string in
      if negb (String.eqb (lf_system_dir file) current_dir)
      then Some (d, stealer_name, count)
      else
        match read_file (lf_filename file) with
        | ReadText text =>
            let stealer_name' :=
              if truthy stealer_name then stealer_name
              else search_stealer_name text in
            match parse_file filename d file text with
            | FileDone d' =>
                process_files files' current_dir stealer_name' d' (count + 1)
            | FileCaught =>
                process_files files' current_dir stealer_name' d (count + 1)
            | FileFatal => None
            end
        | CaughtError =>
            process_files files' current_dir stealer_name d (count + 1)
        | FatalError => None
        end
  end.

(** [process_system_dir] on a non-empty list: the leak after it and the
    count it returns. *)
Definition process_system_dir (leak : Leak) (files : list LogFile)
  : option (Leak * Z) :=
  match files with
  | [] => None                       (* [files[0]] raises [IndexError] *)
  | first :: _ =>
      match process_files files (lf_system_dir first) None
              (mkSystemData None []) 0 with
      | Some (d, stealer_name, count) =>
          let d := stamp_credentials d stealer_name in
          let keep :=
            match system d with
            | Some s => System_any s
            | None => false
            end || negb (Nat.eqb (List.length (credentials d)) 0) in
          Some (if keep
                then mkLeak (leak_filename leak) (systems_data leak ++ [d])
                else leak,
                count)
      | None => None
      end
  end.

(** The [while index < len(files)] loop of [process_archive], on the part
    of the list from [index] on. [fuel] bounds the iterations; an exception
    out of [process_system_dir] ends the walk with the leak as it is. *)
Fixpoint process_groups (fuel : nat) (leak : Leak) (files : list LogFile)
  : option Leak :=
  match files with
  | [] => Some leak
  | _ :: _ =>
      match fuel with
      | O => None
      | S fuel' =>
          match process_system_dir leak files with
          | Some (leak', count) =>
              process_groups fuel' leak' (skipn (Z.to_nat count) files)
          | None => Some leak
          end
      end
  end.

(** [process_archive]: the leak after the walk; [None] when
    [generate_file_list] raises or the walk does not end. *)
Definition process_archive (leak : Leak) (namelist : list string)
  : option Leak :=
  match generate_file_list namelist with
  | Some files => process_groups (List.length files) leak files
  | None => None
  end.

End Processing.

(* ===================================================================== *)
(** * Archive text reader ([models/archive_wrapper.py]) *)
(* ===================================================================== *)

Module ArchiveWrapper.

(** Here a [bytes] value is a list of integers in [0, 255] and a [str] a
    list of code points. *)

(** How [bytes.decode] treats a malformed sequence. *)
Inductive errors : Type :=
| strict      (* raise [UnicodeDecodeError] *)
| ignore      (* drop the malformed bytes *)
| replace.    (* put U+FFFD in their place *)

(** One step of the UTF-8 decoder: a code point and the number of bytes it
    took, or the number of bytes of the malformed sequence that the error
    handler is given. *)
Inductive step : Type :=
| CodePoint (cp : Z) (n : nat)
| Malformed (n : nat).

Definition is_continuation (b : Z) : bool := (128 <=? b) && (b <? 192).

Definition low6 (b : Z) : Z := Z.land b 63.

(** The decoder of CPython on the bytes [b0 :: rest]: a start byte below
    0xC2 or above 0xF4 is invalid; a continuation byte is checked as soon
    as it is read, with the ranges that exclude overlong forms, surrogates
    and code points above U+10FFFF; input that ends inside a sequence is
    malformed up to its end. *)
Definition decode_step (b0 : Z) (rest : list Z) : step :=
  if b0 <? 128 then CodePoint b0 1
  else if b0 <? 194 then Malformed 1
  else if b0 <? 224 then
    match rest with
    | b1 :: _ =>
        if is_continuation b1
        then CodePoint (Z.lor (Z.shiftl (Z.land b0 31) 6) (low6 b1)) 2
        else Malformed 1
    | [] => Malformed 1
    end
  else if b0 <? 240 then
    match rest with
    | b1 :: rest1 =>
        if negb (is_continuation b1)
           || ((b0 =? 224) && (b1 <? 160))
           || ((b0 =? 237) && (160 <=? b1))
        then Malformed 1
        else
          match rest1 with
          | b2 :: _ =>
              if is_continuation b2
              then CodePoint
                     (Z.lor (Z.shiftl (Z.land b0 15) 12)
                        (Z.lor (Z.shiftl (low6 b1) 6) (low6 b2))) 3
              else Malformed 2
          | [] => Malformed 2
          end
    | [] => Malformed 1
    end
  else if b0 <? 245 then
    match rest with
    | b1 :: rest1 =>
        if negb (is_continuation b1)
           || ((b0 =? 240) && (b1 <? 144))
           || ((b0 =? 244) && (144 <=? b1))
        then Malformed 1
        else
          match rest1 with
          | b2 :: rest2 =>
              if negb (is_continuation b2) then Malformed 2
              else
                match rest2 with
                | b3 :: _ =>
                    if is_continuation b3
                    then CodePoint
                           (Z.lor (Z.shiftl (Z.land b0 7) 18)
                              (Z.lor (Z.shiftl (low6 b1) 12)
                                 (Z.lor (Z.shiftl (low6 b2) 6) (low6 b3)))) 4
                    else Malformed 3
                | [] => Malformed 3
                end
          | [] => Malformed 2
          end
    | [] => Malformed 1
    end
  else Malformed 1.

Inductive decode_result : Type :=
| Decoded (text : list Z)
| UnicodeDecodeError
| DecodeTimeout.

Definition decode_cons (cps : list Z) (r : decode_result) : decode_result :=
  match r with
  | Decoded text => Decoded (cps ++ text)
  | _ => r
  end.

(** The decoding loop; each step takes at least one byte. *)
Fixpoint decode_loop (fuel : nat) (e : errors) (bs : list Z) : decode_result :=
  match bs with
  | [] => Decoded []
  | b0 :: rest =>
      match fuel with
      | O => DecodeTimeout
      | S fuel' =>
          match decode_step b0 rest with
          | CodePoint cp n =>
              decode_cons [cp] (decode_loop fuel' e (skipn n bs))
          | Malformed n =>
              match e with
              | strict => UnicodeDecodeError
              | ignore => decode_loop fuel' e (skipn n bs)
              | replace =>
                  decode_cons [65533] (decode_loop fuel' e (skipn n bs))
              end
          end
      end
  end.

(** [file_bytes.decode(encoding="utf-8", errors=e)]. *)
Definition decode (e : errors) (file_bytes : list Z) : decode_result :=
  decode_loop (List.length file_bytes) e file_bytes.

(** The text put in place of a NUL: a backslash and two zeros. *)
Definition NUL_ESCAPE : list Z := [92; 48; 48].

(** [text.replace(NUL, NUL_ESCAPE)]. *)
Fixpoint replace_nul (text : list Z) : list Z :=
  match text with
  | [] => []
  | c :: text' =>
      (if c =? 0 then NUL_ESCAPE else [c]) ++ replace_nul text'
  end.

(** [read_file] on the bytes [self.root.read(filename)] returned. *)
Definition read_file (file_bytes : list Z) : decode_result :=
  match
    match decode strict file_bytes with
    | UnicodeDecodeError => decode ignore file_bytes
    | r => r
    end
  with
  | Decoded text => Decoded (replace_nul text)
  | r => r
  end.

(** The fallback as the specification words it: undecodable bytes
    replaced, not dropped. *)
Definition read_file_with_replacement (file_bytes : list Z) : decode_result :=
  match
    match decode strict file_bytes with
    | UnicodeDecodeError => decode replace file_bytes
    | r => r
    end
  with
  | Decoded text => Decoded (replace_nul text)
  | r => r
  end.

End ArchiveWrapper.

(* ===================================================================== *)
(** * Vocabulary of the statements *)
(* ===================================================================== *)

Unset Implicit Arguments.

(** A parser state as [LogsParser.__init__] and the primitives keep it: the
    size is the number of tokens and the cursor is in [0, size]. *)
Definition wf (p : LogsParser) : Prop :=
  _size p = Z.of_nat (List.length (_tokens p)) /\ 0 <= _pos p <= _size p.

(** The state [p] with its cursor at [z]. *)
Definition at_position (p : LogsParser) (z : Z) : LogsParser :=
  mkParser z (_size p) (_tokens p) (_output p).

(** The token under the cursor, if there is one. *)
Definition current (p : LogsParser) : option LexToken :=
  nth_error (_tokens p) (Z.to_nat (_pos p)).

(** The three parser primitives as operations a caller can issue. *)
Inductive primitive : Type :=
| P_set_position (z : Z)
| P_get_current_token
| P_eat (expected_type : TokenType) (expected_value : option string).

(** The state an operation leaves, whether it returns or raises. *)
Definition state_after {A} (o : outcome A) (p : LogsParser) : LogsParser :=
  match o with
  | Ret _ p' => p'
  | Raise _ p' => p'
  | Timeout => p
  end.

Definition run_primitive (p : LogsParser) (op : primitive) : LogsParser :=
  match op with
  | P_set_position z => state_after (set_position z p) p
  | P_get_current_token => state_after (get_current_token p) p
  | P_eat ty v => state_after (eat ty v p) p
  end.

Definition run_primitives (ops : list primitive) (p : LogsParser) : LogsParser :=
  fold_left run_primitive ops p.

(** The WORD and SPACE tokens from the head of a token list on, up to the
    first token of another type. *)
Fixpoint entry_run (l : list LexToken) : list LexToken :=
  match l with
  | t :: l' => if is_word_or_space t then t :: entry_run l' else []
  | [] => []
  end.

(** The concatenation of the values of a token list. *)
Fixpoint values (l : list LexToken) : string :=
  match l with
  | t :: l' => (tok_value t ++ values l')%string
  | [] => ""
  end.

(** The tokens from the cursor on. *)
Definition remaining (p : LogsParser) : list LexToken :=
  skipn (Z.to_nat (_pos p)) (_tokens p).

(** Hoare triples over the parser monad: from a state that satisfies [P],
    the computation returns in a state that satisfies [Q], or raises the
    [ValueError] of [urlparse]; it raises nothing else and does not run out
    of iterations. *)
Definition hoare {A} (P : LogsParser -> Prop) (m : M A)
    (Q : A -> LogsParser -> Prop) : Prop :=
  forall p, P p ->
    match m p with
    | Ret a p' => Q a p'
    | Raise e _ => e = ValueError
    | Timeout => False
    end.

(** The invariant of the grammar engines: the token list [ts] and the
    output [out] are unchanged and the cursor is in [lo, size]. *)
Definition inv (ts : list LexToken) (out : list Credential) (lo : Z)
    (p : LogsParser) : Prop :=
  _tokens p = ts /\ _output p = out /\ _size p = Z.of_nat (List.length ts)
  /\ 0 <= _pos p /\ lo <= _pos p <= _size p.

(** What a line rule guarantees: when it matches the cursor has moved on;
    when it does not, the cursor and the credential are as before. *)
Definition rule_post ts out lo (c : Credential) (r : bool * Credential)
    (p' : LogsParser) : Prop :=
  if fst r then inv ts out (lo + 1) p' else inv ts out lo p' /\ snd r = c.

(** The invariant with the output left open. *)
Definition invx (ts : list LexToken) (lo : Z) (p : LogsParser) : Prop :=
  exists out, inv ts out lo p.

(** The initial value of [parsing_funcs] in [parse_user_block]. *)
Definition all_rules : list ParsingFunc :=
  [F_parse_software_line; F_parse_host_line; F_parse_user_line;
   F_parse_password_line].

(** The rules that matched in a block: [parse_line] removes a function from
    [parsing_funcs] exactly when it matched, so they are the ones no longer
    in the list. *)
Definition matched_rules (parsing_funcs : list ParsingFunc) : list ParsingFunc :=
  filter (fun f => negb (list_in f parsing_funcs)) all_rules.

(** The credential as [parse_user_block] appends it: the browser name from
    the file name when no software line matched, the file path, and the
    normalised software text. *)
Definition finished_credential (filename : string)
    (parsing_funcs : list ParsingFunc) (c : Credential) : Credential :=
  normalize_credential_text
    (set_filepath
       (if list_in F_parse_software_line parsing_funcs
        then set_software c (get_browser_name filename) else c)
       (Some filename)).

(** The state [p] with [c] appended to its output. *)
Definition with_output (p : LogsParser) (c : Credential) : LogsParser :=
  mkParser (_pos p) (_size p) (_tokens p) (_output p ++ [c]).

(** A line feed as a string. *)
Definition LF : string := String newline_char "".

(** The password file of the specification's example. *)
Definition example_passwords_text : string :=
  ("Host: example.com" ++ LF ++ "User: a@b.com" ++ LF ++ "Password: secret"
   ++ LF)%string.

(** A password file whose password value holds a prefix keyword, with the
    password line last and with the password line first. *)
Definition keyword_password_last : string :=
  ("Host: h" ++ LF ++ "User: u" ++ LF ++ "Password: login: x" ++ LF)%string.

Definition keyword_password_first : string :=
  ("Password: login: x" ++ LF ++ "Host: h" ++ LF ++ "User: u" ++ LF)%string.

(** The tokens of a text that tokenizes, and no tokens otherwise. *)
Definition tokens_of (r : lex_result) : list LexToken :=
  match r with
  | Tokens l => l
  | _ => []
  end.

(** Stand-ins for the two library parameters in the worked examples: a
    base64 decoder that always fails and a bracketed-host check that always
    passes. Neither is reached by the examples. *)
Definition no_b64decode (s : string) : option string := None.
Definition any_bracketed_host (s : string) : bool := true.

(** The system file of the specification's example, and the same two
    lines in the other order. *)
Definition example_system_text : string :=
  ("IP: 1.2.3.4" ++ LF ++ "LANIP: 10.0.0.5" ++ LF)%string.

Definition example_system_text_reversed : string :=
  ("LANIP: 10.0.0.5" ++ LF ++ "IP: 1.2.3.4" ++ LF)%string.

(** A system record with only the IP address set. *)
Definition system_with_ip (ip : string) : System :=
  set_ip_address System_new (Some ip).

(** The example password file with a URL as its host. *)
Definition example_passwords_text_url : string :=
  ("Host: https://example.com" ++ LF ++ "User: a@b.com" ++ LF
   ++ "Password: secret" ++ LF)%string.

(** The example password file in the order user, password, host. *)
Definition example_passwords_text_reordered : string :=
  ("User: a@b.com" ++ LF ++ "Password: secret" ++ LF ++ "Host: example.com"
   ++ LF)%string.

(** The credential of the example: no software, no domain. *)
Definition example_credential (filename : string) : Credential :=
  mkCredential None (Some "example.com") (Some "a@b.com") (Some "secret")
    None (Some "a") (Some "b.com") (Some filename) None.

(** The number of NULs in a byte string or in a text. *)
Fixpoint count_nul (l : list Z) : nat :=
  match l with
  | [] => O
  | c :: l' => if c =? 0 then S (count_nul l') else count_nul l'
  end.

(** The archive of the specification's example, its entries in the order
    the archive lists them. *)
Definition example_namelist : list string :=
  ["user2/Passwords.txt"; "user1/Passwords.txt"].

(** An archive in which every entry holds the example password file, and a
    signature detector that finds nothing. *)
Definition example_read_file (name : string) : read_result :=
  ReadText example_passwords_text.

Definition no_stealer_name (text : string) : option string := None.

(** ** Lines of a user block, as the grammar of [parsing_passwords.py]
       writes them: [host_line : HOST_PREFIX SPACE entry NEWLINE] and the
       like, with [entry] a sequence of WORD and SPACE tokens. *)

Inductive field : Type := FHost | FUser | FPassword.

Definition prefix_of (k : field) : TokenType :=
  match k with
  | FHost => HOST_PREFIX
  | FUser => USER_PREFIX
  | FPassword => PASSWORD_PREFIX
  end.

Definition rule_of (k : field) : ParsingFunc :=
  match k with
  | FHost => F_parse_host_line
  | FUser => F_parse_user_line
  | FPassword => F_parse_password_line
  end.

Record line : Type := mkLine {
  l_field : field;
  l_prefix : LexToken;
  l_space : LexToken;
  l_entry : list LexToken;
  l_newline : LexToken
}.

Definition line_tokens (l : line) : list LexToken :=
  l_prefix l :: l_space l :: l_entry l ++ [l_newline l].

(** The tokens of a line have the types the grammar asks for. *)
Definition line_ok (l : line) : Prop :=
  tok_type (l_prefix l) = prefix_of (l_field l)
  /\ tok_type (l_space l) = SPACE
  /\ Forall (fun t => is_word_or_space t = true) (l_entry l)
  /\ tok_type (l_newline l) = NEWLINE.

(** The value of a line: the text of its entry, or none when it is empty. *)
Definition line_text (l : line) : option string :=
  nonempty (values (l_entry l)).

Definition block_tokens (ls : list line) : list LexToken :=
  flat_map line_tokens ls.

(** What two lines must share to count as the same line: the field and the
    value. *)
Definition line_content (l : line) : field * option string :=
  (l_field l, line_text l).

(** The host and the domain a host line with value [e] gives a credential;
    [None] when [urlparse] raises. *)
Definition host_update (hostname_of_url : string -> url_result)
    (c : Credential) (e : option string) : option Credential :=
  match e with
  | Some (String a h) =>
      match hostname_of_url (String a h) with
      | UrlValueError => None
      | UrlHostname d =>
          Some (if truthy d then set_domain (set_host c e) d else set_host c e)
      end
  | _ => Some (set_host c e)
  end.

(** The credential of a block with the host value [h], the user value [u]
    and the password value [pw]. *)
Definition block_credential (hostname_of_url : string -> url_result)
    (h u pw : option string) : option Credential :=
  match host_update hostname_of_url Credential_new h with
  | Some c => Some (set_password (split_credential_email (set_username c u)) pw)
  | None => None
  end.

(** The result of [parse_passwords] on a file made of that block. *)
Definition block_result (hostname_of_url : string -> url_result)
    (filename : string) (h u pw : option string)
  : parse_result (list Credential) :=
  match block_credential hostname_of_url h u pw with
  | Some c =>
      Returned (if Credential_any c
                then [finished_credential filename [F_parse_software_line] c]
                else [])
  | None => Raised ValueError
  end.

(** The value of the line of field [k] in a list of lines. *)
Fixpoint value_of (k : field) (ls : list line) : option string :=
  match ls with
  | [] => None
  | l :: ls' =>
      match k, l_field l with
      | FHost, FHost | FUser, FUser | FPassword, FPassword => line_text l
      | _, _ => value_of k ls'
      end
  end.

(** A state that is well formed and whose tokens from the cursor on are
    [rem]. *)
Definition at_rem (p : LogsParser) (rem : list LexToken) : Prop :=
  wf p /\ remaining p = rem.

(** The head of a token list does not have the type [ty]. *)
Definition head_is_not (ty : TokenType) (rem : list LexToken) : Prop :=
  match rem with
  | [] => True
  | t :: _ => tok_type t <> ty
  end.

(** The tokens after a line: nothing, or the prefix token of another
    line. *)
Definition starts_line (post : list LexToken) : Prop :=
  match post with
  | [] => True
  | t :: _ => exists k, tok_type t = prefix_of k
  end.

(** What a line does to the credential; [None] when [urlparse] raises. *)
Definition apply_field (hostname_of_url : string -> url_result) (k : field)
    (c : Credential) (e : option string) : option Credential :=
  match k with
  | FHost => host_update hostname_of_url c e
  | FUser => Some (split_credential_email (set_username c e))
  | FPassword => Some (set_password c e)
  end.

(** The types a rule looks for at the cursor are not at the head of
    [rem]. *)
Definition rule_misses (f : ParsingFunc) (rem : list LexToken) : Prop :=
  match f with
  | F_parse_software_line =>
      head_is_not SOFT_PREFIX rem /\ head_is_not SOFT_NO_PREFIX rem
  | F_parse_host_line => head_is_not HOST_PREFIX rem
  | F_parse_user_line => head_is_not USER_PREFIX rem
  | F_parse_password_line => head_is_not PASSWORD_PREFIX rem
  end.

(** The credential after the lines [ls], in their order. *)
Fixpoint run_lines (hostname_of_url : string -> url_result) (ls : list line)
    (c : Credential) : option Credential :=
  match ls with
  | [] => Some c
  | l :: ls' =>
      match apply_field hostname_of_url (l_field l) c (line_text l) with
      | Some c' => run_lines hostname_of_url ls' c'
      | None => None
      end
  end.

(** The rule list after the lines [ls]. *)
Fixpoint remove_rules (ls : list line) (funcs : list ParsingFunc)
  : list ParsingFunc :=
  match ls with
  | [] => funcs
  | l :: ls' => remove_rules ls' (list_remove (rule_of (l_field l)) funcs)
  end.

(** The lines of the example password file, in the order of the file and in
    the order user, password, host, with the tokens the tokenizer gives
    them. *)
Definition example_lines : list line :=
  [mkLine FHost (mkToken HOST_PREFIX "Host:" 1 0) (mkToken SPACE " " 1 5)
     [mkToken WORD "example.com" 1 6] (mkToken NEWLINE LF 1 17);
   mkLine FUser (mkToken USER_PREFIX "User:" 1 18) (mkToken SPACE " " 1 23)
     [mkToken WORD "a@b.com" 1 24] (mkToken NEWLINE LF 1 31);
   mkLine FPassword (mkToken PASSWORD_PREFIX "Password:" 1 32)
     (mkToken SPACE " " 1 41) [mkToken WORD "secret" 1 42]
     (mkToken NEWLINE LF 1 48)].

Definition example_lines_reordered : list line :=
  [mkLine FUser (mkToken USER_PREFIX "User:" 1 0) (mkToken SPACE " " 1 5)
     [mkToken WORD "a@b.com" 1 6] (mkToken NEWLINE LF 1 13);
   mkLine FPassword (mkToken PASSWORD_PREFIX "Password:" 1 14)
     (mkToken SPACE " " 1 23) [mkToken WORD "secret" 1 24]
     (mkToken NEWLINE LF 1 30);
   mkLine FHost (mkToken HOST_PREFIX "Host:" 1 31) (mkToken SPACE " " 1 36)
     [mkToken WORD "example.com" 1 37] (mkToken NEWLINE LF 1 48)].

(** The value bound to a key in an association list. *)
Fixpoint assoc (k : field) (cs : list (field * option string)) : option string :=
  match cs with
  | [] => None
  | (k', v) :: cs' =>
      match k, k' with
      | FHost, FHost | FUser, FUser | FPassword, FPassword => v
      | _, _ => assoc k cs'
      end
  end.

(** A password file with an Android host and a password that goes on
    after a line break, with the host line first and with the host line
    last. *)
Definition android_host_first : string :=
  ("Host: android://x" ++ LF ++ "User: u" ++ LF ++ "Password: abc" ++ LF
   ++ "def" ++ LF)%string.

Definition android_host_last : string :=
  ("User: u" ++ LF ++ "Password: abc" ++ LF ++ "def" ++ LF
   ++ "Host: android://x" ++ LF)%string.

(** The token list of [example_system_text]. *)
Definition example_system_tokens : list LexToken :=
  [mkToken IP_PREFIX "IP:" 1 0; mkToken SPACE " " 1 3;
   mkToken WORD "1.2.3.4" 1 4; mkToken NEWLINE LF 1 11;
   mkToken IP_PREFIX "LANIP:" 1 12; mkToken SPACE " " 1 18;
   mkToken WORD "10.0.0.5" 1 19; mkToken NEWLINE LF 1 27].

(** [c'] is [c] or a later position of the same subject. *)
Inductive reach : cursor -> cursor -> Prop :=
| reach_here c : reach c c
| reach_next c b s' c' :
    cur_rest c = String b s' ->
    reach (mkCursor (Some b) (S (cur_idx c)) s') c' ->
    reach c c'.

(** Whether every match of [r] takes at least one character. *)
Fixpoint consuming (r : regex) : bool :=
  match r with
  | Chr _ | Cls _ | Plus _ => true
  | Seq r1 r2 => consuming r1 || consuming r2
  | Alt r1 r2 => consuming r1 && consuming r2
  | Group _ r1 => consuming r1
  | _ => false
  end.

Definition all_consuming (rules : list (TokenType * regex)) : bool :=
  forallb (fun tr => consuming (snd tr)) rules.

(** A text that ends with a colon. *)
Definition ends_with_colon (s : string) : Prop := exists v, s = (v ++ ":")%string.

(** A token of a scan is the text a rule of its type matched. *)
Definition matched_by (rules : list (TokenType * regex)) (t : LexToken) : Prop :=
  exists r c c' g, In (tok_type t, r) rules
                   /\ re_match_at lexer_flags r c = Some (c', g)
                   /\ tok_value t = consumed c c'.

(** The tokens of the IP prefix type carry the colon of their rule. *)
Definition ip_prefixes_with_colon (ts : list LexToken) : Prop :=
  Forall (fun t => tok_type t = IP_PREFIX -> ends_with_colon (tok_value t)) ts.

(** Total correctness over the parser monad: from a state that satisfies
    [P] the computation returns, in a state that satisfies [Q]. *)
Definition returns {A} (P : LogsParser -> Prop) (m : M A)
    (Q : A -> LogsParser -> Prop) : Prop :=
  forall p, P p -> exists a p', m p = Ret a p' /\ Q a p'.

(* ===================================================================== *)
(** * Vocabulary of the further properties *)
(* ===================================================================== *)

(** The 256 characters of the model. *)
Definition all_ascii : list ascii := map ascii_of_nat (List.seq 0%nat 256%nat).

Definition forall_ascii (f : ascii -> bool) : bool := forallb f all_ascii.

(** Whether every character a match of [r] can take satisfies [ok]. *)
Fixpoint takes_only (ok : ascii -> bool) (fl : re_flags) (r : regex) : bool :=
  match r with
  | Eps | WordBoundary | NotFollowedBy _ => true
  | Chr a => forall_ascii (fun b => implb (char_ok fl a b) (ok b))
  | Cls k | Plus k | Star k =>
      forall_ascii (fun b => implb (class_ok fl k b) (ok b))
  | Seq r1 r2 | Alt r1 r2 => takes_only ok fl r1 && takes_only ok fl r2
  | Opt r1 | Group _ r1 => takes_only ok fl r1
  end.

(** All the characters of a text satisfy [ok]. *)
Fixpoint string_forall (ok : ascii -> bool) (s : string) : bool :=
  match s with
  | EmptyString => true
  | String a s' => ok a && string_forall ok s'
  end.

(** The characters of a text that satisfy [keep]. *)
Fixpoint string_filter (keep : ascii -> bool) (s : string) : string :=
  match s with
  | EmptyString => EmptyString
  | String a s' =>
      if keep a then String a (string_filter keep s') else string_filter keep s'
  end.

Definition not_ignored (a : ascii) : bool := negb (t_ignore a).

(** A text without the characters of [t_ignore]. *)
Definition without_ignored (s : string) : string :=
  string_filter not_ignored s.

(** The characters no rule of the two dialects takes and [t_ignore] does
    not skip: the vertical tab and the form feed. *)
Definition is_illegal (a : ascii) : bool := (code a =? 11) || (code a =? 12).

(** A line with a tab and a carriage return, and its tokens. *)
Definition HT : string := String (ascii_of_nat 9) "".
Definition CR : string := String (ascii_of_nat 13) "".

Definition tabbed_text : string :=
  ("User:" ++ HT ++ "bob smith" ++ CR ++ LF)%string.

Definition tabbed_tokens : list LexToken :=
  [mkToken USER_PREFIX "User:" 1 0; mkToken WORD "bob" 1 6;
   mkToken SPACE " " 1 9; mkToken WORD "smith" 1 10; mkToken NEWLINE LF 1 16].

Definition all_take_only (ok : ascii -> bool) (rules : list (TokenType * regex))
  : bool :=
  forallb (fun tr => takes_only ok lexer_flags (snd tr)) rules.

Definition legal (a : ascii) : bool := negb (is_illegal a).

(** A token sits in the text: its line number is the initial one, its
    offset is inside the text, and its value is the non-empty piece of the
    text that starts at its offset. *)
Definition at_offset (text : string) (t : LexToken) : Prop :=
  tok_lineno t = 1
  /\ 0 <= tok_lexpos t
  /\ tok_value t <> ""
  /\ substring (Z.to_nat (tok_lexpos t)) (String.length (tok_value t)) text
     = tok_value t.

(** The token [t1] ends before the token [t2] starts. *)
Definition ends_before (t1 t2 : LexToken) : Prop :=
  tok_lexpos t1 + Z.of_nat (String.length (tok_value t1)) <= tok_lexpos t2.

(** How a scan of [text] ends: with tokens, and then no character of the
    text is illegal; or with [LexError] at the offset of the first illegal
    character. *)
Definition legal_scan (text : string) (r : lex_result) : Prop :=
  match r with
  | Tokens _ => string_forall legal text = true
  | LexError n =>
      exists before a after,
        text = (before ++ String a after)%string
        /\ n = Z.of_nat (String.length before)
        /\ is_illegal a = true
        /\ string_forall legal before = true
  | LexTimeout => False
  end.

(** The shape of a token value by token type: a prefix ends with its
    colon, a word has no white space, a line break is made of line feeds
    and a blank of spaces. *)
Definition token_shape (t : LexToken) : Prop :=
  match tok_type t with
  | WORD => string_forall (fun a => negb (is_space_ascii a)) (tok_value t) = true
  | NEWLINE => string_forall (Ascii.eqb newline_char) (tok_value t) = true
  | SPACE => string_forall (Ascii.eqb space_char) (tok_value t) = true
  | SOFT_NO_PREFIX => True
  | _ => ends_with_colon (tok_value t)
  end.

(** The three rules the two dialects share. *)
Definition has_common_rules (rules : list (TokenType * regex)) : Prop :=
  In (WORD, t_WORD) rules /\ In (NEWLINE, t_NEWLINE) rules
  /\ In (SPACE, t_SPACE) rules.

(** A text without white space, as [\S] reads it in a pattern compiled
    without [re.ASCII]. *)
Definition no_space (s : string) : Prop :=
  string_forall (fun a => negb (is_space_unicode a)) s = true.

(** [l] and [d] are the two parts of an address at the head of [u]: [l], an
    at sign and [d] start [u]; [d] has a dot inside; neither part is empty
    or has white space. *)
Definition email_split (u l d : string) : Prop :=
  exists d1 d2 rest,
    u = (l ++ "@" ++ d ++ rest)%string
    /\ d = (d1 ++ "." ++ d2)%string
    /\ l <> "" /\ d1 <> "" /\ d2 <> ""
    /\ no_space l /\ no_space d.

(** A software text as [normalize_credential_text] leaves it: no square
    bracket, no quote, no underscore and no capital letter. *)
Definition normal_char (a : ascii) : bool :=
  negb (NORM_TEXT_CHAR a) && negb (Ascii.eqb a "_")
  && Ascii.eqb (lower_char a) a.

Definition software_normal (c : Credential) : Prop :=
  match software c with
  | Some s => string_forall normal_char s = true
  | None => True
  end.

(** Whether a pattern has no capturing group. *)
Fixpoint no_group (r : regex) : bool :=
  match r with
  | Group _ _ => false
  | Seq r1 r2 | Alt r1 r2 => no_group r1 && no_group r2
  | Opt r1 => no_group r1
  | _ => true
  end.

(** [ip] is an address of [text]: the non-empty run of characters without
    white space that follows a colon, or a colon and a space, up to the next
    white space or the end of the text. *)
Definition ip_found (text ip : string) : Prop :=
  ip <> "" /\ no_space ip
  /\ exists a b,
       (text = (a ++ ":" ++ ip ++ b)%string
        \/ text = (a ++ ": " ++ ip ++ b)%string)
       /\ match b with
          | EmptyString => True
          | String ch _ => is_space_unicode ch = true
          end.

(** The tokens from the head of a list on that satisfy [f], up to the first
    that does not. *)
Fixpoint run_of (f : LexToken -> bool) (l : list LexToken) : list LexToken :=
  match l with
  | t :: l' => if f t then t :: run_of f l' else []
  | [] => []
  end.

Definition has_type (ty : TokenType) (t : LexToken) : bool :=
  TokenType_eqb (tok_type t) ty.

Definition one_of (ty1 ty2 : TokenType) (t : LexToken) : bool :=
  has_type ty1 t || has_type ty2 t.

(** The values of the WORD tokens of a list, put end to end. *)
Fixpoint word_values (l : list LexToken) : string :=
  match l with
  | t :: l' =>
      ((if has_type WORD t then tok_value t else "") ++ word_values l')%string
  | [] => ""
  end.

(** What [parse_multiline_entry] makes of the text it collected. *)
Definition multiline_value (b64decode_text : string -> option string)
    (entry : string) : option string :=
  match nonempty entry with
  | None => None
  | Some _ =>
      match b64decode_text entry with
      | Some text => Some (remove_char newline_char text)
      | None => Some entry
      end
  end.

(** The state [p] with its cursor moved on by [n] tokens. *)
Definition advanced (p : LogsParser) (n : nat) : LogsParser :=
  at_position p (_pos p + Z.of_nat n).

(** A header that a host line follows on the same line; an entry on two
    lines; a seller line with a host line after it. *)
Definition header_without_newline : list LexToken :=
  [mkToken WORD "x" 1 0; mkToken SPACE " " 1 1; mkToken HOST_PREFIX "Host:" 1 2].

Definition two_line_entry : list LexToken :=
  [mkToken WORD "abc" 1 0; mkToken NEWLINE LF 1 3; mkToken WORD "def" 1 4;
   mkToken NEWLINE LF 1 7; mkToken HOST_PREFIX "Host:" 1 8].

(** A seller line or a host line as the lexer gives it: the prefix, a
    blank, an entry of WORD and SPACE tokens, and the NEWLINE that ends
    it. *)
Record seller_line : Type := mkSellerLine {
  sl_prefix : LexToken;
  sl_space : LexToken;
  sl_entry : list LexToken;
  sl_newline : LexToken
}.

Definition seller_line_tokens (l : seller_line) : list LexToken :=
  sl_prefix l :: sl_space l :: sl_entry l ++ [sl_newline l].

Definition seller_line_ok (l : seller_line) : Prop :=
  one_of SELLER_PREFIX HOST_PREFIX (sl_prefix l) = true
  /\ has_type SPACE (sl_space l) = true
  /\ Forall (fun t => is_word_or_space t = true) (sl_entry l)
  /\ has_type NEWLINE (sl_newline l) = true.

Definition seller_lines_tokens (ls : list seller_line) : list LexToken :=
  List.concat (map seller_line_tokens ls).

(** The tokens after a seller block: nothing, or a token that neither goes
    on with the block nor is a line break. *)
Definition ends_seller_block (post : list LexToken) : Prop :=
  match post with
  | [] => True
  | t :: _ =>
      one_of SELLER_PREFIX HOST_PREFIX t = false /\ has_type NEWLINE t = false
  end.

(** The tokens after a line do not start with a line break. *)
Definition no_newline_next (rest : list LexToken) : Prop :=
  match rest with
  | [] => True
  | t :: _ => has_type NEWLINE t = false
  end.

(** A seller line, a host line and the user line that follows them. *)
Definition seller_line_1 : seller_line :=
  mkSellerLine (mkToken SELLER_PREFIX "Seller:" 1 0) (mkToken SPACE " " 1 7)
    [mkToken WORD "x" 1 8] (mkToken NEWLINE LF 1 9).

Definition seller_line_2 : seller_line :=
  mkSellerLine (mkToken HOST_PREFIX "Host:" 1 10) (mkToken SPACE " " 1 15)
    [mkToken WORD "h" 1 16] (mkToken NEWLINE LF 1 17).

Definition seller_post : list LexToken :=
  [mkToken USER_PREFIX "User:" 1 18; mkToken SPACE " " 1 23;
   mkToken WORD "u" 1 24; mkToken NEWLINE LF 1 25].

Definition seller_then_host : list LexToken :=
  seller_lines_tokens [seller_line_1; seller_line_2] ++ seller_post.

(** What holds of every value a computation returns. *)
Definition keeps {A} (m : M A) (Q : A -> Prop) : Prop :=
  forall p a p', m p = Ret a p' -> Q a.

(** A credential the line rules work on: they set neither the file path
    nor the stealer name. *)
Definition cred_fresh (c : Credential) : Prop :=
  filepath c = None /\ stealer_name c = None.

(** A credential as [parse_passwords] returns it. *)
Definition cred_returned (filename : string) (c : Credential) : Prop :=
  filepath c = Some filename /\ stealer_name c = None /\ software_normal c.

(** The invariant of the grammar engine with a property of the output. *)
Definition invp (ts : list LexToken) (P : Credential -> Prop) (lo : Z)
    (p : LogsParser) : Prop :=
  exists out, inv ts out lo p /\ Forall P out.

(** A token of a text without keywords: a word, a blank or a line break. *)
Definition is_plain (t : LexToken) : bool :=
  match tok_type t with
  | WORD | SPACE | NEWLINE => true
  | _ => false
  end.

(** A text without keywords whose last line has no line break, and its
    tokens. *)
Definition plain_text : string := ("-- x --" ++ LF ++ "end")%string.

Definition plain_tokens : list LexToken :=
  [mkToken WORD "--" 1 0; mkToken SPACE " " 1 2; mkToken WORD "x" 1 3;
   mkToken SPACE " " 1 4; mkToken WORD "--" 1 5; mkToken NEWLINE LF 1 7;
   mkToken WORD "end" 1 8].

(** [FILENAMES_PATTERN.search(name)]. *)
Definition filename_match (name : string) : option captures :=
  re_search (mkFlags true false) FILENAMES_PATTERN name.

(** The type the name of a file gives it, if it gives one. *)
Definition type_of_name (name : string) : option LogFileType :=
  match filename_match name with
  | Some g => classify name g
  | None => None
  end.

(** The names [generate_file_list] looks at, in its order, that match. *)
Definition listed_names (namelist : list string) : list string :=
  filter (fun name => is_some (filename_match name)) (sorted namelist).

(** A directory with a password file and a system file whose name has a
    hash sign, and the list made of it. *)
Definition hash_namelist : list string :=
  ["dir/system#1.txt"; "dir/passwords.txt"].

Definition hash_files : list LogFile :=
  [mkLogFile PASSWORDS "dir/passwords.txt" "dir/";
   mkLogFile PASSWORDS "dir/system#1.txt" "dir/"].

(** The types of a file list as the loop of [generate_file_list] assigns
    them, [prev] being the type assigned last: a file has the type its name
    gives it, and when its name gives none, the type assigned to the file
    before it. *)
Fixpoint typed_from (prev : option LogFileType) (files : list LogFile) : Prop :=
  match files with
  | [] => True
  | f :: files' =>
      match type_of_name (lf_filename f) with
      | Some t => lf_type f = t
      | None => prev = Some (lf_type f)
      end
      /\ lf_system_dir f = get_system_dir (lf_filename f)
      /\ typed_from (Some (lf_type f)) files'
  end.

(** The files at the head of a list that are of the directory [dir]. *)
Fixpoint same_dir_run (dir : string) (files : list LogFile) : list LogFile :=
  match files with
  | f :: files' =>
      if String.eqb (lf_system_dir f) dir then f :: same_dir_run dir files'
      else []
  | [] => []
  end.

(** A data set [process_system_dir] keeps: it has a system with a populated
    field, or a credential. *)
Definition data_kept (d : SystemData) : Prop :=
  (exists s, system d = Some s /\ System_any s = true) \/ credentials d <> [].

(** The credentials of a data set come from the files [files] of the archive
    [archive_filename] and carry one stealer name, or none does. *)
Definition credentials_of (archive_filename : string) (files : list LogFile)
    (d : SystemData) : Prop :=
  (exists name, Forall (fun c => stealer_name c = name) (credentials d))
  /\ Forall (fun c => exists f, In f files
                                /\ filepath c
                                   = Some (archive_filename ++ "/"
                                           ++ lf_filename f)%string)
       (credentials d).

(** A credential of the directory before the stealer name is set: it has
    none, and the path of a file of [files] in the archive. *)
Definition cred_of_files (archive_filename : string) (files : list LogFile)
    (c : Credential) : Prop :=
  stealer_name c = None
  /\ exists f, In f files
               /\ filepath c
                  = Some (archive_filename ++ "/" ++ lf_filename f)%string.

(** The file list of the example archive, and the leak after its first
    directory and after both. *)
Definition example_files : list LogFile :=
  [mkLogFile PASSWORDS "user1/Passwords.txt" "user1/";
   mkLogFile PASSWORDS "user2/Passwords.txt" "user2/"].

Definition example_data (path : string) : SystemData :=
  mkSystemData None [example_credential path].

(** An IP file and a system file of one directory. *)
Definition example_ip_file : LogFile := mkLogFile IP "dir/ip.txt" "dir/".
Definition example_system_file : LogFile :=
  mkLogFile SYSTEM "dir/system.txt" "dir/".
Definition example_ip_text : string := ("IP: 1.2.3.4" ++ LF)%string.
Definition example_other_ip_text : string := ("IP: 9.9.9.9" ++ LF)%string.

(** [helpers.py], [init_logger]: the list of level names and the level it
    passes to [coloredlogs.install],
    [levels[max(min(verbosity_level, len(levels) - 1), 0)]]; [None] is the
    [IndexError] of the subscript. *)
Definition levels : list string := ["INFO"; "VERBOSE"; "DEBUG"; "SPAM"].

Definition init_logger_level (verbosity_level : Z) : option string :=
  py_index levels
    (Z.max (Z.min verbosity_level (Z.of_nat (List.length levels) - 1)) 0).

(** The ASCII art signatures of [search_stealer_credits.py]. *)
Definition DCRAT_HEADER : string :=
  ("  ___           _      ___             _        _   ___    _ _____ " ++ LF
   ++ " |   \ __ _ _ _| |__  / __|_ _ _  _ __| |_ __ _| | | _ \  /_\_   _|" ++ LF
   ++ " | |) / _` | '_| / / | (__| '_| || (_-<  _/ _` | | |   / / _ \| |  " ++ LF
   ++ " |___/\__,_|_| |_\_\  \___|_|  \_, /__/\__\__,_|_| |_|_\/_/ \_\_|  " ++ LF
   ++ "                               |__/                                " ++ LF)%string.

Definition META_HEADER : string :=
  ("*              / \ / \ / \ / \                *" ++ LF
   ++ "*             ( M | E | T | A )               *" ++ LF
   ++ "*              \_/ \_/ \_/ \_/                *" ++ LF)%string.

Definition REDLINE_HEADER : string :=
  ("*   ____  _____ ____  _     ___ _   _ _____   *" ++ LF
   ++ "*  |  _ \| ____|  _ \| |   |_ _| \ | | ____|  *" ++ LF
   ++ "*  | |_) |  _| | | | | |    | ||  \| |  _|    *" ++ LF
   ++ "*  |  _ <| |___| |_| | |___ | || |\  | |___   *" ++ LF
   ++ "*  |_| \_|_____|____/|_____|___|_| \_|_____|  *" ++ LF)%string.

Definition REDLINE_HEADER_MALFORMED : string :=
  ("*   ____  _____ ____  _     ___ _   _ _____   *" ++ LF
   ++ "*  |  _ | ____|  _ | |   |_ _|  | | ____|     *" ++ LF
   ++ "*  | |_) |  _| | | | | |    | ||  | |  _|     *" ++ LF
   ++ "*  |  _ <| |___| |_| | |___ | || |  | |___    *" ++ LF
   ++ "*  |_| _|_____|____/|_____|___|_| _|_____|    *" ++ LF)%string.

Definition STEALC_HEADER : string :=
  (" ______     ______   ______     ______     __         ______" ++ LF
   ++ "/\  ___\   /\__  _\ /\  ___\   /\  __ \   /\ \       /\  ___\" ++ LF
   ++ "\ \___  \  \/_/\ \/ \ \  __\   \ \  __ \  \ \ \____  \ \ \____" ++ LF
   ++ " \/\_____\    \ \_\  \ \_____\  \ \_\ \_\  \ \_____\  \ \_____\" ++ LF
   ++ "  \/_____/     \/_/   \/_____/   \/_/\/_/   \/_____/   \/_____/" ++ LF)%string.

(** [RACCOON_HEADER], whose characters are block elements above the
    code points of the model, as the list of its code points. *)
Definition RACCOON_HEADER : list Z :=
  [9617; 9617; 9617; 9617; 9617; 9617; 9617; 9617; 9617; 9617; 9617; 9617; 9617; 9617; 9617; 9604; 9604; 9604; 9604; 9604; 9604; 9604; 9604; 9617; 9617; 9617; 9617; 9617; 9617; 9617; 9617; 9617; 9617; 9617; 9617; 9617; 9617; 10;
   9617; 9604; 9608; 9600; 9608; 9608; 9608; 9604; 9604; 9608; 9608; 9608; 9608; 9608; 9608; 9608; 9608; 9608; 9608; 9608; 9608; 9608; 9608; 9608; 9608; 9608; 9608; 9608; 9608; 9604; 9604; 9608; 9608; 9608; 9600; 9608; 9617; 10;
   9617; 9608; 9617; 9617; 9600; 9608; 9608; 9608; 9608; 9608; 9608; 9608; 9608; 9608; 9608; 9608; 9608; 9608; 9608; 9608; 9608; 9608; 9608; 9608; 9608; 9608; 9608; 9608; 9608; 9608; 9608; 9608; 9608; 9617; 9617; 9608; 9617; 10;
   9617; 9617; 9608; 9604; 9617; 9617; 9600; 9608; 9608; 9608; 9608; 9608; 9608; 9608; 9608; 9608; 9608; 9608; 9608; 9608; 9608; 9608; 9608; 9608; 9608; 9608; 9608; 9608; 9608; 9608; 9617; 9617; 9617; 9617; 9604; 9600; 9617; 10;
   9617; 9617; 9617; 9600; 9608; 9604; 9604; 9608; 9608; 9608; 9608; 9600; 9600; 9600; 9617; 9617; 9617; 9617; 9608; 9608; 9617; 9617; 9617; 9600; 9600; 9600; 9608; 9608; 9608; 9608; 9604; 9604; 9604; 9608; 9600; 9617; 9617; 10;
   9617; 9617; 9617; 9604; 9608; 9608; 9608; 9600; 9600; 9617; 9617; 9617; 9617; 9617; 9617; 9617; 9617; 9617; 9608; 9608; 9617; 9617; 9617; 9617; 9617; 9617; 9617; 9617; 9617; 9600; 9608; 9608; 9608; 9604; 9617; 9617; 9617; 10;
   9617; 9617; 9604; 9608; 9608; 9600; 9617; 9617; 9617; 9617; 9617; 9604; 9604; 9604; 9608; 9608; 9604; 9604; 9608; 9608; 9617; 9604; 9608; 9608; 9604; 9604; 9604; 9617; 9617; 9617; 9617; 9617; 9600; 9608; 9608; 9604; 9617; 10;
   9604; 9608; 9608; 9600; 9617; 9617; 9617; 9604; 9604; 9604; 9608; 9608; 9608; 9604; 9608; 9608; 9608; 9608; 9608; 9608; 9608; 9608; 9608; 9608; 9604; 9608; 9608; 9608; 9604; 9604; 9604; 9617; 9617; 9617; 9600; 9608; 9604; 10;
   9600; 9608; 9608; 9604; 9604; 9608; 9608; 9608; 9608; 9608; 9608; 9608; 9608; 9608; 9608; 9600; 9617; 9608; 9608; 9608; 9600; 9600; 9600; 9608; 9608; 9608; 9608; 9608; 9608; 9608; 9608; 9608; 9604; 9604; 9604; 9608; 9600; 10;
   9617; 9617; 9600; 9608; 9608; 9608; 9608; 9608; 9608; 9608; 9608; 9608; 9608; 9600; 9617; 9617; 9617; 9608; 9608; 9608; 9617; 9617; 9617; 9600; 9608; 9608; 9608; 9608; 9608; 9608; 9608; 9608; 9608; 9608; 9608; 9600; 9617; 10;
   9617; 9617; 9617; 9617; 9600; 9600; 9600; 9608; 9608; 9608; 9608; 9608; 9608; 9617; 9617; 9617; 9608; 9608; 9608; 9608; 9608; 9604; 9617; 9617; 9600; 9608; 9608; 9608; 9608; 9608; 9608; 9600; 9600; 9617; 9617; 9617; 9617; 10;
   9617; 9617; 9617; 9617; 9617; 9617; 9617; 9617; 9617; 9600; 9600; 9600; 9600; 9604; 9617; 9617; 9608; 9608; 9608; 9608; 9608; 9600; 9617; 9604; 9608; 9600; 9600; 9600; 9617; 9617; 9617; 9617; 9617; 9617; 9617; 9617; 9617; 10;
   9617; 9617; 9617; 9617; 9617; 9617; 9617; 9617; 9617; 9617; 9617; 9617; 9617; 9617; 9600; 9600; 9604; 9604; 9604; 9604; 9604; 9600; 9600; 9617; 9617; 9617; 9617; 9617; 9617; 9617; 9617; 9617; 9617; 9617; 9617; 9617; 9617; 10].

(** [StealerNameType] of [models/types.py]. *)
Definition StealerNameType : list string :=
  ["redline"; "stealc"; "lummac2"; "meta"; "raccoon"; "dcrat"].

(** The names of the alternation of [stealer_regex]. *)
Definition stealer_keywords : list string :=
  ["redline"; "stealc"; "raccoon"; "lummac2"].

(** [[^a-zA-Z]] under [re.IGNORECASE], below 256. *)
Definition not_ascii_letter (c : ascii) : bool :=
  negb (in_range 97 122 c || in_range 65 90 c).

(** [stealer_regex]: [(?i)\b(redline|stealc|raccoon|lummac2)([^a-zA-Z]|\b)]. *)
Definition STEALER_PATTERN : regex :=
  seq [WordBoundary;
       Group 1 (alts (Lit "redline") [Lit "stealc"; Lit "raccoon"; Lit "lummac2"]);
       Group 2 (Alt (Cls (InSet not_ascii_letter)) WordBoundary)].

(** [text.replace("\r\n", "\n")]. *)
Fixpoint replace_crlf (text : string) : string :=
  match text with
  | EmptyString => EmptyString
  | String a text' =>
      match text' with
      | String b text'' =>
          if Ascii.eqb a (ascii_of_nat 13) && Ascii.eqb b newline_char
          then String b (replace_crlf text'')
          else String a (replace_crlf text')
      | EmptyString => String a EmptyString
      end
  end.

(** [needle in text] on [str]. *)
Fixpoint contains (text needle : string) : bool :=
  startswith text needle
  || match text with
     | String _ text' => contains text' needle
     | EmptyString => false
     end.

(** The code points of a text. *)
Definition codes (text : string) : list Z :=
  map code (list_ascii_of_string text).

Fixpoint codes_startswith (text pre : list Z) : bool :=
  match pre, text with
  | [], _ => true
  | a :: pre', b :: text' => (a =? b) && codes_startswith text' pre'
  | _ :: _, [] => false
  end.

(** [needle in text] on code points. *)
Fixpoint codes_contain (text needle : list Z) : bool :=
  codes_startswith text needle
  || match text with
     | _ :: text' => codes_contain text' needle
     | [] => false
     end.

(** What [search_stealer_name] gives: a name, [None], or the
    [AttributeError] of [None.lower()] if group 1 took no part in a
    match. *)
Inductive name_result : Type :=
| NameFound (name : string)
| NoName
| NoneHasNoLower.

(** [search_stealer_name]. *)
Definition search_stealer_name (text : string) : name_result :=
  match re_search (mkFlags true false) STEALER_PATTERN text with
  | Some matched =>
      match group 1 matched with
      | Some name => NameFound (py_lower name)
      | None => NoneHasNoLower
      end
  | None =>
      let clean_text := replace_crlf text in
      if contains clean_text REDLINE_HEADER
         || contains clean_text REDLINE_HEADER_MALFORMED
      then NameFound "redline"
      else if contains clean_text STEALC_HEADER then NameFound "stealc"
      else if contains clean_text META_HEADER then NameFound "meta"
      else if codes_contain (codes clean_text) RACCOON_HEADER
      then NameFound "raccoon"
      else if contains clean_text DCRAT_HEADER then NameFound "dcrat"
      else NoName
  end.

(** The last character of [a], or [prev] when [a] is empty. *)
Fixpoint last_char_from (prev : option ascii) (a : string) : option ascii :=
  match a with
  | EmptyString => prev
  | String x a' => last_char_from (Some x) a'
  end.

(** The cursor after the piece [a] of a text that goes on with [rest]. *)
Fixpoint cursor_after (prev : option ascii) (idx : nat) (a rest : string)
  : cursor :=
  match a with
  | EmptyString => mkCursor prev idx rest
  | String x a' => cursor_after (Some x) (S idx) a' rest
  end.

(** [w] is a stealer keyword, in any case, that starts a word after [a] and
    is not followed in [b] by an ASCII letter. *)
Definition keyword_at (a w b : string) : Prop :=
  In (py_lower w) stealer_keywords
  /\ match last_char_from None a with
     | Some x => is_word_unicode x = false
     | None => True
     end
  /\ match b with
     | String y _ => not_ascii_letter y = true
     | EmptyString => True
     end.

(* ===================================================================== *)
(** * Parser primitives: proofs *)
(* ===================================================================== *)

Lemma TokenType_eqb_eq (a b : TokenType) : TokenType_eqb a b = true <-> a = b.
Proof.
  split.
  - destruct a, b; simpl; intro H; try reflexivity; discriminate H.
  - intros ->. destruct b; reflexivity.
Qed.

Lemma TokenType_eqb_refl (a : TokenType) : TokenType_eqb a a = true.
Proof. now apply TokenType_eqb_eq. Qed.

Lemma value_matches_spec (v : option string) (t : LexToken) :
  value_matches v t = true <-> (forall x, v = Some x -> tok_value t = x).
Proof.
  destruct v as [x|]; simpl.
  - rewrite String.eqb_eq. split.
    + intros H y [= <-]. exact H.
    + intros H. now apply H.
  - split; [discriminate|reflexivity].
Qed.

Lemma py_index_in_range {A} (l : list A) (i : Z) :
  0 <= i < Z.of_nat (List.length l) ->
  py_index l i = nth_error l (Z.to_nat i).
Proof.
  intros H. unfold py_index.
  replace (0 <=? i) with true by (symmetry; apply Z.leb_le; lia).
  replace (i <? Z.of_nat (List.length l)) with true
    by (symmetry; apply Z.ltb_lt; lia).
  reflexivity.
Qed.

Lemma py_index_at_length {A} (l : list A) :
  py_index l (Z.of_nat (List.length l)) = None.
Proof.
  unfold py_index.
  rewrite Z.ltb_irrefl, andb_false_r.
  replace (Z.of_nat (List.length l) <? 0) with false
    by (symmetry; apply Z.ltb_ge; lia).
  now rewrite andb_false_r.
Qed.

Lemma nth_error_in_range {A} (l : list A) (i : Z) :
  0 <= i < Z.of_nat (List.length l) ->
  exists x, nth_error l (Z.to_nat i) = Some x.
Proof.
  intros H. destruct (nth_error l (Z.to_nat i)) eqn:E; [now eexists|].
  apply nth_error_None in E. lia.
Qed.

(** [get_current_token] inside the token list. *)
Lemma get_current_token_in_range (p : LogsParser) :
  wf p -> _pos p < _size p ->
  exists t, current p = Some t /\ get_current_token p = Ret t p.
Proof.
  intros [Hs Hp] Hlt. unfold get_current_token, current.
  rewrite py_index_in_range by lia.
  destruct (nth_error_in_range (_tokens p) (_pos p)) as [t Ht]; [lia|].
  exists t. now rewrite Ht.
Qed.

(** [eat] when the current token matches. *)
Lemma eat_hit (ty : TokenType) (v : option string) (p : LogsParser) (t : LexToken) :
  wf p -> _pos p < _size p -> current p = Some t ->
  tok_type t = ty -> value_matches v t = true ->
  eat ty v p = Ret (Some t) (at_position p (_pos p + 1)).
Proof.
  intros Hwf Hlt Hc Hty Hv. unfold eat.
  apply Z.ltb_lt in Hlt as Hlt'. rewrite Hlt'.
  destruct (get_current_token_in_range p Hwf Hlt) as [t' [Hc' Hg]].
  rewrite Hc in Hc'. injection Hc' as <-.
  unfold bind. rewrite Hg, Hty, TokenType_eqb_refl, Hv. reflexivity.
Qed.

(** [eat] when there is no current token or it does not match. *)
Lemma eat_miss (ty : TokenType) (v : option string) (p : LogsParser) :
  wf p ->
  match current p with
  | Some t => tok_type t <> ty \/ value_matches v t = false
  | None => True
  end ->
  eat ty v p = Ret None p.
Proof.
  intros Hwf Hc. unfold eat.
  destruct (_pos p <? _size p) eqn:Hlt; [|reflexivity].
  apply Z.ltb_lt in Hlt.
  destruct (get_current_token_in_range p Hwf Hlt) as [t [Hc' Hg]].
  rewrite Hc' in Hc. unfold bind. rewrite Hg.
  destruct (TokenType_eqb (tok_type t) ty) eqn:E; [|reflexivity].
  apply TokenType_eqb_eq in E.
  destruct Hc as [Hc|Hc]; [contradiction|]. now rewrite Hc.
Qed.

Lemma current_None_at_end (p : LogsParser) :
  wf p -> _pos p = _size p -> current p = None.
Proof.
  intros [Hs Hp] He. unfold current. apply nth_error_None. lia.
Qed.

(** What [eat] does, in every well-formed state. *)
Lemma eat_cases (ty : TokenType) (v : option string) (p : LogsParser) :
  wf p ->
  (exists t, current p = Some t /\ tok_type t = ty /\ value_matches v t = true
             /\ _pos p < _size p
             /\ eat ty v p = Ret (Some t) (at_position p (_pos p + 1)))
  \/ (eat ty v p = Ret None p
      /\ forall t, current p = Some t ->
                   ~ (tok_type t = ty /\ value_matches v t = true)).
Proof.
  intros Hwf. destruct (current p) as [t|] eqn:Hc.
  - destruct (TokenType_eqb (tok_type t) ty) eqn:Ety.
    + apply TokenType_eqb_eq in Ety.
      destruct (value_matches v t) eqn:Ev.
      * left. exists t.
        assert (Hlt : _pos p < _size p).
        { destruct Hwf as [Hs Hp]. unfold current in Hc.
          assert (nth_error (_tokens p) (Z.to_nat (_pos p)) <> None)
            by (rewrite Hc; discriminate).
          apply nth_error_Some in H. lia. }
        repeat split; auto. now apply eat_hit.
      * right. split.
        -- apply eat_miss; auto. rewrite Hc. now right.
        -- intros t' [= <-] [_ H]. congruence.
    + right. split.
      * apply eat_miss; auto. rewrite Hc. left. intros H.
        apply TokenType_eqb_eq in H. congruence.
      * intros t' [= <-] [H _]. apply TokenType_eqb_eq in H. congruence.
  - right. split.
    + apply eat_miss; auto. now rewrite Hc.
    + intros t [=].
Qed.

Lemma wf_at_position (p : LogsParser) (z : Z) :
  wf p -> 0 <= z <= _size p -> wf (at_position p z).
Proof. intros [Hs Hp] Hz. split; simpl; auto. Qed.

Lemma set_position_in_range (p : LogsParser) (z : Z) :
  0 <= z <= _size p -> set_position z p = Ret tt (at_position p z).
Proof.
  intros Hz. unfold set_position.
  replace (z <? 0) with false by (symmetry; apply Z.ltb_ge; lia).
  replace (z >? _size p) with false
    by (symmetry; rewrite Z.gtb_ltb; apply Z.ltb_ge; lia).
  reflexivity.
Qed.

Lemma set_position_out_of_range (p : LogsParser) (z : Z) :
  z < 0 \/ z > _size p -> set_position z p = Raise IndexError p.
Proof.
  intros Hz. unfold set_position.
  destruct (z <? 0) eqn:E1; [reflexivity|].
  apply Z.ltb_ge in E1.
  replace (z >? _size p) with true; [reflexivity|].
  symmetry. rewrite Z.gtb_ltb. apply Z.ltb_lt. lia.
Qed.

Lemma wf_init (tokens : list LexToken) : wf (LogsParser_init tokens).
Proof. split; simpl; lia. Qed.

Lemma run_primitive_wf (p : LogsParser) (op : primitive) :
  wf p -> wf (run_primitive p op) /\ _tokens (run_primitive p op) = _tokens p.
Proof.
  intros Hwf. destruct op as [z| |ty v]; simpl.
  - destruct (Z_lt_dec z 0) as [H|H].
    + rewrite set_position_out_of_range by lia. simpl. auto.
    + destruct (Z_gt_dec z (_size p)) as [H'|H'].
      * rewrite set_position_out_of_range by lia. simpl. auto.
      * rewrite set_position_in_range by lia. simpl.
        split; [apply wf_at_position; auto; lia | reflexivity].
  - unfold get_current_token.
    destruct (py_index (_tokens p) (_pos p)); simpl; auto.
  - destruct (eat_cases ty v p Hwf) as [[t [_ [_ [_ [Hlt ->]]]]] | [-> _]]; simpl.
    + split; [|reflexivity]. apply wf_at_position; auto.
      destruct Hwf as [_ Hp]. lia.
    + auto.
Qed.

Lemma run_primitives_wf (ops : list primitive) (p : LogsParser) :
  wf p -> wf (run_primitives ops p)
          /\ _tokens (run_primitives ops p) = _tokens p.
Proof.
  revert p. induction ops as [|op ops IH]; intros p Hwf; simpl.
  - auto.
  - destruct (run_primitive_wf p op Hwf) as [Hwf' Ht].
    destruct (IH _ Hwf') as [H1 H2]. split; [exact H1|congruence].
Qed.

(** C6. Over any token list and after any sequence of parser primitives,
    the cursor is in [0, size] and the size is the token count; assigning a
    position outside that range raises the out-of-range error and leaves the
    state as it was, assigning one inside it moves the cursor there;
    [get_current_token] raises the out-of-range error when the cursor is at
    [size]; [eat] returns the current token and moves the cursor by exactly
    one when the type, and the value if one is given, match, and otherwise
    returns no token and leaves the state unchanged. *)
Theorem parser_primitives_bounded (tokens : list LexToken) (ops : list primitive) :
  let p := run_primitives ops (LogsParser_init tokens) in
  (0 <= _pos p <= _size p)
  /\ _size p = Z.of_nat (List.length tokens)
  /\ _tokens p = tokens
  /\ (forall z, z < 0 \/ z > _size p -> set_position z p = Raise IndexError p)
  /\ (forall z, 0 <= z <= _size p ->
        set_position z p = Ret tt (at_position p z))
  /\ (_pos p = _size p -> get_current_token p = Raise IndexError p)
  /\ (forall ty v,
        (exists t, current p = Some t /\ tok_type t = ty
                   /\ (forall x, v = Some x -> tok_value t = x)
                   /\ eat ty v p = Ret (Some t) (at_position p (_pos p + 1)))
        \/ (eat ty v p = Ret None p
            /\ forall t, current p = Some t ->
                 ~ (tok_type t = ty
                    /\ (forall x, v = Some x -> tok_value t = x)))).
Proof.
  intros p.
  destruct (run_primitives_wf ops _ (wf_init tokens)) as [Hwf Ht].
  fold p in Hwf, Ht. simpl in Ht.
  pose proof Hwf as [Hs Hp].
  split; [exact Hp|]. split; [now rewrite Hs, Ht|]. split; [exact Ht|].
  split; [intros z; apply set_position_out_of_range|].
  split; [intros z; apply set_position_in_range|].
  split.
  - intros He. unfold get_current_token.
    rewrite He, Hs. now rewrite py_index_at_length.
  - intros ty v.
    destruct (eat_cases ty v p Hwf) as [[t [Hc [Hty [Hv [_ He]]]]] | [He Hn]].
    + left. exists t. rewrite value_matches_spec in Hv. auto.
    + right. split; [exact He|].
      intros t Hc [Hty Hv]. apply (Hn t Hc).
      split; [exact Hty|]. now apply value_matches_spec.
Qed.

(** A use of C6 after three operations on the tokens of the example file:
    a position outside the range is refused and one inside it is taken. *)
Lemma parser_primitives_bounded_witness :
  set_position (-1)
    (run_primitives [P_eat HOST_PREFIX None; P_set_position 100;
                     P_get_current_token]
       (LogsParser_init (block_tokens example_lines)))
  = Raise IndexError
      (run_primitives [P_eat HOST_PREFIX None; P_set_position 100;
                       P_get_current_token]
         (LogsParser_init (block_tokens example_lines)))
  /\ set_position 12
       (run_primitives [P_eat HOST_PREFIX None; P_set_position 100;
                        P_get_current_token]
          (LogsParser_init (block_tokens example_lines)))
     = Ret tt (mkParser 12 12 (block_tokens example_lines) []).
Proof.
  destruct (parser_primitives_bounded (block_tokens example_lines)
              [P_eat HOST_PREFIX None; P_set_position 100;
               P_get_current_token])
    as (_ & _ & _ & Hout & Hin & _).
  split.
  - apply Hout. left. lia.
  - rewrite Hin; [reflexivity|]. vm_compute. split; discriminate.
Defined.

(* ===================================================================== *)
(** * [parse_entry]: proofs *)
(* ===================================================================== *)

Lemma skipn_nth_error {A} (l : list A) (n : nat) (x : A) :
  nth_error l n = Some x -> skipn n l = x :: skipn (S n) l.
Proof.
  revert l. induction n as [|n IH]; intros [|y l] H; simpl in *; try discriminate.
  - now injection H as ->.
  - now apply IH.
Qed.

Lemma at_position_same (p : LogsParser) : at_position p (_pos p) = p.
Proof. now destruct p. Qed.

Lemma remaining_cons (p : LogsParser) (t : LexToken) :
  0 <= _pos p -> current p = Some t ->
  remaining p = t :: remaining (at_position p (_pos p + 1)).
Proof.
  intros Hp Hc. unfold remaining, current in *. simpl.
  rewrite (skipn_nth_error _ _ _ Hc). f_equal. f_equal. lia.
Qed.

Lemma remaining_at_end (p : LogsParser) :
  wf p -> _pos p = _size p -> remaining p = [].
Proof.
  intros [Hs Hp] He. unfold remaining. apply skipn_all2. lia.
Qed.

Lemma entry_run_word_or_space (l : list LexToken) :
  Forall (fun t => is_word_or_space t = true) (entry_run l).
Proof.
  induction l as [|t l IH]; simpl; [constructor|].
  destruct (is_word_or_space t) eqn:E; constructor; auto.
Qed.

Lemma entry_run_prefix (l : list LexToken) :
  entry_run l = firstn (List.length (entry_run l)) l.
Proof.
  induction l as [|t l IH]; simpl; [reflexivity|].
  destruct (is_word_or_space t); simpl; [now f_equal|reflexivity].
Qed.

(** The token right after the run is not a WORD or a SPACE. *)
Lemma entry_run_stop (l : list LexToken) (t : LexToken) :
  nth_error l (List.length (entry_run l)) = Some t -> is_word_or_space t = false.
Proof.
  induction l as [|u l IH]; simpl; [discriminate|].
  destruct (is_word_or_space u) eqn:E; simpl.
  - exact IH.
  - now intros [= <-].
Qed.

Lemma string_app_assoc (a b c : string) :
  ((a ++ b) ++ c = a ++ (b ++ c))%string.
Proof. induction a as [|x a IH]; simpl; [reflexivity|now rewrite IH]. Qed.

Lemma string_app_empty_r (a : string) : (a ++ "")%string = a.
Proof. induction a as [|x a IH]; simpl; [reflexivity|now rewrite IH]. Qed.

(** The loop of [parse_entry], exactly: it appends the values of the run of
    WORD and SPACE tokens at the cursor and stops one past the token that
    ends the run, or at the end of the tokens. *)
Lemma parse_entry_loop_exact (fuel : nat) :
  forall (entry : string) (p : LogsParser),
    wf p -> _size p - _pos p <= Z.of_nat fuel ->
    parse_entry_loop fuel entry p
    = Ret (entry ++ values (entry_run (remaining p)))%string
          (at_position p
             (Z.min (_pos p + Z.of_nat (List.length (entry_run (remaining p))) + 1)
                    (_size p))).
Proof.
  induction fuel as [|fuel IH]; intros entry p Hwf Hfuel.
  - assert (He : _pos p = _size p) by (destruct Hwf; lia).
    simpl. replace (_pos p <? _size p) with false
      by (symmetry; apply Z.ltb_ge; lia).
    rewrite (remaining_at_end p Hwf He). simpl.
    rewrite string_app_empty_r, Z.min_r by lia.
    now rewrite <- He, at_position_same.
  - simpl. destruct (_pos p <? _size p) eqn:Hlt.
    + apply Z.ltb_lt in Hlt.
      destruct (get_current_token_in_range p Hwf Hlt) as [t [Hc Hg]].
      pose proof Hwf as [Hs Hp].
      unfold bind at 1. rewrite Hg.
      unfold bind at 1. unfold position at 1.
      unfold bind at 1. rewrite set_position_in_range by lia.
      rewrite (remaining_cons p t) by (auto; lia). simpl entry_run.
      destruct (is_word_or_space t) eqn:Ew; cbn [negb].
      * rewrite IH.
        -- cbn [_pos _size at_position List.length values].
           rewrite string_app_assoc. f_equal. unfold at_position. simpl.
           f_equal. lia.
        -- apply wf_at_position; auto; lia.
        -- simpl. lia.
      * unfold ret. simpl. rewrite string_app_empty_r.
        f_equal. f_equal. lia.
    + apply Z.ltb_ge in Hlt.
      assert (He : _pos p = _size p) by (destruct Hwf; lia).
      rewrite (remaining_at_end p Hwf He). simpl.
      rewrite string_app_empty_r, Z.min_r by lia.
      now rewrite <- He, at_position_same.
Qed.

Lemma parse_entry_exact (p : LogsParser) :
  wf p ->
  parse_entry p
  = Ret (nonempty (values (entry_run (remaining p))))
        (at_position p
           (Z.min (_pos p + Z.of_nat (List.length (entry_run (remaining p))) + 1)
                  (_size p))).
Proof.
  intros Hwf. unfold parse_entry, bind.
  rewrite parse_entry_loop_exact; auto.
  destruct Hwf. lia.
Qed.

Lemma nth_error_remaining (p : LogsParser) (n : nat) :
  0 <= _pos p ->
  nth_error (remaining p) n = nth_error (_tokens p) (Z.to_nat (_pos p + Z.of_nat n)).
Proof.
  intros Hp. unfold remaining. rewrite nth_error_skipn. f_equal. lia.
Qed.

(** C10. [parse_entry] consumes the token that ends the entry. From a
    well-formed state, with [run] the WORD and SPACE tokens at the cursor
    and [stop] the index right after them: the call returns the concatenated
    values of [run], or no value when that text is empty; when there is a
    token at [stop] (the first that is neither WORD nor SPACE, for example
    the NEWLINE that ends the line) the cursor is left at [stop + 1], one
    past it, so that an [eat] that follows looks at the token at
    [stop + 1]; when the tokens end with the run the cursor is left at
    [size]. *)
Theorem parse_entry_consumes_terminator (p : LogsParser) :
  wf p ->
  let run := entry_run (remaining p) in
  let stop := _pos p + Z.of_nat (List.length run) in
  Forall (fun t => is_word_or_space t = true) run
  /\ run = firstn (List.length run) (remaining p)
  /\ (forall t, nth_error (_tokens p) (Z.to_nat stop) = Some t ->
        is_word_or_space t = false
        /\ parse_entry p = Ret (nonempty (values run)) (at_position p (stop + 1))
        /\ current (at_position p (stop + 1))
           = nth_error (_tokens p) (Z.to_nat (stop + 1))
        /\ forall ty v,
             (parse_entry ;;; eat ty v) p = eat ty v (at_position p (stop + 1)))
  /\ (nth_error (_tokens p) (Z.to_nat stop) = None ->
        parse_entry p = Ret (nonempty (values run)) (at_position p (_size p))).
Proof.
  intros Hwf run stop. pose proof Hwf as [Hs Hp].
  split; [apply entry_run_word_or_space|].
  split; [apply entry_run_prefix|].
  split.
  - intros t Ht.
    assert (Hlt : stop < _size p).
    { assert (nth_error (_tokens p) (Z.to_nat stop) <> None)
        by (rewrite Ht; discriminate).
      apply nth_error_Some in H. unfold stop in *. lia. }
    assert (He : parse_entry p
                 = Ret (nonempty (values run)) (at_position p (stop + 1))).
    { rewrite parse_entry_exact by exact Hwf. fold run. fold stop.
      rewrite Z.min_l by lia. reflexivity. }
    split.
    + apply (entry_run_stop (remaining p)).
      rewrite nth_error_remaining by lia. exact Ht.
    + split; [exact He|]. split; [reflexivity|].
      intros ty v. unfold bind. now rewrite He.
  - intros Hn. apply nth_error_None in Hn.
    rewrite parse_entry_exact by exact Hwf. fold run. fold stop.
    rewrite Z.min_r; [reflexivity|].
    unfold stop in *. lia.
Qed.

(** A use of C10 on the tokens of [Host: a b], a newline and a following
    [User:]. *)
Lemma parse_entry_consumes_terminator_witness :
  let toks := [mkToken HOST_PREFIX "Host:" 1 0; mkToken SPACE " " 1 5;
               mkToken WORD "a" 1 6; mkToken SPACE " " 1 7;
               mkToken WORD "b" 1 8; mkToken NEWLINE "" 1 9;
               mkToken USER_PREFIX "User:" 1 10] in
  let p := mkParser 2 7 toks [] in
  parse_entry p = Ret (Some "a b") (at_position p 6)
  /\ (parse_entry ;;; eat NEWLINE None) p = Ret None (at_position p 6).
Proof.
  intros toks p.
  assert (Hwf : wf p) by (split; simpl; lia).
  destruct (parse_entry_consumes_terminator p Hwf) as [_ [_ [H _]]].
  destruct (H (mkToken NEWLINE "" 1 9) eq_refl) as [_ [He [_ Hb]]].
  split; [exact He|].
  rewrite Hb. reflexivity.
Defined.

(* ===================================================================== *)
(** * Invariants of the grammar engines *)
(* ===================================================================== *)

Lemma hoare_ret {A} (P : LogsParser -> Prop) (a : A)
    (Q : A -> LogsParser -> Prop) :
  (forall p, P p -> Q a p) -> hoare P (ret a) Q.
Proof. intros H p Hp. simpl. now apply H. Qed.

Lemma hoare_bind {A B} (P : LogsParser -> Prop) (m : M A) (f : A -> M B)
    (Q : A -> LogsParser -> Prop) (R : B -> LogsParser -> Prop) :
  hoare P m Q -> (forall a, hoare (Q a) (f a) R) -> hoare P (bind m f) R.
Proof.
  intros Hm Hf p Hp. unfold bind. specialize (Hm p Hp).
  destruct (m p) as [a p'|e p'|]; auto. now apply Hf.
Qed.

Lemma hoare_weaken {A} (P P' : LogsParser -> Prop) (m : M A)
    (Q Q' : A -> LogsParser -> Prop) :
  hoare P' m Q' -> (forall p, P p -> P' p) -> (forall a p, Q' a p -> Q a p) ->
  hoare P m Q.
Proof.
  intros Hm HP HQ p Hp. specialize (Hm p (HP p Hp)).
  destruct (m p); auto.
Qed.

Lemma hoare_post {A} (P : LogsParser -> Prop) (m : M A)
    (Q Q' : A -> LogsParser -> Prop) :
  hoare P m Q' -> (forall a p, Q' a p -> Q a p) -> hoare P m Q.
Proof. intros Hm HQ. eapply hoare_weaken; eauto. Qed.

Lemma hoare_pre {A} (P P' : LogsParser -> Prop) (m : M A)
    (Q : A -> LogsParser -> Prop) :
  hoare P' m Q -> (forall p, P p -> P' p) -> hoare P m Q.
Proof. intros Hm HP. eapply hoare_weaken; eauto. Qed.

Lemma hoare_raise_ValueError {A} (P : LogsParser -> Prop)
    (Q : A -> LogsParser -> Prop) :
  hoare P (raise ValueError) Q.
Proof. intros p _. reflexivity. Qed.

Lemma hoare_false {A} (m : M A) (Q : A -> LogsParser -> Prop) :
  hoare (fun _ => False) m Q.
Proof. intros p []. Qed.

Lemma inv_wf ts out lo p : inv ts out lo p -> wf p.
Proof. intros (Ht & _ & Hs & Hlo & Hp). split; [now rewrite Ht|lia]. Qed.

Lemma inv_weaken ts out lo lo' p :
  lo' <= lo -> inv ts out lo p -> inv ts out lo' p.
Proof. unfold inv. intuition lia. Qed.

Lemma inv_step_back ts out lo p : inv ts out (lo + 1) p -> inv ts out lo p.
Proof. unfold inv. intuition lia. Qed.

Lemma inv_at_cursor ts out lo p : inv ts out lo p -> inv ts out (_pos p) p.
Proof. unfold inv. intuition lia. Qed.

Lemma inv_bound ts out lo p :
  inv ts out lo p ->
  0 <= _pos p /\ lo <= _pos p /\ _pos p <= Z.of_nat (List.length ts).
Proof. unfold inv. intuition lia. Qed.

(** A loop run with the fuel the state gives it: it is enough that the loop
    is correct from every cursor position with the fuel supplied there. *)
Lemma hoare_fuel_here {A} (f : nat -> M A) (g : LogsParser -> nat)
    ts out lo (Q : A -> LogsParser -> Prop) :
  (forall p, inv ts out lo p -> hoare (inv ts out (_pos p)) (f (g p)) Q) ->
  hoare (inv ts out lo) (fun p => f (g p) p) Q.
Proof.
  intros H p Hp. apply (H p Hp p). now apply inv_at_cursor with lo.
Qed.

Lemma eat_hoare ty v ts out lo :
  hoare (inv ts out lo) (eat ty v)
    (fun r p' => if is_some r then inv ts out (lo + 1) p' else inv ts out lo p').
Proof.
  intros p Hp. pose proof (inv_wf _ _ _ _ Hp) as Hwf.
  destruct (eat_cases ty v p Hwf) as [[t [_ [_ [_ [Hlt ->]]]]] | [-> _]]; simpl.
  - unfold inv in *. simpl. intuition lia.
  - exact Hp.
Qed.

Lemma eat_or_hoare ty1 v1 ty2 v2 ts out lo :
  hoare (inv ts out lo) (eat_or (eat ty1 v1) (eat ty2 v2))
    (fun r p' => if is_some r then inv ts out (lo + 1) p' else inv ts out lo p').
Proof.
  unfold eat_or. eapply hoare_bind; [apply eat_hoare|].
  intros [t|]; simpl.
  - now apply hoare_ret.
  - apply eat_hoare.
Qed.

Lemma eat_hoare_steady ty v ts out lo :
  hoare (inv ts out lo) (eat ty v) (fun _ => inv ts out lo).
Proof.
  eapply hoare_post; [apply eat_hoare|].
  intros [t|] p; simpl; [apply inv_step_back|auto].
Qed.

Lemma parse_entry_hoare ts out lo :
  hoare (inv ts out lo) parse_entry (fun _ => inv ts out lo).
Proof.
  intros p Hp. rewrite parse_entry_exact by (eapply inv_wf; eauto).
  unfold inv in *. simpl. intuition lia.
Qed.

(** The loops that eat tokens of two types as long as one is there. *)
Lemma skip_header_loop_hoare fuel : forall ts out lo,
  Z.of_nat (List.length ts) - lo < Z.of_nat fuel ->
  hoare (inv ts out lo) (skip_header_loop fuel) (fun _ => inv ts out lo).
Proof.
  induction fuel as [|fuel IH]; intros ts out lo Hf.
  - intros p Hp. pose proof (inv_bound _ _ _ _ Hp). lia.
  - simpl. eapply hoare_bind; [apply eat_or_hoare|].
    intros [t|]; simpl.
    + eapply hoare_post; [apply IH; lia|]. intros ? p. apply inv_step_back.
    + now apply hoare_ret.
Qed.

Lemma skip_profile_loop_hoare fuel : forall ts out lo,
  Z.of_nat (List.length ts) - lo < Z.of_nat fuel ->
  hoare (inv ts out lo) (skip_profile_loop fuel) (fun _ => inv ts out lo).
Proof.
  induction fuel as [|fuel IH]; intros ts out lo Hf.
  - intros p Hp. pose proof (inv_bound _ _ _ _ Hp). lia.
  - simpl. eapply hoare_bind; [apply eat_or_hoare|].
    intros [t|]; simpl.
    + eapply hoare_post; [apply IH; lia|]. intros ? p. apply inv_step_back.
    + now apply hoare_ret.
Qed.

Lemma skip_blank_loop_hoare fuel : forall ts out lo,
  Z.of_nat (List.length ts) - lo < Z.of_nat fuel ->
  hoare (inv ts out lo) (skip_blank_loop fuel) (fun _ => inv ts out lo).
Proof.
  induction fuel as [|fuel IH]; intros ts out lo Hf.
  - intros p Hp. pose proof (inv_bound _ _ _ _ Hp). lia.
  - simpl. eapply hoare_bind; [apply eat_or_hoare|].
    intros [t|]; simpl.
    + eapply hoare_post; [apply IH; lia|]. intros ? p. apply inv_step_back.
    + now apply hoare_ret.
Qed.

Lemma fuel_of_state ts out lo p :
  inv ts out lo p ->
  Z.of_nat (List.length ts) - _pos p < Z.of_nat (S (Z.to_nat (_size p - _pos p))).
Proof. unfold inv. intuition lia. Qed.

Lemma skip_blank_hoare ts out lo :
  hoare (inv ts out lo) skip_blank (fun _ => inv ts out lo).
Proof.
  unfold skip_blank.
  apply (hoare_fuel_here skip_blank_loop
           (fun p => S (Z.to_nat (_size p - _pos p)))).
  intros p Hp. eapply hoare_post.
  - apply skip_blank_loop_hoare. eapply fuel_of_state; eauto.
  - intros ? q. apply inv_weaken. pose proof (inv_bound _ _ _ _ Hp). lia.
Qed.

Lemma skip_profile_line_hoare ts out lo :
  hoare (inv ts out lo) skip_profile_line (fun _ => inv ts out lo).
Proof.
  unfold skip_profile_line. eapply hoare_bind; [apply eat_hoare_steady|].
  intros [t|]; simpl.
  - apply (hoare_fuel_here skip_profile_loop
             (fun p => S (Z.to_nat (_size p - _pos p)))).
    intros p Hp. eapply hoare_post.
    + apply skip_profile_loop_hoare. eapply fuel_of_state; eauto.
    + intros ? q. apply inv_weaken. pose proof (inv_bound _ _ _ _ Hp). lia.
  - now apply hoare_ret.
Qed.

Lemma skip_header_line_hoare ts out lo :
  hoare (inv ts out lo) skip_header_line
    (fun b p' => if b then inv ts out (lo + 1) p' else inv ts out lo p').
Proof.
  unfold skip_header_line. eapply hoare_bind; [apply eat_or_hoare|].
  intros [t|]; simpl.
  - eapply hoare_bind.
    + apply (hoare_fuel_here skip_header_loop
               (fun p => S (Z.to_nat (_size p - _pos p)))).
      intros p Hp. eapply hoare_post.
      * apply skip_header_loop_hoare. eapply fuel_of_state; eauto.
      * intros ? q Hq. apply inv_weaken with (lo' := lo + 1) in Hq; [exact Hq|].
        pose proof (inv_bound _ _ _ _ Hp). lia.
    + intros ?. eapply hoare_bind; [apply eat_hoare_steady|].
      intros nl. apply hoare_ret. intros p Hp.
      destruct (is_some nl); [exact Hp|now apply inv_step_back].
  - now apply hoare_ret.
Qed.

Lemma skip_seller_loop_hoare fuel : forall ts out lo,
  Z.of_nat (List.length ts) - lo < Z.of_nat fuel ->
  hoare (inv ts out lo) (skip_seller_loop fuel) (fun _ => inv ts out lo).
Proof.
  induction fuel as [|fuel IH]; intros ts out lo Hf.
  - intros p Hp. pose proof (inv_bound _ _ _ _ Hp). lia.
  - simpl. eapply hoare_bind; [apply eat_hoare_steady|].
    intros sp. eapply hoare_bind.
    { instantiate (1 := fun _ => inv ts out lo).
      destruct (is_some sp).
      - eapply hoare_bind; [apply parse_entry_hoare|].
        intros ?. now apply hoare_ret.
      - now apply hoare_ret. }
    intros ?. eapply hoare_bind; [apply eat_hoare_steady|].
    intros ?. eapply hoare_bind; [apply eat_or_hoare|].
    intros [t|]; simpl.
    + eapply hoare_post; [apply IH; lia|]. intros ? p. apply inv_step_back.
    + now apply hoare_ret.
Qed.

Lemma skip_seller_block_hoare ts out lo :
  hoare (inv ts out lo) skip_seller_block (fun _ => inv ts out lo).
Proof.
  unfold skip_seller_block. eapply hoare_bind; [apply eat_hoare_steady|].
  intros [t|]; simpl.
  - eapply hoare_bind with (Q := fun _ => inv ts out lo).
    + apply (hoare_fuel_here skip_seller_loop
               (fun p => S (Z.to_nat (_size p - _pos p)))).
      intros p Hp. eapply hoare_post.
      * apply skip_seller_loop_hoare. eapply fuel_of_state; eauto.
      * intros ? q. apply inv_weaken. pose proof (inv_bound _ _ _ _ Hp). lia.
    + intros ?. now apply hoare_ret.
  - now apply hoare_ret.
Qed.

Lemma hoare_pure {A} (phi : Prop) (P : LogsParser -> Prop) (m : M A)
    (Q : A -> LogsParser -> Prop) :
  (phi -> hoare P m Q) -> hoare (fun p => P p /\ phi) m Q.
Proof. intros H p [Hp Hphi]. now apply H. Qed.

Lemma position_hoare ts out lo :
  hoare (inv ts out lo) position
    (fun cur p' => inv ts out lo p'
                   /\ (0 <= cur /\ lo <= cur <= Z.of_nat (List.length ts))).
Proof.
  intros p Hp. simpl. split; [exact Hp|].
  pose proof (inv_bound _ _ _ _ Hp). lia.
Qed.

Lemma set_position_hoare ts out lo lo' z :
  0 <= z <= Z.of_nat (List.length ts) -> lo' <= z ->
  hoare (inv ts out lo) (set_position z) (fun _ => inv ts out lo').
Proof.
  intros Hz Hlo p Hp. unfold inv in Hp.
  rewrite set_position_in_range by lia.
  unfold inv. simpl. intuition lia.
Qed.

(** Stepping the cursor back by one after a successful [eat]. *)
Lemma step_back_hoare ts out lo :
  0 <= lo ->
  hoare (inv ts out (lo + 1))
    (pos <- position ;; set_position (pos - 1)) (fun _ => inv ts out lo).
Proof.
  intros Hlo. eapply hoare_bind; [apply position_hoare|].
  intros cur. cbv beta. apply hoare_pure. intros H.
  apply set_position_hoare; lia.
Qed.

Lemma parse_multiline_loop_hoare fuel : forall ts out lo entry,
  Z.of_nat (List.length ts) - lo <= Z.of_nat fuel ->
  hoare (inv ts out lo) (parse_multiline_loop fuel entry)
    (fun _ => inv ts out lo).
Proof.
  induction fuel as [|fuel IH]; intros ts out lo entry Hf p Hp;
    pose proof (inv_bound _ _ _ _ Hp) as Hb; simpl;
    destruct (_pos p <? _size p) eqn:Hlt; try exact Hp.
  - apply Z.ltb_lt in Hlt. unfold inv in Hp. lia.
  - assert (Hh : hoare (inv ts out lo)
                   (token <- eat_or (eat WORD None) (eat NEWLINE None) ;;
                    match token with
                    | None => ret entry
                    | Some t =>
                        parse_multiline_loop fuel
                          (if TokenType_eqb (tok_type t) WORD
                           then (entry ++ tok_value t)%string else entry)
                    end) (fun _ => inv ts out lo)).
    { eapply hoare_bind; [apply eat_or_hoare|].
      intros [t|]; simpl.
      - eapply hoare_post; [apply IH; lia|].
        intros ? q. apply inv_step_back.
      - now apply hoare_ret. }
    exact (Hh p Hp).
Qed.

Section PasswordGrammarInvariants.

Variable b64decode_text : string -> option string.
Variable hostname_of_url : string -> url_result.

Lemma parse_multiline_entry_hoare ts out lo :
  hoare (inv ts out lo) (parse_multiline_entry b64decode_text)
    (fun _ => inv ts out lo).
Proof.
  intros p Hp. unfold parse_multiline_entry.
  assert (Hh : hoare (inv ts out (_pos p))
                 (parse_multiline_loop (Z.to_nat (_size p - _pos p)) "")
                 (fun _ => inv ts out lo)).
  { eapply hoare_post.
    - apply parse_multiline_loop_hoare. unfold inv in Hp. lia.
    - intros ? q. apply inv_weaken. pose proof (inv_bound _ _ _ _ Hp). lia. }
  refine (hoare_bind _ _ _ _ _ Hh _ p (inv_at_cursor _ _ _ _ Hp)).
  intros [|c s]; [now apply hoare_ret|].
  destruct (b64decode_text (String c s)); now apply hoare_ret.
Qed.

Lemma extract_credential_domain_name_hoare (P : LogsParser -> Prop) c :
  hoare P (extract_credential_domain_name hostname_of_url c) (fun _ => P).
Proof.
  unfold extract_credential_domain_name.
  destruct (negb (truthy (host c))); [now apply hoare_ret|].
  destruct (host c) as [h|]; [|now apply hoare_ret].
  destruct (hostname_of_url h) as [|hn]; [apply hoare_raise_ValueError|].
  destruct (truthy hn); now apply hoare_ret.
Qed.

Lemma parse_software_line_hoare ts out lo c :
  0 <= lo ->
  hoare (inv ts out lo) (parse_software_line c) (rule_post ts out lo c).
Proof.
  intros Hlo. unfold parse_software_line.
  eapply hoare_bind; [apply eat_hoare|].
  intros [t|]; simpl.
  - eapply hoare_bind; [apply eat_hoare_steady|].
    intros sp.
    eapply hoare_bind with (Q := fun _ => inv ts out (lo + 1)).
    { destruct (is_some sp).
      - eapply hoare_bind; [apply parse_entry_hoare|].
        intros e. now apply hoare_ret.
      - now apply hoare_ret. }
    intros c1. eapply hoare_bind; [apply eat_hoare_steady|].
    intros ?. eapply hoare_bind; [apply skip_profile_line_hoare|].
    intros ?. now apply hoare_ret.
  - eapply hoare_bind; [apply eat_hoare|].
    intros [t|]; simpl.
    + destruct (re_match no_flags SPECIAL_SOFT_PATTERN (tok_value t)).
      * eapply hoare_bind; [apply eat_hoare_steady|].
        intros ?. now apply hoare_ret.
      * eapply hoare_bind; [apply position_hoare|].
        intros cur. cbv beta. apply hoare_pure. intros H.
        eapply hoare_bind; [apply set_position_hoare with (lo' := lo); lia|].
        intros ?. apply hoare_ret. intros p Hp. split; [exact Hp|reflexivity].
    + apply hoare_ret. intros p Hp. split; [exact Hp|reflexivity].
Qed.

Lemma parse_host_line_hoare ts out lo c :
  hoare (inv ts out lo) (parse_host_line hostname_of_url c)
    (rule_post ts out lo c).
Proof.
  unfold parse_host_line.
  eapply hoare_bind; [apply eat_hoare|].
  intros [t|]; simpl.
  - eapply hoare_bind; [apply eat_hoare_steady|].
    intros sp.
    eapply hoare_bind with (Q := fun _ => inv ts out (lo + 1)).
    { destruct (is_some sp).
      - eapply hoare_bind; [apply parse_entry_hoare|].
        intros e. apply extract_credential_domain_name_hoare.
      - now apply hoare_ret. }
    intros c1. eapply hoare_bind; [apply eat_hoare_steady|].
    intros ?. now apply hoare_ret.
  - apply hoare_ret. intros p Hp. split; [exact Hp|reflexivity].
Qed.

Lemma parse_user_line_hoare ts out lo c :
  hoare (inv ts out lo) (parse_user_line c) (rule_post ts out lo c).
Proof.
  unfold parse_user_line.
  eapply hoare_bind; [apply eat_hoare|].
  intros [t|]; simpl.
  - eapply hoare_bind; [apply eat_hoare_steady|].
    intros sp.
    eapply hoare_bind with (Q := fun _ => inv ts out (lo + 1)).
    { destruct (is_some sp).
      - eapply hoare_bind; [apply parse_entry_hoare|].
        intros e. now apply hoare_ret.
      - now apply hoare_ret. }
    intros c1. eapply hoare_bind; [apply eat_hoare_steady|].
    intros ?. now apply hoare_ret.
  - apply hoare_ret. intros p Hp. split; [exact Hp|reflexivity].
Qed.

Lemma parse_password_line_hoare ts out lo c :
  hoare (inv ts out lo) (parse_password_line b64decode_text c)
    (rule_post ts out lo c).
Proof.
  unfold parse_password_line.
  eapply hoare_bind; [apply eat_hoare|].
  intros [t|]; simpl.
  - eapply hoare_bind; [apply eat_hoare_steady|].
    intros [sp|]; simpl; [|now apply hoare_ret].
    eapply hoare_bind; [apply position_hoare|].
    intros cur. cbv beta. apply hoare_pure. intros Hcur.
    eapply hoare_bind; [apply parse_entry_hoare|].
    intros pw. eapply hoare_bind; [apply eat_hoare_steady|].
    intros nl.
    eapply hoare_bind with (Q := fun _ => inv ts out (lo + 1)).
    { destruct (is_some nl); [now apply hoare_ret|].
      eapply hoare_bind; [apply eat_hoare_steady|].
      intros w. now apply hoare_ret. }
    intros special.
    eapply hoare_bind with (Q := fun _ => inv ts out (lo + 1)).
    { destruct special; [|now apply hoare_ret].
      eapply hoare_bind;
        [apply set_position_hoare with (lo' := lo + 1); lia|].
      intros ?. apply parse_multiline_entry_hoare. }
    intros pw'. now apply hoare_ret.
  - apply hoare_ret. intros p Hp. split; [exact Hp|reflexivity].
Qed.

Lemma call_hoare ts out lo f c :
  0 <= lo ->
  hoare (inv ts out lo) (call b64decode_text hostname_of_url f c)
    (rule_post ts out lo c).
Proof.
  intros Hlo. destruct f; simpl.
  - now apply parse_software_line_hoare.
  - apply parse_host_line_hoare.
  - apply parse_user_line_hoare.
  - apply parse_password_line_hoare.
Qed.

End PasswordGrammarInvariants.

(* ===================================================================== *)
(** * The active rule set *)
(* ===================================================================== *)

Lemma ParsingFunc_eqb_eq (a b : ParsingFunc) :
  ParsingFunc_eqb a b = true <-> a = b.
Proof. destruct a, b; simpl; split; congruence. Qed.

Lemma list_in_In (f : ParsingFunc) (l : list ParsingFunc) :
  list_in f l = true <-> In f l.
Proof.
  unfold list_in. rewrite existsb_exists. split.
  - intros [x [Hx He]]. apply ParsingFunc_eqb_eq in He. now subst.
  - intros H. exists f. split; [exact H|]. now apply ParsingFunc_eqb_eq.
Qed.

Lemma list_remove_In (x y : ParsingFunc) (l : list ParsingFunc) :
  In y (list_remove x l) -> In y l.
Proof.
  induction l as [|z l IH]; simpl; [auto|].
  destruct (ParsingFunc_eqb z x); simpl; intuition.
Qed.

Lemma list_remove_NoDup (x : ParsingFunc) (l : list ParsingFunc) :
  NoDup l -> NoDup (list_remove x l).
Proof.
  induction 1 as [|z l Hz Hl IH]; simpl; [constructor|].
  destruct (ParsingFunc_eqb z x); [exact Hl|].
  constructor; [|exact IH]. intros H. apply Hz. eapply list_remove_In; eauto.
Qed.

Lemma list_remove_length (x : ParsingFunc) (l : list ParsingFunc) :
  In x l -> S (List.length (list_remove x l)) = List.length l.
Proof.
  induction l as [|z l IH]; simpl; [intros []|].
  destruct (ParsingFunc_eqb z x) eqn:E; [reflexivity|].
  intros [H|H].
  - subst. assert (ParsingFunc_eqb x x = true) by now apply ParsingFunc_eqb_eq.
    congruence.
  - simpl. now rewrite IH.
Qed.

Lemma filter_split_length {A} (f : A -> bool) (l : list A) :
  (List.length (filter f l) + List.length (filter (fun x => negb (f x)) l)
   = List.length l)%nat.
Proof.
  induction l as [|x l IH]; simpl; [reflexivity|].
  destruct (f x); simpl; lia.
Qed.

Lemma all_rules_complete (f : ParsingFunc) : In f all_rules.
Proof. destruct f; simpl; auto. Qed.

Lemma all_rules_NoDup : NoDup all_rules.
Proof.
  unfold all_rules.
  repeat constructor; simpl; intuition discriminate.
Qed.

(** In a duplicate-free rule list, the rules that are gone and the rules
    that are left are four together. *)
Lemma matched_rules_count (funcs : list ParsingFunc) :
  NoDup funcs ->
  (List.length (matched_rules funcs) + List.length funcs = 4)%nat.
Proof.
  intros Hnd.
  assert (Hl : List.length funcs
               = List.length (filter (fun f => list_in f funcs) all_rules)).
  { apply Permutation_length. apply NoDup_Permutation.
    - exact Hnd.
    - apply NoDup_filter, all_rules_NoDup.
    - intros f. rewrite filter_In, list_in_In.
      split; [intros H; split; [apply all_rules_complete|exact H]|tauto]. }
  unfold matched_rules. rewrite Hl.
  pose proof (filter_split_length (fun f => list_in f funcs) all_rules) as H.
  simpl List.length in H at 3. lia.
Qed.

Section PasswordBlockInvariants.

Variable b64decode_text : string -> option string.
Variable hostname_of_url : string -> url_result.

Local Abbreviation parse_line_from := (parse_line_from b64decode_text hostname_of_url).
Local Abbreviation parse_line := (parse_line b64decode_text hostname_of_url).
Local Abbreviation parse_lines := (parse_lines b64decode_text hostname_of_url).
Local Abbreviation parse_user_block := (parse_user_block b64decode_text hostname_of_url).
Local Abbreviation parse_passwords_step :=
  (parse_passwords_step b64decode_text hostname_of_url).
Local Abbreviation parse_passwords_loop :=
  (parse_passwords_loop b64decode_text hostname_of_url).
Local Abbreviation parse_passwords_tokens :=
  (parse_passwords_tokens b64decode_text hostname_of_url).
Local Abbreviation parse_passwords := (parse_passwords b64decode_text hostname_of_url).

(** [parse_line]: a match moves the cursor on and removes one function that
    was in the list; no match leaves the cursor, the list and the credential
    as they were. *)
Lemma parse_line_from_hoare ts out lo funcs : forall todo c,
  0 <= lo ->
  hoare (inv ts out lo) (parse_line_from todo funcs c)
    (fun r p' =>
       if fst (fst r)
       then inv ts out (lo + 1) p'
            /\ exists f, In f todo /\ snd (fst r) = list_remove f funcs
       else inv ts out lo p' /\ snd (fst r) = funcs /\ snd r = c).
Proof.
  induction todo as [|f todo IH]; intros c Hlo; simpl.
  - apply hoare_ret. intros p Hp. simpl. auto.
  - eapply hoare_bind; [apply call_hoare; exact Hlo|].
    intros [ok c1]. unfold rule_post. simpl.
    destruct ok.
    + eapply hoare_bind; [apply skip_blank_hoare|].
      intros ?. apply hoare_ret. intros p Hp. simpl.
      split; [exact Hp|]. exists f. auto.
    + apply hoare_pure. intros ->.
      eapply hoare_post; [apply IH; exact Hlo|].
      intros [[ok funcs'] c'] p. simpl.
      destruct ok; [|auto].
      intros [Hp [g [Hg He]]]. split; [exact Hp|]. exists g. auto.
Qed.

Lemma parse_lines_hoare ts out fuel : forall funcs c lo,
  (List.length funcs < fuel)%nat -> NoDup funcs -> 0 <= lo ->
  hoare (inv ts out lo) (parse_lines fuel funcs c)
    (fun r p' =>
       NoDup (fst r)
       /\ ((fst r = funcs /\ snd r = c /\ inv ts out lo p')
           \/ (inv ts out (lo + 1) p'
               /\ (List.length (fst r) < List.length funcs)%nat))).
Proof.
  induction fuel as [|fuel IH]; intros funcs c lo Hf Hnd Hlo; [lia|].
  simpl. eapply hoare_bind; [apply parse_line_from_hoare; exact Hlo|].
  intros [[ok funcs'] c']. simpl. destruct ok.
  - intros p [Hp [f [Hin ->]]].
    pose proof (list_remove_length f funcs Hin) as Hlen.
    assert (Hh : hoare (inv ts out (lo + 1))
                   (parse_lines fuel (list_remove f funcs) c')
                   (fun r p' =>
                      NoDup (fst r)
                      /\ ((fst r = funcs /\ snd r = c /\ inv ts out lo p')
                          \/ (inv ts out (lo + 1) p'
                              /\ (List.length (fst r) < List.length funcs)%nat)))).
    { eapply hoare_post.
      - apply IH; [lia|now apply list_remove_NoDup|lia].
      - intros [funcs2 c2] q. simpl.
        intros [Hnd2 [[-> [-> Hq]]|[Hq Hl]]]; (split; [exact Hnd2|]); right.
        + split; [exact Hq|lia].
        + split; [now apply inv_step_back|lia]. }
    exact (Hh p Hp).
  - apply hoare_ret. intros p [Hp [-> ->]]. simpl. auto.
Qed.

(** [parse_user_block] is its rule loop followed by the acceptance test. *)
Lemma parse_user_block_unfold filename p :
  parse_user_block filename p
  = match parse_lines 5 all_rules Credential_new p with
    | Ret (funcs, c) p1 =>
        if Credential_any c
        then Ret true (with_output p1 (finished_credential filename funcs c))
        else Ret (Z.of_nat (List.length funcs) <? 2) p1
    | Raise e p1 => Raise e p1
    | Timeout => Timeout
    end.
Proof.
  unfold parse_user_block, bind. simpl List.length. fold all_rules.
  destruct (parse_lines 5 all_rules Credential_new p) as [[funcs c] p1|e p1|];
    try reflexivity.
  destruct (Credential_any c); reflexivity.
Qed.

Lemma parse_user_block_hoare filename ts lo :
  0 <= lo ->
  hoare (invx ts lo) (parse_user_block filename)
    (fun b p' => if b then invx ts (lo + 1) p' else invx ts lo p').
Proof.
  intros Hlo p [out Hp]. rewrite parse_user_block_unfold.
  pose proof (parse_lines_hoare ts out 5 all_rules Credential_new lo
                ltac:(simpl; lia) all_rules_NoDup Hlo p Hp) as H.
  destruct (parse_lines 5 all_rules Credential_new p) as [[funcs c] p1|e p1|];
    [|exact H|exact H].
  simpl in H. destruct H as [Hnd [[-> [-> Hp1]]|[Hp1 Hl]]].
  - simpl. now exists out.
  - destruct (Credential_any c).
    + exists (out ++ [finished_credential filename funcs c]).
      unfold inv in *. simpl. intuition congruence.
    + destruct (Z.of_nat (List.length funcs) <? 2).
      * now exists out.
      * exists out. now apply inv_step_back.
Qed.

Lemma hoare_any_output {A} ts lo (m : M A) (Q : A -> LogsParser -> Prop) :
  (forall out, hoare (inv ts out lo) m Q) -> hoare (invx ts lo) m Q.
Proof. intros H p [out Hp]. exact (H out p Hp). Qed.

Lemma invx_step_back ts lo p : invx ts (lo + 1) p -> invx ts lo p.
Proof. intros [out H]. exists out. now apply inv_step_back. Qed.

Lemma hoare_keep_output {A} ts lo lo' (m : M A) :
  (forall out, hoare (inv ts out lo) m (fun _ => inv ts out lo')) ->
  hoare (invx ts lo) m (fun _ => invx ts lo').
Proof.
  intros H p [out Hp]. specialize (H out p Hp).
  destruct (m p); auto. now exists out.
Qed.

Lemma parse_passwords_step_hoare filename parsed_seller ts lo :
  0 <= lo ->
  hoare (invx ts lo) (parse_passwords_step filename parsed_seller)
    (fun r p' => if snd r then invx ts (lo + 1) p' else invx ts lo p').
Proof.
  intros Hlo. unfold parse_passwords_step.
  eapply hoare_bind with (Q := fun _ => invx ts lo).
  { destruct (negb parsed_seller).
    - apply hoare_keep_output. intros out. apply skip_seller_block_hoare.
    - now apply hoare_ret. }
  intros ps.
  eapply hoare_bind
    with (Q := fun nl p' => if is_some nl then invx ts (lo + 1) p'
                            else invx ts lo p').
  { apply hoare_any_output. intros out.
    eapply hoare_post; [apply eat_hoare|].
    intros [t|] p Hp; simpl in *; now exists out. }
  intros [t|]; simpl; [now apply hoare_ret|].
  eapply hoare_bind
    with (Q := fun (hd : bool) p' => if hd then invx ts (lo + 1) p'
                                     else invx ts lo p').
  { apply hoare_any_output. intros out.
    eapply hoare_post; [apply skip_header_line_hoare|].
    intros [|] p Hp; simpl in *; now exists out. }
  intros [|]; [now apply hoare_ret|].
  eapply hoare_bind; [apply parse_user_block_hoare; exact Hlo|].
  intros ub. now apply hoare_ret.
Qed.

Lemma invx_bound ts lo p :
  invx ts lo p ->
  0 <= _pos p /\ lo <= _pos p /\ _pos p <= Z.of_nat (List.length ts)
  /\ _size p = Z.of_nat (List.length ts) /\ _tokens p = ts.
Proof. intros [out H]. unfold inv in H. intuition lia. Qed.

Lemma invx_at_cursor ts lo p : invx ts lo p -> invx ts (_pos p) p.
Proof. intros [out H]. exists out. now apply inv_at_cursor with lo. Qed.

Lemma invx_weaken ts lo lo' p : lo' <= lo -> invx ts lo p -> invx ts lo' p.
Proof. intros Hl [out H]. exists out. now apply inv_weaken with lo. Qed.

(** The main loop: every iteration that goes on moves the cursor, so the
    token count bounds the iterations, and the loop ends with the cursor in
    range. *)
Lemma parse_passwords_loop_hoare filename ts fuel : forall parsed_seller lo,
  0 <= lo -> Z.of_nat (List.length ts) - lo <= Z.of_nat fuel ->
  hoare (invx ts lo) (parse_passwords_loop fuel filename parsed_seller)
    (fun _ => invx ts lo).
Proof.
  induction fuel as [|fuel IH]; intros ps lo Hlo Hf p Hp;
    pose proof (invx_bound _ _ _ Hp) as Hb; simpl;
    destruct (_pos p <? _size p) eqn:Hlt; try exact Hp.
  - apply Z.ltb_lt in Hlt. lia.
  - assert (Hh : hoare (invx ts (_pos p))
                   (r <- parse_passwords_step filename ps ;;
                    if snd r then parse_passwords_loop fuel filename (fst r)
                    else ret tt) (fun _ => invx ts lo)).
    { eapply hoare_bind; [apply parse_passwords_step_hoare; lia|].
      intros [ps' [|]]; simpl.
      - eapply hoare_post; [apply IH; lia|].
        intros ? q. apply invx_weaken. lia.
      - apply hoare_ret. intros q. apply invx_weaken. lia. }
    exact (Hh p (invx_at_cursor _ _ _ Hp)).
Qed.

Lemma invx_init tokens : invx tokens 0 (LogsParser_init tokens).
Proof. exists []. unfold inv. simpl. intuition lia. Qed.

End PasswordBlockInvariants.

(* ===================================================================== *)
(** * Password grammar engine: the grammar violation and the acceptance
      policy *)
(* ===================================================================== *)

Section PasswordClaims.

Variable b64decode_text : string -> option string.
Variable hostname_of_url : string -> url_result.

Local Abbreviation parse_lines := (parse_lines b64decode_text hostname_of_url).
Local Abbreviation parse_user_block :=
  (parse_user_block b64decode_text hostname_of_url).
Local Abbreviation parse_passwords_loop :=
  (parse_passwords_loop b64decode_text hostname_of_url).
Local Abbreviation parse_passwords_tokens :=
  (parse_passwords_tokens b64decode_text hostname_of_url).
Local Abbreviation parse_passwords :=
  (parse_passwords b64decode_text hostname_of_url).

(** C2. For a password file that tokenizes, the parse loop of
    [parse_passwords] always ends (it does not run out of iterations and
    raises no out-of-range error); when it ends with the state [st], the
    cursor is in [0, size], and [parse_passwords] raises [SyntaxError] if
    and only if the cursor is strictly below the token count. The error
    carries the token under the cursor, the cursor position and the token
    count; when the cursor is at the token count, the accumulated output is
    returned. The one other way out of the loop is the [ValueError] of
    [urlparse], which [parse_passwords] lets through. *)
Theorem parse_passwords_grammar_violation
    (filename text : string) (tokens : list LexToken) :
  tokenize_passwords text = Tokens tokens ->
  match parse_passwords_loop (List.length tokens) filename false
          (LogsParser_init tokens) with
  | Ret _ st =>
      0 <= _pos st <= _size st
      /\ _size st = Z.of_nat (List.length tokens)
      /\ _tokens st = tokens
      /\ ((exists tok pos size,
             parse_passwords filename text = Raised (SyntaxError tok pos size))
          <-> _pos st < _size st)
      /\ (_pos st < _size st ->
          exists tok,
            nth_error tokens (Z.to_nat (_pos st)) = Some tok
            /\ parse_passwords filename text
               = Raised (SyntaxError tok (_pos st)
                           (Z.of_nat (List.length tokens))))
      /\ (_pos st = _size st ->
          parse_passwords filename text = Returned (_output st))
  | Raise e _ => e = ValueError /\ parse_passwords filename text = Raised ValueError
  | Timeout => False
  end.
Proof.
  intros Htok.
  pose proof (parse_passwords_loop_hoare b64decode_text hostname_of_url
                filename tokens (List.length tokens) false 0
                ltac:(lia) ltac:(lia) _ (invx_init tokens)) as H.
  unfold parse_passwords, parse_passwords_tokens, bind. rewrite Htok.
  destruct (parse_passwords_loop (List.length tokens) filename false
              (LogsParser_init tokens)) as [[] st|e st|]; [|subst e; auto|exact H].
  apply invx_bound in H. destruct H as (H0 & _ & Hle & Hs & Ht).
  assert (Hwf : wf st) by (split; [now rewrite Ht|lia]).
  split; [lia|]. split; [exact Hs|]. split; [exact Ht|].
  unfold parse_passwords_finish.
  destruct (Z.eq_dec (_pos st) (_size st)) as [He|Hne].
  - rewrite He, Z.eqb_refl. simpl.
    split; [|split]; [|lia|reflexivity].
    split; [intros [tok [pos [sz Hx]]]; discriminate Hx|lia].
  - assert (Hlt : _pos st < _size st) by lia.
    replace (_pos st =? _size st) with false
      by (symmetry; now apply Z.eqb_neq).
    simpl. unfold bind.
    destruct (get_current_token_in_range st Hwf Hlt) as [tok [Hc Hg]].
    rewrite Hg. simpl.
    split; [|split]; [|intros _|lia].
    + split; [intros _; exact Hlt|]. intros _. now exists tok, (_pos st), (_size st).
    + exists tok. unfold current in Hc. rewrite Ht in Hc.
      split; [exact Hc|]. now rewrite Hs.
Qed.

(** C3. The acceptance policy of [parse_user_block], from a well-formed
    state. With [funcs] and [c] the rule list and the credential its rule
    loop ends with: the loop leaves the output untouched and the matched
    rules (those removed from the list) and the remaining ones are four
    together; the block returns true if and only if [c] has a populated
    field or at least three of the four rules matched; when [c] has a
    populated field it is appended to the output, once, as the last element;
    otherwise nothing is appended, and with fewer than three matched rules
    the block returns false. *)
Theorem parse_user_block_acceptance (filename : string) (p : LogsParser) :
  wf p ->
  match parse_lines 5 all_rules Credential_new p with
  | Ret (funcs, c) p1 =>
      _output p1 = _output p
      /\ (List.length (matched_rules funcs) + List.length funcs = 4)%nat
      /\ (exists b p',
            parse_user_block filename p = Ret b p'
            /\ (b = true <->
                Credential_any c = true
                \/ (3 <= List.length (matched_rules funcs))%nat)
            /\ (Credential_any c = true ->
                p' = with_output p1 (finished_credential filename funcs c)
                /\ _output p' = _output p ++ [finished_credential filename funcs c])
            /\ (Credential_any c = false -> p' = p1 /\ _output p' = _output p))
      /\ (Credential_any c = false ->
          (List.length (matched_rules funcs) < 3)%nat ->
          parse_user_block filename p = Ret false p1)
  | Raise e p1 => e = ValueError /\ parse_user_block filename p = Raise ValueError p1
  | Timeout => False
  end.
Proof.
  intros Hwf. rewrite parse_user_block_unfold.
  assert (Hinv : inv (_tokens p) (_output p) 0 p).
  { destruct Hwf as [Hs Hp]. unfold inv. intuition lia. }
  pose proof (parse_lines_hoare b64decode_text hostname_of_url
                (_tokens p) (_output p) 5 all_rules Credential_new 0
                ltac:(simpl; lia) all_rules_NoDup ltac:(lia) p Hinv) as H.
  destruct (parse_lines 5 all_rules Credential_new p) as [[funcs c] p1|e p1|];
    [|subst e; auto|exact H].
  simpl in H. destruct H as [Hnd Hcases].
  assert (Hout : _output p1 = _output p).
  { destruct Hcases as [(_ & _ & Hi)|[Hi _]]; unfold inv in Hi; tauto. }
  pose proof (matched_rules_count funcs Hnd) as Hcount.
  split; [exact Hout|]. split; [exact Hcount|].
  assert (Hlt : (Z.of_nat (List.length funcs) <? 2) = true
                <-> (3 <= List.length (matched_rules funcs))%nat).
  { rewrite Z.ltb_lt. lia. }
  destruct (Credential_any c) eqn:Hany.
  - split.
    + eexists _, _. split; [reflexivity|].
      split; [tauto|]. split; [|discriminate].
      intros _. split; [reflexivity|]. simpl. now rewrite Hout.
    + discriminate.
  - split.
    + eexists _, _. split; [reflexivity|].
      split; [|split; [discriminate|auto]].
      rewrite Hlt. split; [auto|]. intros [H|H]; [discriminate|exact H].
    + intros _ Hfew.
      destruct (Z.of_nat (List.length funcs) <? 2); [|reflexivity].
      pose proof (proj1 Hlt eq_refl). lia.
Qed.

End PasswordClaims.

(** A use of C2 on a file that leaves tokens unconsumed: the error names
    the WORD token [x] and position 4 of 14. *)
Lemma parse_passwords_grammar_violation_witness :
  tokenize_passwords keyword_password_first
  = Tokens (tokens_of (tokenize_passwords keyword_password_first))
  /\ parse_passwords no_b64decode (urlparse_hostname any_bracketed_host)
       "Passwords.txt" keyword_password_first
     = Raised (SyntaxError (mkToken WORD "x" 1 17) 4 14).
Proof.
  split; [reflexivity|].
  pose proof (parse_passwords_grammar_violation no_b64decode
                (urlparse_hostname any_bracketed_host) "Passwords.txt"
                keyword_password_first
                (tokens_of (tokenize_passwords keyword_password_first))
                eq_refl) as H.
  vm_compute in H.
  destruct H as (_ & _ & _ & _ & H & _).
  destruct (H eq_refl) as [tok [Hn Hr]].
  injection Hn as <-. vm_compute. reflexivity.
Defined.

(** A use of C3 on the example block: the credential is populated, the
    block is accepted and the credential appended. *)
Lemma parse_user_block_acceptance_witness :
  wf (LogsParser_init (tokens_of (tokenize_passwords example_passwords_text)))
  /\ exists p',
       parse_user_block no_b64decode (urlparse_hostname any_bracketed_host)
         "Passwords.txt"
         (LogsParser_init (tokens_of (tokenize_passwords example_passwords_text)))
       = Ret true p'
       /\ List.length (_output p') = 1%nat.
Proof.
  split; [apply wf_init|].
  pose proof (parse_user_block_acceptance no_b64decode
                (urlparse_hostname any_bracketed_host) "Passwords.txt"
                _ (wf_init (tokens_of (tokenize_passwords example_passwords_text))))
    as H.
  vm_compute in H.
  destruct H as (_ & _ & (b & p' & Hb & Hiff & Hap & _) & _).
  exists p'. 
  assert (b = true) as -> by (apply Hiff; left; reflexivity).
  split; [vm_compute; exact Hb|].
  destruct (Hap eq_refl) as [-> _]. reflexivity.
Defined.

(* ===================================================================== *)
(** * Tokenizers and the system grammar engine: proofs *)
(* ===================================================================== *)

Lemma length_append (a b : string) :
  String.length (a ++ b)%string = (String.length a + String.length b)%nat.
Proof. induction a as [|x a IH]; simpl; [reflexivity|now rewrite IH]. Qed.

Lemma substring_prefix (a b : string) :
  substring 0 (String.length a) (a ++ b)%string = a.
Proof.
  induction a as [|x a IH]; simpl.
  - now destruct b.
  - now rewrite IH.
Qed.

Lemma reach_trans c1 c2 c3 : reach c1 c2 -> reach c2 c3 -> reach c1 c3.
Proof.
  induction 1; intros H3; [exact H3|].
  eapply reach_next; [eassumption|]. now apply IHreach.
Qed.

Lemma reach_one c b s' :
  cur_rest c = String b s' -> reach c (mkCursor (Some b) (S (cur_idx c)) s').
Proof. intros H. eapply reach_next; [exact H|apply reach_here]. Qed.

(** A successful run of the matcher called its continuation, at a position
    it reached. *)
Lemma star_run_sound {X} (ok : ascii -> bool) (k : cursor -> option X) (x : X) :
  forall s prev idx,
    star_run ok prev idx s k = Some x ->
    exists c', reach (mkCursor prev idx s) c' /\ k c' = Some x.
Proof.
  induction s as [|a s' IH]; intros prev idx H; simpl in H.
  - eexists; split; [apply reach_here|exact H].
  - destruct (ok a).
    + destruct (star_run ok (Some a) (S idx) s' k) eqn:E.
      * injection H as ->. destruct (IH _ _ E) as [c' [Hr Hk]].
        exists c'. split; [|exact Hk].
        eapply reach_next; [reflexivity|exact Hr].
      * eexists; split; [apply reach_here|exact H].
    + eexists; split; [apply reach_here|exact H].
Qed.

Lemma cursor_eta c : mkCursor (cur_prev c) (cur_idx c) (cur_rest c) = c.
Proof. now destruct c. Qed.

Lemma re_run_sound fl (r : regex) :
  forall c g k x,
    re_run fl r c g k = Some x ->
    exists c' g', reach c c' /\ k c' g' = Some x.
Proof.
  induction r as [|a|cl|r1 IH1 r2 IH2|r1 IH1 r2 IH2|r1 IH1|cl|cl|n r1 IH1| |r1 IH1];
    intros c g k x H; simpl in H.
  - exists c, g. split; [apply reach_here|exact H].
  - destruct (cur_rest c) as [|b s'] eqn:E; [discriminate|].
    destruct (char_ok fl a b); [|discriminate].
    eexists _, g. split; [apply reach_one; exact E|exact H].
  - destruct (cur_rest c) as [|b s'] eqn:E; [discriminate|].
    destruct (class_ok fl cl b); [|discriminate].
    eexists _, g. split; [apply reach_one; exact E|exact H].
  - apply IH1 in H. destruct H as (c1 & g1 & Hr1 & H).
    apply IH2 in H. destruct H as (c2 & g2 & Hr2 & H).
    exists c2, g2. split; [eapply reach_trans; eassumption|exact H].
  - destruct (re_run fl r1 c g k) eqn:E.
    + injection H as ->. now apply IH1 in E.
    + now apply IH2 in H.
  - destruct (re_run fl r1 c g k) eqn:E.
    + injection H as ->. now apply IH1 in E.
    + exists c, g. split; [apply reach_here|exact H].
  - unfold plus_run in H.
    destruct (cur_rest c) as [|b s'] eqn:E; [discriminate|].
    destruct (class_ok fl cl b); [|discriminate].
    apply star_run_sound in H. destruct H as (c' & Hr & H).
    exists c', g. split; [|exact H].
    eapply reach_next; [exact E|exact Hr].
  - apply star_run_sound in H. destruct H as (c' & Hr & H).
    exists c', g. split; [|exact H]. now rewrite cursor_eta in Hr.
  - apply IH1 in H. destruct H as (c' & g' & Hr & H).
    eexists c', _. split; [exact Hr|exact H].
  - destruct (at_boundary fl c); [|discriminate].
    exists c, g. split; [apply reach_here|exact H].
  - destruct (re_run fl r1 c g (fun c' g' => Some (c', g'))); [discriminate|].
    exists c, g. split; [apply reach_here|exact H].
Qed.

(** Between two positions of a subject lies the text the matcher took. *)
Lemma reach_text c c' :
  reach c c' ->
  exists pre, cur_rest c = (pre ++ cur_rest c')%string
              /\ cur_idx c' = (cur_idx c + String.length pre)%nat.
Proof.
  induction 1 as [c|c b s' c' E _ IH].
  - exists "". split; [reflexivity|simpl; lia].
  - destruct IH as (pre & Hr & Hi). simpl in Hr, Hi.
    exists (String b pre). split.
    + rewrite E, Hr. reflexivity.
    + rewrite Hi. simpl. lia.
Qed.

Lemma consumed_reach c c' pre :
  cur_rest c = (pre ++ cur_rest c')%string ->
  cur_idx c' = (cur_idx c + String.length pre)%nat ->
  consumed c c' = pre.
Proof.
  intros Hr Hi. unfold consumed. rewrite Hr, Hi.
  replace (cur_idx c + String.length pre - cur_idx c)%nat
    with (String.length pre) by lia.
  apply substring_prefix.
Qed.

(** Under the flags of the lexers only a colon matches the colon of a
    rule. *)
Lemma char_ok_colon (b : ascii) : char_ok lexer_flags ":" b = true -> b = ":"%char.
Proof.
  destruct b as [[] [] [] [] [] [] [] []]; intros H; vm_compute in H;
    try discriminate H; reflexivity.
Qed.

(** Every match of a prefix rule ends with the colon of the rule. *)
Lemma prefix_rule_colon (alternatives : regex) (c c' : cursor) (g : captures) :
  re_match_at lexer_flags (prefix_rule alternatives) c = Some (c', g) ->
  ends_with_colon (consumed c c').
Proof.
  unfold re_match_at, prefix_rule. cbn [seq re_run]. intros H.
  destruct (at_boundary lexer_flags c); [|discriminate].
  apply re_run_sound in H. destruct H as (c1 & g1 & Hr & H).
  destruct (at_boundary lexer_flags c1); [|discriminate].
  destruct (cur_rest c1) as [|b s'] eqn:E; [discriminate|].
  destruct (char_ok lexer_flags ":" b) eqn:Eb; [|discriminate].
  apply char_ok_colon in Eb. subst b. injection H as <- _.
  destruct (reach_text _ _ Hr) as (pre & Hrest & Hidx).
  exists pre. apply consumed_reach; simpl.
  - rewrite Hrest, E, string_app_assoc. reflexivity.
  - rewrite Hidx, length_append. simpl. lia.
Qed.

(** The token type and the end of a token come from a rule that matched. *)
Lemma first_rule_In (rules : list (TokenType * regex)) (c c' : cursor) (ty : TokenType) :
  first_rule rules c = Some (ty, c') ->
  exists r g, In (ty, r) rules /\ re_match_at lexer_flags r c = Some (c', g).
Proof.
  induction rules as [|[ty0 r0] rules IH]; simpl; [discriminate|].
  destruct (re_match_at lexer_flags r0 c) as [[c0 g0]|] eqn:E.
  - intros H. injection H as -> ->. exists r0, g0. split; [now left|exact E].
  - intros H. destruct (IH H) as (r & g & Hin & Hm).
    exists r, g. split; [now right|exact Hm].
Qed.

Lemma lex_loop_matched (rules : list (TokenType * regex)) (fuel : nat) :
  forall c l, lex_loop fuel rules c = Tokens l -> Forall (matched_by rules) l.
Proof.
  induction fuel as [|fuel IH]; intros c l H; simpl in H;
    destruct (cur_rest c) as [|a s'] eqn:E;
    try (injection H as <-; constructor); try discriminate.
  destruct (t_ignore a).
  - eapply IH; exact H.
  - destruct (first_rule rules c) as [[ty c']|] eqn:Ef; [|discriminate].
    destruct (lex_loop fuel rules c') as [l'| |] eqn:El; try discriminate.
    simpl in H. injection H as <-. constructor.
    + destruct (first_rule_In _ _ _ _ Ef) as (r & g & Hin & Hm).
      exists r, c, c', g. simpl. auto.
    + eapply IH; exact El.
Qed.

(** In the system dialect the one rule of type [IP_PREFIX] is
    [t_IP_PREFIX], a prefix rule. *)
Lemma system_IP_PREFIX_colon (t : LexToken) :
  matched_by system_rules t -> tok_type t = IP_PREFIX ->
  ends_with_colon (tok_value t).
Proof.
  intros (r & c & c' & g & Hin & Hm & Hv) Hty. rewrite Hty in Hin. rewrite Hv.
  simpl in Hin.
  repeat (destruct Hin as [Hin|Hin]; [try discriminate Hin|]); try contradiction.
  injection Hin as <-. eapply prefix_rule_colon. exact Hm.
Qed.

(** The comparison of [parse_ip_line] on a value that ends with a colon. *)
Lemma colon_is_not_lanip (v : string) :
  String.eqb (py_lower (v ++ ":")) "lanip" = false.
Proof.
  apply String.eqb_neq.
  destruct v as [|a [|b [|c [|d [|e [|f v]]]]]]; simpl; intros H; inversion H.
Qed.

(** Where the token under the cursor, if of type [IP_PREFIX], ends with a
    colon, [parse_ip_line] stores the entry as the other field lines do. *)
Lemma parse_ip_line_plain (s : System) (p : LogsParser) :
  wf p ->
  (forall t, current p = Some t -> tok_type t = IP_PREFIX ->
             ends_with_colon (tok_value t)) ->
  parse_ip_line s p = parse_field_line IP_PREFIX set_ip_address s p.
Proof.
  intros Hwf Hc. unfold parse_ip_line, parse_field_line, bind.
  destruct (eat_cases IP_PREFIX None p Hwf)
    as [(t & Hcur & Hty & _ & _ & He)|[He _]]; rewrite He; [|reflexivity].
  destruct (Hc t Hcur Hty) as [v Hv]. rewrite Hv, colon_is_not_lanip.
  reflexivity.
Qed.

Lemma reach_idx c c' : reach c c' -> (cur_idx c <= cur_idx c')%nat.
Proof. intros H. destruct (reach_text _ _ H) as (pre & _ & Hi). lia. Qed.

(** A match of a consuming pattern ends strictly after its start. *)
Lemma re_run_consuming fl (r : regex) :
  consuming r = true ->
  forall c g k x,
    re_run fl r c g k = Some x ->
    exists c' g', reach c c' /\ (cur_idx c < cur_idx c')%nat /\ k c' g' = Some x.
Proof.
  induction r as [|a|cl|r1 IH1 r2 IH2|r1 IH1 r2 IH2|r1 IH1|cl|cl|n r1 IH1| |r1 IH1];
    simpl; intros Hc c g k x H; try discriminate Hc.
  - destruct (cur_rest c) as [|b s'] eqn:E; [discriminate|].
    destruct (char_ok fl a b); [|discriminate].
    eexists _, g. split; [apply reach_one; exact E|]. split; [simpl; lia|exact H].
  - destruct (cur_rest c) as [|b s'] eqn:E; [discriminate|].
    destruct (class_ok fl cl b); [|discriminate].
    eexists _, g. split; [apply reach_one; exact E|]. split; [simpl; lia|exact H].
  - destruct (consuming r1) eqn:E1.
    + apply IH1 in H; [|reflexivity]. destruct H as (c1 & g1 & Hr1 & Hlt & H).
      apply re_run_sound in H. destruct H as (c2 & g2 & Hr2 & H).
      exists c2, g2. split; [eapply reach_trans; eassumption|].
      split; [|exact H]. apply reach_idx in Hr2. lia.
    + simpl in Hc. apply re_run_sound in H. destruct H as (c1 & g1 & Hr1 & H).
      apply IH2 in H; [|exact Hc]. destruct H as (c2 & g2 & Hr2 & Hlt & H).
      exists c2, g2. split; [eapply reach_trans; eassumption|].
      split; [|exact H]. apply reach_idx in Hr1. lia.
  - apply andb_prop in Hc. destruct Hc as [Hc1 Hc2].
    destruct (re_run fl r1 c g k) eqn:E.
    + injection H as ->. now apply IH1 in E.
    + now apply IH2 in H.
  - unfold plus_run in H.
    destruct (cur_rest c) as [|b s'] eqn:E; [discriminate|].
    destruct (class_ok fl cl b); [|discriminate].
    apply star_run_sound in H. destruct H as (c' & Hr & H).
    exists c', g. split; [eapply reach_next; [exact E|exact Hr]|].
    split; [|exact H]. apply reach_idx in Hr. simpl in Hr. lia.
  - apply IH1 in H; [|exact Hc]. destruct H as (c' & g' & Hr & Hlt & H).
    eexists c', _. split; [exact Hr|]. split; [exact Hlt|exact H].
Qed.

Lemma first_rule_progress (rules : list (TokenType * regex)) (c c' : cursor)
    (ty : TokenType) :
  all_consuming rules = true ->
  first_rule rules c = Some (ty, c') ->
  (String.length (cur_rest c') < String.length (cur_rest c))%nat.
Proof.
  intros Hall Hf. destruct (first_rule_In _ _ _ _ Hf) as (r & g & Hin & Hm).
  unfold all_consuming in Hall. rewrite forallb_forall in Hall.
  specialize (Hall _ Hin). simpl in Hall.
  unfold re_match_at in Hm.
  destruct (re_run_consuming _ _ Hall _ _ _ _ Hm) as (c1 & g1 & Hr & Hlt & He).
  injection He as -> _.
  destruct (reach_text _ _ Hr) as (pre & Hrest & Hidx).
  rewrite Hrest, length_append. lia.
Qed.

(** The scan ends: every rule of the two dialects takes at least one
    character, so the length of the text bounds the iterations. *)
Lemma lex_loop_total (rules : list (TokenType * regex)) :
  all_consuming rules = true ->
  forall fuel c,
    (String.length (cur_rest c) <= fuel)%nat ->
    lex_loop fuel rules c <> LexTimeout.
Proof.
  intros Hall. induction fuel as [|fuel IH]; intros c Hlen; simpl;
    destruct (cur_rest c) as [|a s'] eqn:E; try discriminate.
  - simpl in Hlen. lia.
  - destruct (t_ignore a).
    + apply IH. simpl in *. lia.
    + destruct (first_rule rules c) as [[ty c']|] eqn:Ef; [|discriminate].
      pose proof (first_rule_progress _ _ _ _ Hall Ef) as Hp.
      rewrite E in Hp. simpl in Hp, Hlen.
      specialize (IH c' ltac:(lia)).
      destruct (lex_loop fuel rules c'); simpl; congruence.
Qed.

Lemma tokenize_passwords_total (text : string) :
  tokenize_passwords text <> LexTimeout.
Proof. apply lex_loop_total; [reflexivity|simpl; lia]. Qed.

Lemma tokenize_system_total (text : string) :
  tokenize_system text <> LexTimeout.
Proof. apply lex_loop_total; [reflexivity|simpl; lia]. Qed.

(** The rules of total correctness, and the primitives. *)
Lemma returns_ret {A} (P : LogsParser -> Prop) (a : A)
    (Q : A -> LogsParser -> Prop) :
  (forall p, P p -> Q a p) -> returns P (ret a) Q.
Proof. intros H p Hp. exists a, p. split; [reflexivity|now apply H]. Qed.

Lemma returns_bind {A B} (P : LogsParser -> Prop) (m : M A) (f : A -> M B)
    (Q : A -> LogsParser -> Prop) (R : B -> LogsParser -> Prop) :
  returns P m Q -> (forall a, returns (Q a) (f a) R) -> returns P (bind m f) R.
Proof.
  intros Hm Hf p Hp. destruct (Hm p Hp) as (a & p1 & E & Hq).
  destruct (Hf a p1 Hq) as (b & p2 & E2 & Hr).
  exists b, p2. unfold bind. rewrite E. auto.
Qed.

Lemma eat_returns ty v ts out lo :
  returns (inv ts out lo) (eat ty v) (fun _ => inv ts out lo).
Proof.
  intros p Hp. pose proof (inv_wf _ _ _ _ Hp) as Hwf.
  destruct (eat_cases ty v p Hwf) as [[t [_ [_ [_ [Hlt He]]]]] | [He _]];
    rewrite He; eexists _, _; (split; [reflexivity|]); [|exact Hp].
  unfold inv in *. simpl. intuition lia.
Qed.

Lemma parse_entry_returns ts out lo :
  returns (inv ts out lo) parse_entry (fun _ => inv ts out lo).
Proof.
  intros p Hp. rewrite parse_entry_exact by (eapply inv_wf; eauto).
  eexists _, _. split; [reflexivity|]. unfold inv in *. simpl. intuition lia.
Qed.

(** A field line at a token of its prefix type: it returns true beyond that
    token. *)
Lemma parse_field_line_hit ty set s ts out p t :
  inv ts out 0 p -> current p = Some t -> tok_type t = ty ->
  exists r p', parse_field_line ty set s p = Ret r p'
               /\ inv ts out (_pos p + 1) p'.
Proof.
  intros Hp Hc Hty. pose proof (inv_wf _ _ _ _ Hp) as Hwf.
  assert (Hlt : _pos p < _size p).
  { destruct Hwf as [Hs Hb]. unfold current in Hc.
    assert (Z.to_nat (_pos p) < List.length (_tokens p))%nat
      by (apply nth_error_Some; congruence). lia. }
  unfold parse_field_line. unfold bind at 1.
  rewrite (eat_hit ty None p t Hwf Hlt Hc Hty eq_refl). cbn [is_some].
  assert (Hq : inv ts out (_pos p + 1) (at_position p (_pos p + 1))).
  { unfold inv in *. simpl. intuition lia. }
  revert Hq. generalize (at_position p (_pos p + 1)). intros q Hq.
  eapply (returns_bind _ _ _ (fun _ => inv ts out (_pos p + 1)));
    [apply eat_returns| |exact Hq].
  intros sp.
  eapply (returns_bind _ _ _ (fun _ => inv ts out (_pos p + 1))).
  - destruct (is_some sp).
    + eapply returns_bind; [apply parse_entry_returns|].
      intros e. now apply returns_ret.
    + now apply returns_ret.
  - intros s1. eapply returns_bind; [apply eat_returns|].
    intros ?. now apply returns_ret.
Qed.

Lemma tokenize_system_ip_prefixes (text : string) (tokens : list LexToken) :
  tokenize_system text = Tokens tokens -> ip_prefixes_with_colon tokens.
Proof.
  intros H. apply lex_loop_matched in H.
  eapply Forall_impl; [|exact H].
  intros t Hm. now apply system_IP_PREFIX_colon.
Qed.

Lemma parse_ip_line_on_tokens (s : System) (p : LogsParser) :
  wf p -> ip_prefixes_with_colon (_tokens p) ->
  parse_ip_line s p = parse_field_line IP_PREFIX set_ip_address s p.
Proof.
  intros Hwf Hall. apply parse_ip_line_plain; [exact Hwf|].
  intros t Hc. unfold current in Hc. apply nth_error_In in Hc.
  unfold ip_prefixes_with_colon in Hall. rewrite Forall_forall in Hall. auto.
Qed.

(** The loop of [parse_system] on tokens of the system tokenizer: every
    iteration moves the cursor on and raises nothing. *)
Lemma parse_system_loop_returns ts out :
  ip_prefixes_with_colon ts ->
  forall fuel s p,
    inv ts out 0 p -> _size p - _pos p <= Z.of_nat fuel ->
    exists s' p', parse_system_loop fuel s p = Ret s' p' /\ inv ts out 0 p'.
Proof.
  intros Hall. induction fuel as [|fuel IH]; intros s p Hp Hfuel.
  - simpl. replace (_pos p <? _size p) with false
      by (symmetry; apply Z.ltb_ge; unfold inv in Hp; lia).
    now exists s, p.
  - simpl. destruct (_pos p <? _size p) eqn:Hlt; [|now exists s, p].
    apply Z.ltb_lt in Hlt. pose proof (inv_wf _ _ _ _ Hp) as Hwf.
    destruct (get_current_token_in_range p Hwf Hlt) as [t [Hc Hg]].
    unfold bind at 1. rewrite Hg.
    assert (Hstep : exists r p1,
      match tok_type t with
      | UID_PREFIX => parse_uid_line s
      | COMPUTER_NAME_PREFIX => parse_computer_line s
      | HWID_PREFIX => parse_hwid_line s
      | USERNAME_PREFIX => parse_username_line s
      | IP_PREFIX => parse_ip_line s
      | COUNTRY_PREFIX => parse_country_line s
      | LOG_DATE_PREFIX => parse_log_date_line s
      | _ => bind position (fun pos =>
               bind (set_position (pos + 1)) (fun _ => ret (false, s)))
      end p = Ret r p1 /\ inv ts out (_pos p + 1) p1).
    { assert (Hskip : exists r p1,
        bind position (fun pos =>
          bind (set_position (pos + 1)) (fun _ => ret (false, s))) p = Ret r p1
        /\ inv ts out (_pos p + 1) p1).
      { unfold bind, position.
        rewrite set_position_in_range by (unfold inv in Hp; lia).
        eexists _, _. split; [reflexivity|].
        unfold inv in *. simpl. intuition lia. }
      destruct (tok_type t) eqn:Ety; try exact Hskip;
        try (eapply parse_field_line_hit; eassumption).
      rewrite parse_ip_line_on_tokens;
        [eapply parse_field_line_hit; eassumption|exact Hwf|].
      destruct Hp as [-> _]. exact Hall. }
    destruct Hstep as (r & p1 & E & Hp1).
    unfold bind at 1. rewrite E.
    apply IH.
    + eapply inv_weaken; [|exact Hp1]. unfold inv in Hp. lia.
    + unfold inv in Hp, Hp1. lia.
Qed.

(** [parse_system] ends on every text, with a result or with the
    [LexError] of the tokenizer. *)
Lemma parse_system_total (text : string) :
  (exists r, parse_system text = Returned r)
  \/ (exists n, parse_system text = RaisedLexError n).
Proof.
  unfold parse_system.
  destruct (tokenize_system text) as [tokens|n|] eqn:Htok.
  - left. unfold parse_system_tokens.
    destruct (parse_system_loop_returns tokens []
                (tokenize_system_ip_prefixes _ _ Htok)
                (List.length tokens) System_new (LogsParser_init tokens))
      as (s' & p' & E & _).
    + unfold inv. simpl. intuition lia.
    + simpl. lia.
    + unfold bind. rewrite E. simpl. eauto.
  - right. eauto.
  - now apply tokenize_system_total in Htok.
Qed.

(** [parse_passwords] ends on every text: with its output, with the
    [SyntaxError] of a grammar violation, with the [ValueError] of
    [urlparse], or with the [LexError] of the tokenizer. *)
Lemma parse_passwords_total
    (b64decode_text : string -> option string)
    (hostname_of_url : string -> url_result) (filename text : string) :
  match parse_passwords b64decode_text hostname_of_url filename text with
  | Returned _ => True
  | Raised e => e <> IndexError
  | RaisedLexError _ => True
  | Diverged => False
  end.
Proof.
  unfold parse_passwords.
  destruct (tokenize_passwords text) as [tokens|n|] eqn:Htok;
    [|exact I|now apply tokenize_passwords_total in Htok].
  pose proof (parse_passwords_loop_hoare b64decode_text hostname_of_url
                filename tokens (List.length tokens) false 0
                ltac:(lia) ltac:(lia) _ (invx_init tokens)) as H.
  unfold parse_passwords_tokens, bind.
  destruct (parse_passwords_loop b64decode_text hostname_of_url
              (List.length tokens) filename false (LogsParser_init tokens))
    as [[] st|e st|]; [|subst e; simpl; discriminate|exact H].
  apply invx_bound in H. destruct H as (H0 & _ & Hle & Hs & Ht).
  assert (Hwf : wf st) by (split; [now rewrite Ht|lia]).
  unfold parse_passwords_finish.
  destruct (_pos st =? _size st) eqn:He; simpl; [exact I|].
  apply Z.eqb_neq in He.
  destruct (get_current_token_in_range st Hwf ltac:(lia)) as [tok [_ Hg]].
  unfold bind. rewrite Hg. simpl. discriminate.
Qed.

(* ===================================================================== *)
(** * The worked examples of the tokenizers and the grammar engines *)
(* ===================================================================== *)

(** C8, as stated, fails: the tokenizer gives [IP:] and [LANIP:] the same
    token type. *)
Lemma ip_and_lanip_not_distinct_types :
  ~ (forall t1 t2,
       tokenize_system "IP:" = Tokens [t1] ->
       tokenize_system "LANIP:" = Tokens [t2] ->
       tok_type t1 <> tok_type t2).
Proof.
  intros H.
  apply (H (mkToken IP_PREFIX "IP:" 1 0) (mkToken IP_PREFIX "LANIP:" 1 0));
    reflexivity.
Qed.

(** C8, amended. The system tokenizer lexes [IP:] and [LANIP:] as one token
    type, [IP_PREFIX]; the two tokens differ in their value only, which is
    the matched text with its colon. So it is in the example file, whose
    first and fifth tokens are the two prefixes. *)
Theorem ip_and_lanip_share_token_type :
  tokenize_system "IP:" = Tokens [mkToken IP_PREFIX "IP:" 1 0]
  /\ tokenize_system "LANIP:" = Tokens [mkToken IP_PREFIX "LANIP:" 1 0]
  /\ tokenize_system example_system_text
     = Tokens [mkToken IP_PREFIX "IP:" 1 0; mkToken SPACE " " 1 3;
               mkToken WORD "1.2.3.4" 1 4; mkToken NEWLINE LF 1 11;
               mkToken IP_PREFIX "LANIP:" 1 12; mkToken SPACE " " 1 18;
               mkToken WORD "10.0.0.5" 1 19; mkToken NEWLINE LF 1 27].
Proof. repeat split; vm_compute; reflexivity. Qed.

(** C1, on the code. A [LANIP:] line does not give way to an [IP:] line.
    On the token list of any system file, no token of type [IP_PREFIX] has
    a value that lower-cases to [lanip]: the value is the whole match of
    [t_IP_PREFIX], colon included. So the comparison in [parse_ip_line]
    fails in every state over such a list, the precedence branch is never
    taken, and [parse_ip_line] stores the entry as the other field lines
    do. On the example, with the [IP:] line first the [LANIP:] value
    overwrites it; with the [LANIP:] line first the result is the [IP:]
    value. *)
Theorem parse_system_lanip_overwrites_ip
    (text : string) (tokens : list LexToken) :
  tokenize_system text = Tokens tokens ->
  (forall t, In t tokens -> tok_type t = IP_PREFIX ->
             String.eqb (py_lower (tok_value t)) "lanip" = false)
  /\ (forall s p, wf p -> _tokens p = tokens ->
        parse_ip_line s p = parse_field_line IP_PREFIX set_ip_address s p)
  /\ parse_system example_system_text
     = Returned (Some (system_with_ip "10.0.0.5"))
  /\ parse_system example_system_text_reversed
     = Returned (Some (system_with_ip "1.2.3.4")).
Proof.
  intros Htok. pose proof (tokenize_system_ip_prefixes _ _ Htok) as Hall.
  split; [|split; [|split; vm_compute; reflexivity]].
  - intros t Hin Hty. unfold ip_prefixes_with_colon in Hall.
    rewrite Forall_forall in Hall. destruct (Hall t Hin Hty) as [v ->].
    apply colon_is_not_lanip.
  - intros s p Hwf Ht. apply parse_ip_line_on_tokens; [exact Hwf|].
    now rewrite Ht.
Qed.

(** C1 on the example file: at its [LANIP:] line, with the address of the
    [IP:] line already stored, [parse_ip_line] replaces it. *)
Lemma parse_system_lanip_overwrites_ip_witness :
  tokenize_system example_system_text = Tokens example_system_tokens
  /\ parse_ip_line (system_with_ip "1.2.3.4")
       (at_position (LogsParser_init example_system_tokens) 4)
     = Ret (true, system_with_ip "10.0.0.5")
         (at_position (LogsParser_init example_system_tokens) 8).
Proof.
  assert (Htok : tokenize_system example_system_text
                 = Tokens example_system_tokens) by (vm_compute; reflexivity).
  split; [exact Htok|].
  destruct (parse_system_lanip_overwrites_ip example_system_text
              example_system_tokens Htok) as (_ & H & _).
  rewrite H; [vm_compute; reflexivity|split; simpl; lia|reflexivity].
Defined.

(** C4, as stated, fails: the credential of the example has no domain. *)
Lemma example_credential_has_no_domain :
  ~ (exists c,
       parse_passwords no_b64decode (urlparse_hostname any_bracketed_host)
         "Passwords.txt" example_passwords_text = Returned [c]
       /\ domain c = Some "example.com").
Proof.
  intros [c [H Hd]]. vm_compute in H. injection H as <-. discriminate Hd.
Qed.

(** C4, amended. Whatever the base64 decoder and the bracketed-host check
    are, the example file yields exactly one credential, with the host, the
    user name split into its local part and its e-mail domain, the password
    and the file path; its domain is unset, because [urlparse] finds a host
    name only after a double slash. The same file with the URL
    [https://example.com] as host yields the domain [example.com]. *)
Theorem example_credential_parsed
    (b64decode_text : string -> option string)
    (check_bracketed_host : string -> bool) :
  parse_passwords b64decode_text (urlparse_hostname check_bracketed_host)
    "Passwords.txt" example_passwords_text
  = Returned [example_credential "Passwords.txt"]
  /\ parse_passwords b64decode_text (urlparse_hostname check_bracketed_host)
       "Passwords.txt" example_passwords_text_url
     = Returned [set_domain
                   (set_host (example_credential "Passwords.txt")
                      (Some "https://example.com"))
                   (Some "example.com")].
Proof. split; vm_compute; reflexivity. Qed.

(* ===================================================================== *)
(** * Archive text reader: proofs *)
(* ===================================================================== *)

Section ArchiveText.

Import ArchiveWrapper.

Lemma land_ones_range (b k lo : Z) :
  0 <= k -> lo mod 2 ^ k = 0 -> lo <= b < lo + 2 ^ k ->
  Z.land b (Z.ones k) = b - lo.
Proof.
  intros Hk Hlo Hb. rewrite Z.land_ones by lia.
  apply Z.mod_divide in Hlo; [|lia]. destruct Hlo as [q Hq].
  symmetry. apply (Z.mod_unique_pos _ _ q); lia.
Qed.

Lemma low6_continuation (b : Z) :
  is_continuation b = true -> low6 b = b - 128 /\ 128 <= b < 192.
Proof.
  unfold is_continuation, low6. rewrite andb_true_iff, Z.leb_le, Z.ltb_lt.
  intros [H1 H2]. split; [|lia].
  apply (land_ones_range b 6 128); [lia|reflexivity|simpl; lia].
Qed.

Lemma lor_shiftl_zero (a b k : Z) :
  0 <= k -> Z.lor (Z.shiftl a k) b = 0 -> a = 0 /\ b = 0.
Proof.
  intros Hk H. apply Z.lor_eq_0_iff in H. destruct H as [H1 H2].
  split; [|exact H2]. now apply Z.shiftl_eq_0_iff in H1.
Qed.

Ltac bool_hyps :=
  repeat match goal with
         | H : (_ || _) = false |- _ => apply orb_false_iff in H; destruct H
         | H : (_ || _) = true |- _ => apply orb_true_iff in H; destruct H
         | H : (_ && _) = true |- _ => apply andb_true_iff in H; destruct H
         | H : (_ && _) = false |- _ => apply andb_false_iff in H; destruct H
         | H : negb _ = false |- _ => apply negb_false_iff in H
         | H : negb _ = true |- _ => apply negb_true_iff in H
         | H : (_ <? _) = true |- _ => apply Z.ltb_lt in H
         | H : (_ <? _) = false |- _ => apply Z.ltb_ge in H
         | H : (_ <=? _) = true |- _ => apply Z.leb_le in H
         | H : (_ <=? _) = false |- _ => apply Z.leb_gt in H
         | H : (_ =? _) = true |- _ => apply Z.eqb_eq in H
         | H : (_ =? _) = false |- _ => apply Z.eqb_neq in H
         end.

Lemma decode_step_cases (b0 : Z) (rest : list Z) :
  match decode_step b0 rest with
  | CodePoint cp n =>
      (1 <= n)%nat
      /\ count_nul (firstn n (b0 :: rest)) = (if cp =? 0 then 1%nat else 0%nat)
  | Malformed n =>
      (1 <= n)%nat /\ count_nul (firstn n (b0 :: rest)) = 0%nat
  end.
Proof.
  unfold decode_step.
  repeat match goal with
         | |- context [if is_continuation ?b then _ else _] =>
             let E := fresh "Ec" in
             destruct (is_continuation b) eqn:E;
             [apply low6_continuation in E; destruct E as [? ?]|]
         | |- context [if negb (is_continuation ?b) then _ else _] =>
             let E := fresh "Ec" in
             destruct (is_continuation b) eqn:E;
             [apply low6_continuation in E; destruct E as [? ?]|]; cbn [negb orb]
         | |- context [if negb (is_continuation ?b) || _ || _ then _ else _] =>
             let E := fresh "Ec" in
             destruct (is_continuation b) eqn:E;
             [apply low6_continuation in E; destruct E as [? ?]|]; cbn [negb orb]
         | |- context [if ?c then _ else _] => destruct c eqn:?
         | |- context [match ?l with [] => _ | _ :: _ => _ end] => destruct l
         end.
  all: bool_hyps.
  all: (split; [lia|]).
  all: cbn [firstn count_nul].
  all: repeat match goal with
         | |- context [?x =? 0] => 
             let E := fresh "Ez" in destruct (x =? 0) eqn:E;
             [apply Z.eqb_eq in E|apply Z.eqb_neq in E]
         end.
  all: try reflexivity.
  all: try lia.
  all: repeat match goal with
         | H : Z.lor (Z.shiftl _ _) _ = 0 |- _ =>
             apply lor_shiftl_zero in H; [destruct H|lia]
         end.
  all: try lia.
  all: match goal with
       | H : Z.land ?b 31 = 0 |- _ =>
           change 31 with (Z.ones 5) in H;
           rewrite (land_ones_range b 5 192) in H
             by (try reflexivity; simpl; lia)
       | H : Z.land ?b 15 = 0 |- _ =>
           change 15 with (Z.ones 4) in H;
           rewrite (land_ones_range b 4 224) in H
             by (try reflexivity; simpl; lia)
       | H : Z.land ?b 7 = 0 |- _ =>
           change 7 with (Z.ones 3) in H;
           rewrite (land_ones_range b 3 240) in H
             by (try reflexivity; simpl; lia)
       end; lia.
Qed.

Lemma count_nul_app (l1 l2 : list Z) :
  count_nul (l1 ++ l2) = (count_nul l1 + count_nul l2)%nat.
Proof.
  induction l1 as [|c l1 IH]; simpl; [reflexivity|].
  destruct (c =? 0); simpl; now rewrite IH.
Qed.

Lemma count_nul_split (n : nat) (l : list Z) :
  count_nul l = (count_nul (firstn n l) + count_nul (skipn n l))%nat.
Proof. now rewrite <- count_nul_app, firstn_skipn. Qed.

(** The decoding loop ends, raises only in [strict] mode, and keeps the
    number of NULs: a NUL byte is always decoded to a NUL, malformed
    sequences contain none, and no longer sequence decodes to a NUL. *)
Lemma decode_loop_total (fuel : nat) : forall (e : errors) (bs : list Z),
  (List.length bs <= fuel)%nat ->
  match decode_loop fuel e bs with
  | Decoded text => count_nul text = count_nul bs
  | UnicodeDecodeError => e = strict
  | DecodeTimeout => False
  end.
Proof.
  induction fuel as [|fuel IH]; intros e [|b0 rest] Hlen; simpl in Hlen;
    try reflexivity; try lia.
  cbn [decode_loop].
  pose proof (decode_step_cases b0 rest) as Hs.
  destruct (decode_step b0 rest) as [cp n|n]; destruct Hs as [Hn Hc].
  - assert (Hl : (List.length (skipn n (b0 :: rest)) <= fuel)%nat)
      by (rewrite length_skipn; cbn [List.length]; lia).
    specialize (IH e _ Hl).
    rewrite (count_nul_split n (b0 :: rest)), Hc.
    destruct (decode_loop fuel e (skipn n (b0 :: rest))); simpl; auto.
    destruct (cp =? 0); simpl; now rewrite IH.
  - assert (Hl : (List.length (skipn n (b0 :: rest)) <= fuel)%nat)
      by (rewrite length_skipn; cbn [List.length]; lia).
    rewrite (count_nul_split n (b0 :: rest)), Hc.
    destruct e; [reflexivity| |].
    + exact (IH ignore _ Hl).
    + specialize (IH replace _ Hl).
      destruct (decode_loop fuel replace (skipn n (b0 :: rest))); simpl; auto.
Qed.

Lemma decode_total (e : errors) (bs : list Z) :
  match decode e bs with
  | Decoded text => count_nul text = count_nul bs
  | UnicodeDecodeError => e = strict
  | DecodeTimeout => False
  end.
Proof. apply decode_loop_total. lia. Qed.

Lemma replace_nul_no_nul (text : list Z) : ~ In 0 (replace_nul text).
Proof.
  induction text as [|c text IH]; simpl; [tauto|].
  destruct (c =? 0) eqn:E; simpl.
  - intros [H|[H|[H|H]]]; try discriminate. now apply IH.
  - apply Z.eqb_neq in E. intros [H|H]; [congruence|now apply IH].
Qed.

Lemma replace_nul_length (text : list Z) :
  List.length (replace_nul text)
  = (List.length text + 2 * count_nul text)%nat.
Proof.
  induction text as [|c text IH]; simpl; [reflexivity|].
  destruct (c =? 0); simpl; rewrite IH; lia.
Qed.

(** C9, as stated, fails: on bytes that are not UTF-8 the reader drops the
    undecodable bytes, where a decode with replacement puts U+FFFD; and the
    text put in place of a NUL is three characters long, not two. *)
Lemma read_file_fallback_is_not_replacement :
  decode strict [255; 65] = UnicodeDecodeError
  /\ read_file [255; 65] = Decoded [65]
  /\ read_file_with_replacement [255; 65] = Decoded [65533; 65]
  /\ read_file [255; 65] <> read_file_with_replacement [255; 65]
  /\ read_file [0] = Decoded [92; 48; 48].
Proof.
  repeat split; try (vm_compute; reflexivity).
  vm_compute. discriminate.
Qed.

(** C9, amended. [read_file] always returns a text. It is the strict UTF-8
    decoding of the bytes when they have one, and otherwise their decoding
    with the undecodable bytes dropped (nothing is put in their place), in
    both cases with every NUL rewritten as the three characters backslash,
    zero, zero. The decoded text has exactly as many NULs as the input has
    NUL bytes, so the result is longer than the decoded text by two
    characters for each NUL byte, and it contains no NUL. *)
Theorem read_file_rewrites_every_nul (file_bytes : list Z) :
  exists text,
    (decode strict file_bytes = Decoded text
     \/ (decode strict file_bytes = UnicodeDecodeError
         /\ decode ignore file_bytes = Decoded text))
    /\ read_file file_bytes = Decoded (replace_nul text)
    /\ count_nul text = count_nul file_bytes
    /\ List.length (replace_nul text)
       = (List.length text + 2 * count_nul file_bytes)%nat
    /\ ~ In 0 (replace_nul text).
Proof.
  unfold read_file.
  pose proof (decode_total strict file_bytes) as Hs.
  destruct (decode strict file_bytes) as [text| |]; [| |contradiction].
  - exists text. rewrite replace_nul_length, Hs.
    repeat split; auto using replace_nul_no_nul.
  - pose proof (decode_total ignore file_bytes) as Hi.
    destruct (decode ignore file_bytes) as [text| |];
      [|discriminate|contradiction].
    exists text. rewrite replace_nul_length, Hi.
    repeat split; auto using replace_nul_no_nul.
Qed.

End ArchiveText.

(* ===================================================================== *)
(** * Directory grouping: proofs *)
(* ===================================================================== *)

Lemma substring_all (s : string) : substring 0 (String.length s) s = s.
Proof. induction s as [|x s IH]; simpl; [reflexivity|now rewrite IH]. Qed.

Lemma substring_skip (a b : string) (n : nat) :
  substring (String.length a) n (a ++ b)%string = substring 0 n b.
Proof. induction a as [|x a IH]; simpl; [reflexivity|exact IH]. Qed.

Lemma find_char_app (c : ascii) (a b : string) :
  find_char c a = None ->
  find_char c (a ++ b)%string
  = match find_char c b with
    | Some n => Some (String.length a + n)%nat
    | None => None
    end.
Proof.
  induction a as [|x a IH]; simpl.
  - intros _. now destruct (find_char c b).
  - destruct (Ascii.eqb x c); [discriminate|].
    destruct (find_char c a); [discriminate|]. intros _.
    rewrite IH by reflexivity. now destruct (find_char c b).
Qed.

Lemma find_char_here (c : ascii) (b : string) : find_char c (String c b) = Some O.
Proof. simpl. now rewrite Ascii.eqb_refl. Qed.

Lemma slice_from (a b : string) :
  slice (a ++ b)%string (Z.of_nat (String.length a))
        (Z.of_nat (String.length (a ++ b)%string)) = b.
Proof.
  unfold slice. rewrite Nat2Z.id, length_append.
  replace (Z.to_nat _) with (String.length b) by lia.
  now rewrite substring_skip, substring_all.
Qed.

Lemma py_find_from (a b : string) (c : ascii) :
  py_find (a ++ b)%string c (Z.of_nat (String.length a))
  = match find_char c b with
    | Some n => Z.of_nat (String.length a) + Z.of_nat n
    | None => -1
    end.
Proof. unfold py_find. now rewrite slice_from. Qed.

Lemma py_find_start (s : string) (c : ascii) :
  py_find s c 0
  = match find_char c s with
    | Some n => Z.of_nat n
    | None => -1
    end.
Proof. apply (py_find_from "" s c). Qed.

Lemma get_system_dir_no_slash (path : string) :
  find_char "/" path = None -> get_system_dir path = path.
Proof.
  intros H. unfold get_system_dir. rewrite py_find_start, H. reflexivity.
Qed.

Lemma get_system_dir_split (d rest : string) :
  find_char "/" d = None ->
  get_system_dir (d ++ String "/" rest)%string
  = match find_char "/" rest with
    | Some (S n) => substring 0 (S n) rest
    | _ => (d ++ "/")%string
    end.
Proof.
  intros Hd. unfold get_system_dir.
  rewrite py_find_start, (find_char_app _ _ _ Hd), find_char_here.
  rewrite Nat.add_0_r.
  replace (Z.of_nat (String.length d) + 1 >? 0) with true
    by (symmetry; rewrite Z.gtb_ltb; apply Z.ltb_lt; lia).
  assert (Hsplit : (d ++ String "/" rest = (d ++ "/") ++ rest)%string).
  { clear. induction d as [|x d IH]; simpl; [reflexivity|now rewrite IH]. }
  assert (Hlen : Z.of_nat (String.length d) + 1
                 = Z.of_nat (String.length (d ++ "/")%string)).
  { rewrite length_append. simpl. lia. }
  rewrite Hlen, Hsplit, py_find_from.
  destruct (find_char "/" rest) as [[|n]|] eqn:Hr.
  - replace (_ >? _) with false by (symmetry; rewrite Z.gtb_ltb; apply Z.ltb_ge; lia).
    unfold slice. rewrite Z.sub_0_r, Nat2Z.id. simpl Z.to_nat.
    apply substring_prefix.
  - replace (_ >? _) with true by (symmetry; rewrite Z.gtb_ltb; apply Z.ltb_lt; lia).
    unfold slice. rewrite Nat2Z.id.
    replace (Z.to_nat _) with (S n) by lia.
    apply substring_skip.
  - replace (_ >? _) with false by (symmetry; rewrite Z.gtb_ltb; apply Z.ltb_ge; lia).
    unfold slice. rewrite Z.sub_0_r, Nat2Z.id. simpl Z.to_nat.
    apply substring_prefix.
Qed.

(** A path with one directory level: the key is the first segment with its
    slash. *)
Lemma get_system_dir_one_level (d rest : string) :
  find_char "/" d = None -> find_char "/" rest = None ->
  get_system_dir (d ++ "/" ++ rest)%string = (d ++ "/")%string.
Proof.
  intros Hd Hr. simpl append. rewrite (get_system_dir_split d rest Hd).
  now rewrite Hr.
Qed.

(** A deeper path: the key is the second segment alone. *)
Lemma get_system_dir_two_levels (d1 d2 rest : string) :
  find_char "/" d1 = None -> find_char "/" d2 = None -> d2 <> "" ->
  get_system_dir (d1 ++ "/" ++ d2 ++ "/" ++ rest)%string = d2.
Proof.
  intros H1 H2 Hne. simpl append.
  rewrite (get_system_dir_split d1 _ H1).
  rewrite (find_char_app _ _ _ H2), find_char_here, Nat.add_0_r.
  destruct d2 as [|x d2]; [congruence|].
  cbn [String.length]. apply (substring_prefix (String x d2)).
Qed.

(** A path whose second segment is empty: the key is the first segment
    with its slash. *)
Lemma get_system_dir_empty_second (d1 rest : string) :
  find_char "/" d1 = None ->
  get_system_dir (d1 ++ "//" ++ rest)%string = (d1 ++ "/")%string.
Proof.
  intros H1. simpl append.
  rewrite (get_system_dir_split d1 _ H1). now rewrite find_char_here.
Qed.

(** C7, as stated, fails: for a path deeper than one level the key is the
    second segment, not the first two; and for a path of one level it is the
    first segment followed by its slash. *)
Lemma get_system_dir_not_first_two_segments :
  get_system_dir "a/b/c.txt" = "b"
  /\ get_system_dir "a/b/c.txt" <> "a/b"
  /\ get_system_dir "a/b/c.txt" <> "a/b/"
  /\ get_system_dir "user1/Passwords.txt" <> "user1".
Proof. repeat split; vm_compute; discriminate. Qed.

Lemma example_file_list :
  generate_file_list example_namelist
  = Some [mkLogFile PASSWORDS "user1/Passwords.txt" "user1/";
          mkLogFile PASSWORDS "user2/Passwords.txt" "user2/"].
Proof. vm_compute. reflexivity. Qed.

Section DirectoryGrouping.

Variable b64decode_text : string -> option string.
Variable hostname_of_url : string -> url_result.
Variable search_stealer_name : string -> option string.
Variable archive_filename : string.
Variable read_file : string -> read_result.

Lemma stamp_credentials_system d sn :
  system (stamp_credentials d sn) = system d.
Proof.
  unfold stamp_credentials. destruct (credentials d), sn; try reflexivity.
  now destruct (truthy (Some s)).
Qed.

Lemma stamp_credentials_length d sn :
  List.length (credentials (stamp_credentials d sn))
  = List.length (credentials d).
Proof.
  unfold stamp_credentials. destruct (credentials d) eqn:E, sn;
    rewrite ?E; try reflexivity.
  destruct (truthy (Some s)); rewrite ?E; [|reflexivity].
  unfold add_stealer_name. simpl. now rewrite length_map, E.
Qed.

(** A run of one passwords file that yields credentials: the directory's
    data is appended to the leak and the count is one. *)
Lemma process_system_dir_one_passwords_file
    (leak : Leak) (name dir text : string) (rest : list LogFile)
    (creds : list Credential) :
  read_file name = ReadText text ->
  parse_passwords b64decode_text hostname_of_url
    (archive_filename ++ "/" ++ name)%string text = Returned creds ->
  creds <> [] ->
  match rest with
  | [] => True
  | next :: _ => String.eqb (lf_system_dir next) dir = false
  end ->
  process_system_dir b64decode_text hostname_of_url search_stealer_name
    archive_filename read_file leak (mkLogFile PASSWORDS name dir :: rest)
  = Some (mkLeak (leak_filename leak)
            (systems_data leak
             ++ [stamp_credentials (mkSystemData None creds)
                   (search_stealer_name text)]), 1).
Proof.
  intros Hr Hp Hn Hrest.
  unfold process_system_dir.
  cbn [process_files lf_system_dir lf_filename].
  rewrite String.eqb_refl. cbn [negb]. rewrite Hr.
  unfold parse_file. cbn [lf_type]. rewrite Hp.
  cbn [credentials system app truthy].
  assert (Hfiles :
    process_files b64decode_text hostname_of_url search_stealer_name
      archive_filename read_file rest dir (search_stealer_name text)
      (mkSystemData None creds) (0 + 1)
    = Some (mkSystemData None creds, search_stealer_name text, 1)).
  { destruct rest as [|next rest']; [reflexivity|].
    cbn [process_files]. now rewrite Hrest. }
  rewrite Hfiles.
  rewrite stamp_credentials_system, stamp_credentials_length.
  cbn [system credentials]. destruct creds as [|c creds]; [congruence|].
  reflexivity.
Qed.

Lemma example_groups (leak : Leak) (t1 t2 : string) (c1 c2 : list Credential) :
  read_file "user1/Passwords.txt" = ReadText t1 ->
  read_file "user2/Passwords.txt" = ReadText t2 ->
  parse_passwords b64decode_text hostname_of_url
    (archive_filename ++ "/" ++ "user1/Passwords.txt")%string t1 = Returned c1 ->
  parse_passwords b64decode_text hostname_of_url
    (archive_filename ++ "/" ++ "user2/Passwords.txt")%string t2 = Returned c2 ->
  c1 <> [] -> c2 <> [] ->
  process_archive b64decode_text hostname_of_url search_stealer_name
    archive_filename read_file leak example_namelist
  = Some (mkLeak (leak_filename leak)
            (systems_data leak
             ++ [stamp_credentials (mkSystemData None c1) (search_stealer_name t1);
                 stamp_credentials (mkSystemData None c2) (search_stealer_name t2)])).
Proof.
  intros Hr1 Hr2 Hp1 Hp2 Hn1 Hn2.
  unfold process_archive. rewrite example_file_list.
  cbn [List.length process_groups].
  rewrite (process_system_dir_one_passwords_file leak _ _ t1 _ c1 Hr1 Hp1 Hn1)
    by reflexivity.
  change (Z.to_nat 1) with 1%nat. cbn [skipn process_groups].
  rewrite (process_system_dir_one_passwords_file _ _ _ t2 _ c2 Hr2 Hp2 Hn2)
    by exact I.
  cbn [skipn leak_filename systems_data].
  now rewrite <- app_assoc.
Qed.

(** C7, amended. The key [get_system_dir] computes is: the path itself when
    it has no slash; the first segment followed by its slash when the path
    has one directory level, or an empty second segment; and the second
    segment alone when the path is deeper. The entries [user1/Passwords.txt]
    and [user2/Passwords.txt] get the distinct keys [user1/] and [user2/];
    [generate_file_list] lists them in lexicographic order; and when each of
    the two files reads and parses to at least one credential, the walk
    appends two [SystemData] to the leak, the one of [user1] first. *)
Theorem directory_key_and_grouping :
  (forall path, find_char "/" path = None -> get_system_dir path = path)
  /\ (forall d rest,
        find_char "/" d = None -> find_char "/" rest = None ->
        get_system_dir (d ++ "/" ++ rest)%string = (d ++ "/")%string)
  /\ (forall d1 d2 rest,
        find_char "/" d1 = None -> find_char "/" d2 = None -> d2 <> "" ->
        get_system_dir (d1 ++ "/" ++ d2 ++ "/" ++ rest)%string = d2)
  /\ (forall d1 rest,
        find_char "/" d1 = None ->
        get_system_dir (d1 ++ "//" ++ rest)%string = (d1 ++ "/")%string)
  /\ get_system_dir "user1/Passwords.txt" = "user1/"
  /\ get_system_dir "user2/Passwords.txt" = "user2/"
  /\ generate_file_list example_namelist
     = Some [mkLogFile PASSWORDS "user1/Passwords.txt" "user1/";
             mkLogFile PASSWORDS "user2/Passwords.txt" "user2/"]
  /\ (forall leak t1 t2 c1 c2,
        read_file "user1/Passwords.txt" = ReadText t1 ->
        read_file "user2/Passwords.txt" = ReadText t2 ->
        parse_passwords b64decode_text hostname_of_url
          (archive_filename ++ "/" ++ "user1/Passwords.txt")%string t1
        = Returned c1 ->
        parse_passwords b64decode_text hostname_of_url
          (archive_filename ++ "/" ++ "user2/Passwords.txt")%string t2
        = Returned c2 ->
        c1 <> [] -> c2 <> [] ->
        process_archive b64decode_text hostname_of_url search_stealer_name
          archive_filename read_file leak example_namelist
        = Some (mkLeak (leak_filename leak)
                  (systems_data leak
                   ++ [stamp_credentials (mkSystemData None c1)
                         (search_stealer_name t1);
                       stamp_credentials (mkSystemData None c2)
                         (search_stealer_name t2)]))).
Proof.
  split; [exact get_system_dir_no_slash|].
  split; [exact get_system_dir_one_level|].
  split; [exact get_system_dir_two_levels|].
  split; [exact get_system_dir_empty_second|].
  split; [reflexivity|]. split; [reflexivity|].
  split; [exact example_file_list|].
  exact example_groups.
Qed.

End DirectoryGrouping.

(** A use of C7 on an archive whose two entries hold the example password
    file. *)
Lemma directory_key_and_grouping_witness :
  get_system_dir ("user1" ++ "/" ++ "Passwords.txt")%string
  = ("user1" ++ "/")%string
  /\ get_system_dir ("logs" ++ "/" ++ "user1" ++ "/" ++ "Passwords.txt")%string
     = "user1"
  /\ process_archive no_b64decode (urlparse_hostname any_bracketed_host)
       no_stealer_name "logs.zip" example_read_file
       (mkLeak (Some "logs.zip") []) example_namelist
     = Some (mkLeak (Some "logs.zip")
               [mkSystemData None
                  [example_credential "logs.zip/user1/Passwords.txt"];
                mkSystemData None
                  [example_credential "logs.zip/user2/Passwords.txt"]]).
Proof.
  destruct (directory_key_and_grouping no_b64decode
              (urlparse_hostname any_bracketed_host) no_stealer_name
              "logs.zip" example_read_file)
    as (_ & H1 & H2 & _ & _ & _ & _ & Hg).
  split; [apply H1; reflexivity|].
  split; [apply H2; [reflexivity|reflexivity|discriminate]|].
  apply (Hg (mkLeak (Some "logs.zip") []) example_passwords_text
            example_passwords_text
            [example_credential "logs.zip/user1/Passwords.txt"]
            [example_credential "logs.zip/user2/Passwords.txt"]);
    try reflexivity; discriminate.
Defined.

(* ===================================================================== *)
(** * Evaluation of the password grammar on well-formed lines *)
(* ===================================================================== *)

Lemma remaining_length (p : LogsParser) :
  wf p -> Z.of_nat (List.length (remaining p)) = _size p - _pos p.
Proof.
  intros [Hs Hp]. unfold remaining. rewrite length_skipn. lia.
Qed.

Lemma at_rem_current (p : LogsParser) (t : LexToken) (rem : list LexToken) :
  at_rem p (t :: rem) -> current p = Some t /\ _pos p < _size p.
Proof.
  intros [Hwf Hr]. pose proof (remaining_length p Hwf) as Hl.
  rewrite Hr in Hl. simpl List.length in Hl. split; [|lia].
  unfold current. unfold remaining in Hr.
  rewrite <- (Nat.add_0_r (Z.to_nat (_pos p))), <- nth_error_skipn, Hr.
  reflexivity.
Qed.

Lemma at_rem_end (p : LogsParser) : at_rem p [] -> _pos p = _size p.
Proof.
  intros [Hwf Hr]. pose proof (remaining_length p Hwf) as Hl.
  rewrite Hr in Hl. simpl in Hl. lia.
Qed.

Lemma at_rem_advance (p : LogsParser) (l1 rem : list LexToken) :
  at_rem p (l1 ++ rem) ->
  at_rem (at_position p (_pos p + Z.of_nat (List.length l1))) rem.
Proof.
  intros [Hwf Hr]. pose proof (remaining_length p Hwf) as Hl.
  rewrite Hr, length_app in Hl. pose proof Hwf as [Hs Hp].
  split.
  - apply wf_at_position; [exact Hwf|lia].
  - unfold remaining in *. simpl.
    replace (Z.to_nat (_pos p + Z.of_nat (List.length l1)))
      with (List.length l1 + Z.to_nat (_pos p))%nat by lia.
    rewrite <- skipn_skipn, Hr, skipn_app, skipn_all, Nat.sub_diag.
    reflexivity.
Qed.

Lemma at_rem_next (p : LogsParser) (t : LexToken) (rem : list LexToken) :
  at_rem p (t :: rem) -> at_rem (at_position p (_pos p + 1)) rem.
Proof. intros H. apply (at_rem_advance p [t] rem H). Qed.

Lemma eat_at_hit (ty : TokenType) (p : LogsParser) (t : LexToken)
    (rem : list LexToken) :
  at_rem p (t :: rem) -> tok_type t = ty ->
  eat ty None p = Ret (Some t) (at_position p (_pos p + 1)).
Proof.
  intros H Hty. destruct (at_rem_current p t rem H) as [Hc Hlt].
  apply eat_hit; auto. apply H.
Qed.

Lemma eat_at_miss (ty : TokenType) (v : option string) (p : LogsParser)
    (rem : list LexToken) :
  at_rem p rem -> head_is_not ty rem -> eat ty v p = Ret None p.
Proof.
  intros H Hn. apply eat_miss; [apply H|].
  destruct rem as [|t rem].
  - rewrite current_None_at_end; [exact I|apply H|now apply at_rem_end].
  - destruct (at_rem_current p t rem H) as [-> _]. now left.
Qed.

Lemma entry_run_app (entry rem : list LexToken) (t : LexToken) :
  Forall (fun t => is_word_or_space t = true) entry ->
  is_word_or_space t = false ->
  entry_run (entry ++ t :: rem) = entry.
Proof.
  induction 1 as [|x entry Hx _ IH]; intros Ht; simpl.
  - now rewrite Ht.
  - rewrite Hx. f_equal. now apply IH.
Qed.

Lemma parse_entry_at (p : LogsParser) (entry rem : list LexToken) (t : LexToken) :
  at_rem p (entry ++ t :: rem) ->
  Forall (fun t => is_word_or_space t = true) entry ->
  is_word_or_space t = false ->
  parse_entry p
  = Ret (nonempty (values entry))
        (at_position p (_pos p + Z.of_nat (List.length entry) + 1)).
Proof.
  intros [Hwf Hr] He Ht. pose proof (remaining_length p Hwf) as Hl.
  rewrite parse_entry_exact by exact Hwf.
  rewrite Hr in *. rewrite (entry_run_app entry rem t He Ht).
  rewrite length_app in Hl. simpl List.length in Hl.
  rewrite Z.min_l by lia. reflexivity.
Qed.

Lemma starts_line_head_is_not (post : list LexToken) (ty : TokenType) :
  starts_line post -> (forall k, prefix_of k <> ty) -> head_is_not ty post.
Proof.
  destruct post as [|t post]; simpl; [auto|].
  intros [k Hk] H. rewrite Hk. apply H.
Qed.

Lemma line_tokens_length (l : line) :
  Z.of_nat (List.length (line_tokens l))
  = Z.of_nat (List.length (l_entry l)) + 3.
Proof. unfold line_tokens. simpl. rewrite length_app. simpl. lia. Qed.

Lemma at_position_twice (p : LogsParser) (a b : Z) :
  at_position (at_position p a) b = at_position p b.
Proof. reflexivity. Qed.

(** The part the three line rules share: the prefix, the space and the
    entry with the newline that ends it. *)
Lemma prefix_space_entry (p : LogsParser) (l : line) (post : list LexToken) :
  line_ok l -> at_rem p (line_tokens l ++ post) ->
  eat (prefix_of (l_field l)) None p
  = Ret (Some (l_prefix l)) (at_position p (_pos p + 1))
  /\ eat SPACE None (at_position p (_pos p + 1))
     = Ret (Some (l_space l)) (at_position p (_pos p + 2))
  /\ parse_entry (at_position p (_pos p + 2))
     = Ret (line_text l)
           (at_position p (_pos p + Z.of_nat (List.length (line_tokens l))))
  /\ at_rem (at_position p (_pos p + Z.of_nat (List.length (line_tokens l))))
       post.
Proof.
  intros (Hpre & Hsp & Hent & Hnl) H0.
  unfold line_tokens in H0. simpl in H0.
  pose proof (at_rem_next _ _ _ H0) as H1.
  pose proof (at_rem_next _ _ _ H1) as H2.
  rewrite at_position_twice in H2.
  change (_pos (at_position p (_pos p + 1))) with (_pos p + 1) in H2.
  replace (_pos p + 1 + 1) with (_pos p + 2) in H2 by lia.
  rewrite <- app_assoc in H2. simpl in H2.
  split; [now apply (eat_at_hit _ _ _ _ H0)|].
  split.
  { rewrite (eat_at_hit SPACE _ _ _ H1 Hsp), at_position_twice.
    change (_pos (at_position p (_pos p + 1))) with (_pos p + 1).
    replace (_pos p + 1 + 1) with (_pos p + 2) by lia. reflexivity. }
  assert (Hlen : _pos p + Z.of_nat (List.length (line_tokens l))
                 = _pos p + 2 + Z.of_nat (List.length (l_entry l)) + 1)
    by (rewrite line_tokens_length; lia).
  split.
  { rewrite (parse_entry_at _ _ _ _ H2 Hent).
    - rewrite at_position_twice.
      change (_pos (at_position p (_pos p + 2))) with (_pos p + 2).
      rewrite Hlen. reflexivity.
    - unfold is_word_or_space. now rewrite Hnl. }
  pose proof (at_rem_advance (at_position p (_pos p + 2))
                (l_entry l ++ [l_newline l]) post) as H3.
  rewrite <- app_assoc in H3. specialize (H3 H2).
  rewrite at_position_twice in H3.
  change (_pos (at_position p (_pos p + 2))) with (_pos p + 2) in H3.
  rewrite length_app in H3. simpl List.length in H3.
  rewrite Hlen.
  replace (_pos p + 2 + Z.of_nat (List.length (l_entry l)) + 1)
    with (_pos p + 2 + Z.of_nat (List.length (l_entry l) + 1)) by lia.
  exact H3.
Qed.

Section LineRules.

Variable b64decode_text : string -> option string.
Variable hostname_of_url : string -> url_result.

Lemma extract_host_update (c : Credential) (e : option string) (q : LogsParser) :
  extract_credential_domain_name hostname_of_url (set_host c e) q
  = match host_update hostname_of_url c e with
    | Some c' => Ret c' q
    | None => Raise ValueError q
    end.
Proof.
  unfold extract_credential_domain_name, host_update. simpl host.
  destruct e as [[|a h]|]; simpl; try reflexivity.
  destruct (hostname_of_url (String a h)) as [|d]; [reflexivity|].
  destruct d as [[|x d]|]; reflexivity.
Qed.

(** A line rule on its own line: it returns true with the credential the
    line gives, the cursor right after the line; or it raises the
    [ValueError] of [urlparse]. *)
Lemma call_on_line (p : LogsParser) (l : line) (post : list LexToken)
    (c : Credential) :
  line_ok l -> at_rem p (line_tokens l ++ post) -> starts_line post ->
  call b64decode_text hostname_of_url (rule_of (l_field l)) c p
  = match apply_field hostname_of_url (l_field l) c (line_text l) with
    | Some c' =>
        Ret (true, c')
            (at_position p (_pos p + Z.of_nat (List.length (line_tokens l))))
    | None =>
        Raise ValueError
            (at_position p (_pos p + Z.of_nat (List.length (line_tokens l))))
    end.
Proof.
  intros Hok H0 Hpost.
  destruct (prefix_space_entry p l post Hok H0) as (E1 & E2 & E3 & H3).
  assert (Enl : eat NEWLINE None
                  (at_position p (_pos p + Z.of_nat (List.length (line_tokens l))))
                = Ret None
                    (at_position p (_pos p + Z.of_nat (List.length (line_tokens l))))).
  { apply (eat_at_miss _ _ _ post H3).
    apply starts_line_head_is_not; [exact Hpost|]. intros []; discriminate. }
  assert (Ew : eat WORD None
                 (at_position p (_pos p + Z.of_nat (List.length (line_tokens l))))
               = Ret None
                   (at_position p (_pos p + Z.of_nat (List.length (line_tokens l))))).
  { apply (eat_at_miss _ _ _ post H3).
    apply starts_line_head_is_not; [exact Hpost|]. intros []; discriminate. }
  destruct (l_field l) eqn:Hk; simpl rule_of; simpl prefix_of in E1;
    cbn [call apply_field].
  - unfold parse_host_line, bind. rewrite E1. cbn beta iota delta [is_some].
    rewrite E2. cbn beta iota delta [is_some]. rewrite E3.
    rewrite extract_host_update.
    destruct (host_update hostname_of_url c (line_text l)); [|reflexivity].
    rewrite Enl. reflexivity.
  - unfold parse_user_line, bind. rewrite E1. cbn beta iota delta [is_some].
    rewrite E2. cbn beta iota delta [is_some]. rewrite E3.
    unfold ret at 1. rewrite Enl. reflexivity.
  - unfold parse_password_line, bind. rewrite E1. cbn beta iota delta [is_some].
    rewrite E2. cbn beta iota delta [is_some]. unfold position at 1.
    rewrite E3, Enl. cbn beta iota delta [is_some]. rewrite Ew. reflexivity.
Qed.

End LineRules.

Lemma skip_blank_noop (p : LogsParser) (rem : list LexToken) :
  at_rem p rem -> head_is_not NEWLINE rem -> head_is_not SPACE rem ->
  skip_blank p = Ret tt p.
Proof.
  intros H Hn Hs. unfold skip_blank. simpl. unfold eat_or, bind.
  rewrite (eat_at_miss NEWLINE None p rem H Hn).
  rewrite (eat_at_miss SPACE None p rem H Hs). reflexivity.
Qed.

Lemma list_remove_other (x y : ParsingFunc) (l : list ParsingFunc) :
  In x l -> x <> y -> In x (list_remove y l).
Proof.
  induction l as [|z l IH]; simpl; [auto|].
  intros [->|H] Hne.
  - destruct (ParsingFunc_eqb x y) eqn:E.
    + apply ParsingFunc_eqb_eq in E. contradiction.
    + now left.
  - destruct (ParsingFunc_eqb z y); [exact H|]. right. now apply IH.
Qed.

Lemma block_tokens_starts_line (ls : list line) :
  Forall line_ok ls -> starts_line (block_tokens ls).
Proof.
  destruct 1 as [|l ls Hl _]; simpl; [exact I|].
  exists (l_field l). apply Hl.
Qed.

Section BlockEvaluation.

Variable b64decode_text : string -> option string.
Variable hostname_of_url : string -> url_result.

Local Abbreviation call := (call b64decode_text hostname_of_url).
Local Abbreviation parse_line_from :=
  (parse_line_from b64decode_text hostname_of_url).
Local Abbreviation parse_line := (parse_line b64decode_text hostname_of_url).
Local Abbreviation parse_lines := (parse_lines b64decode_text hostname_of_url).
Local Abbreviation parse_user_block :=
  (parse_user_block b64decode_text hostname_of_url).
Local Abbreviation parse_passwords_tokens :=
  (parse_passwords_tokens b64decode_text hostname_of_url).

Lemma call_miss (f : ParsingFunc) (c : Credential) (p : LogsParser)
    (rem : list LexToken) :
  at_rem p rem -> rule_misses f rem -> call f c p = Ret (false, c) p.
Proof.
  intros H Hm. destruct f; simpl in *.
  - destruct Hm as [H1 H2]. unfold parse_software_line, bind.
    rewrite (eat_at_miss _ None p rem H H1). cbn beta iota delta [is_some].
    rewrite (eat_at_miss _ None p rem H H2). reflexivity.
  - unfold parse_host_line, bind.
    rewrite (eat_at_miss _ None p rem H Hm). reflexivity.
  - unfold parse_user_line, bind.
    rewrite (eat_at_miss _ None p rem H Hm). reflexivity.
  - unfold parse_password_line, bind.
    rewrite (eat_at_miss _ None p rem H Hm). reflexivity.
Qed.

Lemma rule_misses_other (f : ParsingFunc) (l : line) (post : list LexToken) :
  line_ok l -> f <> rule_of (l_field l) ->
  rule_misses f (line_tokens l ++ post).
Proof.
  intros (Hpre & _) Hne. unfold line_tokens. simpl.
  destruct f, (l_field l); simpl in *; rewrite Hpre;
    try split; try discriminate; congruence.
Qed.

Lemma rule_misses_end (f : ParsingFunc) : rule_misses f [].
Proof. destruct f; simpl; auto. Qed.

(** [parse_line] at the start of a line whose rule is still active. *)
Lemma parse_line_from_on_line (funcs : list ParsingFunc) (p : LogsParser)
    (l : line) (post : list LexToken) :
  line_ok l -> at_rem p (line_tokens l ++ post) -> starts_line post ->
  forall (todo : list ParsingFunc) (c : Credential),
    In (rule_of (l_field l)) todo ->
    parse_line_from todo funcs c p
    = match apply_field hostname_of_url (l_field l) c (line_text l) with
      | Some c' =>
          Ret (true, list_remove (rule_of (l_field l)) funcs, c')
              (at_position p (_pos p + Z.of_nat (List.length (line_tokens l))))
      | None =>
          Raise ValueError
              (at_position p (_pos p + Z.of_nat (List.length (line_tokens l))))
      end.
Proof.
  intros Hok H0 Hpost.
  destruct (prefix_space_entry p l post Hok H0) as (_ & _ & _ & H3).
  induction todo as [|f todo IH]; intros c Hin; [destruct Hin|].
  simpl. unfold bind.
  destruct (ParsingFunc_eqb f (rule_of (l_field l))) eqn:E.
  - apply ParsingFunc_eqb_eq in E. subst f.
    rewrite (call_on_line _ _ p l post c Hok H0 Hpost).
    destruct (apply_field hostname_of_url (l_field l) c (line_text l));
      [|reflexivity].
    cbn beta iota delta [fst snd].
    rewrite (skip_blank_noop _ post H3).
    + reflexivity.
    + apply starts_line_head_is_not; [exact Hpost|]. intros []; discriminate.
    + apply starts_line_head_is_not; [exact Hpost|]. intros []; discriminate.
  - assert (Hne : f <> rule_of (l_field l)).
    { intros ->. rewrite (proj2 (ParsingFunc_eqb_eq _ _) eq_refl) in E.
      discriminate. }
    rewrite (call_miss f c p _ H0 (rule_misses_other f l post Hok Hne)).
    cbn beta iota delta [fst snd]. apply IH.
    destruct Hin as [->|Hin]; [contradiction|exact Hin].
Qed.

Lemma parse_line_from_at_end (funcs : list ParsingFunc) (p : LogsParser) :
  at_rem p [] ->
  forall (todo : list ParsingFunc) (c : Credential),
    parse_line_from todo funcs c p = Ret (false, funcs, c) p.
Proof.
  intros H. induction todo as [|f todo IH]; intros c; [reflexivity|].
  simpl. unfold bind.
  rewrite (call_miss f c p [] H (rule_misses_end f)). simpl. apply IH.
Qed.

(** The rule loop of [parse_user_block] on a block of lines with distinct
    fields whose rules are active: every line is applied in turn, and the
    loop stops at the end of the tokens. *)
Lemma parse_lines_on_block (ls : list line) :
  forall (funcs : list ParsingFunc) (c : Credential) (p : LogsParser)
         (fuel : nat),
    Forall line_ok ls -> at_rem p (block_tokens ls) ->
    NoDup (map l_field ls) ->
    (forall l, In l ls -> In (rule_of (l_field l)) funcs) ->
    (List.length ls < fuel)%nat ->
    match run_lines hostname_of_url ls c with
    | Some c' =>
        parse_lines fuel funcs c p
        = Ret (remove_rules ls funcs, c') (at_position p (_size p))
    | None => exists q, parse_lines fuel funcs c p = Raise ValueError q
    end.
Proof.
  induction ls as [|l ls IH]; intros funcs c p fuel Hok H0 Hnd Hin Hfuel;
    (destruct fuel as [|fuel]; [simpl in Hfuel; lia|]).
  - simpl. unfold parse_line, bind.
    rewrite (parse_line_from_at_end funcs p H0). simpl.
    rewrite <- (at_rem_end p H0). now rewrite at_position_same.
  - inversion Hok as [|? ? Hl Hls]; subst.
    inversion Hnd as [|? ? Hnotin Hnd']; subst.
    simpl block_tokens in H0.
    destruct (prefix_space_entry p l _ Hl H0) as (_ & _ & _ & H3).
    cbn [run_lines parse_lines]. unfold parse_line, bind.
    rewrite (parse_line_from_on_line funcs p l (block_tokens ls) Hl H0
               (block_tokens_starts_line ls Hls) funcs c
               (Hin l (or_introl eq_refl))).
    destruct (apply_field hostname_of_url (l_field l) c (line_text l))
      as [c1|]; [|eexists; reflexivity].
    specialize (IH (list_remove (rule_of (l_field l)) funcs) c1 _ fuel
                  Hls H3 Hnd').
    assert (Hin' : forall l0, In l0 ls ->
                     In (rule_of (l_field l0))
                        (list_remove (rule_of (l_field l)) funcs)).
    { intros l0 Hl0. apply list_remove_other; [apply Hin; now right|].
      intros Heq. apply Hnotin.
      assert (l_field l0 = l_field l)
        by (destruct (l_field l0), (l_field l); simpl in Heq; congruence).
      rewrite <- H. now apply in_map. }
    specialize (IH Hin' ltac:(simpl in Hfuel; lia)).
    cbn [remove_rules].
    destruct (run_lines hostname_of_url ls c1) as [c'|].
    + rewrite IH. reflexivity.
    + exact IH.
Qed.

End BlockEvaluation.

Lemma three_fields (ls : list line) :
  Permutation (map l_field ls) [FHost; FUser; FPassword] ->
  exists a b c, ls = [a; b; c]
                /\ In FHost [l_field a; l_field b; l_field c]
                /\ In FUser [l_field a; l_field b; l_field c]
                /\ In FPassword [l_field a; l_field b; l_field c].
Proof.
  intros HP. pose proof (Permutation_length HP) as Hlen.
  rewrite length_map in Hlen.
  destruct ls as [|a [|b [|c [|d ls]]]]; try discriminate Hlen.
  exists a, b, c. split; [reflexivity|].
  apply Permutation_sym in HP.
  repeat split; apply (Permutation_in _ HP); simpl; auto.
Qed.

Section BlockResult.

Variable b64decode_text : string -> option string.
Variable hostname_of_url : string -> url_result.

(** The credential of a block does not depend on the order of its three
    lines: each line sets fields of its own. *)
Lemma run_lines_block (ls : list line) :
  Permutation (map l_field ls) [FHost; FUser; FPassword] ->
  run_lines hostname_of_url ls Credential_new
  = block_credential hostname_of_url (value_of FHost ls) (value_of FUser ls)
      (value_of FPassword ls)
  /\ remove_rules ls all_rules = [F_parse_software_line]
  /\ List.length ls = 3%nat.
Proof.
  intros HP. destruct (three_fields ls HP) as (a & b & c & -> & Hh & Hu & Hp).
  split; [|split; [|reflexivity]].
  - unfold block_credential. simpl in *.
    destruct (l_field a), (l_field b), (l_field c);
      try (exfalso; intuition discriminate);
      cbn [run_lines apply_field value_of];
      unfold host_update;
      repeat match goal with
             | |- context [line_text ?l] =>
                 let v := fresh "v" in
                 generalize (line_text l); intros v
             end;
      repeat match goal with
             | v : option string |- _ => destruct v as [[|? ?]|]
             end;
      cbn [set_host set_username set_password host username password domain
           local_part email_domain filepath stealer_name software
           Credential_new];
      repeat match goal with
             | |- context [hostname_of_url ?h] =>
                 destruct (hostname_of_url h) as [|[[|? ?]|]]
             end;
      try reflexivity;
      unfold split_credential_email;
      cbn [set_host set_username set_password set_domain host username
           password domain local_part email_domain filepath stealer_name
           software Credential_new truthy negb];
      repeat match goal with
             | |- context [re_match ?f ?r ?s] => destruct (re_match f r s)
             end;
      reflexivity.
  - simpl in *.
    destruct (l_field a), (l_field b), (l_field c);
      try (exfalso; intuition discriminate); reflexivity.
Qed.

End BlockResult.

Section BlockParse.

Variable b64decode_text : string -> option string.
Variable hostname_of_url : string -> url_result.

Local Abbreviation parse_lines := (parse_lines b64decode_text hostname_of_url).
Local Abbreviation parse_user_block :=
  (parse_user_block b64decode_text hostname_of_url).
Local Abbreviation parse_passwords_step :=
  (parse_passwords_step b64decode_text hostname_of_url).
Local Abbreviation parse_passwords_loop :=
  (parse_passwords_loop b64decode_text hostname_of_url).
Local Abbreviation parse_passwords_tokens :=
  (parse_passwords_tokens b64decode_text hostname_of_url).

Lemma skip_seller_block_miss (p : LogsParser) (rem : list LexToken) :
  at_rem p rem -> head_is_not SELLER_PREFIX rem ->
  skip_seller_block p = Ret false p.
Proof.
  intros H Hn. unfold skip_seller_block, bind.
  now rewrite (eat_at_miss _ None p rem H Hn).
Qed.

Lemma skip_header_line_miss (p : LogsParser) (rem : list LexToken) :
  at_rem p rem -> head_is_not WORD rem -> head_is_not SPACE rem ->
  skip_header_line p = Ret false p.
Proof.
  intros H Hw Hs. unfold skip_header_line, eat_or, bind.
  rewrite (eat_at_miss _ None p rem H Hw).
  now rewrite (eat_at_miss _ None p rem H Hs).
Qed.

Lemma parse_passwords_loop_at_end (fuel : nat) (filename : string)
    (parsed_seller : bool) (p : LogsParser) :
  _pos p = _size p ->
  parse_passwords_loop fuel filename parsed_seller p = Ret tt p.
Proof.
  intros He. destruct fuel; simpl; now rewrite He, Z.ltb_irrefl.
Qed.

(** [parse_passwords] on the tokens of a block of one host line, one user
    line and one password line, in any order. *)
Lemma parse_block (filename : string) (ls : list line) :
  Forall line_ok ls ->
  Permutation (map l_field ls) [FHost; FUser; FPassword] ->
  result_of (parse_passwords_tokens filename (block_tokens ls))
  = block_result hostname_of_url filename (value_of FHost ls)
      (value_of FUser ls) (value_of FPassword ls).
Proof.
  intros Hok HP.
  destruct (run_lines_block hostname_of_url ls HP) as (Hrun & Hrem & Hlen).
  assert (Hnd : NoDup (map l_field ls)).
  { apply (Permutation_NoDup (Permutation_sym HP)).
    repeat constructor; simpl; intuition discriminate. }
  set (tokens := block_tokens ls).
  assert (H0 : at_rem (LogsParser_init tokens) tokens)
    by (split; [apply wf_init|reflexivity]).
  assert (Hstart : starts_line tokens) by now apply block_tokens_starts_line.
  assert (Hne : exists n, List.length tokens = S n).
  { unfold tokens. destruct ls as [|l ls]; [discriminate Hlen|].
    simpl. now eexists. }
  destruct Hne as [n Hn].
  unfold parse_passwords_tokens, bind. rewrite Hn.
  cbn [parse_passwords_loop].
  replace (_pos (LogsParser_init tokens) <? _size (LogsParser_init tokens))
    with true by (symmetry; apply Z.ltb_lt; simpl; lia).
  unfold parse_passwords_step, bind. cbn [negb].
  rewrite (skip_seller_block_miss _ tokens H0)
    by (apply starts_line_head_is_not; [exact Hstart|intros []; discriminate]).
  rewrite (eat_at_miss NEWLINE None _ tokens H0)
    by (apply starts_line_head_is_not; [exact Hstart|intros []; discriminate]).
  cbn beta iota delta [is_some].
  rewrite (skip_header_line_miss _ tokens H0)
    by (apply starts_line_head_is_not; [exact Hstart|intros []; discriminate]).
  rewrite parse_user_block_unfold.
  pose proof (parse_lines_on_block b64decode_text hostname_of_url ls all_rules
                Credential_new (LogsParser_init tokens) 5 Hok H0 Hnd) as Hl.
  assert (Hin : forall l, In l ls -> In (rule_of (l_field l)) all_rules)
    by (intros l _; apply all_rules_complete).
  specialize (Hl Hin ltac:(lia)).
  unfold block_result. rewrite <- Hrun.
  destruct (run_lines hostname_of_url ls Credential_new) as [c|].
  - rewrite Hl, Hrem. destruct (Credential_any c).
    + unfold ret. cbn beta iota delta [snd fst].
      rewrite parse_passwords_loop_at_end by reflexivity.
      unfold parse_passwords_finish. cbn [with_output at_position _pos _size].
      rewrite Z.eqb_refl. reflexivity.
    + cbn beta iota delta [snd fst List.length Z.of_nat].
      change (Z.pos (Pos.of_succ_nat 0) <? 2) with true.
      unfold ret. cbn beta iota delta [snd fst].
      rewrite parse_passwords_loop_at_end by reflexivity.
      unfold parse_passwords_finish. cbn [with_output at_position _pos _size].
      rewrite Z.eqb_refl. reflexivity.
  - destruct Hl as [q ->]. reflexivity.
Qed.

End BlockParse.

Lemma value_of_assoc (k : field) (ls : list line) :
  value_of k ls = assoc k (map line_content ls).
Proof.
  induction ls as [|l ls IH]; simpl; [reflexivity|].
  destruct k, (l_field l); auto.
Qed.

Lemma assoc_not_in (k : field) (cs : list (field * option string)) :
  ~ In k (map fst cs) -> assoc k cs = None.
Proof.
  induction cs as [|[k' v] cs IH]; simpl; [reflexivity|].
  intros H. destruct k, k'; try (exfalso; apply H; now left);
    apply IH; intros Hin; apply H; now right.
Qed.

(** A lookup does not depend on the order of a list with distinct keys. *)
Lemma assoc_permutation (k : field) (cs cs' : list (field * option string)) :
  Permutation cs cs' -> NoDup (map fst cs) -> assoc k cs = assoc k cs'.
Proof.
  induction 1 as [|[k1 v1] cs cs' HP IH|[k1 v1] [k2 v2] cs|cs1 cs2 cs3 H12 IH12 H23 IH23];
    intros Hnd.
  - reflexivity.
  - simpl. inversion Hnd; subst. rewrite IH by assumption. reflexivity.
  - simpl in *. inversion Hnd as [|? ? Hn1 Hnd1]; subst.
    destruct k, k1, k2; try reflexivity; exfalso; apply Hn1; now left.
  - rewrite IH12 by exact Hnd. apply IH23.
    apply (Permutation_NoDup (Permutation_map fst H12) Hnd).
Qed.

Lemma example_lines_tokenized :
  tokenize_passwords example_passwords_text
  = Tokens (block_tokens example_lines).
Proof. vm_compute. reflexivity. Qed.

Lemma example_lines_reordered_tokenized :
  tokenize_passwords example_passwords_text_reordered
  = Tokens (block_tokens example_lines_reordered).
Proof. vm_compute. reflexivity. Qed.

Section OrderIndependence.

Variable b64decode_text : string -> option string.
Variable hostname_of_url : string -> url_result.

Local Abbreviation parse_passwords_tokens :=
  (parse_passwords_tokens b64decode_text hostname_of_url).
Local Abbreviation parse_passwords :=
  (parse_passwords b64decode_text hostname_of_url).

(** C5, amended. Take a block of one host line, one user line and one
    password line, each made of its prefix token, a SPACE token, an entry of
    WORD and SPACE tokens and the NEWLINE token that ends it, and any other
    block of such lines with the same fields and values in another order:
    [parse_passwords] gives the same result on the tokens of both (the same
    credential list, or the same [ValueError] of [urlparse]). In
    particular the example file in the order user, password, host gives the
    result of the order host, user, password, whatever the file name, the
    base64 decoder and [urlparse] are. *)
Theorem line_order_independence (filename : string) (ls ls' : list line) :
  Forall line_ok ls -> Forall line_ok ls' ->
  Permutation (map l_field ls) [FHost; FUser; FPassword] ->
  Permutation (map line_content ls) (map line_content ls') ->
  result_of (parse_passwords_tokens filename (block_tokens ls))
  = result_of (parse_passwords_tokens filename (block_tokens ls'))
  /\ result_of (parse_passwords_tokens filename (block_tokens ls))
     = block_result hostname_of_url filename (value_of FHost ls)
         (value_of FUser ls) (value_of FPassword ls)
  /\ parse_passwords filename example_passwords_text_reordered
     = parse_passwords filename example_passwords_text
  /\ parse_passwords filename example_passwords_text
     = block_result hostname_of_url filename (Some "example.com")
         (Some "a@b.com") (Some "secret").
Proof.
  intros Hok Hok' HP Hc.
  assert (HP' : Permutation (map l_field ls') [FHost; FUser; FPassword]).
  { apply Permutation_trans with (map l_field ls); [|exact HP].
    apply Permutation_sym.
    assert (E : forall l0, map l_field l0 = map fst (map line_content l0))
      by (intros l0; rewrite map_map; reflexivity).
    rewrite (E ls), (E ls'). now apply Permutation_map. }
  assert (Hnd : NoDup (map fst (map line_content ls))).
  { rewrite map_map. change (NoDup (map l_field ls)).
    apply (Permutation_NoDup (Permutation_sym HP)).
    repeat constructor; simpl; intuition discriminate. }
  assert (Hv : forall k, value_of k ls' = value_of k ls).
  { intros k. rewrite !value_of_assoc. symmetry.
    now apply assoc_permutation. }
  pose proof (parse_block b64decode_text hostname_of_url filename ls Hok HP)
    as H1.
  pose proof (parse_block b64decode_text hostname_of_url filename ls' Hok' HP')
    as H2.
  rewrite !Hv in H2.
  split; [now rewrite H1, H2|]. split; [exact H1|].
  assert (Hex : Forall line_ok example_lines)
    by (repeat constructor).
  assert (Hex' : Forall line_ok example_lines_reordered)
    by (repeat constructor).
  pose proof (parse_block b64decode_text hostname_of_url filename
                example_lines Hex (Permutation_refl _)) as E1.
  pose proof (parse_block b64decode_text hostname_of_url filename
                example_lines_reordered Hex'
                (Permutation_sym
                   (Permutation_cons_append [FUser; FPassword] FHost))) as E2.
  unfold parse_passwords.
  rewrite example_lines_tokenized, example_lines_reordered_tokenized.
  rewrite E1, E2. split; reflexivity.
Qed.

End OrderIndependence.

(** C5, as stated, fails. With a password value that holds a prefix
    keyword, the file that has the password line last yields a credential
    and the file that has the same three lines with the password line first
    is a grammar violation. And with an Android host and a password that
    goes on after a line break, the password is the two joined words when
    the host line comes first (the text [abcdef] is not base64) and the
    first word alone when the host line comes last. *)
Lemma line_order_matters_for_keyword_values :
  parse_passwords no_b64decode (urlparse_hostname any_bracketed_host)
    "Passwords.txt" keyword_password_last
  = Returned [mkCredential None (Some "h") (Some "u") None None None None
                (Some "Passwords.txt") None]
  /\ parse_passwords no_b64decode (urlparse_hostname any_bracketed_host)
       "Passwords.txt" keyword_password_first
     = Raised (SyntaxError (mkToken WORD "x" 1 17) 4 14)
  /\ parse_passwords no_b64decode (urlparse_hostname any_bracketed_host)
       "Passwords.txt" keyword_password_last
     <> parse_passwords no_b64decode (urlparse_hostname any_bracketed_host)
          "Passwords.txt" keyword_password_first
  /\ parse_passwords no_b64decode (urlparse_hostname any_bracketed_host)
       "Passwords.txt" android_host_first
     = Returned [mkCredential None (Some "android://x") (Some "u")
                   (Some "abcdef") (Some "x") None None
                   (Some "Passwords.txt") None]
  /\ parse_passwords no_b64decode (urlparse_hostname any_bracketed_host)
       "Passwords.txt" android_host_last
     = Returned [mkCredential None (Some "android://x") (Some "u")
                   (Some "abc") (Some "x") None None
                   (Some "Passwords.txt") None].
Proof.
  repeat split; try (vm_compute; reflexivity).
  vm_compute. discriminate.
Qed.

(** A use of C5 on the lines of the example file in its two orders. *)
Lemma line_order_independence_witness :
  result_of (parse_passwords_tokens no_b64decode
               (urlparse_hostname any_bracketed_host) "Passwords.txt"
               (block_tokens example_lines))
  = result_of (parse_passwords_tokens no_b64decode
                 (urlparse_hostname any_bracketed_host) "Passwords.txt"
                 (block_tokens example_lines_reordered)).
Proof.
  apply (line_order_independence no_b64decode
           (urlparse_hostname any_bracketed_host) "Passwords.txt"
           example_lines example_lines_reordered).
  - repeat constructor.
  - repeat constructor.
  - apply Permutation_refl.
  - apply (Permutation_cons_append
             [(FUser, Some "a@b.com"); (FPassword, Some "secret")]
             (FHost, Some "example.com")).
Defined.

(* ===================================================================== *)
(** * Tokenizers: what a scan gives *)
(* ===================================================================== *)

Lemma all_ascii_complete (b : ascii) : In b all_ascii.
Proof.
  unfold all_ascii. rewrite <- (ascii_nat_embedding b).
  apply in_map. apply in_seq. pose proof (nat_ascii_bounded b). lia.
Qed.

Lemma forall_ascii_spec (f : ascii -> bool) :
  forall_ascii f = true -> forall b, f b = true.
Proof.
  unfold forall_ascii. rewrite forallb_forall. intros H b.
  apply H, all_ascii_complete.
Qed.

Lemma string_forall_app ok a b :
  string_forall ok (a ++ b) = string_forall ok a && string_forall ok b.
Proof.
  induction a as [|x a IH]; simpl; [reflexivity|].
  now rewrite IH, andb_assoc.
Qed.

(** What [reach] says in terms of the text: the characters between the two
    positions. *)
Lemma star_run_takes {X} (ok okc : ascii -> bool) (k : cursor -> option X) (x : X) :
  (forall b, ok b = true -> okc b = true) ->
  forall s prev idx,
    star_run ok prev idx s k = Some x ->
    exists c' pre, s = (pre ++ cur_rest c')%string
                   /\ string_forall okc pre = true
                   /\ cur_idx c' = (idx + String.length pre)%nat
                   /\ k c' = Some x.
Proof.
  intros Hok. induction s as [|a s' IH]; intros prev idx H; simpl in H.
  - exists (mkCursor prev idx ""), "". simpl. repeat split; auto.
  - destruct (ok a) eqn:Ea.
    + destruct (star_run ok (Some a) (S idx) s' k) eqn:E.
      * injection H as ->. destruct (IH _ _ E) as (c' & pre & Hs & Hf & Hi & Hk).
        exists c', (String a pre). simpl. rewrite <- Hs, Hf, (Hok _ Ea).
        repeat split; auto. lia.
      * exists (mkCursor prev idx (String a s')), "". simpl. repeat split; auto.
    + exists (mkCursor prev idx (String a s')), "". simpl. repeat split; auto.
Qed.

(** A match of a pattern that takes only [ok] characters took only such
    characters. *)
Lemma re_run_takes (ok : ascii -> bool) fl (r : regex) :
  takes_only ok fl r = true ->
  forall c g k x,
    re_run fl r c g k = Some x ->
    exists c' g' pre,
      cur_rest c = (pre ++ cur_rest c')%string
      /\ string_forall ok pre = true
      /\ cur_idx c' = (cur_idx c + String.length pre)%nat
      /\ k c' g' = Some x.
Proof.
  induction r as [|a|cl|r1 IH1 r2 IH2|r1 IH1 r2 IH2|r1 IH1|cl|cl|n r1 IH1| |r1 IH1];
    simpl; intros Ht c g k x H.
  - exists c, g, "". simpl. repeat split; auto.
  - destruct (cur_rest c) as [|b s'] eqn:E; [discriminate|].
    destruct (char_ok fl a b) eqn:Eb; [|discriminate].
    pose proof (forall_ascii_spec _ Ht b) as Hb. simpl in Hb. rewrite Eb in Hb. simpl in Hb.
    exists (mkCursor (Some b) (S (cur_idx c)) s'), g, (String b "").
    simpl. rewrite Hb. repeat split; [lia|exact H].
  - destruct (cur_rest c) as [|b s'] eqn:E; [discriminate|].
    destruct (class_ok fl cl b) eqn:Eb; [|discriminate].
    pose proof (forall_ascii_spec _ Ht b) as Hb. simpl in Hb. rewrite Eb in Hb. simpl in Hb.
    exists (mkCursor (Some b) (S (cur_idx c)) s'), g, (String b "").
    simpl. rewrite Hb. repeat split; [lia|exact H].
  - apply andb_prop in Ht. destruct Ht as [Ht1 Ht2].
    apply (IH1 Ht1) in H. destruct H as (c1 & g1 & pre1 & Hr1 & Hf1 & Hi1 & H).
    apply (IH2 Ht2) in H. destruct H as (c2 & g2 & pre2 & Hr2 & Hf2 & Hi2 & H).
    exists c2, g2, (pre1 ++ pre2)%string.
    rewrite Hr1, Hr2, string_app_assoc, string_forall_app, Hf1, Hf2, Hi2, Hi1,
      length_append.
    repeat split; [|exact H]. lia.
  - apply andb_prop in Ht. destruct Ht as [Ht1 Ht2].
    destruct (re_run fl r1 c g k) eqn:E.
    + injection H as ->. now apply (IH1 Ht1) in E.
    + now apply (IH2 Ht2) in H.
  - destruct (re_run fl r1 c g k) eqn:E.
    + injection H as ->. now apply (IH1 Ht) in E.
    + exists c, g, "". simpl. repeat split; auto.
  - unfold plus_run in H.
    destruct (cur_rest c) as [|b s'] eqn:E; [discriminate|].
    destruct (class_ok fl cl b) eqn:Eb; [|discriminate].
    pose proof (forall_ascii_spec _ Ht) as Hall.
    apply (star_run_takes _ ok) in H.
    + destruct H as (c' & pre & Hs & Hf & Hi & H).
      exists c', g, (String b pre). simpl. rewrite <- Hs, Hf.
      specialize (Hall b). simpl in Hall. rewrite Eb in Hall. simpl in Hall. rewrite Hall.
      repeat split; [|exact H]. lia.
    + intros b' Hb'. specialize (Hall b'). simpl in Hall. rewrite Hb' in Hall. exact Hall.
  - pose proof (forall_ascii_spec _ Ht) as Hall.
    apply (star_run_takes _ ok) in H.
    + destruct H as (c' & pre & Hs & Hf & Hi & H).
      exists c', g, pre. repeat split; auto.
    + intros b' Hb'. specialize (Hall b'). simpl in Hall. rewrite Hb' in Hall. exact Hall.
  - apply (IH1 Ht) in H. destruct H as (c' & g' & pre & Hr & Hf & Hi & H).
    eexists c', _, pre. repeat split; eauto.
  - destruct (at_boundary fl c); [|discriminate].
    exists c, g, "". simpl. repeat split; auto.
  - destruct (re_run fl r1 c g (fun c' g' => Some (c', g'))); [discriminate|].
    exists c, g, "". simpl. repeat split; auto.
Qed.

Lemma string_filter_kept (keep : ascii -> bool) (pre s : string) :
  string_forall keep pre = true ->
  string_filter keep (pre ++ s) = (pre ++ string_filter keep s)%string.
Proof.
  induction pre as [|a pre IH]; simpl; [reflexivity|].
  intros H. apply andb_prop in H. destruct H as [Ha Hp].
  now rewrite Ha, IH.
Qed.

(** One token of the scan: the text it took, which is not empty and is made
    of characters the rules take. *)
Lemma first_rule_step (ok : ascii -> bool) (rules : list (TokenType * regex))
    (c c' : cursor) (ty : TokenType) :
  all_consuming rules = true -> all_take_only ok rules = true ->
  first_rule rules c = Some (ty, c') ->
  exists pre, cur_rest c = (pre ++ cur_rest c')%string
              /\ cur_idx c' = (cur_idx c + String.length pre)%nat
              /\ pre <> ""
              /\ string_forall ok pre = true
              /\ consumed c c' = pre.
Proof.
  intros Hcons Htake Hf.
  pose proof (first_rule_progress _ _ _ _ Hcons Hf) as Hlt.
  destruct (first_rule_In _ _ _ _ Hf) as (r & g & Hin & Hm).
  unfold all_take_only in Htake. rewrite forallb_forall in Htake.
  specialize (Htake _ Hin). simpl in Htake.
  unfold re_match_at in Hm.
  destruct (re_run_takes ok _ _ Htake _ _ _ _ Hm)
    as (c1 & g1 & pre & Hr & Hok & Hi & He).
  injection He as -> _.
  exists pre. repeat split; auto.
  - intros ->. rewrite Hr in Hlt. simpl in Hlt. lia.
  - now apply consumed_reach.
Qed.

Lemma password_rules_not_ignored : all_take_only not_ignored password_rules = true.
Proof. vm_compute. reflexivity. Qed.

Lemma system_rules_not_ignored : all_take_only not_ignored system_rules = true.
Proof. vm_compute. reflexivity. Qed.

Lemma password_rules_legal : all_take_only legal password_rules = true.
Proof. vm_compute. reflexivity. Qed.

Lemma system_rules_legal : all_take_only legal system_rules = true.
Proof. vm_compute. reflexivity. Qed.

Lemma lex_loop_lossless (rules : list (TokenType * regex)) :
  all_consuming rules = true -> all_take_only not_ignored rules = true ->
  forall fuel c l,
    lex_loop fuel rules c = Tokens l ->
    values l = without_ignored (cur_rest c).
Proof.
  intros Hcons Htake.
  induction fuel as [|fuel IH]; intros c l H; simpl in H;
    destruct (cur_rest c) as [|a s'] eqn:E;
    try (injection H as <-; reflexivity); try discriminate.
  destruct (t_ignore a) eqn:Ea.
  - apply IH in H. rewrite H. cbn [cur_rest]. unfold without_ignored.
    cbn [string_filter].
    replace (not_ignored a) with false by (unfold not_ignored; now rewrite Ea).
    reflexivity.
  - destruct (first_rule rules c) as [[ty c']|] eqn:Ef; [|discriminate].
    destruct (lex_loop fuel rules c') as [l'| |] eqn:El; try discriminate.
    simpl in H. injection H as <-.
    destruct (first_rule_step not_ignored _ _ _ _ Hcons Htake Ef)
      as (pre & Hr & Hi & Hne & Hok & Hc).
    cbn [values tok_value]. rewrite Hc, (IH _ _ El).
    unfold without_ignored.
    rewrite <- (string_filter_kept _ pre (cur_rest c') Hok).
    now rewrite <- Hr, E.
Qed.

Lemma substring_middle (before v after : string) :
  substring (String.length before) (String.length v) (before ++ v ++ after)
  = v.
Proof. now rewrite substring_skip, substring_prefix. Qed.

Lemma lex_loop_positions (text : string) (rules : list (TokenType * regex)) :
  all_consuming rules = true -> all_take_only not_ignored rules = true ->
  forall fuel c l before,
    text = (before ++ cur_rest c)%string ->
    cur_idx c = String.length before ->
    lex_loop fuel rules c = Tokens l ->
    Forall (fun t => at_offset text t
                     /\ Z.of_nat (cur_idx c) <= tok_lexpos t) l
    /\ StronglySorted ends_before l.
Proof.
  intros Hcons Htake.
  induction fuel as [|fuel IH]; intros c l before Ht Hi H; simpl in H;
    destruct (cur_rest c) as [|a s'] eqn:E;
    try (injection H as <-; split; constructor); try discriminate.
  destruct (t_ignore a) eqn:Ea.
  - apply (IH _ _ (before ++ String a "")%string) in H.
    + destruct H as [Hall Hs]. split; [|exact Hs].
      eapply Forall_impl; [|exact Hall]. simpl. intros t [H1 H2].
      split; [exact H1|lia].
    + simpl. now rewrite Ht, string_app_assoc.
    + simpl. rewrite length_append. simpl. lia.
  - destruct (first_rule rules c) as [[ty c']|] eqn:Ef; [|discriminate].
    destruct (lex_loop fuel rules c') as [l'| |] eqn:El; try discriminate.
    simpl in H. injection H as <-.
    destruct (first_rule_step not_ignored _ _ _ _ Hcons Htake Ef)
      as (pre & Hr & Hi' & Hne & Hok & Hc).
    apply (IH _ _ (before ++ pre)%string) in El.
    + destruct El as [Hall Hs]. split.
      * constructor.
        -- split; [|simpl; lia]. unfold at_offset. simpl.
           rewrite Hc, Nat2Z.id, Hi.
           repeat split; [lia|exact Hne|].
           rewrite Ht, <- E, Hr. apply substring_middle.
        -- eapply Forall_impl; [|exact Hall]. simpl. intros t [H1 H2].
           split; [exact H1|lia].
      * constructor; [exact Hs|].
        eapply Forall_impl; [|exact Hall]. simpl. intros t [H1 H2].
        unfold ends_before. simpl. rewrite Hc. lia.
    + rewrite Ht, <- E, Hr. now rewrite string_app_assoc.
    + rewrite Hi', length_append. lia.
Qed.

(** X1. The tokenizers are lossless up to the ignored characters: the values
    of the tokens of a text, put end to end, are the text without its tabs
    and carriage returns. *)
Theorem tokenize_lossless (text : string) (l : list LexToken) :
  tokenize_passwords text = Tokens l \/ tokenize_system text = Tokens l ->
  values l = without_ignored text.
Proof.
  intros [H|H].
  - exact (lex_loop_lossless password_rules eq_refl password_rules_not_ignored
             _ _ _ H).
  - exact (lex_loop_lossless system_rules eq_refl system_rules_not_ignored
             _ _ _ H).
Qed.

(** X2. Every token of a scan sits in the text: its value is the non-empty
    piece of the text at its offset, its line number is the initial 1 (no
    rule counts lines), and the tokens follow one another without
    overlap. *)
Theorem tokenize_positions (text : string) (l : list LexToken) :
  tokenize_passwords text = Tokens l \/ tokenize_system text = Tokens l ->
  Forall (at_offset text) l /\ StronglySorted ends_before l.
Proof.
  intros H.
  assert (Hl : Forall (fun t => at_offset text t
                       /\ Z.of_nat (cur_idx (cursor_start text)) <= tok_lexpos t) l
               /\ StronglySorted ends_before l).
  { destruct H as [H|H].
    - exact (lex_loop_positions text password_rules eq_refl
               password_rules_not_ignored _ (cursor_start text) _ ""
               eq_refl eq_refl H).
    - exact (lex_loop_positions text system_rules eq_refl
               system_rules_not_ignored _ (cursor_start text) _ ""
               eq_refl eq_refl H). }
  destruct Hl as [Hall Hs]. split; [|exact Hs].
  eapply Forall_impl; [|exact Hall]. simpl. tauto.
Qed.

Lemma star_run_some {X} (ok : ascii -> bool) (k : cursor -> option X) :
  (forall c, k c <> None) ->
  forall s prev idx, star_run ok prev idx s k <> None.
Proof.
  intros Hk. induction s as [|a s' IH]; intros prev idx; simpl; [apply Hk|].
  destruct (ok a); [|apply Hk].
  destruct (star_run ok (Some a) (S idx) s' k) eqn:E; [discriminate|].
  now apply IH in E.
Qed.

(** A rule [k+] matches wherever the next character is in [k]. *)
Lemma plus_rule_matches (k : cclass) (c : cursor) (a : ascii) (s' : string) :
  cur_rest c = String a s' -> class_ok lexer_flags k a = true ->
  re_match_at lexer_flags (Plus k) c <> None.
Proof.
  intros E Ha. unfold re_match_at. simpl. unfold plus_run. rewrite E, Ha.
  apply star_run_some. discriminate.
Qed.

Lemma first_rule_some (rules : list (TokenType * regex)) (c : cursor)
    (ty : TokenType) (r : regex) :
  In (ty, r) rules -> re_match_at lexer_flags r c <> None ->
  first_rule rules c <> None.
Proof.
  induction rules as [|[ty0 r0] rules IH]; simpl; [tauto|].
  intros [Hin|Hin] Hm.
  - injection Hin as -> ->.
    destruct (re_match_at lexer_flags r c) as [[c' g]|]; [discriminate|tauto].
  - destruct (re_match_at lexer_flags r0 c) as [[c' g]|]; [discriminate|auto].
Qed.

(** A character that is neither ignored nor illegal is a blank, a line feed
    or a character of a word. *)
Lemma legal_character (a : ascii) :
  t_ignore a = false -> is_illegal a = false ->
  a = space_char \/ a = newline_char
  \/ class_ok lexer_flags NonSpace a = true.
Proof.
  destruct a as [[] [] [] [] [] [] [] []]; vm_compute; intros H1 H2;
    try discriminate; auto.
Qed.

Lemma first_rule_at_legal (rules : list (TokenType * regex)) (c : cursor)
    (a : ascii) (s' : string) :
  has_common_rules rules ->
  cur_rest c = String a s' -> t_ignore a = false -> is_illegal a = false ->
  first_rule rules c <> None.
Proof.
  intros (Hw & Hn & Hs) E Hi Hl.
  destruct (legal_character a Hi Hl) as [->|[->|Ha]].
  - eapply first_rule_some; [exact Hs|].
    eapply plus_rule_matches; [exact E|reflexivity].
  - eapply first_rule_some; [exact Hn|].
    eapply plus_rule_matches; [exact E|reflexivity].
  - eapply first_rule_some; [exact Hw|].
    eapply plus_rule_matches; [exact E|exact Ha].
Qed.

Lemma first_rule_at_illegal (rules : list (TokenType * regex)) (c : cursor)
    (a : ascii) (s' : string) :
  all_consuming rules = true -> all_take_only legal rules = true ->
  cur_rest c = String a s' -> is_illegal a = true ->
  first_rule rules c = None.
Proof.
  intros Hcons Htake E Ha.
  destruct (first_rule rules c) as [[ty c']|] eqn:Ef; [|reflexivity].
  destruct (first_rule_step legal _ _ _ _ Hcons Htake Ef)
    as (pre & Hr & _ & Hne & Hok & _).
  destruct pre as [|b pre]; [contradiction|].
  rewrite E in Hr. simpl in Hr. injection Hr as <- _.
  simpl in Hok. unfold legal at 1 in Hok. rewrite Ha in Hok. discriminate.
Qed.

Lemma lex_loop_legal (text : string) (rules : list (TokenType * regex)) :
  all_consuming rules = true -> all_take_only legal rules = true ->
  has_common_rules rules ->
  forall fuel c before,
    text = (before ++ cur_rest c)%string ->
    cur_idx c = String.length before ->
    string_forall legal before = true ->
    (String.length (cur_rest c) <= fuel)%nat ->
    legal_scan text (lex_loop fuel rules c).
Proof.
  intros Hcons Htake Hcommon.
  induction fuel as [|fuel IH]; intros c before Ht Hi Hb Hfuel; simpl;
    destruct (cur_rest c) as [|a s'] eqn:E;
    try (simpl; rewrite Ht, string_forall_app, Hb; reflexivity).
  - simpl in Hfuel. lia.
  - destruct (t_ignore a) eqn:Ea.
    + apply (IH _ (before ++ String a "")%string).
      * simpl. now rewrite Ht, string_app_assoc.
      * simpl. rewrite length_append. simpl. lia.
      * rewrite string_forall_app, Hb. simpl.
        destruct a as [[] [] [] [] [] [] [] []]; try discriminate Ea; reflexivity.
      * simpl in *. lia.
    + destruct (is_illegal a) eqn:Eill.
      * rewrite (first_rule_at_illegal _ _ _ _ Hcons Htake E Eill). simpl.
        exists before, a, s'. rewrite Hi. auto.
      * destruct (first_rule rules c) as [[ty c']|] eqn:Ef;
          [|now apply (first_rule_at_legal _ _ _ _ Hcommon E Ea Eill) in Ef].
        destruct (first_rule_step legal _ _ _ _ Hcons Htake Ef)
          as (pre & Hr & Hi' & Hne & Hok & Hc).
        assert (Hlen : (String.length (cur_rest c') < String.length (cur_rest c))%nat).
        { rewrite Hr, length_append. destruct pre; [contradiction|simpl; lia]. }
        rewrite E in Hlen. simpl in Hlen, Hfuel.
        specialize (IH c' (before ++ pre)%string).
        destruct (lex_loop fuel rules c') as [l'|n|]; simpl; apply IH;
          try (rewrite Ht, <- E, Hr; now rewrite string_app_assoc);
          try (rewrite Hi', length_append, Hi; lia);
          try (now rewrite string_forall_app, Hb, Hok);
          try lia.
Qed.

Lemma password_rules_common : has_common_rules password_rules.
Proof. unfold has_common_rules, password_rules. simpl. tauto. Qed.

Lemma system_rules_common : has_common_rules system_rules.
Proof. unfold has_common_rules, system_rules. simpl. tauto. Qed.

(** X3. What the tokenizers reject. A scan of a text ends with tokens exactly
    when the text has no vertical tab and no form feed; otherwise it raises
    [LexError] at the offset of the first of them. *)
Theorem tokenize_rejects_illegal (text : string) :
  legal_scan text (tokenize_passwords text)
  /\ legal_scan text (tokenize_system text).
Proof.
  split.
  - apply (lex_loop_legal text password_rules eq_refl password_rules_legal
             password_rules_common _ (cursor_start text) "");
      reflexivity.
  - apply (lex_loop_legal text system_rules eq_refl system_rules_legal
             system_rules_common _ (cursor_start text) "");
      reflexivity.
Qed.

Lemma match_takes (ok : ascii -> bool) (r : regex) (c c' : cursor) (g : captures) :
  takes_only ok lexer_flags r = true ->
  re_match_at lexer_flags r c = Some (c', g) ->
  string_forall ok (consumed c c') = true.
Proof.
  intros Ht Hm. unfold re_match_at in Hm.
  destruct (re_run_takes ok _ _ Ht _ _ _ _ Hm)
    as (c1 & g1 & pre & Hr & Hok & Hi & He).
  injection He as -> _. now rewrite (consumed_reach _ _ _ Hr Hi).
Qed.

Ltac token_shape_of Hm :=
  first [ exact I
        | eapply prefix_rule_colon; exact Hm
        | eapply match_takes; [|exact Hm]; vm_compute; reflexivity ].

Lemma password_token_shape (t : LexToken) :
  matched_by password_rules t -> token_shape t.
Proof.
  intros (r & c & c' & g & Hin & Hm & Hv). unfold token_shape. rewrite Hv.
  simpl in Hin.
  repeat (destruct Hin as [Hin|Hin];
          [injection Hin as Hty <-; rewrite <- Hty; token_shape_of Hm|]).
  contradiction.
Qed.

Lemma system_token_shape (t : LexToken) :
  matched_by system_rules t -> token_shape t.
Proof.
  intros (r & c & c' & g & Hin & Hm & Hv). unfold token_shape. rewrite Hv.
  simpl in Hin.
  repeat (destruct Hin as [Hin|Hin];
          [injection Hin as Hty <-; rewrite <- Hty; token_shape_of Hm|]).
  contradiction.
Qed.

(** X4. The shape of the token values. In the tokens of a text every prefix
    token ends with the colon of its rule, a WORD has no white space, a
    NEWLINE is made of line feeds only and a SPACE of spaces only. *)
Theorem tokenize_token_shapes (text : string) (l : list LexToken) :
  tokenize_passwords text = Tokens l \/ tokenize_system text = Tokens l ->
  Forall token_shape l.
Proof.
  intros [H|H]; apply lex_loop_matched in H;
    (eapply Forall_impl; [|exact H]).
  - apply password_token_shape.
  - apply system_token_shape.
Qed.

(** The three properties on a line with a tab and a carriage return. *)
Lemma tokenize_lossless_witness :
  values tabbed_tokens = without_ignored tabbed_text.
Proof.
  apply (tokenize_lossless tabbed_text tabbed_tokens). left. reflexivity.
Defined.

Lemma tokenize_positions_witness :
  Forall (at_offset tabbed_text) tabbed_tokens
  /\ StronglySorted ends_before tabbed_tokens.
Proof.
  apply (tokenize_positions tabbed_text tabbed_tokens). left. reflexivity.
Defined.

Lemma tokenize_token_shapes_witness : Forall token_shape tabbed_tokens.
Proof.
  apply (tokenize_token_shapes tabbed_text tabbed_tokens). left. reflexivity.
Defined.

(* ===================================================================== *)
(** * The system grammar engine: what it never raises *)
(* ===================================================================== *)

(** X5. [parse_system] raises no exception of the parser. On every text it
    returns (a system, or none) when the text has no vertical tab and no
    form feed, and otherwise raises the [LexError] of the tokenizer at the
    first of them; the step over a token of the precedence branch of
    [parse_ip_line], which could leave the token range, is never taken. *)
Theorem parse_system_never_raises (text : string) :
  match parse_system text with
  | Returned _ => string_forall legal text = true
  | RaisedLexError n => legal_scan text (LexError n)
  | Raised _ => False
  | Diverged => False
  end.
Proof.
  pose proof (lex_loop_legal text system_rules eq_refl system_rules_legal
                system_rules_common _ (cursor_start text) "" eq_refl eq_refl
                eq_refl (le_n _)) as Hl.
  change (legal_scan text (tokenize_system text)) in Hl.
  destruct (parse_system_total text) as [[r E]|[n E]]; rewrite E;
    unfold parse_system in E;
    destruct (tokenize_system text) as [tokens|m|]; try discriminate;
    try contradiction.
  - exact Hl.
  - destruct (parse_system_tokens tokens); discriminate.
  - injection E as <-. exact Hl.
Qed.

(* ===================================================================== *)
(** * Credential and address helpers: proofs *)
(* ===================================================================== *)

(** A pattern without groups hands the captures on as they are. *)
Lemma re_run_no_group fl (r : regex) :
  no_group r = true ->
  forall c g k x,
    re_run fl r c g k = Some x ->
    exists c', reach c c' /\ k c' g = Some x.
Proof.
  induction r as [|a|cl|r1 IH1 r2 IH2|r1 IH1 r2 IH2|r1 IH1|cl|cl|n r1 IH1| |r1 IH1];
    simpl; intros Hn c g k x H; try discriminate Hn.
  - exists c. split; [apply reach_here|exact H].
  - destruct (cur_rest c) as [|b s'] eqn:E; [discriminate|].
    destruct (char_ok fl a b); [|discriminate].
    eexists. split; [apply reach_one; exact E|exact H].
  - destruct (cur_rest c) as [|b s'] eqn:E; [discriminate|].
    destruct (class_ok fl cl b); [|discriminate].
    eexists. split; [apply reach_one; exact E|exact H].
  - apply andb_prop in Hn. destruct Hn as [Hn1 Hn2].
    apply (IH1 Hn1) in H. destruct H as (c1 & Hr1 & H).
    apply (IH2 Hn2) in H. destruct H as (c2 & Hr2 & H).
    exists c2. split; [eapply reach_trans; eassumption|exact H].
  - apply andb_prop in Hn. destruct Hn as [Hn1 Hn2].
    destruct (re_run fl r1 c g k) eqn:E.
    + injection H as ->. now apply (IH1 Hn1) in E.
    + now apply (IH2 Hn2) in H.
  - destruct (re_run fl r1 c g k) eqn:E.
    + injection H as ->. now apply (IH1 Hn) in E.
    + exists c. split; [apply reach_here|exact H].
  - unfold plus_run in H.
    destruct (cur_rest c) as [|b s'] eqn:E; [discriminate|].
    destruct (class_ok fl cl b); [|discriminate].
    apply star_run_sound in H. destruct H as (c' & Hr & H).
    exists c'. split; [eapply reach_next; [exact E|exact Hr]|exact H].
  - apply star_run_sound in H. destruct H as (c' & Hr & H).
    exists c'. split; [now rewrite cursor_eta in Hr|exact H].
  - destruct (at_boundary fl c); [|discriminate].
    exists c. split; [apply reach_here|exact H].
  - destruct (re_run fl r1 c g (fun c' g' => Some (c', g'))); [discriminate|].
    exists c. split; [apply reach_here|exact H].
Qed.

Lemma Lit_no_group (s : string) : no_group (Lit s) = true.
Proof.
  induction s as [|a s IH]; [reflexivity|].
  destruct s as [|b s]; [reflexivity|]. simpl in *. exact IH.
Qed.

Lemma plus_run_takes {X} (ok : ascii -> bool) (c : cursor)
    (k : cursor -> option X) (x : X) :
  plus_run ok c k = Some x ->
  exists c' pre, cur_rest c = (pre ++ cur_rest c')%string
                 /\ pre <> ""
                 /\ string_forall ok pre = true
                 /\ cur_idx c' = (cur_idx c + String.length pre)%nat
                 /\ k c' = Some x.
Proof.
  unfold plus_run. intros H.
  destruct (cur_rest c) as [|b s'] eqn:E; [discriminate|].
  destruct (ok b) eqn:Eb; [|discriminate].
  apply (star_run_takes ok ok) in H; [|auto].
  destruct H as (c' & pre & Hs & Hf & Hi & H).
  exists c', (String b pre). simpl. rewrite <- Hs, Eb, Hf.
  repeat split; [discriminate|lia|exact H].
Qed.

Lemma chr_step (fl : re_flags) (a : ascii) (c : cursor) (g : captures)
    (k : cursor -> captures -> option (cursor * captures)) (x : cursor * captures) :
  re_run fl (Chr a) c g k = Some x ->
  exists b s', cur_rest c = String b s' /\ char_ok fl a b = true
               /\ k (mkCursor (Some b) (S (cur_idx c)) s') g = Some x.
Proof.
  simpl. destruct (cur_rest c) as [|b s']; [discriminate|].
  destruct (char_ok fl a b) eqn:E; [|discriminate]. eauto.
Qed.

Lemma char_ok_no_flags (a b : ascii) : char_ok no_flags a b = true -> b = a.
Proof. unfold char_ok. simpl. intros H. apply Ascii.eqb_eq in H. auto. Qed.

Lemma string_app_nonempty_length (a : string) : a <> "" -> (0 < String.length a)%nat.
Proof. destruct a; [congruence|simpl; lia]. Qed.

(** A match of [EMAIL_PATTERN] at the start of a text. *)
Lemma EMAIL_PATTERN_match (u : string) (g : captures) :
  re_match no_flags EMAIL_PATTERN u = Some g ->
  exists l d, group 1 g = Some l /\ group 2 g = Some d /\ email_split u l d.
Proof.
  unfold re_match, re_match_at, EMAIL_PATTERN.
  destruct (re_run _ _ _ _ _) as [[cend g']|] eqn:H; [|discriminate].
  intros Hg. injection Hg as ->.
  cbn [seq] in H.
  cbn [re_run] in H.
  destruct (at_boundary no_flags (cursor_start u)); [|discriminate].
  apply plus_run_takes in H.
  destruct H as (c1 & l & Hr1 & Hl & Hok1 & Hi1 & H).
  destruct (cur_rest c1) as [|b1 s1] eqn:E1; [discriminate|].
  destruct (char_ok no_flags "@" b1) eqn:Eb1; [|discriminate].
  apply char_ok_no_flags in Eb1. subst b1.
  apply plus_run_takes in H.
  destruct H as (c2 & d1 & Hr2 & Hd1 & Hok2 & Hi2 & H).
  destruct (cur_rest c2) as [|b2 s2] eqn:E2; [discriminate|].
  destruct (char_ok no_flags "." b2) eqn:Eb2; [|discriminate].
  apply char_ok_no_flags in Eb2. subst b2.
  apply plus_run_takes in H.
  destruct H as (c3 & d2 & Hr3 & Hd2 & Hok3 & Hi3 & H).
  destruct (at_boundary no_flags c3); [|discriminate].
  injection H as <- <-.
  simpl in Hr1, Hi1, Hr2, Hi2, Hr3, Hi3.
  exists l, (d1 ++ "." ++ d2)%string.
  assert (Hc1 : consumed (cursor_start u) c1 = l)
    by (apply consumed_reach; simpl; [rewrite E1; exact Hr1|exact Hi1]).
  assert (Hc2 : consumed (mkCursor (Some "@"%char) (S (cur_idx c1)) s1) c3
                = (d1 ++ "." ++ d2)%string).
  { apply consumed_reach; simpl.
    - rewrite Hr2, Hr3. now rewrite !string_app_assoc.
    - rewrite Hi3, Hi2, !length_append. simpl. lia. }
  simpl. rewrite Hc1, Hc2.
  split; [reflexivity|]. split; [reflexivity|].
  exists d1, d2, (cur_rest c3).
  split; [rewrite Hr1, Hr2, Hr3; simpl; now rewrite !string_app_assoc|].
  split; [reflexivity|].
  split; [exact Hl|]. split; [exact Hd1|]. split; [exact Hd2|].
  split; [exact Hok1|]. unfold no_space.
  change (string_forall (class_ok no_flags NonSpace) (d1 ++ "." ++ d2) = true).
  rewrite string_forall_app, Hok2. cbn [append string_forall].
  rewrite Hok3. reflexivity.
Qed.

Lemma find_char_middle (a : ascii) (l r : string) :
  find_char a (l ++ String a r) <> None.
Proof.
  induction l as [|x l IH]; simpl.
  - now rewrite Ascii.eqb_refl.
  - destruct (Ascii.eqb x a); [discriminate|].
    destruct (find_char a (l ++ String a r)); [discriminate|contradiction].
Qed.

(** X6. [split_credential_email]. It changes nothing but the local part and
    the e-mail domain, and those only when the user name starts with an
    address: a non-empty local part, an at sign and a domain with a dot
    inside, none with white space. The two parts it stores are those of the
    user name. A credential without user name, or whose user name has no at
    sign, is left as it is. *)
Theorem split_credential_email_spec (c : Credential) :
  (split_credential_email c = c
   \/ exists u l d,
        username c = Some u /\ email_split u l d
        /\ split_credential_email c = set_email c (Some l) (Some d))
  /\ (forall u, username c = Some u -> contains_char "@" u = false ->
        split_credential_email c = c)
  /\ (username c = None -> split_credential_email c = c).
Proof.
  assert (H : split_credential_email c = c
              \/ exists u l d,
                   username c = Some u /\ email_split u l d
                   /\ split_credential_email c = set_email c (Some l) (Some d)).
  { unfold split_credential_email.
    destruct (negb (truthy (username c))); [now left|].
    destruct (username c) as [u|] eqn:Eu; [|now left].
    destruct (re_match no_flags EMAIL_PATTERN u) as [g|] eqn:Em; [|now left].
    destruct (EMAIL_PATTERN_match u g Em) as (l & d & -> & -> & Hs).
    right. exists u, l, d. auto. }
  split; [exact H|]. split.
  - intros u Hu Hat. destruct H as [H|(u' & l & d & Hu' & Hs & _)]; [exact H|].
    rewrite Hu in Hu'. injection Hu' as <-.
    destruct Hs as (d1 & d2 & rest & -> & _).
    unfold contains_char in Hat.
    pose proof (find_char_middle "@" l (d ++ rest)) as Hf.
    change (l ++ "@" ++ d ++ rest)%string
      with (l ++ String "@" (d ++ rest))%string in Hat.
    destruct (find_char "@" (l ++ String "@" (d ++ rest))); [discriminate|].
    contradiction.
  - intros Hu. unfold split_credential_email. now rewrite Hu.
Qed.

Lemma lower_char_idempotent (a : ascii) : lower_char (lower_char a) = lower_char a.
Proof. destruct a as [[] [] [] [] [] [] [] []]; vm_compute; reflexivity. Qed.

Lemma normal_char_after (a : ascii) :
  NORM_TEXT_CHAR (lower_char a) = false ->
  normal_char (if Ascii.eqb (lower_char a) "_" then space_char else lower_char a)
  = true.
Proof.
  destruct a as [[] [] [] [] [] [] [] []]; vm_compute; intros H;
    try discriminate H; reflexivity.
Qed.

Lemma normalized_text (s : string) :
  string_forall normal_char
    (replace_char "_" space_char (NORM_TEXT_sub (py_lower s))) = true.
Proof.
  induction s as [|a s IH]; simpl; [reflexivity|].
  destruct (NORM_TEXT_CHAR (lower_char a)) eqn:E; [exact IH|].
  simpl. now rewrite (normal_char_after a E), IH.
Qed.

Lemma normal_char_fixed (a : ascii) :
  normal_char a = true ->
  lower_char a = a /\ NORM_TEXT_CHAR a = false /\ Ascii.eqb a "_" = false.
Proof.
  unfold normal_char. intros H.
  apply andb_prop in H. destruct H as [H H3].
  apply andb_prop in H. destruct H as [H1 H2].
  apply Ascii.eqb_eq in H3.
  destruct (NORM_TEXT_CHAR a); [discriminate|].
  destruct (Ascii.eqb a "_"); [discriminate|]. auto.
Qed.

Lemma normal_text_fixed (s : string) :
  string_forall normal_char s = true ->
  replace_char "_" space_char (NORM_TEXT_sub (py_lower s)) = s.
Proof.
  induction s as [|a s IH]; simpl; [reflexivity|].
  intros H. apply andb_prop in H. destruct H as [Ha Hs].
  destruct (normal_char_fixed a Ha) as (H1 & H2 & H3).
  rewrite H1, H2. simpl. now rewrite H3, IH.
Qed.

(** X7. [normalize_credential_text]. It changes the software text only, and
    an empty or missing one not at all; the text it leaves has no square
    bracket, no quote, no underscore and no capital letter; and it is
    idempotent. *)
Theorem normalize_credential_text_spec (c : Credential) :
  let c' := normalize_credential_text c in
  c' = set_software c (software c')
  /\ (truthy (software c) = false -> c' = c)
  /\ (truthy (software c) = true -> software_normal c')
  /\ normalize_credential_text c' = c'.
Proof.
  unfold normalize_credential_text.
  destruct (truthy (software c)) eqn:Et.
  - destruct (software c) as [s|] eqn:Es; [|discriminate Et].
    cbn zeta. split; [reflexivity|]. split; [discriminate|].
    split; [intros _; unfold software_normal; simpl; apply normalized_text|].
    cbn [software set_software].
    destruct (truthy (Some (replace_char "_" space_char
                              (NORM_TEXT_sub (py_lower s))))); [|reflexivity].
    rewrite (normal_text_fixed _ (normalized_text s)). reflexivity.
  - cbn zeta. rewrite Et.
    split; [now destruct c|]. split; [reflexivity|]. split; [discriminate|].
    reflexivity.
Qed.

(** A search that succeeds is a match at some place of the text. *)
Lemma re_search_from_match fl (r : regex) :
  forall s prev idx g,
    re_search_from fl r prev idx s = Some g ->
    exists before c cend,
      s = (before ++ cur_rest c)%string
      /\ re_match_at fl r c = Some (cend, g).
Proof.
  induction s as [|a s IH]; intros prev idx g H; simpl in H.
  - destruct (re_match_at fl r (mkCursor prev idx "")) as [[cend g']|] eqn:E;
      [|discriminate].
    injection H as ->. exists "", (mkCursor prev idx ""), cend. auto.
  - destruct (re_match_at fl r (mkCursor prev idx (String a s)))
      as [[cend g']|] eqn:E.
    + injection H as ->. exists "", (mkCursor prev idx (String a s)), cend. auto.
    + apply IH in H. destruct H as (before & c & cend & -> & Hm).
      exists (String a before), c, cend. auto.
Qed.

Lemma char_ok_bracket_open (fl : re_flags) (b : ascii) :
  char_ok fl "[" b = true -> b = "["%char.
Proof.
  destruct fl as [[] []]; destruct b as [[] [] [] [] [] [] [] []];
    vm_compute; intros H; try discriminate H; reflexivity.
Qed.

Lemma char_ok_bracket_close (fl : re_flags) (b : ascii) :
  char_ok fl "]" b = true -> b = "]"%char.
Proof.
  destruct fl as [[] []]; destruct b as [[] [] [] [] [] [] [] []];
    vm_compute; intros H; try discriminate H; reflexivity.
Qed.

Lemma char_ok_colon_any (fl : re_flags) (b : ascii) :
  char_ok fl ":" b = true -> b = ":"%char.
Proof.
  destruct fl as [[] []]; destruct b as [[] [] [] [] [] [] [] []];
    vm_compute; intros H; try discriminate H; reflexivity.
Qed.

Lemma char_ok_space_any (fl : re_flags) (b : ascii) :
  char_ok fl space_char b = true -> b = space_char.
Proof.
  destruct fl as [[] []]; destruct b as [[] [] [] [] [] [] [] []];
    vm_compute; intros H; try discriminate H; reflexivity.
Qed.

(** A match of [PASSWORDS_BROWSER_REGEX]: its first group is the text
    between a pair of square brackets of the subject. *)
Lemma PASSWORDS_BROWSER_REGEX_match (c cend : cursor) (g : captures) :
  re_match_at (mkFlags true false) PASSWORDS_BROWSER_REGEX c = Some (cend, g) ->
  exists n a b,
    group 1 g = Some n
    /\ n <> "" /\ string_forall browser_char n = true
    /\ cur_rest c = (a ++ "[" ++ n ++ "]" ++ b)%string
    /\ b <> "".
Proof.
  unfold re_match_at, PASSWORDS_BROWSER_REGEX. cbn [seq]. cbn [re_run].
  intros H.
  destruct (at_boundary _ c); [|discriminate].
  apply (re_run_no_group _ _ (Lit_no_group _)) in H.
  destruct H as (c1 & Hr1 & H).
  destruct (reach_text _ _ Hr1) as (a & Ha & _).
  cbn [re_run] in H.
  destruct (cur_rest c1) as [|b1 s1] eqn:E1; [discriminate|].
  destruct (char_ok _ "[" b1) eqn:Eb1; [|discriminate].
  apply char_ok_bracket_open in Eb1. subst b1.
  apply plus_run_takes in H.
  destruct H as (c2 & n & Hr2 & Hn & Hok2 & Hi2 & H).
  destruct (cur_rest c2) as [|b2 s2] eqn:E2; [discriminate|].
  destruct (char_ok _ "]" b2) eqn:Eb2; [|discriminate].
  apply char_ok_bracket_close in Eb2. subst b2.
  apply plus_run_takes in H.
  destruct H as (c3 & w & Hr3 & Hw & _ & _ & H).
  apply (re_run_no_group _ _ (Lit_no_group _)) in H.
  destruct H as (c4 & _ & H).
  destruct (at_boundary _ c4); [|discriminate].
  injection H as _ <-.
  simpl in Hr2, Hi2, Hr3.
  exists n, a, s2. simpl.
  rewrite (consumed_reach _ c2 n); [|simpl; rewrite E2; exact Hr2|exact Hi2].
  split; [reflexivity|]. split; [exact Hn|]. split; [exact Hok2|].
  split.
  - rewrite Ha, Hr2. reflexivity.
  - rewrite Hr3. destruct w; [contradiction|discriminate].
Qed.

(** X8. [get_browser_name]. The browser name it finds is the non-empty text
    between a pair of square brackets of the file name, made of letters,
    digits, underscores and spaces, and something follows the closing
    bracket. *)
Theorem get_browser_name_spec (filename n : string) :
  get_browser_name filename = Some n ->
  n <> "" /\ string_forall browser_char n = true
  /\ exists a b, filename = (a ++ "[" ++ n ++ "]" ++ b)%string /\ b <> "".
Proof.
  unfold get_browser_name, re_search. intros H.
  destruct (re_search_from _ _ _ _ _) as [g|] eqn:Es; [|discriminate].
  apply re_search_from_match in Es.
  destruct Es as (before & c & cend & Hf & Hm).
  apply PASSWORDS_BROWSER_REGEX_match in Hm.
  destruct Hm as (n' & a & b & Hg & Hn & Hok & Hr & Hb).
  rewrite Hg in H. injection H as <-.
  split; [exact Hn|]. split; [exact Hok|].
  exists (before ++ a)%string, b. split; [|exact Hb].
  rewrite Hf, Hr. now rewrite string_app_assoc.
Qed.

(** A greedy run before a continuation that always succeeds is the whole
    run. *)
Lemma star_run_greedy {X} (ok : ascii -> bool) (k : cursor -> option X) (x : X) :
  (forall c, k c <> None) ->
  forall s prev idx,
    star_run ok prev idx s k = Some x ->
    exists c' pre, s = (pre ++ cur_rest c')%string
                   /\ string_forall ok pre = true
                   /\ cur_idx c' = (idx + String.length pre)%nat
                   /\ match cur_rest c' with
                      | EmptyString => True
                      | String ch _ => ok ch = false
                      end
                   /\ k c' = Some x.
Proof.
  intros Hk. induction s as [|a s' IH]; intros prev idx H; simpl in H.
  - exists (mkCursor prev idx ""), "". simpl. repeat split; auto.
  - destruct (ok a) eqn:Ea.
    + destruct (star_run ok (Some a) (S idx) s' k) eqn:E.
      * injection H as ->.
        destruct (IH _ _ E) as (c' & pre & Hs & Hf & Hi & Hend & Hk').
        exists c', (String a pre). simpl. rewrite <- Hs, Hf, Ea.
        repeat split; auto. lia.
      * exfalso. revert E. now apply star_run_some.
    + exists (mkCursor prev idx (String a s')), "". simpl. repeat split; auto.
Qed.

Lemma plus_run_greedy {X} (ok : ascii -> bool) (c : cursor)
    (k : cursor -> option X) (x : X) :
  (forall c, k c <> None) ->
  plus_run ok c k = Some x ->
  exists c' pre, cur_rest c = (pre ++ cur_rest c')%string
                 /\ pre <> ""
                 /\ string_forall ok pre = true
                 /\ cur_idx c' = (cur_idx c + String.length pre)%nat
                 /\ match cur_rest c' with
                    | EmptyString => True
                    | String ch _ => ok ch = false
                    end
                 /\ k c' = Some x.
Proof.
  unfold plus_run. intros Hk H.
  destruct (cur_rest c) as [|b s'] eqn:E; [discriminate|].
  destruct (ok b) eqn:Eb; [|discriminate].
  apply (star_run_greedy ok k x Hk) in H.
  destruct H as (c' & pre & Hs & Hf & Hi & Hend & H).
  exists c', (String b pre). simpl. rewrite <- Hs, Eb, Hf.
  repeat split; [discriminate|lia|exact Hend|exact H].
Qed.

Lemma opt_chr_step (fl : re_flags) (a : ascii) (c : cursor) (g : captures)
    (k : cursor -> captures -> option (cursor * captures)) (x : cursor * captures) :
  re_run fl (Opt (Chr a)) c g k = Some x ->
  (exists b s', cur_rest c = String b s' /\ char_ok fl a b = true
                /\ k (mkCursor (Some b) (S (cur_idx c)) s') g = Some x)
  \/ k c g = Some x.
Proof.
  cbn [re_run]. destruct (cur_rest c) as [|b s'] eqn:E; [auto|].
  destruct (char_ok fl a b) eqn:Eb; [|auto].
  destruct (k (mkCursor (Some b) (S (cur_idx c)) s') g) eqn:Ek; [|auto].
  intros H. injection H as <-. left. exists b, s'. auto.
Qed.

Lemma re_run_seq (fl : re_flags) (r1 r2 : regex) (c : cursor) (g : captures)
    (k : cursor -> captures -> option (cursor * captures)) :
  re_run fl (Seq r1 r2) c g k
  = re_run fl r1 c g (fun c' g' => re_run fl r2 c' g' k).
Proof. reflexivity. Qed.

Lemma re_run_boundary (fl : re_flags) (c : cursor) (g : captures)
    (k : cursor -> captures -> option (cursor * captures)) :
  re_run fl WordBoundary c g k = if at_boundary fl c then k c g else None.
Proof. reflexivity. Qed.

Lemma re_run_group (fl : re_flags) (n : nat) (r : regex) (c : cursor)
    (g : captures) (k : cursor -> captures -> option (cursor * captures)) :
  re_run fl (Group n r) c g k
  = re_run fl r c g (fun c' g' => k c' ((n, consumed c c') :: g')).
Proof. reflexivity. Qed.

Lemma re_run_plus (fl : re_flags) (cl : cclass) (c : cursor)
    (g : captures) (k : cursor -> captures -> option (cursor * captures)) :
  re_run fl (Plus cl) c g k = plus_run (class_ok fl cl) c (fun c' => k c' g).
Proof. reflexivity. Qed.

Lemma IP_PATTERN_match (c cend : cursor) (g : captures) :
  re_match_at (mkFlags true false) IP_PATTERN c = Some (cend, g) ->
  exists ip, group 3 g = Some ip /\ ip_found (cur_rest c) ip.
Proof.
  unfold re_match_at, IP_PATTERN. cbn [seq]. intros H.
  rewrite re_run_seq, re_run_boundary in H.
  destruct (at_boundary _ c); [|discriminate].
  rewrite re_run_seq in H.
  apply re_run_sound in H. destruct H as (c1 & g1 & Hr1 & H).
  destruct (reach_text _ _ Hr1) as (a & Ha & _).
  rewrite re_run_seq, re_run_boundary in H.
  destruct (at_boundary _ c1); [|discriminate].
  rewrite re_run_seq in H. apply chr_step in H.
  destruct H as (b1 & s1 & E1 & Eb1 & H).
  apply char_ok_colon_any in Eb1. subst b1.
  assert (Hfinal : forall c0 g0,
            re_run (mkFlags true false) (Group 3 (Plus NonSpace)) c0 g0
              (fun c' g' => Some (c', g'))
            = Some (cend, g) ->
            exists ip, group 3 g = Some ip
                       /\ ip <> "" /\ no_space ip
                       /\ exists b, cur_rest c0 = (ip ++ b)%string
                                    /\ match b with
                                       | EmptyString => True
                                       | String ch _ => is_space_unicode ch = true
                                       end).
  { intros c0 g0 Hp. rewrite re_run_group, re_run_plus in Hp.
    apply plus_run_greedy in Hp; [|discriminate].
    destruct Hp as (c' & ip & Hr & Hne & Hok & Hi & Hend & He).
    injection He as <- <-. exists ip. simpl.
    rewrite (consumed_reach _ _ _ Hr Hi).
    split; [reflexivity|]. split; [exact Hne|]. split; [exact Hok|].
    exists (cur_rest c'). split; [exact Hr|].
    destruct (cur_rest c') as [|ch r]; [exact I|].
    simpl in Hend. now apply negb_false_iff in Hend. }
  rewrite re_run_seq in H.
  apply opt_chr_step in H. destruct H as [(b2 & s2 & E2 & Eb2 & H)|H].
  - simpl in E2. subst s1. apply char_ok_space_any in Eb2. subst b2.
    apply Hfinal in H.
    destruct H as (ip & Hg & Hne & Hns & b & Hr & Hend). simpl in Hr.
    exists ip. split; [exact Hg|]. split; [exact Hne|]. split; [exact Hns|].
    exists a, b. split; [|exact Hend]. right.
    rewrite Ha, E1, Hr. reflexivity.
  - apply Hfinal in H.
    destruct H as (ip & Hg & Hne & Hns & b & Hr & Hend). simpl in Hr.
    exists ip. split; [exact Hg|]. split; [exact Hne|]. split; [exact Hns|].
    exists a, b. split; [|exact Hend]. left.
    rewrite Ha, E1, Hr. reflexivity.
Qed.

(** X9. [retrieve_ip_only]. It never touches the credentials. It either
    leaves the data as it is, or stores as IP address of the system (a new
    one when there was none, every other field kept) an address of the
    text: the run of characters without white space after a colon, or a
    colon and a space. *)
Theorem retrieve_ip_only_spec (text : string) (d : SystemData) :
  let d' := retrieve_ip_only text d in
  credentials d' = credentials d
  /\ (d' = d
      \/ exists ip,
           ip_found text ip
           /\ system d'
              = Some (set_ip_address
                        (match system d with Some s => s | None => System_new end)
                        (Some ip))).
Proof.
  unfold retrieve_ip_only, re_search.
  destruct (re_search_from _ _ _ _ _) as [g|] eqn:Es; [|simpl; auto].
  apply re_search_from_match in Es.
  destruct Es as (before & c & cend & Hf & Hm).
  apply IP_PATTERN_match in Hm. destruct Hm as (ip & Hg & Hne & Hns & a & b & Hab & Hend).
  rewrite Hg. destruct ip as [|ch ip]; [contradiction|]. simpl.
  split; [reflexivity|]. right. exists (String ch ip).
  split; [|reflexivity].
  split; [exact Hne|]. split; [exact Hns|].
  exists (before ++ a)%string, b. split; [|exact Hend].
  rewrite Hf. destruct Hab as [-> | ->]; [left|right];
    now rewrite string_app_assoc.
Qed.

(** [get_browser_name] on the name of a browser file. *)
Lemma get_browser_name_spec_witness :
  "Google_Chrome" <> ""
  /\ string_forall browser_char "Google_Chrome" = true
  /\ exists a b,
       "logs/Passwords[Google_Chrome]Default.txt"
       = (a ++ "[" ++ "Google_Chrome" ++ "]" ++ b)%string
       /\ b <> "".
Proof.
  apply (get_browser_name_spec "logs/Passwords[Google_Chrome]Default.txt").
  reflexivity.
Defined.

(* ===================================================================== *)
(** * Line skippers and the multi-line entry: proofs *)
(* ===================================================================== *)

Lemma remaining_nil_or_cons (p : LogsParser) :
  wf p ->
  (remaining p = [] /\ _pos p = _size p)
  \/ (exists t, current p = Some t /\ _pos p < _size p
                /\ remaining p = t :: remaining (at_position p (_pos p + 1))).
Proof.
  intros Hwf. pose proof Hwf as [Hs Hp].
  destruct (Z.eq_dec (_pos p) (_size p)) as [He|Hne].
  - left. split; [now apply remaining_at_end|exact He].
  - right. destruct (get_current_token_in_range p Hwf ltac:(lia)) as [t [Hc _]].
    exists t. split; [exact Hc|]. split; [lia|].
    apply remaining_cons; [lia|exact Hc].
Qed.

(** [eat] in terms of the tokens from the cursor on. *)
Lemma eat_remaining (ty : TokenType) (p : LogsParser) :
  wf p ->
  eat ty None p
  = match remaining p with
    | t :: _ =>
        if has_type ty t then Ret (Some t) (advanced p 1) else Ret None p
    | [] => Ret None p
    end.
Proof.
  intros Hwf.
  destruct (remaining_nil_or_cons p Hwf) as [[-> He]|(t & Hc & Hlt & ->)].
  - apply eat_miss; [exact Hwf|]. now rewrite current_None_at_end.
  - unfold has_type. destruct (TokenType_eqb (tok_type t) ty) eqn:E.
    + apply TokenType_eqb_eq in E. now apply eat_hit.
    + apply eat_miss; [exact Hwf|]. rewrite Hc. left. intros H.
      apply TokenType_eqb_eq in H. congruence.
Qed.

Lemma eat_or_remaining (ty1 ty2 : TokenType) (p : LogsParser) :
  wf p ->
  eat_or (eat ty1 None) (eat ty2 None) p
  = match remaining p with
    | t :: _ =>
        if one_of ty1 ty2 t then Ret (Some t) (advanced p 1) else Ret None p
    | [] => Ret None p
    end.
Proof.
  intros Hwf. unfold eat_or, bind. rewrite (eat_remaining ty1 p Hwf).
  destruct (remaining p) as [|t rem] eqn:E.
  - rewrite (eat_remaining ty2 p Hwf), E. reflexivity.
  - unfold one_of. destruct (has_type ty1 t); [reflexivity|].
    rewrite (eat_remaining ty2 p Hwf), E. reflexivity.
Qed.

Lemma wf_advanced (p : LogsParser) (n : nat) :
  wf p -> _pos p + Z.of_nat n <= _size p -> wf (advanced p n).
Proof. intros Hwf H. apply wf_at_position; [exact Hwf|]. destruct Hwf. lia. Qed.

Lemma advanced_advanced (p : LogsParser) (n m : nat) :
  advanced (advanced p n) m = advanced p (n + m).
Proof. unfold advanced, at_position. simpl. f_equal. lia. Qed.

Lemma advanced_0 (p : LogsParser) : advanced p 0 = p.
Proof.
  unfold advanced. replace (_pos p + Z.of_nat 0) with (_pos p) by lia.
  apply at_position_same.
Qed.

Lemma remaining_advanced_1 (p : LogsParser) (t : LexToken) (rem : list LexToken) :
  wf p -> remaining p = t :: rem ->
  remaining (advanced p 1) = rem /\ wf (advanced p 1).
Proof.
  intros Hwf E.
  destruct (remaining_nil_or_cons p Hwf) as [[E' _]|(t' & Hc & Hlt & E')];
    rewrite E' in E; [discriminate|].
  injection E as _ <-. split; [reflexivity|].
  apply wf_advanced; [exact Hwf|lia].
Qed.

Lemma run_of_length (f : LexToken -> bool) (l : list LexToken) :
  (List.length (run_of f l) <= List.length l)%nat.
Proof.
  induction l as [|t l IH]; simpl; [lia|].
  destruct (f t); simpl; lia.
Qed.

Lemma entry_run_run_of (l : list LexToken) :
  entry_run l = run_of is_word_or_space l.
Proof. induction l as [|t l IH]; simpl; [reflexivity|now rewrite IH]. Qed.

Lemma is_word_or_space_one_of (t : LexToken) :
  is_word_or_space t = one_of WORD SPACE t.
Proof.
  unfold is_word_or_space, one_of, has_type. now destruct (tok_type t).
Qed.

(** A loop that eats tokens of two types as long as one is there ends right
    after the run of such tokens. *)
Lemma skip_header_loop_exact (fuel : nat) :
  forall p, wf p ->
    (List.length (entry_run (remaining p)) < fuel)%nat ->
    skip_header_loop fuel p
    = Ret tt (advanced p (List.length (entry_run (remaining p)))).
Proof.
  induction fuel as [|fuel IH]; intros p Hwf Hf; [lia|].
  simpl. unfold bind. rewrite (eat_or_remaining WORD SPACE p Hwf).
  destruct (remaining p) as [|t rem] eqn:E.
  - simpl. now rewrite advanced_0.
  - simpl in *. rewrite is_word_or_space_one_of in *.
    destruct (one_of WORD SPACE t) eqn:Et; simpl.
    + destruct (remaining_advanced_1 p t rem Hwf E) as [Hr Hwf1].
      rewrite IH; [|exact Hwf1|rewrite Hr; simpl in Hf; lia].
      rewrite Hr, advanced_advanced. reflexivity.
    + now rewrite advanced_0.
Qed.

Lemma entry_run_length (l : list LexToken) :
  (List.length (entry_run l) <= List.length l)%nat.
Proof. rewrite entry_run_run_of. apply run_of_length. Qed.

(** [skip_header_line] in terms of the tokens at the cursor. With [run] the WORD and SPACE tokens at
    the cursor: on an empty run it returns false and leaves the parser as it
    is; otherwise it moves the cursor past the run, and returns true past a
    NEWLINE that follows, false at the token that follows when it is not a
    NEWLINE or when the tokens end. A false result after a non-empty run
    leaves the run consumed. *)
Lemma skip_header_line_on_run (p : LogsParser) :
  wf p ->
  let run := entry_run (remaining p) in
  let q := advanced p (List.length run) in
  skip_header_line p
  = match run with
    | [] => Ret false p
    | _ :: _ =>
        match remaining q with
        | t :: _ =>
            if has_type NEWLINE t then Ret true (advanced q 1) else Ret false q
        | [] => Ret false q
        end
    end.
Proof.
  intros Hwf run q. unfold skip_header_line. unfold bind at 1.
  rewrite (eat_or_remaining WORD SPACE p Hwf).
  subst q run. destruct (remaining p) as [|t rem] eqn:E; [reflexivity|].
  simpl entry_run. rewrite is_word_or_space_one_of.
  destruct (one_of WORD SPACE t) eqn:Et; [|reflexivity].
  cbn [is_some negb]. unfold bind at 1.
  destruct (remaining_advanced_1 p t rem Hwf E) as [Hr Hwf1].
  pose proof (entry_run_length rem) as Hlen.
  pose proof (remaining_length _ Hwf1) as Hrl. rewrite Hr in Hrl.
  rewrite skip_header_loop_exact; [|exact Hwf1|rewrite Hr; lia].
  rewrite Hr, advanced_advanced. cbn [List.length Nat.add].
  assert (Hwq : wf (advanced p (S (List.length (entry_run rem))))).
  { apply wf_advanced; [exact Hwf|]. simpl in Hrl. lia. }
  unfold bind. rewrite (eat_remaining NEWLINE _ Hwq).
  destruct (remaining (advanced p (S (List.length (entry_run rem)))))
    as [|t' rem']; [reflexivity|].
  now destruct (has_type NEWLINE t').
Qed.

(** X10. [skip_header_line], exactly. With [run] the WORD and SPACE tokens at
    the cursor: on an empty run it returns false and leaves the parser as it
    is; otherwise it moves the cursor past the run, and returns true past a
    NEWLINE that follows, false at the token that follows when it is not a
    NEWLINE or when the tokens end. A false result after a non-empty run
    leaves the run consumed. *)
Theorem skip_header_line_exact (p : LogsParser) :
  wf p ->
  let run := entry_run (remaining p) in
  let q := advanced p (List.length run) in
  skip_header_line p
  = match run with
    | [] => Ret false p
    | _ :: _ =>
        match remaining q with
        | t :: _ =>
            if has_type NEWLINE t then Ret true (advanced q 1) else Ret false q
        | [] => Ret false q
        end
    end.
Proof. apply skip_header_line_on_run. Qed.

Lemma parse_multiline_loop_exact (b64decode_text : string -> option string)
    (fuel : nat) :
  forall (entry : string) (p : LogsParser),
    wf p -> _size p - _pos p <= Z.of_nat fuel ->
    parse_multiline_loop fuel entry p
    = Ret (entry ++ word_values (run_of (one_of WORD NEWLINE) (remaining p)))%string
          (advanced p (List.length (run_of (one_of WORD NEWLINE) (remaining p)))).
Proof.
  induction fuel as [|fuel IH]; intros entry p Hwf Hf.
  - assert (He : _pos p = _size p) by (destruct Hwf; lia).
    simpl. replace (_pos p <? _size p) with false
      by (symmetry; apply Z.ltb_ge; lia).
    rewrite (remaining_at_end p Hwf He). simpl.
    now rewrite string_app_empty_r, advanced_0.
  - simpl. destruct (_pos p <? _size p) eqn:Hlt.
    + unfold bind. rewrite (eat_or_remaining WORD NEWLINE p Hwf).
      destruct (remaining p) as [|t rem] eqn:E;
        [simpl; now rewrite string_app_empty_r, advanced_0|].
      simpl. destruct (one_of WORD NEWLINE t) eqn:Et;
        [|simpl; now rewrite string_app_empty_r, advanced_0].
      destruct (remaining_advanced_1 p t rem Hwf E) as [Hr Hwf1].
      rewrite IH; [|exact Hwf1|simpl; lia].
      rewrite Hr, advanced_advanced. simpl. unfold has_type.
      destruct (TokenType_eqb (tok_type t) WORD); simpl.
      * now rewrite string_app_assoc.
      * reflexivity.
    + apply Z.ltb_ge in Hlt.
      assert (He : _pos p = _size p) by (destruct Hwf; lia).
      rewrite (remaining_at_end p Hwf He). simpl.
      now rewrite string_app_empty_r, advanced_0.
Qed.

(** X11. [parse_multiline_entry], exactly. With [run] the WORD and NEWLINE
    tokens at the cursor, the cursor is left right after [run] (the token
    that ends the run is not consumed), and the text collected is that of
    the WORD tokens of [run], the line breaks left out. No text gives no
    value; a text that decodes as base64 gives the decoded text without its
    line feeds; any other text is returned as it is. *)
Theorem parse_multiline_entry_exact
    (b64decode_text : string -> option string) (p : LogsParser) :
  wf p ->
  let run := run_of (one_of WORD NEWLINE) (remaining p) in
  parse_multiline_entry b64decode_text p
  = Ret (multiline_value b64decode_text (word_values run))
        (advanced p (List.length run)).
Proof.
  intros Hwf run. unfold parse_multiline_entry, bind.
  rewrite (parse_multiline_loop_exact b64decode_text);
    [|exact Hwf|destruct Hwf; lia].
  fold run. simpl. unfold multiline_value.
  destruct (word_values run) as [|a s]; [reflexivity|]. simpl.
  now destruct (b64decode_text (String a s)).
Qed.

Lemma remaining_advanced (p : LogsParser) (l1 rem : list LexToken) :
  wf p -> remaining p = l1 ++ rem ->
  remaining (advanced p (List.length l1)) = rem
  /\ wf (advanced p (List.length l1)).
Proof.
  intros Hwf E.
  destruct (at_rem_advance p l1 rem (conj Hwf E)) as [Hw Hr]. auto.
Qed.

Lemma has_type_eq (ty : TokenType) (t : LexToken) :
  has_type ty t = true -> tok_type t = ty.
Proof. apply TokenType_eqb_eq. Qed.

Lemma newline_not_word_or_space (t : LexToken) :
  has_type NEWLINE t = true -> is_word_or_space t = false.
Proof.
  intros H. apply has_type_eq in H. unfold is_word_or_space. now rewrite H.
Qed.

Lemma seller_line_tokens_length (l : seller_line) :
  List.length (seller_line_tokens l) = S (S (S (List.length (sl_entry l)))).
Proof.
  unfold seller_line_tokens. simpl. rewrite length_app. simpl. lia.
Qed.

(** The body of the loop of [skip_seller_block] on the rest of a line whose
    prefix was eaten: it takes the blank, the entry and the NEWLINE that
    ends the entry, and goes on after them. *)
Lemma seller_line_rest {A} (k : M A) (p : LogsParser) (l : seller_line)
    (rest : list LexToken) :
  wf p -> seller_line_ok l -> no_newline_next rest ->
  remaining p = sl_space l :: sl_entry l ++ [sl_newline l] ++ rest ->
  (sp <- eat SPACE None ;;
   (if is_some sp then (parse_entry ;;; ret tt) else ret tt) ;;;
   eat NEWLINE None ;;; k) p
  = k (advanced p (S (S (List.length (sl_entry l)))))
  /\ wf (advanced p (S (S (List.length (sl_entry l)))))
  /\ remaining (advanced p (S (S (List.length (sl_entry l))))) = rest.
Proof.
  intros Hwf (Hpre & Hsp & Hent & Hnl) Hrest E.
  assert (E2 : remaining p
               = (sl_space l :: sl_entry l ++ [sl_newline l]) ++ rest)
    by (rewrite E; simpl; now rewrite <- !app_assoc).
  destruct (remaining_advanced p _ _ Hwf E2) as [Er Hwf2].
  replace (List.length (sl_space l :: sl_entry l ++ [sl_newline l]))
    with (S (S (List.length (sl_entry l)))) in Er, Hwf2
    by (simpl; rewrite length_app; simpl; lia).
  split; [|split; [exact Hwf2|exact Er]].
  unfold bind at 1. rewrite (eat_remaining SPACE p Hwf), E, Hsp. cbn [is_some].
  destruct (remaining_advanced_1 p _ _ Hwf E) as [E1 Hwf1].
  unfold bind at 1. unfold bind at 1.
  rewrite (parse_entry_at (advanced p 1) (sl_entry l) rest (sl_newline l));
    [|split; [exact Hwf1|exact E1]|exact Hent
     |now apply newline_not_word_or_space].
  unfold ret at 1.
  replace (at_position (advanced p 1)
             (_pos (advanced p 1) + Z.of_nat (List.length (sl_entry l)) + 1))
    with (advanced p (S (S (List.length (sl_entry l)))))
    by (unfold advanced, at_position; simpl; f_equal; lia).
  unfold bind. rewrite (eat_remaining NEWLINE _ Hwf2), Er.
  destruct rest as [|t rest]; [reflexivity|].
  simpl in Hrest. now rewrite Hrest.
Qed.

Lemma prefix_not_newline (t : LexToken) :
  one_of SELLER_PREFIX HOST_PREFIX t = true -> has_type NEWLINE t = false.
Proof.
  unfold one_of, has_type. destruct (tok_type t); simpl; congruence.
Qed.

Lemma skip_seller_loop_lines (ls : list seller_line) :
  forall (l : seller_line) (post : list LexToken) (fuel : nat) (p : LogsParser),
    wf p ->
    seller_line_ok l -> Forall seller_line_ok ls -> ends_seller_block post ->
    remaining p
    = sl_space l :: sl_entry l ++ [sl_newline l]
        ++ seller_lines_tokens ls ++ post ->
    (List.length ls < fuel)%nat ->
    skip_seller_loop fuel p
    = Ret tt (advanced p (S (S (List.length (sl_entry l)))
                          + List.length (seller_lines_tokens ls))).
Proof.
  induction ls as [|l' ls IH]; intros l post fuel p Hwf Hl Hls Hpost E Hf;
    (destruct fuel as [|fuel]; [simpl in Hf; lia|]); cbn [skip_seller_loop].
  - assert (Hnn : no_newline_next (seller_lines_tokens [] ++ post)).
    { simpl. destruct post as [|t post]; [exact I|]. apply Hpost. }
    destruct (seller_line_rest
                (t <- eat_or (eat SELLER_PREFIX None) (eat HOST_PREFIX None) ;;
                 if is_some t then skip_seller_loop fuel else ret tt)
                p l _ Hwf Hl Hnn E) as (-> & Hwf2 & Er).
    unfold bind.
    rewrite (eat_or_remaining SELLER_PREFIX HOST_PREFIX _ Hwf2), Er.
    unfold seller_lines_tokens. simpl. rewrite Nat.add_0_r.
    destruct post as [|t post]; [reflexivity|].
    destruct Hpost as [-> _]. reflexivity.
  - inversion Hls as [|? ? Hl' Hls']; subst.
    pose proof Hl' as (Hpre' & Hsp' & Hent' & Hnl').
    assert (Hnn : no_newline_next (seller_lines_tokens (l' :: ls) ++ post)).
    { simpl. now apply prefix_not_newline. }
    destruct (seller_line_rest
                (t <- eat_or (eat SELLER_PREFIX None) (eat HOST_PREFIX None) ;;
                 if is_some t then skip_seller_loop fuel else ret tt)
                p l _ Hwf Hl Hnn E) as (-> & Hwf2 & Er).
    unfold bind.
    rewrite (eat_or_remaining SELLER_PREFIX HOST_PREFIX _ Hwf2), Er.
    assert (Er' : seller_lines_tokens (l' :: ls) ++ post
                  = sl_prefix l'
                      :: (sl_space l' :: sl_entry l' ++ [sl_newline l']
                            ++ seller_lines_tokens ls ++ post)).
    { unfold seller_lines_tokens. cbn [map List.concat].
      unfold seller_line_tokens at 1. simpl. now rewrite <- !app_assoc. }
    rewrite Er'. rewrite Hpre'. cbn [is_some]. rewrite Er' in Er.
    destruct (remaining_advanced_1 _ _ _ Hwf2 Er) as [E3 Hwf3].
    rewrite (IH l' post fuel _ Hwf3 Hl' Hls' Hpost E3) by (simpl in Hf; lia).
    rewrite !advanced_advanced. f_equal. f_equal.
    unfold seller_lines_tokens. cbn [map List.concat]. rewrite length_app.
    rewrite seller_line_tokens_length. lia.
Qed.

Lemma seller_lines_tokens_length (ls : list seller_line) :
  (List.length ls <= List.length (seller_lines_tokens ls))%nat.
Proof.
  induction ls as [|l ls IH]; [simpl; lia|].
  unfold seller_lines_tokens in *. cbn [map List.concat].
  rewrite length_app, seller_line_tokens_length. simpl. lia.
Qed.

(** X12. [skip_seller_block]. When the token at the cursor is not a
    SELLER_PREFIX it returns false and leaves the parser as it is. On a
    seller line it returns true and skips the line and, with it, every
    seller line and every host line that follows directly: a host line
    right after the seller block is part of the block and gives no
    credential its host. *)
Theorem skip_seller_block_lines (p : LogsParser) :
  wf p ->
  (match remaining p with
   | t :: _ => has_type SELLER_PREFIX t = false
   | [] => True
   end -> skip_seller_block p = Ret false p)
  /\ (forall (l : seller_line) (ls : list seller_line) (post : list LexToken),
        has_type SELLER_PREFIX (sl_prefix l) = true ->
        Forall seller_line_ok (l :: ls) -> ends_seller_block post ->
        remaining p = seller_lines_tokens (l :: ls) ++ post ->
        skip_seller_block p
        = Ret true (advanced p (List.length (seller_lines_tokens (l :: ls))))).
Proof.
  intros Hwf. split.
  - intros H. unfold skip_seller_block, bind.
    rewrite (eat_remaining SELLER_PREFIX p Hwf).
    destruct (remaining p) as [|t rem]; [reflexivity|]. now rewrite H.
  - intros l ls post Hsel Hall Hpost E.
    inversion Hall as [|? ? Hl Hls]; subst.
    assert (E' : remaining p
                 = sl_prefix l
                     :: (sl_space l :: sl_entry l ++ [sl_newline l]
                           ++ seller_lines_tokens ls ++ post)).
    { rewrite E. unfold seller_lines_tokens. cbn [map List.concat].
      unfold seller_line_tokens at 1. simpl. now rewrite <- !app_assoc. }
    unfold skip_seller_block. unfold bind at 1.
    rewrite (eat_remaining SELLER_PREFIX p Hwf), E', Hsel. cbn [is_some negb].
    destruct (remaining_advanced_1 _ _ _ Hwf E') as [E1 Hwf1].
    unfold bind.
    assert (Hlen : (List.length ls
                    < S (Z.to_nat (_size (advanced p 1) - _pos (advanced p 1))))%nat).
    { pose proof (remaining_length _ Hwf1) as Hrl. rewrite E1 in Hrl.
      pose proof (seller_lines_tokens_length ls) as Hge.
      cbn [List.length] in Hrl. rewrite !length_app in Hrl. lia. }
    rewrite (skip_seller_loop_lines ls l post _ _ Hwf1 Hl Hls Hpost E1 Hlen).
    unfold ret. rewrite advanced_advanced. f_equal. f_equal.
    unfold seller_lines_tokens at 2. cbn [map List.concat].
    rewrite length_app, seller_line_tokens_length.
    unfold seller_lines_tokens. lia.
Qed.

(** [skip_header_line] on a header that a host line follows on the same
    line: false, with the header consumed. *)
Lemma skip_header_line_exact_witness :
  skip_header_line (LogsParser_init header_without_newline)
  = Ret false (at_position (LogsParser_init header_without_newline) 2).
Proof.
  pose proof (skip_header_line_exact (LogsParser_init header_without_newline)
                (wf_init _)) as H.
  cbv zeta in H. rewrite H. reflexivity.
Defined.

(** [parse_multiline_entry] on an entry of two lines that does not decode:
    the text of the two words, the cursor at the host prefix. *)
Lemma parse_multiline_entry_exact_witness :
  parse_multiline_entry no_b64decode (LogsParser_init two_line_entry)
  = Ret (Some "abcdef") (at_position (LogsParser_init two_line_entry) 4).
Proof.
  pose proof (parse_multiline_entry_exact no_b64decode
                (LogsParser_init two_line_entry) (wf_init _)) as H.
  cbv zeta in H. rewrite H. reflexivity.
Defined.

(** [skip_seller_block] on a seller line, a host line and a user line: the
    host line goes with the seller line. *)
Lemma skip_seller_block_lines_witness :
  skip_seller_block (LogsParser_init seller_then_host)
  = Ret true (at_position (LogsParser_init seller_then_host) 8).
Proof.
  destruct (skip_seller_block_lines (LogsParser_init seller_then_host)
              (wf_init _)) as [_ H].
  rewrite (H seller_line_1 [seller_line_2] seller_post).
  - reflexivity.
  - reflexivity.
  - repeat constructor.
  - split; reflexivity.
  - reflexivity.
Defined.

(* ===================================================================== *)
(** * What the password grammar engine returns *)
(* ===================================================================== *)

Lemma keeps_ret {A} (a : A) (Q : A -> Prop) : Q a -> keeps (ret a) Q.
Proof. intros H p a' p' E. injection E as <- _. exact H. Qed.

Lemma keeps_bind {A B} (m : M A) (f : A -> M B) (Q : A -> Prop) (R : B -> Prop) :
  keeps m Q -> (forall a, Q a -> keeps (f a) R) -> keeps (bind m f) R.
Proof.
  intros Hm Hf p b p' E. unfold bind in E.
  destruct (m p) as [a p1|e p1|] eqn:Em; try discriminate.
  exact (Hf a (Hm _ _ _ Em) _ _ _ E).
Qed.

Lemma keeps_then {A B} (m : M A) (f : A -> M B) (R : B -> Prop) :
  (forall a, keeps (f a) R) -> keeps (bind m f) R.
Proof.
  intros Hf. apply keeps_bind with (Q := fun _ => True).
  - intros p a p' _. exact I.
  - intros a _. apply Hf.
Qed.

Lemma keeps_raise {A} (e : exn) (Q : A -> Prop) : keeps (raise e) Q.
Proof. intros p a p' E. discriminate E. Qed.

Section CredentialOfRules.

Variable b64decode_text : string -> option string.
Variable hostname_of_url : string -> url_result.

Lemma cred_fresh_software c v : cred_fresh c -> cred_fresh (set_software c v).
Proof. now destruct c. Qed.
Lemma cred_fresh_host c v : cred_fresh c -> cred_fresh (set_host c v).
Proof. now destruct c. Qed.
Lemma cred_fresh_username c v : cred_fresh c -> cred_fresh (set_username c v).
Proof. now destruct c. Qed.
Lemma cred_fresh_password c v : cred_fresh c -> cred_fresh (set_password c v).
Proof. now destruct c. Qed.
Lemma cred_fresh_domain c v : cred_fresh c -> cred_fresh (set_domain c v).
Proof. now destruct c. Qed.
Lemma cred_fresh_email c l d : cred_fresh c -> cred_fresh (set_email c l d).
Proof. now destruct c. Qed.

Lemma cred_fresh_split c : cred_fresh c -> cred_fresh (split_credential_email c).
Proof.
  intros H. unfold split_credential_email.
  destruct (negb (truthy (username c))); [exact H|].
  destruct (username c); [|exact H].
  destruct (re_match no_flags EMAIL_PATTERN s); [|exact H].
  now apply cred_fresh_email.
Qed.

Lemma extract_keeps c :
  cred_fresh c ->
  keeps (extract_credential_domain_name hostname_of_url c) cred_fresh.
Proof.
  intros H. unfold extract_credential_domain_name.
  destruct (negb (truthy (host c))); [now apply keeps_ret|].
  destruct (host c); [|now apply keeps_ret].
  destruct (hostname_of_url s); [apply keeps_raise|].
  destruct (truthy h); apply keeps_ret; [now apply cred_fresh_domain|exact H].
Qed.

Lemma call_keeps f c :
  cred_fresh c ->
  keeps (call b64decode_text hostname_of_url f c) (fun r => cred_fresh (snd r)).
Proof.
  intros H. destruct f; simpl.
  - unfold parse_software_line. apply keeps_then. intros pre.
    destruct (is_some pre).
    + apply keeps_then. intros sp.
      apply keeps_bind with (Q := cred_fresh).
      * destruct (is_some sp); [|now apply keeps_ret].
        apply keeps_then. intros e. apply keeps_ret.
        now apply cred_fresh_software.
      * intros c1 H1. apply keeps_then. intros ?. apply keeps_then. intros ?.
        now apply keeps_ret.
    + apply keeps_then. intros soft. destruct soft as [t|]; [|now apply keeps_ret].
      destruct (re_match no_flags SPECIAL_SOFT_PATTERN (tok_value t)).
      * apply keeps_then. intros ?. apply keeps_ret.
        now apply cred_fresh_software.
      * apply keeps_then. intros ?. apply keeps_then. intros ?.
        now apply keeps_ret.
  - unfold parse_host_line. apply keeps_then. intros pre.
    destruct (is_some pre); [|now apply keeps_ret].
    apply keeps_then. intros sp.
    apply keeps_bind with (Q := cred_fresh).
    + destruct (is_some sp); [|now apply keeps_ret].
      apply keeps_then. intros e. apply extract_keeps.
      now apply cred_fresh_host.
    + intros c1 H1. apply keeps_then. intros ?. now apply keeps_ret.
  - unfold parse_user_line. apply keeps_then. intros pre.
    destruct (is_some pre); [|now apply keeps_ret].
    apply keeps_then. intros sp.
    apply keeps_bind with (Q := cred_fresh).
    + destruct (is_some sp); [|now apply keeps_ret].
      apply keeps_then. intros e. apply keeps_ret.
      now apply cred_fresh_split, cred_fresh_username.
    + intros c1 H1. apply keeps_then. intros ?. now apply keeps_ret.
  - unfold parse_password_line. apply keeps_then. intros pre.
    destruct (is_some pre); [|now apply keeps_ret].
    apply keeps_then. intros sp.
    destruct (is_some sp); [|now apply keeps_ret].
    apply keeps_then. intros ?. apply keeps_then. intros pw.
    apply keeps_then. intros nl. apply keeps_then. intros special.
    apply keeps_then. intros pw'. apply keeps_ret.
    now apply cred_fresh_password.
Qed.

Lemma parse_line_from_keeps funcs : forall todo c,
  cred_fresh c ->
  keeps (parse_line_from b64decode_text hostname_of_url todo funcs c)
    (fun r => cred_fresh (snd r)).
Proof.
  induction todo as [|f todo IH]; intros c H; simpl.
  - now apply keeps_ret.
  - eapply keeps_bind; [apply call_keeps; exact H|].
    intros [ok c1] H1. simpl in *. destruct ok.
    + apply keeps_then. intros ?. now apply keeps_ret.
    + now apply IH.
Qed.

Lemma parse_lines_keeps fuel : forall funcs c,
  cred_fresh c ->
  keeps (parse_lines b64decode_text hostname_of_url fuel funcs c)
    (fun r => cred_fresh (snd r)).
Proof.
  induction fuel as [|fuel IH]; intros funcs c H; simpl.
  - intros p a p' E. discriminate E.
  - eapply keeps_bind; [apply parse_line_from_keeps; exact H|].
    intros [[ok funcs'] c'] H1. simpl in *. destruct ok.
    + now apply IH.
    + now apply keeps_ret.
Qed.

Lemma normalize_software_normal (c : Credential) :
  software_normal (normalize_credential_text c).
Proof.
  unfold normalize_credential_text, software_normal.
  destruct (truthy (software c)) eqn:Et.
  - destruct (software c) as [s|]; [|discriminate]. simpl.
    apply normalized_text.
  - destruct (software c) as [[|a s]|]; try discriminate; reflexivity.
Qed.

Lemma normalize_other_fields (c : Credential) :
  filepath (normalize_credential_text c) = filepath c
  /\ stealer_name (normalize_credential_text c) = stealer_name c.
Proof.
  unfold normalize_credential_text.
  destruct (truthy (software c)); [|auto].
  destruct (software c); auto.
Qed.

Lemma finished_credential_returned filename funcs c :
  cred_fresh c -> cred_returned filename (finished_credential filename funcs c).
Proof.
  intros [Hf Hs]. unfold cred_returned, finished_credential.
  destruct (normalize_other_fields
              (set_filepath
                 (if list_in F_parse_software_line funcs
                  then set_software c (get_browser_name filename) else c)
                 (Some filename))) as [-> ->].
  split; [reflexivity|]. split; [|apply normalize_software_normal].
  destruct (list_in F_parse_software_line funcs); simpl; exact Hs.
Qed.

Lemma parse_user_block_hoare_p filename ts lo :
  0 <= lo ->
  hoare (invp ts (cred_returned filename) lo)
    (parse_user_block b64decode_text hostname_of_url filename)
    (fun b p' => if b then invp ts (cred_returned filename) (lo + 1) p'
                 else invp ts (cred_returned filename) lo p').
Proof.
  intros Hlo p [out [Hp HP]]. rewrite parse_user_block_unfold.
  pose proof (parse_lines_hoare b64decode_text hostname_of_url
                ts out 5 all_rules Credential_new lo
                ltac:(simpl; lia) all_rules_NoDup Hlo p Hp) as H.
  pose proof (parse_lines_keeps 5 all_rules Credential_new
                ltac:(split; reflexivity) p) as Hk.
  destruct (parse_lines b64decode_text hostname_of_url 5 all_rules
              Credential_new p) as [[funcs c] p1|e p1|];
    [|exact H|exact H].
  specialize (Hk _ _ eq_refl). simpl in Hk.
  simpl in H. destruct H as [Hnd [[-> [-> Hp1]]|[Hp1 Hl]]].
  - simpl. now exists out.
  - destruct (Credential_any c).
    + exists (out ++ [finished_credential filename funcs c]). split.
      * unfold inv in *. simpl. intuition congruence.
      * apply Forall_app. split; [exact HP|].
        constructor; [|constructor].
        now apply finished_credential_returned.
    + destruct (Z.of_nat (List.length funcs) <? 2).
      * now exists out.
      * exists out. split; [now apply inv_step_back|exact HP].
Qed.

Lemma hoare_any_output_p {A} ts P lo (m : M A)
    (Q : A -> LogsParser -> Prop) :
  (forall out, Forall P out -> hoare (inv ts out lo) m Q) ->
  hoare (invp ts P lo) m Q.
Proof. intros H p [out [Hp HP]]. exact (H out HP p Hp). Qed.

Lemma hoare_keep_output_p {A} ts P lo lo' (m : M A) :
  (forall out, hoare (inv ts out lo) m (fun _ => inv ts out lo')) ->
  hoare (invp ts P lo) m (fun _ => invp ts P lo').
Proof.
  intros H p [out [Hp HP]]. specialize (H out p Hp).
  destruct (m p); auto. now exists out.
Qed.

Lemma parse_passwords_step_hoare_p filename parsed_seller ts lo :
  0 <= lo ->
  hoare (invp ts (cred_returned filename) lo)
    (parse_passwords_step b64decode_text hostname_of_url filename parsed_seller)
    (fun r p' => if snd r then invp ts (cred_returned filename) (lo + 1) p'
                 else invp ts (cred_returned filename) lo p').
Proof.
  intros Hlo. unfold parse_passwords_step.
  eapply hoare_bind with (Q := fun _ => invp ts (cred_returned filename) lo).
  { destruct (negb parsed_seller).
    - apply hoare_keep_output_p. intros out. apply skip_seller_block_hoare.
    - now apply hoare_ret. }
  intros ps.
  eapply hoare_bind
    with (Q := fun nl p' =>
                 if is_some nl then invp ts (cred_returned filename) (lo + 1) p'
                 else invp ts (cred_returned filename) lo p').
  { apply hoare_any_output_p. intros out HP.
    eapply hoare_post; [apply eat_hoare|].
    intros [t|] p Hp; simpl in *; now exists out. }
  intros [t|]; simpl; [now apply hoare_ret|].
  eapply hoare_bind
    with (Q := fun (hd : bool) p' =>
                 if hd then invp ts (cred_returned filename) (lo + 1) p'
                 else invp ts (cred_returned filename) lo p').
  { apply hoare_any_output_p. intros out HP.
    eapply hoare_post; [apply skip_header_line_hoare|].
    intros [|] p Hp; simpl in *; now exists out. }
  intros [|]; [now apply hoare_ret|].
  eapply hoare_bind; [apply parse_user_block_hoare_p; exact Hlo|].
  intros ub. now apply hoare_ret.
Qed.

Lemma invp_weaken ts P lo lo' p : lo' <= lo -> invp ts P lo p -> invp ts P lo' p.
Proof.
  intros Hl [out [H HP]]. exists out. split; [now apply inv_weaken with lo|exact HP].
Qed.

Lemma invp_invx ts P lo p : invp ts P lo p -> invx ts lo p.
Proof. intros [out [H _]]. now exists out. Qed.

Lemma invp_at_cursor ts P lo p : invp ts P lo p -> invp ts P (_pos p) p.
Proof.
  intros [out [H HP]]. exists out. split; [now apply inv_at_cursor with lo|exact HP].
Qed.

Lemma parse_passwords_loop_hoare_p filename ts fuel : forall parsed_seller lo,
  0 <= lo -> Z.of_nat (List.length ts) - lo <= Z.of_nat fuel ->
  hoare (invp ts (cred_returned filename) lo)
    (parse_passwords_loop b64decode_text hostname_of_url fuel filename
       parsed_seller)
    (fun _ => invp ts (cred_returned filename) lo).
Proof.
  induction fuel as [|fuel IH]; intros ps lo Hlo Hf p Hp;
    pose proof (invx_bound _ _ _ (invp_invx _ _ _ _ Hp)) as Hb; simpl;
    destruct (_pos p <? _size p) eqn:Hlt; try exact Hp.
  - apply Z.ltb_lt in Hlt. lia.
  - assert (Hh : hoare (invp ts (cred_returned filename) (_pos p))
                   (r <- parse_passwords_step b64decode_text hostname_of_url
                           filename ps ;;
                    if snd r
                    then parse_passwords_loop b64decode_text hostname_of_url
                           fuel filename (fst r)
                    else ret tt)
                   (fun _ => invp ts (cred_returned filename) lo)).
    { eapply hoare_bind; [apply parse_passwords_step_hoare_p; lia|].
      intros [ps' [|]]; simpl.
      - eapply hoare_post; [apply IH; lia|].
        intros ? q. apply invp_weaken. lia.
      - apply hoare_ret. intros q. apply invp_weaken. lia. }
    exact (Hh p (invp_at_cursor _ _ _ _ Hp)).
Qed.

(** What [parse_passwords] returns, for the use of the directory
    processor. *)
Lemma parse_passwords_returned filename text l :
  parse_passwords b64decode_text hostname_of_url filename text = Returned l ->
  Forall (cred_returned filename) l.
Proof.
  unfold parse_passwords.
  destruct (tokenize_passwords text) as [tokens|n|]; try discriminate.
  unfold parse_passwords_tokens, bind.
  pose proof (parse_passwords_loop_hoare_p filename tokens
                (List.length tokens) false 0 ltac:(lia) ltac:(lia)
                (LogsParser_init tokens)) as H.
  destruct (parse_passwords_loop b64decode_text hostname_of_url
              (List.length tokens) filename false (LogsParser_init tokens))
    as [[] st|e st|]; try discriminate.
  assert (Hinit : invp tokens (cred_returned filename) 0 (LogsParser_init tokens)).
  { exists []. split; [|constructor]. unfold inv. simpl. intuition lia. }
  specialize (H Hinit). destruct H as [out [Hinv HP]].
  unfold parse_passwords_finish.
  destruct (negb (_pos st =? _size st)).
  - unfold bind. destruct (get_current_token st); discriminate.
  - simpl. intros E. injection E as <-.
    unfold inv in Hinv. destruct Hinv as (_ & -> & _). exact HP.
Qed.

End CredentialOfRules.

(** X13. What [parse_passwords] returns. In every credential of its result
    the file path is the name of the parsed file, no stealer name is set,
    and the software text is normalised: no square bracket, no quote, no
    underscore and no capital letter. *)
Theorem parse_passwords_credentials
    (b64decode_text : string -> option string)
    (hostname_of_url : string -> url_result)
    (filename text : string) (l : list Credential) :
  parse_passwords b64decode_text hostname_of_url filename text = Returned l ->
  Forall (cred_returned filename) l.
Proof. apply parse_passwords_returned. Qed.

(** The credential of the example file. *)
Lemma parse_passwords_credentials_witness :
  Forall (cred_returned "Passwords.txt") [example_credential "Passwords.txt"].
Proof.
  apply (parse_passwords_credentials no_b64decode
           (urlparse_hostname any_bracketed_host) "Passwords.txt"
           example_passwords_text).
  reflexivity.
Defined.

(* ===================================================================== *)
(** * Password files without keywords *)
(* ===================================================================== *)

Section PlainText.

Variable b64decode_text : string -> option string.
Variable hostname_of_url : string -> url_result.

Local Abbreviation parse_user_block :=
  (parse_user_block b64decode_text hostname_of_url).
Local Abbreviation parse_passwords_step :=
  (parse_passwords_step b64decode_text hostname_of_url).
Local Abbreviation parse_passwords_loop :=
  (parse_passwords_loop b64decode_text hostname_of_url).
Local Abbreviation parse_passwords_tokens :=
  (parse_passwords_tokens b64decode_text hostname_of_url).
Local Abbreviation parse_passwords :=
  (parse_passwords b64decode_text hostname_of_url).

(** At the end of the tokens [parse_user_block] finds no line: it returns
    false and leaves the parser as it is. *)
Lemma parse_user_block_at_end (filename : string) (p : LogsParser) :
  at_rem p [] -> parse_user_block filename p = Ret false p.
Proof.
  intros H. rewrite parse_user_block_unfold.
  cbn [parse_lines]. unfold bind, parse_line.
  rewrite (parse_line_from_at_end b64decode_text hostname_of_url _ p H).
  reflexivity.
Qed.

Lemma plain_not_newline (t : LexToken) :
  is_plain t = true -> has_type NEWLINE t = false -> is_word_or_space t = true.
Proof.
  unfold is_plain, has_type, is_word_or_space.
  destruct (tok_type t); simpl; congruence.
Qed.

Lemma plain_not_word_or_space (t : LexToken) :
  is_plain t = true -> is_word_or_space t = false -> has_type NEWLINE t = true.
Proof.
  unfold is_plain, has_type, is_word_or_space.
  destruct (tok_type t); simpl; congruence.
Qed.

Lemma plain_head_is_not (ty : TokenType) (rem : list LexToken) :
  Forall (fun t => is_plain t = true) rem ->
  ty <> WORD -> ty <> SPACE -> ty <> NEWLINE ->
  head_is_not ty rem.
Proof.
  intros H H1 H2 H3. destruct rem as [|t rem]; [exact I|].
  inversion H as [|? ? Ht _]; subst. simpl. intros E.
  unfold is_plain in Ht. rewrite E in Ht. destruct ty; congruence.
Qed.

(** The main loop on plain tokens. *)
Lemma parse_passwords_loop_plain (filename : string) (fuel : nat) :
  forall p,
    wf p -> Forall (fun t => is_plain t = true) (remaining p) ->
    (List.length (remaining p) <= fuel)%nat ->
    parse_passwords_loop fuel filename false p
    = Ret tt (at_position p (_size p)).
Proof.
  induction fuel as [|fuel IH]; intros p Hwf Hall Hf.
  - assert (Hr : remaining p = [])
      by (destruct (remaining p); [reflexivity|simpl in Hf; lia]).
    pose proof (at_rem_end p (conj Hwf Hr)) as He.
    rewrite parse_passwords_loop_at_end by exact He.
    now rewrite <- He, at_position_same.
  - cbn [parse_passwords_loop].
    destruct (_pos p <? _size p) eqn:Hlt;
      [|apply Z.ltb_ge in Hlt; destruct Hwf as [? ?];
        replace (_size p) with (_pos p) by lia;
        now rewrite at_position_same].
    apply Z.ltb_lt in Hlt.
    destruct (remaining_nil_or_cons p Hwf) as [[_ He]|(t & Hc & _ & Hr)];
      [lia|].
    set (rem := remaining (at_position p (_pos p + 1))) in *.
    rewrite Hr in Hall, Hf. inversion Hall as [|? ? Ht Hrem]; subst.
    unfold bind at 1. unfold parse_passwords_step.
    cbn [negb]. unfold bind at 1.
    rewrite (skip_seller_block_miss p _ (conj Hwf Hr))
      by (simpl; intros E; unfold is_plain in Ht; rewrite E in Ht; discriminate).
    unfold bind at 1. rewrite (eat_remaining NEWLINE p Hwf), Hr.
    destruct (remaining_advanced_1 p t rem Hwf Hr) as [Hr1 Hwf1].
    destruct (has_type NEWLINE t) eqn:Enl.
    + cbn [is_some]. unfold ret at 1. cbn [snd fst].
      rewrite IH; [reflexivity|exact Hwf1|now rewrite Hr1|].
      rewrite Hr1. simpl in Hf. lia.
    + cbn [is_some]. unfold bind at 1.
      pose proof (skip_header_line_on_run p Hwf) as Hh. cbv zeta in Hh.
      rewrite Hr in Hh. cbn [entry_run] in Hh.
      rewrite (plain_not_newline t Ht Enl) in Hh.
      set (run := entry_run rem) in *.
      assert (Hsplit : remaining p = (t :: run) ++ skipn (List.length run) rem).
      { rewrite Hr. simpl. f_equal. unfold run.
        rewrite (entry_run_prefix rem) at 1. now rewrite firstn_skipn. }
      destruct (remaining_advanced p _ _ Hwf Hsplit) as [Hq Hwfq].
      rewrite Hh, Hq. clear Hh.
      assert (Hrest : Forall (fun t => is_plain t = true)
                        (skipn (List.length run) rem)).
      { apply Forall_forall. intros x Hx. rewrite Forall_forall in Hrem.
        apply Hrem. rewrite <- (firstn_skipn (List.length run) rem).
        apply in_or_app. now right. }
      destruct (skipn (List.length run) rem) as [|t' rest] eqn:Es.
      * (* the tokens end with the run *)
        unfold bind at 1.
        rewrite (parse_user_block_at_end filename _ (conj Hwfq Hq)).
        unfold ret. cbn [snd].
        pose proof (at_rem_end _ (conj Hwfq Hq)) as He. simpl in He.
        unfold advanced. f_equal. unfold at_position. f_equal. exact He.
      * (* a NEWLINE follows the run *)
        inversion Hrest as [|? ? Ht' Hrest']; subst.
        assert (Hstop : is_word_or_space t' = false).
        { apply (entry_run_stop rem). fold run.
          rewrite <- (Nat.add_0_r (List.length run)).
          rewrite <- nth_error_skipn, Es. reflexivity. }
        rewrite (plain_not_word_or_space t' Ht' Hstop).
        unfold ret at 1. cbn [snd fst].
        destruct (remaining_advanced_1 _ t' rest Hwfq Hq) as [Hq1 Hwfq1].
        rewrite IH; [|exact Hwfq1|now rewrite Hq1|].
        -- reflexivity.
        -- rewrite Hq1. simpl in Hf.
           assert (List.length (skipn (List.length run) rem) <= List.length rem)%nat
             by (rewrite length_skipn; lia).
           rewrite Es in H. simpl in H. lia.
Qed.

(** X14. A password file without keywords. When the tokens of a text are
    WORD, SPACE and NEWLINE tokens only, [parse_passwords] skips them all as
    header lines: it returns no credential and raises no [SyntaxError],
    also when the last line has no line break. *)
Theorem parse_passwords_plain_text (filename text : string)
    (tokens : list LexToken) :
  tokenize_passwords text = Tokens tokens ->
  Forall (fun t => is_plain t = true) tokens ->
  parse_passwords filename text = Returned [].
Proof.
  intros Htok Hall. unfold parse_passwords. rewrite Htok.
  unfold parse_passwords_tokens, bind.
  rewrite parse_passwords_loop_plain;
    [|apply wf_init|exact Hall
     |change (remaining (LogsParser_init tokens)) with tokens; lia].
  unfold parse_passwords_finish. simpl. rewrite Z.eqb_refl. reflexivity.
Qed.

End PlainText.

(** A text without keywords whose last line has no line break. *)
Lemma parse_passwords_plain_text_witness :
  parse_passwords no_b64decode (urlparse_hostname any_bracketed_host)
    "Passwords.txt" plain_text
  = Returned [].
Proof.
  apply (parse_passwords_plain_text no_b64decode
           (urlparse_hostname any_bracketed_host) "Passwords.txt" plain_text
           plain_tokens).
  - reflexivity.
  - repeat constructor.
Defined.

(* ===================================================================== *)
(** * File classification: proofs *)
(* ===================================================================== *)

Lemma re_run_alt (fl : re_flags) (r1 r2 : regex) (c : cursor) (g : captures)
    (k : cursor -> captures -> option (cursor * captures)) (x : cursor * captures) :
  re_run fl (Alt r1 r2) c g k = Some x ->
  re_run fl r1 c g k = Some x \/ re_run fl r2 c g k = Some x.
Proof.
  cbn [re_run]. destruct (re_run fl r1 c g k); [intros H; now left|now right].
Qed.

(** A pattern without groups that takes at least one character. *)
Lemma re_run_no_group_consuming fl (r : regex) :
  no_group r = true -> consuming r = true ->
  forall c g k x,
    re_run fl r c g k = Some x ->
    exists c', reach c c' /\ (cur_idx c < cur_idx c')%nat /\ k c' g = Some x.
Proof.
  induction r as [|a|cl|r1 IH1 r2 IH2|r1 IH1 r2 IH2|r1 IH1|cl|cl|n r1 IH1| |r1 IH1];
    simpl; intros Hn Hc c g k x H; try discriminate Hn; try discriminate Hc.
  - destruct (cur_rest c) as [|b s'] eqn:E; [discriminate|].
    destruct (char_ok fl a b); [|discriminate].
    eexists. split; [apply reach_one; exact E|]. split; [simpl; lia|exact H].
  - destruct (cur_rest c) as [|b s'] eqn:E; [discriminate|].
    destruct (class_ok fl cl b); [|discriminate].
    eexists. split; [apply reach_one; exact E|]. split; [simpl; lia|exact H].
  - apply andb_prop in Hn. destruct Hn as [Hn1 Hn2].
    destruct (consuming r1) eqn:E1.
    + apply (IH1 Hn1 eq_refl) in H. destruct H as (c1 & Hr1 & Hlt & H).
      apply (re_run_no_group _ _ Hn2) in H. destruct H as (c2 & Hr2 & H).
      exists c2. split; [eapply reach_trans; eassumption|].
      split; [|exact H]. apply reach_idx in Hr2. lia.
    + simpl in Hc.
      apply (re_run_no_group _ _ Hn1) in H. destruct H as (c1 & Hr1 & H).
      apply (IH2 Hn2 Hc) in H. destruct H as (c2 & Hr2 & Hlt & H).
      exists c2. split; [eapply reach_trans; eassumption|].
      split; [|exact H]. apply reach_idx in Hr1. lia.
  - apply andb_prop in Hn. destruct Hn as [Hn1 Hn2].
    apply andb_prop in Hc. destruct Hc as [Hc1 Hc2].
    destruct (re_run fl r1 c g k) eqn:E.
    + injection H as ->. now apply (IH1 Hn1 Hc1) in E.
    + now apply (IH2 Hn2 Hc2) in H.
  - unfold plus_run in H.
    destruct (cur_rest c) as [|b s'] eqn:E; [discriminate|].
    destruct (class_ok fl cl b); [|discriminate].
    apply star_run_sound in H. destruct H as (c' & Hr & H).
    exists c'. split; [eapply reach_next; [exact E|exact Hr]|].
    split; [|exact H]. apply reach_idx in Hr. simpl in Hr. lia.
Qed.

Lemma consumed_nonempty (c c' : cursor) :
  reach c c' -> (cur_idx c < cur_idx c')%nat -> truthy (Some (consumed c c')) = true.
Proof.
  intros Hr Hlt. destruct (reach_text _ _ Hr) as (pre & Hp & Hi).
  rewrite (consumed_reach _ _ _ Hp Hi).
  destruct pre; [simpl in Hi; lia|reflexivity].
Qed.

(** A match of [FILENAMES_PATTERN] took exactly one of its four
    alternatives: its captures are the first group and the group of that
    alternative, which is not empty. *)
Lemma FILENAMES_PATTERN_match (c cend : cursor) (g : captures) :
  re_match_at (mkFlags true false) FILENAMES_PATTERN c = Some (cend, g) ->
  exists n s1 s,
    g = [(1%nat, s1); (n, s)] /\ truthy (Some s) = true
    /\ (n = 2 \/ n = 3 \/ n = 4 \/ n = 5)%nat.
Proof.
  unfold re_match_at, FILENAMES_PATTERN. cbn [seq alts]. intros H.
  rewrite re_run_seq in H.
  apply (re_run_no_group _ (Star Dot) eq_refl) in H.
  destruct H as (c1 & _ & H).
  rewrite re_run_seq, re_run_group in H.
  assert (Hbranch : forall n r,
            no_group r = true -> consuming r = true ->
            re_run (mkFlags true false) (Group n r) c1 []
              (fun c' g' =>
                 re_run (mkFlags true false) (Seq (Star Dot) (Lit ".txt")) c'
                   ((1%nat, consumed c1 c') :: g')
                   (fun c'0 g'0 => Some (c'0, g'0)))
            = Some (cend, g) ->
            exists s1 s, g = [(1%nat, s1); (n, s)] /\ truthy (Some s) = true).
  { intros n r Hn Hc Hr. rewrite re_run_group in Hr.
    apply (re_run_no_group_consuming _ _ Hn Hc) in Hr.
    destruct Hr as (c2 & Hr2 & Hlt & Hr).
    apply (re_run_no_group _ (Seq (Star Dot) (Lit ".txt")) eq_refl) in Hr.
    destruct Hr as (c3 & _ & Hr). injection Hr as _ <-.
    eexists _, _. split; [reflexivity|]. now apply consumed_nonempty. }
  apply re_run_alt in H. destruct H as [H|H];
    [apply Hbranch in H; try reflexivity;
     destruct H as (s1 & s & -> & Hs); exists 2%nat, s1, s; auto|].
  apply re_run_alt in H. destruct H as [H|H];
    [apply Hbranch in H; try reflexivity;
     destruct H as (s1 & s & -> & Hs); exists 3%nat, s1, s; auto|].
  apply re_run_alt in H. destruct H as [H|H];
    [apply Hbranch in H; try reflexivity;
     destruct H as (s1 & s & -> & Hs); exists 4%nat, s1, s; auto 6|].
  apply Hbranch in H; try reflexivity.
  destruct H as (s1 & s & -> & Hs). exists 5%nat, s1, s. auto 6.
Qed.

Lemma filename_match_captures (name : string) (g : captures) :
  filename_match name = Some g ->
  exists n s1 s,
    g = [(1%nat, s1); (n, s)] /\ truthy (Some s) = true
    /\ (n = 2 \/ n = 3 \/ n = 4 \/ n = 5)%nat.
Proof.
  unfold filename_match, re_search. intros H.
  apply re_search_from_match in H. destruct H as (before & c & cend & _ & Hm).
  eapply FILENAMES_PATTERN_match. exact Hm.
Qed.

(** The only names that match and get no type are those of the system
    alternative with a hash sign. *)
Lemma classify_none (name : string) (g : captures) :
  filename_match name = Some g -> classify name g = None ->
  truthy (group 3 g) = true /\ contains_char "#" name = true.
Proof.
  intros Hm Hc. apply filename_match_captures in Hm.
  destruct Hm as (n & s1 & s & -> & Hs & Hn).
  destruct s as [|a s]; [discriminate Hs|].
  unfold classify in Hc.
  destruct Hn as [-> | [-> | [-> | ->]]]; simpl in Hc; try discriminate Hc.
  split; [reflexivity|].
  destruct (contains_char "#" name); [reflexivity|discriminate Hc].
Qed.

Lemma generate_file_loop_listed (names : list string) :
  forall log_type files,
    generate_file_loop names log_type = Some files ->
    map lf_filename files
    = filter (fun name => is_some (filename_match name)) names
    /\ typed_from log_type files.
Proof.
  induction names as [|name names IH]; intros lt files H; simpl in H.
  - injection H as <-. simpl. auto.
  - simpl. unfold filename_match at 1.
    destruct (re_search (mkFlags true false) FILENAMES_PATTERN name)
      as [g|] eqn:Em; simpl.
    + destruct (match classify name g with
                | Some t => Some t
                | None => lt
                end) as [t|] eqn:Et; [|discriminate].
      destruct (generate_file_loop names (Some t)) as [files'|] eqn:El;
        [|discriminate].
      injection H as <-. apply IH in El. destruct El as [Hn Ht].
      simpl. rewrite Hn. split; [reflexivity|].
      unfold type_of_name, filename_match. rewrite Em.
      split; [|split; [reflexivity|exact Ht]].
      destruct (classify name g); [injection Et as ->; reflexivity|exact Et].
    + now apply IH.
Qed.

Lemma generate_file_loop_typed (names : list string) (t : LogFileType) :
  generate_file_loop names (Some t) <> None.
Proof.
  revert t. induction names as [|name names IH]; intros t; simpl;
    [discriminate|].
  destruct (re_search (mkFlags true false) FILENAMES_PATTERN name) as [g|];
    [|apply IH].
  destruct (classify name g) as [t'|].
  - specialize (IH t'). destruct (generate_file_loop names (Some t'));
      [discriminate|contradiction].
  - specialize (IH t). destruct (generate_file_loop names (Some t));
      [discriminate|contradiction].
Qed.

Lemma generate_file_loop_error (names : list string) :
  generate_file_loop names None = None
  <-> match filter (fun name => is_some (filename_match name)) names with
      | name :: _ => type_of_name name = None
      | [] => False
      end.
Proof.
  induction names as [|name names IH]; simpl.
  - split; [discriminate|contradiction].
  - unfold filename_match at 1. unfold type_of_name, filename_match.
    destruct (re_search (mkFlags true false) FILENAMES_PATTERN name)
      as [g|] eqn:Em; simpl; [|exact IH].
    rewrite Em. destruct (classify name g) as [t|]; [|tauto].
    pose proof (generate_file_loop_typed names t) as Ht.
    destruct (generate_file_loop names (Some t)); [|contradiction].
    split; discriminate.
Qed.

(** X15. [generate_file_list]. The files it lists are the names that match
    [FILENAMES_PATTERN], in sorted order, each with the directory
    [get_system_dir] gives its name and with the type its name gives it; a
    name that matches but gives no type takes the type of the file listed
    before it. *)
Theorem generate_file_list_listed (namelist : list string) (files : list LogFile) :
  generate_file_list namelist = Some files ->
  map lf_filename files = listed_names namelist /\ typed_from None files.
Proof. apply generate_file_loop_listed. Qed.

(** X16. The error of [generate_file_list]. It raises (its variable
    [log_type] is read unbound) exactly when the first name that matches,
    in sorted order, gives no type; such a name matched the system
    alternative of the pattern and has a hash sign. *)
Theorem generate_file_list_error (namelist : list string) :
  (generate_file_list namelist = None
   <-> match listed_names namelist with
       | name :: _ => type_of_name name = None
       | [] => False
       end)
  /\ forall name g,
       filename_match name = Some g -> classify name g = None ->
       truthy (group 3 g) = true /\ contains_char "#" name = true.
Proof.
  split; [apply generate_file_loop_error|apply classify_none].
Qed.

(** A system file with a hash sign in its name, listed after a password
    file: it is listed as a password file. *)
Lemma generate_file_list_listed_witness :
  map lf_filename hash_files = listed_names hash_namelist
  /\ typed_from None hash_files.
Proof.
  apply (generate_file_list_listed hash_namelist hash_files). reflexivity.
Defined.

(* ===================================================================== *)
(** * The directory walk: proofs *)
(* ===================================================================== *)

Section ProcessingProofs.

Variable b64decode_text : string -> option string.
Variable hostname_of_url : string -> url_result.
Variable search_stealer_name : string -> option string.
Variable archive_filename : string.
Variable read_file : string -> read_result.

Local Abbreviation parse_file := (parse_file b64decode_text hostname_of_url).
Local Abbreviation process_files :=
  (process_files b64decode_text hostname_of_url search_stealer_name
     archive_filename read_file).
Local Abbreviation process_system_dir :=
  (process_system_dir b64decode_text hostname_of_url search_stealer_name
     archive_filename read_file).
Local Abbreviation process_groups :=
  (process_groups b64decode_text hostname_of_url search_stealer_name
     archive_filename read_file).
Local Abbreviation process_archive :=
  (process_archive b64decode_text hostname_of_url search_stealer_name
     archive_filename read_file).

Lemma process_files_count (files : list LogFile) :
  forall dir sn d count d' sn' count',
    process_files files dir sn d count = Some (d', sn', count') ->
    count' = count + Z.of_nat (List.length (same_dir_run dir files)).
Proof.
  induction files as [|f files IH]; intros dir sn d count d' sn' count' H;
    simpl in H.
  - injection H as _ _ <-. simpl. lia.
  - simpl. destruct (String.eqb (lf_system_dir f) dir); simpl in H.
    + destruct (read_file (lf_filename f)) as [text| |]; try discriminate.
      * destruct (parse_file _ d f text) as [d1| |]; try discriminate;
          apply IH in H; simpl List.length; lia.
      * apply IH in H. simpl List.length. lia.
    + injection H as _ _ <-. simpl. lia.
Qed.

Lemma same_dir_run_length (dir : string) (files : list LogFile) :
  (List.length (same_dir_run dir files) <= List.length files)%nat.
Proof.
  induction files as [|f files IH]; simpl; [lia|].
  destruct (String.eqb (lf_system_dir f) dir); simpl; lia.
Qed.

Lemma process_system_dir_count_run (leak leak' : Leak) (files : list LogFile)
    (count : Z) :
  process_system_dir leak files = Some (leak', count) ->
  exists first rest,
    files = first :: rest
    /\ count = Z.of_nat (List.length (same_dir_run (lf_system_dir first) files))
    /\ 1 <= count <= Z.of_nat (List.length files).
Proof.
  unfold process_system_dir. destruct files as [|first rest]; [discriminate|].
  destruct (process_files (first :: rest) (lf_system_dir first) None
              (mkSystemData None []) 0) as [[[d sn] cnt]|] eqn:E;
    [|discriminate].
  intros H. cbv zeta in H. injection H as _ <-.
  apply process_files_count in E.
  exists first, rest. split; [reflexivity|]. split; [lia|].
  pose proof (same_dir_run_length (lf_system_dir first) (first :: rest)) as Hl.
  rewrite E. simpl same_dir_run in *. rewrite String.eqb_refl in *.
  simpl List.length in *. lia.
Qed.


(** The credentials a file adds are those [parse_passwords] returns for
    it. *)
Lemma parse_file_credentials filename d file text d' :
  parse_file filename d file text = FileDone d' ->
  exists l, credentials d' = credentials d ++ l
            /\ Forall (cred_returned filename) l.
Proof.
  unfold parse_file. intros H.
  assert (Hsame : d' = d \/ credentials d' = credentials d ->
                  exists l, credentials d' = credentials d ++ l
                            /\ Forall (cred_returned filename) l).
  { intros [->|E]; exists []; rewrite app_nil_r; auto. }
  destruct (lf_type file).
  - destruct (parse_passwords b64decode_text hostname_of_url filename text)
      as [l|[| |tok pos sz]|n|] eqn:E; try discriminate;
      try (injection H as <-; now auto).
    injection H as <-. exists l. split; [reflexivity|].
    eapply parse_passwords_returned. exact E.
  - destruct (parse_system text) as [[s|]|[| |tok pos sz]|n|];
      try discriminate; injection H as <-; auto.
  - injection H as <-. apply Hsame. right.
    unfold retrieve_ip_only.
    destruct (re_search _ IP_PATTERN text); [|reflexivity].
    now destruct (truthy (group 3 c)).
  - injection H as <-. auto.
Qed.

Lemma process_files_credentials (all : list LogFile) (files : list LogFile) :
  forall dir sn d count d' sn' count',
    incl files all ->
    Forall (cred_of_files archive_filename all) (credentials d) ->
    process_files files dir sn d count = Some (d', sn', count') ->
    Forall (cred_of_files archive_filename all) (credentials d').
Proof.
  induction files as [|f files IH]; intros dir sn d count d' sn' count' Hin Hd H;
    simpl in H.
  - injection H as <- _ _. exact Hd.
  - assert (Hin' : incl files all) by (intros x Hx; apply Hin; now right).
    destruct (negb (String.eqb (lf_system_dir f) dir));
      [injection H as <- _ _; exact Hd|].
    destruct (read_file (lf_filename f)) as [text| |]; try discriminate.
    + destruct (parse_file _ d f text) as [d1| |] eqn:E; try discriminate.
      * apply parse_file_credentials in E. destruct E as (l & Hl & HP).
        eapply IH; [exact Hin'| |exact H].
        rewrite Hl. apply Forall_app. split; [exact Hd|].
        eapply Forall_impl; [|exact HP].
        intros c (Hf & Hs & _). split; [exact Hs|].
        exists f. split; [apply Hin; now left|exact Hf].
      * eapply IH; [exact Hin'|exact Hd|exact H].
    + eapply IH; [exact Hin'|exact Hd|exact H].
Qed.

Lemma stamp_credentials_cases (d : SystemData) (sn : option string) :
  stamp_credentials d sn = d
  \/ exists name, stamp_credentials d sn = add_stealer_name d name.
Proof.
  unfold stamp_credentials. destruct (credentials d); [now left|].
  destruct sn as [name|]; [|now left].
  destruct (truthy (Some name)); [right; now exists name|now left].
Qed.

Lemma stamp_credentials_of (all : list LogFile) (d : SystemData)
    (sn : option string) :
  Forall (cred_of_files archive_filename all) (credentials d) ->
  credentials_of archive_filename all (stamp_credentials d sn).
Proof.
  intros H.
  destruct (stamp_credentials_cases d sn) as [->|[name ->]];
    unfold credentials_of.
  - split.
    + exists None. eapply Forall_impl; [|exact H]. now intros c [Hs _].
    + eapply Forall_impl; [|exact H]. now intros c [_ Hf].
  - unfold add_stealer_name. simpl credentials. split.
    + exists (Some name). apply Forall_forall. intros c Hc.
      apply in_map_iff in Hc. destruct Hc as (c1 & <- & _). reflexivity.
    + apply Forall_forall. intros c Hc.
      apply in_map_iff in Hc. destruct Hc as (c1 & <- & Hc1).
      rewrite Forall_forall in H. destruct (H c1 Hc1) as [_ Hf]. exact Hf.
Qed.

Lemma process_system_dir_grows (all : list LogFile) (leak leak' : Leak)
    (files : list LogFile) (count : Z) :
  incl files all ->
  process_system_dir leak files = Some (leak', count) ->
  leak_filename leak' = leak_filename leak
  /\ (systems_data leak' = systems_data leak
      \/ exists d, systems_data leak' = systems_data leak ++ [d]
                   /\ data_kept d
                   /\ credentials_of archive_filename all d).
Proof.
  intros Hin. unfold process_system_dir.
  destruct files as [|first rest]; [discriminate|].
  destruct (process_files (first :: rest) (lf_system_dir first) None
              (mkSystemData None []) 0) as [[[d sn] cnt]|] eqn:E;
    [|discriminate].
  intros H. cbv zeta in H. injection H as <- _.
  apply (process_files_credentials all) in E; [|exact Hin|constructor].
  pose proof (stamp_credentials_of all d sn E) as Hs.
  destruct (match system (stamp_credentials d sn) with
            | Some s => System_any s
            | None => false
            end
            || negb (Nat.eqb (List.length (credentials (stamp_credentials d sn))) 0))
    eqn:Ek; simpl; [|auto].
  split; [reflexivity|]. right. exists (stamp_credentials d sn).
  split; [reflexivity|]. split; [|exact Hs].
  apply orb_prop in Ek. destruct Ek as [Ek|Ek].
  - left. destruct (system (stamp_credentials d sn)) as [s|]; [|discriminate].
    now exists s.
  - right. intros Hnil. rewrite Hnil in Ek. discriminate.
Qed.

Lemma incl_skipn {A} (n : nat) (l : list A) : incl (skipn n l) l.
Proof.
  revert l. induction n as [|n IH]; intros l; simpl; [apply incl_refl|].
  destruct l as [|x l]; [apply incl_refl|].
  intros y Hy. right. now apply IH.
Qed.

Lemma process_groups_grows (all : list LogFile) (fuel : nat) :
  forall leak files leak',
    incl files all ->
    process_groups fuel leak files = Some leak' ->
    leak_filename leak' = leak_filename leak
    /\ exists new,
         systems_data leak' = systems_data leak ++ new
         /\ Forall (fun d => data_kept d
                             /\ credentials_of archive_filename all d) new
         /\ (List.length new <= List.length files)%nat.
Proof.
  induction fuel as [|fuel IH]; intros leak files leak' Hin H;
    destruct files as [|f files]; cbn [process_groups] in H;
    try discriminate;
    try (injection H as <-; split; [reflexivity|]; exists [];
         rewrite app_nil_r; repeat split; [constructor|simpl; lia]).
  destruct (process_system_dir leak (f :: files)) as [[leak1 count]|] eqn:E.
  - pose proof (process_system_dir_count_run _ _ _ _ E)
      as (first & rest & _ & _ & Hc).
    apply (process_system_dir_grows all) in E; [|exact Hin].
    destruct E as [Hn Hd].
    apply IH in H;
      [|intros x Hx; apply Hin; eapply incl_skipn; exact Hx].
    destruct H as [Hn' (new & Hs & Hall & Hlen)].
    split; [congruence|].
    rewrite length_skipn in Hlen. simpl List.length in *.
    destruct Hd as [Hd|(d & Hd & Hk & Hc')].
    + exists new. rewrite Hs, Hd. repeat split; [exact Hall|lia].
    + exists (d :: new). rewrite Hs, Hd, <- app_assoc.
      repeat split; [constructor; auto|simpl; lia].
  - injection H as <-. split; [reflexivity|]. exists [].
    rewrite app_nil_r. repeat split; [constructor|simpl; lia].
Qed.

(** X17. One pass of [process_system_dir] takes the files at the head of the
    list that are of the directory of the first one, whatever reading and
    parsing them gave: the count it returns is their number, at least one
    and at most the length of the list. *)
Theorem process_system_dir_progress (leak leak' : Leak) (files : list LogFile)
    (count : Z) :
  process_system_dir leak files = Some (leak', count) ->
  exists first rest,
    files = first :: rest
    /\ count = Z.of_nat (List.length (same_dir_run (lf_system_dir first) files))
    /\ 1 <= count <= Z.of_nat (List.length files).
Proof. apply process_system_dir_count_run. Qed.


(** X19. What [process_archive] does to the leak. The file name and the data
    sets already there are kept; at most one data set is added per file of
    the list; every data set added has a credential or a system with a
    populated field; and its credentials carry one stealer name (or none
    carries a name) and the path, inside the archive, of a listed file. *)
Theorem process_archive_grows (leak leak' : Leak) (namelist : list string) :
  process_archive leak namelist = Some leak' ->
  exists files new,
    generate_file_list namelist = Some files
    /\ leak_filename leak' = leak_filename leak
    /\ systems_data leak' = systems_data leak ++ new
    /\ Forall (fun d => data_kept d
                        /\ credentials_of archive_filename files d) new
    /\ (List.length new <= List.length files)%nat.
Proof.
  unfold process_archive.
  destruct (generate_file_list namelist) as [files|]; [|discriminate].
  intros H. apply (process_groups_grows files) in H; [|apply incl_refl].
  destruct H as [Hn (new & Hs & Hall & Hlen)].
  exists files, new. auto.
Qed.

Lemma parse_file_system_done filename d file text :
  lf_type file = SYSTEM ->
  exists d', parse_file filename d file text = FileDone d'
             /\ (d' = d
                 \/ exists s, parse_system text = Returned (Some s)
                              /\ d' = mkSystemData
                                        (Some match system d with
                                              | Some old =>
                                                  if truthy (ip_address old)
                                                  then set_ip_address s (ip_address old)
                                                  else s
                                              | None => s
                                              end)
                                        (credentials d)).
Proof.
  intros Ht. unfold parse_file. rewrite Ht.
  destruct (parse_system_total text) as [[r E]|[n E]]; rewrite E.
  - destruct r as [s|]; eexists; split; try reflexivity; [|now left].
    right. exists s. auto.
  - eexists. split; [reflexivity|now left].
Qed.

(** X20. The address of an IP file has precedence over the address of a
    system file of the same directory, in whichever order the two files
    are parsed: when the text of the IP file has an address, the system
    of the data set has that address after both files. *)
Theorem ip_file_precedence (d : SystemData) (ipfile sysfile : LogFile)
    (name_ip name_sys text_ip text_sys ip : string) (g : captures) :
  lf_type ipfile = IP -> lf_type sysfile = SYSTEM ->
  re_search (mkFlags true false) IP_PATTERN text_ip = Some g ->
  group 3 g = Some ip ->
  (exists d1 d2 s,
     parse_file name_ip d ipfile text_ip = FileDone d1
     /\ parse_file name_sys d1 sysfile text_sys = FileDone d2
     /\ system d2 = Some s /\ ip_address s = Some ip)
  /\ (exists d1 d2 s,
        parse_file name_sys d sysfile text_sys = FileDone d1
        /\ parse_file name_ip d1 ipfile text_ip = FileDone d2
        /\ system d2 = Some s /\ ip_address s = Some ip).
Proof.
  intros Hip Hsys Hs Hg.
  assert (Hne : truthy (Some ip) = true).
  { unfold re_search in Hs. apply re_search_from_match in Hs.
    destruct Hs as (before & c & cend & _ & Hm).
    apply IP_PATTERN_match in Hm. destruct Hm as (ip' & Hg' & Hne & _).
    rewrite Hg in Hg'. injection Hg' as <-.
    destruct ip; [contradiction|reflexivity]. }
  assert (Hret : forall d0,
            parse_file name_ip d0 ipfile text_ip
            = FileDone (retrieve_ip_only text_ip d0)
            /\ exists s, system (retrieve_ip_only text_ip d0) = Some s
                         /\ ip_address s = Some ip).
  { intros d0. unfold parse_file. rewrite Hip.
    split; [reflexivity|]. unfold retrieve_ip_only. rewrite Hs, Hg, Hne.
    simpl. eexists. split; reflexivity. }
  split.
  - destruct (Hret d) as [E1 (s1 & Hs1 & Hi1)].
    destruct (parse_file_system_done name_sys (retrieve_ip_only text_ip d)
                sysfile text_sys Hsys) as (d2 & E2 & [->|(s & _ & ->)]).
    + exists (retrieve_ip_only text_ip d), (retrieve_ip_only text_ip d), s1. auto.
    + eexists _, _, _. split; [exact E1|]. split; [exact E2|].
      rewrite Hs1, Hi1, Hne. simpl. split; reflexivity.
  - destruct (parse_file_system_done name_sys d sysfile text_sys Hsys)
      as (d1 & E1 & _).
    destruct (Hret d1) as [E2 (s2 & Hs2 & Hi2)].
    exists d1, (retrieve_ip_only text_ip d1), s2. auto.
Qed.

End ProcessingProofs.

(** The first pass over the example archive takes the one file of the
    first directory. *)
Lemma process_system_dir_progress_witness :
  exists first rest,
    example_files = first :: rest
    /\ 1 = Z.of_nat (List.length
                       (same_dir_run (lf_system_dir first) example_files))
    /\ 1 <= 1 <= Z.of_nat (List.length example_files).
Proof.
  apply (process_system_dir_progress no_b64decode
           (urlparse_hostname any_bracketed_host) no_stealer_name "logs.zip"
           example_read_file (mkLeak (Some "logs.zip") [])
           (mkLeak (Some "logs.zip")
              [example_data "logs.zip/user1/Passwords.txt"])).
  reflexivity.
Defined.

(** The example archive adds two data sets to an empty leak. *)
Lemma process_archive_grows_witness :
  exists files new,
    generate_file_list example_namelist = Some files
    /\ Some "logs.zip" = Some "logs.zip"
    /\ [example_data "logs.zip/user1/Passwords.txt";
        example_data "logs.zip/user2/Passwords.txt"] = [] ++ new
    /\ Forall (fun d => data_kept d /\ credentials_of "logs.zip" files d) new
    /\ (List.length new <= List.length files)%nat.
Proof.
  apply (process_archive_grows no_b64decode
           (urlparse_hostname any_bracketed_host) no_stealer_name "logs.zip"
           example_read_file (mkLeak (Some "logs.zip") [])
           (mkLeak (Some "logs.zip")
              [example_data "logs.zip/user1/Passwords.txt";
               example_data "logs.zip/user2/Passwords.txt"])
           example_namelist).
  reflexivity.
Defined.

(** An IP file with the address 1.2.3.4 and a system file with the address
    9.9.9.9: the data set has 1.2.3.4 in both orders. *)
Lemma ip_file_precedence_witness :
  (exists d1 d2 s,
     parse_file no_b64decode (urlparse_hostname any_bracketed_host)
       "logs.zip/dir/ip.txt" (mkSystemData None []) example_ip_file
       example_ip_text = FileDone d1
     /\ parse_file no_b64decode (urlparse_hostname any_bracketed_host)
          "logs.zip/dir/system.txt" d1 example_system_file
          example_other_ip_text = FileDone d2
     /\ system d2 = Some s /\ ip_address s = Some "1.2.3.4")
  /\ (exists d1 d2 s,
        parse_file no_b64decode (urlparse_hostname any_bracketed_host)
          "logs.zip/dir/system.txt" (mkSystemData None []) example_system_file
          example_other_ip_text = FileDone d1
        /\ parse_file no_b64decode (urlparse_hostname any_bracketed_host)
             "logs.zip/dir/ip.txt" d1 example_ip_file example_ip_text
           = FileDone d2
        /\ system d2 = Some s /\ ip_address s = Some "1.2.3.4").
Proof.
  apply (ip_file_precedence no_b64decode (urlparse_hostname any_bracketed_host)
           (mkSystemData None []) example_ip_file example_system_file
           "logs.zip/dir/ip.txt" "logs.zip/dir/system.txt"
           example_ip_text example_other_ip_text "1.2.3.4"
           [(3%nat, "1.2.3.4"); (1%nat, "IP")]);
    reflexivity.
Defined.

(* ===================================================================== *)
(** * The logger level and the archive reader on ASCII *)
(* ===================================================================== *)

(** X21. The level of [init_logger]. Every verbosity count selects a level,
    the subscript never raises: a count of zero or less gives INFO, one
    gives VERBOSE, two gives DEBUG, and three or more gives SPAM. *)
Theorem init_logger_level_clamped (verbosity_level : Z) :
  init_logger_level verbosity_level
  = Some (if verbosity_level <=? 0 then "INFO"
          else if verbosity_level =? 1 then "VERBOSE"
          else if verbosity_level =? 2 then "DEBUG"
          else "SPAM").
Proof.
  unfold init_logger_level. simpl List.length.
  destruct (verbosity_level <=? 0) eqn:E0.
  - apply Z.leb_le in E0. rewrite Z.max_r by lia. reflexivity.
  - apply Z.leb_gt in E0.
    destruct (verbosity_level =? 1) eqn:E1.
    + apply Z.eqb_eq in E1. subst. reflexivity.
    + apply Z.eqb_neq in E1.
      destruct (verbosity_level =? 2) eqn:E2.
      * apply Z.eqb_eq in E2. subst. reflexivity.
      * apply Z.eqb_neq in E2.
        replace (Z.max (Z.min verbosity_level (Z.of_nat 4 - 1)) 0) with 3 by lia.
        reflexivity.
Qed.

Section ArchiveAscii.

Import ArchiveWrapper.

Lemma decode_loop_ascii (fuel : nat) : forall (e : errors) (bs : list Z),
  (List.length bs <= fuel)%nat ->
  Forall (fun b => 0 <= b < 128) bs ->
  decode_loop fuel e bs = Decoded bs.
Proof.
  induction fuel as [|fuel IH]; intros e [|b0 rest] Hlen Hall;
    simpl in Hlen; try reflexivity; try lia.
  inversion Hall as [|? ? Hb Hrest]; subst.
  cbn [decode_loop]. unfold decode_step.
  replace (b0 <? 128) with true by (symmetry; apply Z.ltb_lt; lia).
  cbn [skipn]. rewrite IH; [reflexivity|lia|exact Hrest].
Qed.

(** X22. [read_file] on ASCII. Bytes below 128 are read as the characters of
    the same codes: nothing is dropped, and the only change to the text is
    the rewriting of NULs. *)
Theorem read_file_ascii (file_bytes : list Z) :
  Forall (fun b => 0 <= b < 128) file_bytes ->
  read_file file_bytes = Decoded (replace_nul file_bytes)
  /\ (~ In 0 file_bytes -> read_file file_bytes = Decoded file_bytes).
Proof.
  intros H. unfold read_file, decode.
  rewrite (decode_loop_ascii _ strict file_bytes (le_n _) H).
  split; [reflexivity|]. intros Hz. f_equal.
  clear H. induction file_bytes as [|b bs IH]; [reflexivity|].
  simpl. destruct (b =? 0) eqn:E.
  - apply Z.eqb_eq in E. subst. exfalso. apply Hz. now left.
  - simpl. rewrite IH; [reflexivity|]. intros Hin. apply Hz. now right.
Qed.

End ArchiveAscii.

(** [read_file] on the three bytes H, NUL, i. *)
Lemma read_file_ascii_witness :
  ArchiveWrapper.read_file [72; 0; 105]
  = ArchiveWrapper.Decoded [72; 92; 48; 48; 105].
Proof.
  apply (proj1 (read_file_ascii [72; 0; 105]
                  ltac:(repeat (constructor; [lia|]); constructor))).
Defined.

(* ===================================================================== *)
(** * The search of the stealer name: proofs *)
(* ===================================================================== *)

Lemma Lit_ignorecase_sound (s : string) :
  forall c g k x,
    re_run (mkFlags true false) (Lit s) c g k = Some x ->
    exists w b,
      cur_rest c = (w ++ b)%string /\ py_lower w = py_lower s
      /\ k (cursor_after (cur_prev c) (cur_idx c) w b) g = Some x.
Proof.
  induction s as [|a s IH]; intros c g k x H.
  - exists "", (cur_rest c). simpl. rewrite cursor_eta. auto.
  - destruct s as [|a' s].
    + change (Lit (String a "")) with (Chr a) in H.
      apply chr_step in H. destruct H as (b0 & s0 & E & Hc & H).
      exists (String b0 ""), s0. split; [exact E|]. split; [|exact H].
      unfold char_ok in Hc. cbn [IGNORECASE ASCII] in Hc.
      apply Ascii.eqb_eq in Hc. simpl. now rewrite Hc.
    + change (Lit (String a (String a' s)))
        with (Seq (Chr a) (Lit (String a' s))) in H.
      rewrite re_run_seq in H. apply chr_step in H.
      destruct H as (b0 & s0 & E & Hc & H).
      apply IH in H. destruct H as (w & b & E' & Hl & H).
      cbn [cur_rest cur_prev cur_idx] in E', H.
      exists (String b0 w), b. split; [now rewrite E, E'|]. split; [|exact H].
      unfold char_ok in Hc. cbn [IGNORECASE ASCII] in Hc.
      apply Ascii.eqb_eq in Hc.
      change (py_lower (String b0 w)) with (String (lower_char b0) (py_lower w)).
      now rewrite Hl, <- Hc.
Qed.

Lemma cursor_after_rest (w b : string) :
  forall p i, cur_rest (cursor_after p i w b) = b.
Proof. induction w as [|x w IH]; intros p i; simpl; [reflexivity|apply IH]. Qed.

Lemma cursor_after_prev (w b : string) :
  forall p i, cur_prev (cursor_after p i w b) = last_char_from p w.
Proof. induction w as [|x w IH]; intros p i; simpl; [reflexivity|apply IH]. Qed.

Lemma cursor_after_idx (w b : string) :
  forall p i, cur_idx (cursor_after p i w b) = (i + String.length w)%nat.
Proof.
  induction w as [|x w IH]; intros p i; simpl; [lia|]. rewrite IH. lia.
Qed.

Lemma consumed_cursor_after (c : cursor) (w b : string) :
  cur_rest c = (w ++ b)%string ->
  consumed c (cursor_after (cur_prev c) (cur_idx c) w b) = w.
Proof.
  intros E. unfold consumed. rewrite cursor_after_idx, E.
  replace (cur_idx c + String.length w - cur_idx c)%nat
    with (String.length w) by lia.
  apply substring_prefix.
Qed.

(** A match of [stealer_regex] has a group 1, a keyword in some case. *)
Lemma STEALER_PATTERN_match (c cend : cursor) (g : captures) :
  re_match_at (mkFlags true false) STEALER_PATTERN c = Some (cend, g) ->
  exists w, group 1 g = Some w /\ In (py_lower w) stealer_keywords.
Proof.
  unfold re_match_at, STEALER_PATTERN. cbn [seq]. intros H.
  rewrite re_run_seq, re_run_boundary in H.
  destruct (at_boundary _ c); [|discriminate].
  rewrite re_run_seq, re_run_group in H. cbn [alts] in H.
  match type of H with
  | re_run _ _ _ _ ?k = _ => set (K := k) in *
  end.
  assert (Hk : forall kw,
             re_run (mkFlags true false) (Lit kw) c [] K = Some (cend, g) ->
             exists w, group 1 g = Some w /\ py_lower w = py_lower kw).
  { intros kw Hl. apply Lit_ignorecase_sound in Hl.
    destruct Hl as (w & b & E & Hlow & Hl). unfold K in Hl.
    rewrite re_run_group in Hl.
    apply re_run_no_group in Hl; [|reflexivity].
    destruct Hl as (c2 & _ & Hl). injection Hl as _ <-.
    exists w. split; [|exact Hlow]. simpl.
    now rewrite (consumed_cursor_after c w b E). }
  apply re_run_alt in H.
  destruct H as [H|H];
    [|apply re_run_alt in H; destruct H as [H|H];
      [|apply re_run_alt in H; destruct H as [H|H]]];
    apply Hk in H; destruct H as (w & Hg & Hl); exists w;
    (split; [exact Hg|]); rewrite Hl; simpl; auto.
Qed.

(** X23. [search_stealer_name] gives a name of [StealerNameType] or none, on
    every text of code points below 256: the name of a keyword match is one
    of the four keywords in lower case, in whatever case the text has it,
    and group 1 takes part in every match, so that its [lower()] never
    fails. *)
Theorem search_stealer_name_typed (text : string) :
  match search_stealer_name text with
  | NameFound name => In name StealerNameType
  | NoName => True
  | NoneHasNoLower => False
  end.
Proof.
  unfold search_stealer_name.
  destruct (re_search _ STEALER_PATTERN text) as [g|] eqn:E.
  - apply re_search_from_match in E.
    destruct E as (before & c & cend & _ & Hm).
    apply STEALER_PATTERN_match in Hm. destruct Hm as (w & -> & Hin).
    unfold stealer_keywords in Hin. unfold StealerNameType.
    destruct Hin as [<- | [<- | [<- | [<- | []]]]]; simpl; auto 10.
  - cbv zeta. unfold StealerNameType.
    repeat match goal with
           | |- context [if ?b then _ else _] => destruct b
           end; simpl; auto 10.
Qed.

Lemma Lit_ignorecase_complete (w : string) :
  forall s c b g k,
    py_lower w = py_lower s -> cur_rest c = (w ++ b)%string ->
    re_run (mkFlags true false) (Lit s) c g k
    = k (cursor_after (cur_prev c) (cur_idx c) w b) g.
Proof.
  induction w as [|x w IH]; intros s c b g k Hl E.
  - destruct s; [|discriminate]. simpl in *. now rewrite <- E, cursor_eta.
  - destruct s as [|a s]; [discriminate|]. simpl in Hl.
    injection Hl as Hx Hl.
    assert (Hc : char_ok (mkFlags true false) a x = true).
    { unfold char_ok. cbn [IGNORECASE ASCII]. rewrite Hx. apply Ascii.eqb_refl. }
    destruct s as [|a' s].
    + destruct w; [|discriminate].
      change (Lit (String a "")) with (Chr a). cbn [re_run].
      rewrite E. simpl. now rewrite Hc.
    + change (Lit (String a (String a' s)))
        with (Seq (Chr a) (Lit (String a' s))).
      rewrite re_run_seq. cbn [re_run]. rewrite E.
      change ((String x w ++ b)%string) with (String x (w ++ b)%string).
      cbv iota beta. rewrite Hc.
      rewrite (IH (String a' s) (mkCursor (Some x) (S (cur_idx c)) (w ++ b))
                 b g k Hl eq_refl).
      reflexivity.
Qed.

(** A match at some place of a text is found by a search, there or
    before. *)
Lemma re_search_from_complete fl (r : regex) (rest : string) :
  forall a prev idx,
    is_some (re_match_at fl r (cursor_after prev idx a rest)) = true ->
    is_some (re_search_from fl r prev idx (a ++ rest)) = true.
Proof.
  induction a as [|x a IH]; intros prev idx H; simpl in H.
  - change (("" ++ rest)%string) with rest.
    destruct rest; simpl;
      destruct (re_match_at fl r (mkCursor prev idx _)) as [[? ?]|];
      try reflexivity; discriminate.
  - change ((String x a ++ rest)%string) with (String x (a ++ rest)%string).
    simpl.
    destruct (re_match_at fl r (mkCursor prev idx _)) as [[? ?]|];
      [reflexivity|].
    apply IH. exact H.
Qed.

Lemma word_of_lower (x : ascii) :
  is_word_ascii (lower_char x) = true -> is_word_unicode x = true.
Proof.
  assert (H : forall_ascii
                (fun x => implb (is_word_ascii (lower_char x))
                                (is_word_unicode x)) = true)
    by (vm_compute; reflexivity).
  pose proof (forall_ascii_spec _ H x) as Hx. cbv beta in Hx.
  intros E. rewrite E in Hx. exact Hx.
Qed.

Lemma lowered_word_last (w : string) :
  forall prev,
    w <> "" -> string_forall is_word_ascii (py_lower w) = true ->
    exists x, last_char_from prev w = Some x /\ is_word_unicode x = true.
Proof.
  induction w as [|x w IH]; intros prev Hn Hf; [contradiction|].
  simpl in Hf. apply andb_prop in Hf. destruct Hf as [Hx Hf].
  destruct w as [|y w].
  - exists x. split; [reflexivity|now apply word_of_lower].
  - change (last_char_from prev (String x (String y w)))
      with (last_char_from (Some x) (String y w)).
    apply IH; [discriminate|exact Hf].
Qed.

Lemma Alt_some_l fl (r1 r2 : regex) c g k :
  is_some (re_run fl r1 c g k) = true ->
  is_some (re_run fl (Alt r1 r2) c g k) = true.
Proof. cbn [re_run]. destruct (re_run fl r1 c g k); [auto|discriminate]. Qed.

Lemma Alt_some_r fl (r1 r2 : regex) c g k :
  is_some (re_run fl r2 c g k) = true ->
  is_some (re_run fl (Alt r1 r2) c g k) = true.
Proof. cbn [re_run]. destruct (re_run fl r1 c g k); [reflexivity|auto]. Qed.

(** Group 2 of [stealer_regex] after a word character. *)
Lemma follower_some (c : cursor) (g : captures) (x : ascii) :
  cur_prev c = Some x -> is_word_unicode x = true ->
  match cur_rest c with
  | String y _ => not_ascii_letter y = true
  | EmptyString => True
  end ->
  is_some (re_run (mkFlags true false)
             (Group 2 (Alt (Cls (InSet not_ascii_letter)) WordBoundary))
             c g (fun c' g' => Some (c', g'))) = true.
Proof.
  intros Hp Hx Hr. cbn [re_run]. unfold at_boundary. rewrite Hp.
  destruct (cur_rest c) as [|y s].
  - cbn [is_word ASCII]. rewrite Hx. reflexivity.
  - cbn [class_ok]. rewrite Hr. reflexivity.
Qed.

(** A keyword in any case, at a word start and not before a letter, is
    matched there. *)
Lemma keyword_matched (prev : option ascii) (idx : nat) (w b : string) :
  In (py_lower w) stealer_keywords ->
  match prev with Some x => is_word_unicode x = false | None => True end ->
  match b with
  | String y _ => not_ascii_letter y = true
  | EmptyString => True
  end ->
  is_some (re_match_at (mkFlags true false) STEALER_PATTERN
             (mkCursor prev idx (w ++ b))) = true.
Proof.
  intros Hin Hp Hb.
  assert (Hw : w <> ""
               /\ string_forall is_word_ascii (py_lower w) = true).
  { unfold stealer_keywords in Hin.
    destruct Hin as [E | [E | [E | [E | []]]]];
      (split; [intros ->; discriminate E|rewrite <- E; reflexivity]). }
  destruct Hw as [Hn Hf].
  destruct (lowered_word_last w (cur_prev (mkCursor prev idx (w ++ b))) Hn Hf)
    as (z & Hz & Hzw).
  unfold re_match_at, STEALER_PATTERN. cbn [seq].
  rewrite re_run_seq, re_run_boundary.
  assert (Hb0 : at_boundary (mkFlags true false) (mkCursor prev idx (w ++ b))
                = true).
  { unfold at_boundary. cbn [cur_prev cur_rest is_word ASCII].
    destruct w as [|x w]; [contradiction|].
    simpl in Hf. apply andb_prop in Hf. destruct Hf as [Hx _].
    apply word_of_lower in Hx.
    change ((String x w ++ b)%string) with (String x (w ++ b)%string).
    cbv iota. rewrite Hx.
    destruct prev as [y|]; [rewrite Hp|]; reflexivity. }
  rewrite Hb0. rewrite re_run_seq, re_run_group. cbn [alts].
  assert (Hk : forall kw,
             py_lower w = py_lower kw ->
             is_some
               (re_run (mkFlags true false) (Lit kw)
                  (mkCursor prev idx (w ++ b)) []
                  (fun c' g' =>
                     re_run (mkFlags true false)
                       (Group 2 (Alt (Cls (InSet not_ascii_letter)) WordBoundary))
                       c' ((1%nat, consumed (mkCursor prev idx (w ++ b)) c') :: g')
                       (fun c'0 g'0 => Some (c'0, g'0)))) = true).
  { intros kw Hl.
    rewrite (Lit_ignorecase_complete w kw (mkCursor prev idx (w ++ b)) b
               _ _ Hl eq_refl).
    apply (follower_some _ _ z).
    - rewrite cursor_after_prev. exact Hz.
    - exact Hzw.
    - rewrite cursor_after_rest. exact Hb. }
  unfold stealer_keywords in Hin.
  destruct Hin as [E | [E | [E | [E | []]]]].
  - apply Alt_some_l. apply Hk. now rewrite <- E.
  - apply Alt_some_r, Alt_some_l. apply Hk. now rewrite <- E.
  - apply Alt_some_r, Alt_some_r, Alt_some_l. apply Hk. now rewrite <- E.
  - apply Alt_some_r, Alt_some_r, Alt_some_r. apply Hk. now rewrite <- E.
Qed.

(** X24. A keyword is always found, and goes before every banner. When a text
    of code points below 256 has, in any case, one of the words redline,
    stealc, raccoon and lummac2 at the start of a word and not followed by
    an ASCII letter, [search_stealer_name] gives one of these four names,
    whatever banner the text has. *)
Theorem search_stealer_name_keyword (text a w b : string) :
  text = (a ++ w ++ b)%string -> keyword_at a w b ->
  exists name,
    search_stealer_name text = NameFound name /\ In name stealer_keywords.
Proof.
  intros -> (Hin & Ha & Hb).
  assert (Hm : is_some (re_match_at (mkFlags true false) STEALER_PATTERN
                          (cursor_after None 0 a (w ++ b))) = true).
  { rewrite <- (cursor_eta (cursor_after None 0 a (w ++ b))).
    rewrite cursor_after_rest, cursor_after_prev.
    apply keyword_matched; assumption. }
  apply re_search_from_complete in Hm.
  unfold search_stealer_name, re_search.
  destruct (re_search_from _ STEALER_PATTERN None 0 (a ++ w ++ b))
    as [g|] eqn:E; [|discriminate].
  apply re_search_from_match in E.
  destruct E as (before & c & cend & _ & Hmm).
  apply STEALER_PATTERN_match in Hmm. destruct Hmm as (w' & -> & Hin').
  eauto.
Qed.

Lemma search_stealer_name_keyword_witness :
  exists name,
    search_stealer_name "Build: RedLine v2" = NameFound name
    /\ In name stealer_keywords.
Proof.
  apply (search_stealer_name_keyword "Build: RedLine v2" "Build: " "RedLine" " v2").
  - reflexivity.
  - unfold keyword_at. simpl. split; [left; reflexivity|].
    split; reflexivity.
Defined.
